(** * Universal assembler front end: parser and type checker

    A shallow embedding of [parser.cpp] (token-stream parser, register-offset
    sub-parser, instruction-signature matcher, symbol tables) together with
    the instruction definition table of [asm/encoding.hpp], and the
    properties the specification states about them.

    Conventions of the embedding:
    - fixed-width integers are [Z] with the wrap-around written out;
    - a C++ function returning [bool] that can also hit undefined behaviour
      (null dereference, index out of range) or an uncaught exception is a
      function into [option]: [None] is the abort, [Some] carries the
      returned value and the mutated objects;
    - everything printed through [printError], [printTokenError] or
      [std::cout] is appended to an explicit diagnostics log. *)

From Stdlib Require Import ZArith List String Ascii Bool Lia SpecFloat.
From Stdlib Require Import DecimalString DecimalN.
Import ListNotations.

Local Open Scope string_scope.
Local Open Scope list_scope.
Local Open Scope Z_scope.

Set Warnings "-register-all".


(** ** Machine integers *)

Definition to_uint64 (z : Z) : Z := z mod 2 ^ 64.

Definition to_int64 (z : Z) : Z :=
  let m := z mod 2 ^ 64 in
  if m <? 2 ^ 63 then m else m - 2 ^ 64.

Definition to_uint32 (z : Z) : Z := z mod 2 ^ 32.
Definition to_uint16 (z : Z) : Z := z mod 2 ^ 16.
Definition to_uint8 (z : Z) : Z := z mod 2 ^ 8.

(** [std::abs] on [int64_t]; on [INT64_MIN] the two's complement result
    wraps back to [INT64_MIN]. *)
Definition abs_int64 (v : Z) : Z := to_int64 (Z.abs v).

(** ** Constants and types of [asm/asm.hpp] *)

(** Modelled from the spec: the UVM type codes of [asm/asm.hpp], which is
    not among the sources.  The codes are distinct small integers that the
    parser only ever compares, so they are an enumeration here. *)
Inductive UVMType : Set :=
| UVM_TYPE_I8
| UVM_TYPE_I16
| UVM_TYPE_I32
| UVM_TYPE_I64
| UVM_TYPE_F32
| UVM_TYPE_F64.

Definition UVMType_eqb (a b : UVMType) : bool :=
  match a, b with
  | UVM_TYPE_I8, UVM_TYPE_I8
  | UVM_TYPE_I16, UVM_TYPE_I16
  | UVM_TYPE_I32, UVM_TYPE_I32
  | UVM_TYPE_I64, UVM_TYPE_I64
  | UVM_TYPE_F32, UVM_TYPE_F32
  | UVM_TYPE_F64, UVM_TYPE_F64 => true
  | _, _ => false
  end.

(** Modelled from the spec: the signature flags of [asm/asm.hpp]
    ([ENCODE_TYPE = 1], [TYPE_VARIANTS = 2]). *)
Definition INSTR_FLAG_ENCODE_TYPE : Z := 1.
Definition INSTR_FLAG_TYPE_VARIANTS : Z := 2.

(** The parameter categories.  [FUNC_ID] is emitted by the table generator
    but no case of the matcher handles it. *)
Inductive InstrParamType : Set :=
| INT_TYPE
| FLOAT_TYPE
| FUNC_ID
| LABEL_ID
| INT_REG
| FLOAT_REG
| REG_OFFSET
| INT_NUM
| FLOAT_NUM
| SYS_INT.

Definition InstrParamType_eqb (a b : InstrParamType) : bool :=
  match a, b with
  | INT_TYPE, INT_TYPE | FLOAT_TYPE, FLOAT_TYPE | FUNC_ID, FUNC_ID
  | LABEL_ID, LABEL_ID | INT_REG, INT_REG | FLOAT_REG, FLOAT_REG
  | REG_OFFSET, REG_OFFSET | INT_NUM, INT_NUM | FLOAT_NUM, FLOAT_NUM
  | SYS_INT, SYS_INT => true
  | _, _ => false
  end.

Record TypeVariant : Set := mkTypeVariant {
  tv_Type : UVMType;
  tv_Opcode : Z
}.

Record InstrParamList : Set := mkInstrParamList {
  pl_Opcode : Z;
  pl_Flags : Z;
  pl_Params : list InstrParamType;
  pl_OpcodeVariants : list TypeVariant
}.

(** A node of the signature tree the matcher walks: the category of the
    edge leading to it, the signature that ends here (a nullable pointer in
    the source) and the nodes below. *)
Inductive InstrDefNode : Set :=
| mkInstrDefNode (Type_ : InstrParamType)
                 (ParamList : option InstrParamList)
                 (Children : list InstrDefNode).

Definition dn_Type (n : InstrDefNode) : InstrParamType :=
  match n with mkInstrDefNode t _ _ => t end.
Definition dn_ParamList (n : InstrDefNode) : option InstrParamList :=
  match n with mkInstrDefNode _ p _ => p end.
Definition dn_Children (n : InstrDefNode) : list InstrDefNode :=
  match n with mkInstrDefNode _ _ c => c end.

Inductive RegisterType : Set := INTEGER | FLOAT.

(** The section permission constants of [asm/asm.hpp] are not among the
    sources and the spec gives no values for them: they are parameters. *)
Class SecPermConsts : Set := {
  SEC_PERM_READ : Z;
  SEC_PERM_WRITE : Z;
  SEC_PERM_EXECUTE : Z
}.

(** ** Doubles

    A [double] is an IEEE 754 binary64 value in the canonical form of
    [SpecFloat] (precision 53, [emax] 1024). *)
Definition double : Set := spec_float.

(** [FLT_MAX] = (2^24 - 1) * 2^104, written with a 53 bit mantissa. *)
Definition FLT_MAX : double :=
  S754_finite false ((2 ^ 24 - 1) * 2 ^ 29) 75.

(** [DBL_MAX] = (2^53 - 1) * 2^971. *)
Definition DBL_MAX : double :=
  S754_finite false (2 ^ 53 - 1) 971.

(** ** Numeric helpers of [parser.cpp] *)

Definition getRegisterType (regId : Z) : RegisterType :=
  if (0 <=? regId) && (regId <=? 0x14) && negb (regId =? 0x4)
  then INTEGER else FLOAT.

Definition RegisterType_eqb (a b : RegisterType) : bool :=
  match a, b with
  | INTEGER, INTEGER | FLOAT, FLOAT => true
  | _, _ => false
  end.

Definition checkIntWidth (num : Z) (type : UVMType) (isSigned : bool) : bool :=
  let num := if isSigned then to_uint64 (abs_int64 (to_int64 num)) else num in
  match type with
  | UVM_TYPE_I8 => num <=? 0xFF
  | UVM_TYPE_I16 => num <=? 0xFFFF
  | UVM_TYPE_I32 => num <=? 0xFFFFFFFF
  | UVM_TYPE_I64 => true
  | _ => false
  end.

Definition checkFloatWidth (num : double) (type : UVMType) : bool :=
  match type with
  | UVM_TYPE_F32 => SFleb num FLT_MAX
  | UVM_TYPE_F64 => SFleb num DBL_MAX
  | _ => false
  end.

(** ** Abstract syntax tree ([ast.hpp]) *)

Inductive ASTType : Set :=
| AT_GLOBAL
| AT_LABEL_DEFINITION
| AT_IDENTIFIER
| AT_INSTRUCTION
| AT_FLOAT_NUMBER
| AT_INTEGER_NUMBER
| AT_REGISTER_ID
| AT_REGISTER_OFFSET
| AT_TYPE_INFO
| AT_SECTION
| AT_VARIABLE
| AT_STRING.

Inductive ASTSectionType : Set := STATIC | GLOBAL | CODE.

(** The header every [ASTNode] carries. *)
Record SrcPos : Set := mkSrcPos {
  Index : Z;
  Size : Z;
  LineRow : Z;
  LineCol : Z
}.

Definition RO_LAYOUT_NEGATIVE : Z := 0x80.
Definition RO_LAYOUT_IR : Z := 0x4F.
Definition RO_LAYOUT_IR_INT : Z := 0x2F.
Definition RO_LAYOUT_IR_IR_INT : Z := 0x1F.

Record LabelDef : Set := mkLabelDef {
  ld_pos : SrcPos;
  ld_Name : string
}.

Record Identifier : Set := mkIdentifier {
  id_pos : SrcPos;
  id_Name : string
}.

(** [DataType] of a literal is written by the type checker only; [None] is
    the state the parser leaves it in. *)
Record ASTFloat : Set := mkASTFloat {
  fl_pos : SrcPos;
  fl_Num : double;
  fl_DataType : option UVMType
}.

Record ASTInt : Set := mkASTInt {
  int_pos : SrcPos;
  int_Num : Z;
  int_DataType : option UVMType;
  int_IsSigned : bool
}.

Record RegisterId : Set := mkRegisterId {
  reg_pos : SrcPos;
  reg_Id : Z
}.

(** [Immediate] is the storage of the union [ROInt]: its 32 bits, of which
    [U16] is the low half. *)
Record RegisterOffset : Set := mkRegisterOffset {
  ro_pos : SrcPos;
  ro_Layout : Z;
  ro_Base : option RegisterId;
  ro_Offset : option RegisterId;
  ro_Immediate : Z;
  ro_Var : option Identifier
}.

Definition ro_Immediate_U32 (ro : RegisterOffset) : Z := ro_Immediate ro.
Definition ro_Immediate_U16 (ro : RegisterOffset) : Z :=
  to_uint16 (ro_Immediate ro).

Record TypeInfo : Set := mkTypeInfo {
  ti_pos : SrcPos;
  ti_DataType : UVMType
}.

Record ASTString : Set := mkASTString {
  str_pos : SrcPos;
  str_Val : string
}.

Record Instruction_ (N : Set) : Set := mkInstruction {
  ins_pos : SrcPos;
  ins_Name : string;
  ins_Params : list N;
  ins_ASMDefIndex : nat;
  ins_Opcode : Z;
  ins_EncodingFlags : Z
}.
Arguments mkInstruction {N}.
Arguments ins_pos {N}.
Arguments ins_Name {N}.
Arguments ins_Params {N}.
Arguments ins_ASMDefIndex {N}.
Arguments ins_Opcode {N}.
Arguments ins_EncodingFlags {N}.

Record ASTVariable_ (N : Set) : Set := mkASTVariable {
  var_pos : SrcPos;
  var_Id : Identifier;
  var_DataType : TypeInfo;
  var_Val : N;
  var_VarDeclIndex : nat
}.
Arguments mkASTVariable {N}.
Arguments var_pos {N}.
Arguments var_Id {N}.
Arguments var_DataType {N}.
Arguments var_Val {N}.
Arguments var_VarDeclIndex {N}.

(** The class hierarchy below [ASTNode], one constructor per subclass that
    can sit in a section body or in a parameter list. *)
Inductive ASTNode : Set :=
| Node_LabelDef (l : LabelDef)
| Node_Identifier (i : Identifier)
| Node_Instruction (i : Instruction_ ASTNode)
| Node_ASTFloat (f : ASTFloat)
| Node_ASTInt (n : ASTInt)
| Node_RegisterId (r : RegisterId)
| Node_RegisterOffset (r : RegisterOffset)
| Node_TypeInfo (t : TypeInfo)
| Node_ASTVariable (v : ASTVariable_ ASTNode)
| Node_ASTString (s : ASTString).

Definition Instruction : Set := Instruction_ ASTNode.
Definition ASTVariable : Set := ASTVariable_ ASTNode.

Definition node_Type (n : ASTNode) : ASTType :=
  match n with
  | Node_LabelDef _ => AT_LABEL_DEFINITION
  | Node_Identifier _ => AT_IDENTIFIER
  | Node_Instruction _ => AT_INSTRUCTION
  | Node_ASTFloat _ => AT_FLOAT_NUMBER
  | Node_ASTInt _ => AT_INTEGER_NUMBER
  | Node_RegisterId _ => AT_REGISTER_ID
  | Node_RegisterOffset _ => AT_REGISTER_OFFSET
  | Node_TypeInfo _ => AT_TYPE_INFO
  | Node_ASTVariable _ => AT_VARIABLE
  | Node_ASTString _ => AT_STRING
  end.

Record ASTSection : Set := mkASTSection {
  sec_pos : SrcPos;
  sec_SecType : ASTSectionType;
  sec_Name : string;
  sec_Body : list ASTNode
}.

Record ASTFileNode : Set := mkASTFileNode {
  SecStatic : option ASTSection;
  SecGlobal : option ASTSection;
  SecCode : option ASTSection
}.

Record LabelDefLookup : Set := mkLabelDefLookup {
  ldl_Def : LabelDef;
  ldl_VAddr : Z
}.

Record VarDeclaration : Set := mkVarDeclaration {
  vd_Id : Identifier;
  vd_SecPerm : Z
}.

(** ** Diagnostics

    [printError (Src, index, size, row, col, msg)] and the plain messages
    sent to [std::cout]. *)
Inductive Diagnostic : Set :=
| printError (index size lineRow lineCol : Z) (msg : string)
| coutMsg (msg : string).

Definition diag_msg (d : Diagnostic) : string :=
  match d with
  | printError _ _ _ _ m => m
  | coutMsg m => m
  end.

Definition strlen (s : string) : Z := Z.of_nat (String.length s).

(** The line end that closes a message sent to [std::cout]. *)
Definition nl : string := String (ascii_of_nat 10) EmptyString.
(** ** Generated tables ([asm/encoding.hpp]) *)

Definition ASM_REGISTERS : list (string * Z) :=
  [ ("ip", 0x1);
    ("sp", 0x2);
    ("bp", 0x3);
    ("r0", 0x5);
    ("r1", 0x6);
    ("r2", 0x7);
    ("r3", 0x8);
    ("r4", 0x9);
    ("r5", 0xa);
    ("r6", 0xb);
    ("r7", 0xc);
    ("r8", 0xd);
    ("r9", 0xe);
    ("r10", 0xf);
    ("r11", 0x10);
    ("r12", 0x11);
    ("r13", 0x12);
    ("r14", 0x13);
    ("r15", 0x14);
    ("f0", 0x16);
    ("f1", 0x17);
    ("f2", 0x18);
    ("f3", 0x19);
    ("f4", 0x1a);
    ("f5", 0x1b);
    ("f6", 0x1c);
    ("f7", 0x1d);
    ("f8", 0x1e);
    ("f9", 0x1f);
    ("f10", 0x20);
    ("f11", 0x21);
    ("f12", 0x22);
    ("f13", 0x23);
    ("f14", 0x24);
    ("f15", 0x25) ].

Definition INSTR_NAMES : list (string * nat) :=
  [ ("nop", 0%nat);
    ("push", 1%nat);
    ("pop", 2%nat);
    ("load", 3%nat);
    ("loadf", 4%nat);
    ("store", 5%nat);
    ("storef", 6%nat);
    ("copy", 7%nat);
    ("copyf", 8%nat);
    ("exit", 9%nat);
    ("call", 10%nat);
    ("ret", 11%nat);
    ("sys", 12%nat);
    ("lea", 13%nat);
    ("add", 14%nat);
    ("addf", 15%nat);
    ("sub", 16%nat);
    ("subf", 17%nat);
    ("mul", 18%nat);
    ("mulf", 19%nat);
    ("muls", 20%nat);
    ("div", 21%nat);
    ("divf", 22%nat);
    ("divs", 23%nat);
    ("sqrt", 24%nat);
    ("mod", 25%nat);
    ("and", 26%nat);
    ("or", 27%nat);
    ("xor", 28%nat);
    ("not", 29%nat);
    ("lsh", 30%nat);
    ("rsh", 31%nat);
    ("srsh", 32%nat);
    ("b2l", 33%nat);
    ("s2l", 34%nat);
    ("i2l", 35%nat);
    ("b2sl", 36%nat);
    ("s2sl", 37%nat);
    ("i2sl", 38%nat);
    ("f2d", 39%nat);
    ("d2f", 40%nat);
    ("i2f", 41%nat);
    ("i2d", 42%nat);
    ("f2i", 43%nat);
    ("d2i", 44%nat);
    ("cmp", 45%nat);
    ("cmpf", 46%nat);
    ("jmp", 47%nat);
    ("je", 48%nat);
    ("jne", 49%nat);
    ("jgt", 50%nat);
    ("jlt", 51%nat);
    ("jge", 52%nat);
    ("jle", 53%nat) ].

Definition INSTR_ASM_DEFS : list (list InstrParamList) :=
  [
    (* 0: nop *)
    [ mkInstrParamList 0xA0 0
        [] [] ];
    (* 1: push *)
    [ mkInstrParamList 0x01 INSTR_FLAG_TYPE_VARIANTS
        [INT_TYPE; INT_NUM] 
        [mkTypeVariant UVM_TYPE_I8 0x01;
         mkTypeVariant UVM_TYPE_I16 0x02;
         mkTypeVariant UVM_TYPE_I32 0x03;
         mkTypeVariant UVM_TYPE_I64 0x04];
      mkInstrParamList 0x05 INSTR_FLAG_ENCODE_TYPE
        [INT_TYPE; INT_REG] [] ];
    (* 2: pop *)
    [ mkInstrParamList 0x06 INSTR_FLAG_ENCODE_TYPE
        [INT_TYPE] [];
      mkInstrParamList 0x07 INSTR_FLAG_ENCODE_TYPE
        [INT_TYPE; INT_REG] [] ];
    (* 3: load *)
    [ mkInstrParamList 0x11 INSTR_FLAG_TYPE_VARIANTS
        [INT_TYPE; INT_NUM; INT_REG] 
        [mkTypeVariant UVM_TYPE_I8 0x11;
         mkTypeVariant UVM_TYPE_I16 0x12;
         mkTypeVariant UVM_TYPE_I32 0x13;
         mkTypeVariant UVM_TYPE_I64 0x14];
      mkInstrParamList 0x15 INSTR_FLAG_ENCODE_TYPE
        [INT_TYPE; REG_OFFSET; INT_REG] [] ];
    (* 4: loadf *)
    [ mkInstrParamList 0x16 INSTR_FLAG_TYPE_VARIANTS
        [FLOAT_TYPE; FLOAT_NUM; FLOAT_REG] [mkTypeVariant UVM_TYPE_F32 0x16; mkTypeVariant UVM_TYPE_F64 0x17];
      mkInstrParamList 0x18 INSTR_FLAG_ENCODE_TYPE
        [FLOAT_TYPE; REG_OFFSET; FLOAT_REG] [] ];
    (* 5: store *)
    [ mkInstrParamList 0x08 INSTR_FLAG_ENCODE_TYPE
        [INT_TYPE; INT_REG; REG_OFFSET] [] ];
    (* 6: storef *)
    [ mkInstrParamList 0x09 INSTR_FLAG_ENCODE_TYPE
        [FLOAT_TYPE; FLOAT_REG; REG_OFFSET] [] ];
    (* 7: copy *)
    [ mkInstrParamList 0x21 INSTR_FLAG_TYPE_VARIANTS
        [INT_TYPE; INT_NUM; REG_OFFSET] 
        [mkTypeVariant UVM_TYPE_I8 0x21;
         mkTypeVariant UVM_TYPE_I16 0x22;
         mkTypeVariant UVM_TYPE_I32 0x23;
         mkTypeVariant UVM_TYPE_I64 0x24];
      mkInstrParamList 0x25 INSTR_FLAG_ENCODE_TYPE
        [INT_TYPE; INT_REG; INT_REG] [];
      mkInstrParamList 0x26 INSTR_FLAG_ENCODE_TYPE
        [INT_TYPE; REG_OFFSET; REG_OFFSET] [] ];
    (* 8: copyf *)
    [ mkInstrParamList 0x27 INSTR_FLAG_TYPE_VARIANTS
        [FLOAT_TYPE; FLOAT_NUM; REG_OFFSET] [mkTypeVariant UVM_TYPE_F32 0x27; mkTypeVariant UVM_TYPE_F64 0x28];
      mkInstrParamList 0x29 INSTR_FLAG_ENCODE_TYPE
        [FLOAT_TYPE; FLOAT_REG; FLOAT_REG] [];
      mkInstrParamList 0x2A INSTR_FLAG_ENCODE_TYPE
        [FLOAT_TYPE; REG_OFFSET; REG_OFFSET] [] ];
    (* 9: exit *)
    [ mkInstrParamList 0x50 0
        [] [] ];
    (* 10: call *)
    [ mkInstrParamList 0x20 0
        [LABEL_ID] [] ];
    (* 11: ret *)
    [ mkInstrParamList 0x30 0
        [] [] ];
    (* 12: sys *)
    [ mkInstrParamList 0x40 0
        [SYS_INT] [] ];
    (* 13: lea *)
    [ mkInstrParamList 0x10 0
        [REG_OFFSET; INT_REG] [] ];
    (* 14: add *)
    [ mkInstrParamList 0x31 INSTR_FLAG_TYPE_VARIANTS
        [INT_TYPE; INT_REG; INT_NUM] 
        [mkTypeVariant UVM_TYPE_I8 0x31;
         mkTypeVariant UVM_TYPE_I16 0x32;
         mkTypeVariant UVM_TYPE_I32 0x33;
         mkTypeVariant UVM_TYPE_I64 0x34];
      mkInstrParamList 0x35 INSTR_FLAG_ENCODE_TYPE
        [INT_TYPE; INT_REG; INT_REG] [] ];
    (* 15: addf *)
    [ mkInstrParamList 0x36 INSTR_FLAG_TYPE_VARIANTS
        [FLOAT_TYPE; FLOAT_REG; FLOAT_NUM] [mkTypeVariant UVM_TYPE_F32 0x36; mkTypeVariant UVM_TYPE_F64 0x37];
      mkInstrParamList 0x38 INSTR_FLAG_ENCODE_TYPE
        [FLOAT_TYPE; FLOAT_REG; FLOAT_REG] [] ];
    (* 16: sub *)
    [ mkInstrParamList 0x41 INSTR_FLAG_TYPE_VARIANTS
        [INT_TYPE; INT_REG; INT_NUM] 
        [mkTypeVariant UVM_TYPE_I8 0x41;
         mkTypeVariant UVM_TYPE_I16 0x42;
         mkTypeVariant UVM_TYPE_I32 0x43;
         mkTypeVariant UVM_TYPE_I64 0x44];
      mkInstrParamList 0x45 INSTR_FLAG_ENCODE_TYPE
        [INT_TYPE; INT_REG; INT_REG] [] ];
    (* 17: subf *)
    [ mkInstrParamList 0x46 INSTR_FLAG_TYPE_VARIANTS
        [FLOAT_TYPE; FLOAT_REG; FLOAT_NUM] [mkTypeVariant UVM_TYPE_F32 0x46; mkTypeVariant UVM_TYPE_F64 0x47];
      mkInstrParamList 0x48 INSTR_FLAG_ENCODE_TYPE
        [FLOAT_TYPE; FLOAT_REG; FLOAT_REG] [] ];
    (* 18: mul *)
    [ mkInstrParamList 0x51 INSTR_FLAG_TYPE_VARIANTS
        [INT_TYPE; INT_REG; INT_NUM] 
        [mkTypeVariant UVM_TYPE_I8 0x51;
         mkTypeVariant UVM_TYPE_I16 0x52;
         mkTypeVariant UVM_TYPE_I32 0x53;
         mkTypeVariant UVM_TYPE_I64 0x54];
      mkInstrParamList 0x55 INSTR_FLAG_ENCODE_TYPE
        [INT_TYPE; INT_REG; INT_REG] [] ];
    (* 19: mulf *)
    [ mkInstrParamList 0x56 INSTR_FLAG_TYPE_VARIANTS
        [FLOAT_TYPE; FLOAT_REG; FLOAT_NUM] [mkTypeVariant UVM_TYPE_F32 0x56; mkTypeVariant UVM_TYPE_F64 0x57];
      mkInstrParamList 0x58 INSTR_FLAG_ENCODE_TYPE
        [FLOAT_TYPE; FLOAT_REG; FLOAT_REG] [] ];
    (* 20: muls *)
    [ mkInstrParamList 0x59 INSTR_FLAG_TYPE_VARIANTS
        [INT_TYPE; INT_REG; INT_NUM] 
        [mkTypeVariant UVM_TYPE_I8 0x59;
         mkTypeVariant UVM_TYPE_I16 0x5A;
         mkTypeVariant UVM_TYPE_I32 0x5B;
         mkTypeVariant UVM_TYPE_I64 0x5C];
      mkInstrParamList 0x5D INSTR_FLAG_ENCODE_TYPE
        [INT_TYPE; INT_REG; INT_REG] [] ];
    (* 21: div *)
    [ mkInstrParamList 0x61 INSTR_FLAG_TYPE_VARIANTS
        [INT_TYPE; INT_REG; INT_NUM] 
        [mkTypeVariant UVM_TYPE_I8 0x61;
         mkTypeVariant UVM_TYPE_I16 0x62;
         mkTypeVariant UVM_TYPE_I32 0x63;
         mkTypeVariant UVM_TYPE_I64 0x64];
      mkInstrParamList 0x65 INSTR_FLAG_ENCODE_TYPE
        [INT_TYPE; INT_REG; INT_REG] [] ];
    (* 22: divf *)
    [ mkInstrParamList 0x66 INSTR_FLAG_TYPE_VARIANTS
        [FLOAT_TYPE; FLOAT_REG; FLOAT_NUM] [mkTypeVariant UVM_TYPE_F32 0x66; mkTypeVariant UVM_TYPE_F64 0x67];
      mkInstrParamList 0x68 INSTR_FLAG_ENCODE_TYPE
        [FLOAT_TYPE; FLOAT_REG; FLOAT_REG] [] ];
    (* 23: divs *)
    [ mkInstrParamList 0x69 INSTR_FLAG_TYPE_VARIANTS
        [INT_TYPE; INT_REG; INT_NUM] 
        [mkTypeVariant UVM_TYPE_I8 0x69;
         mkTypeVariant UVM_TYPE_I16 0x6A;
         mkTypeVariant UVM_TYPE_I32 0x6B;
         mkTypeVariant UVM_TYPE_I64 0x6C];
      mkInstrParamList 0x6D INSTR_FLAG_ENCODE_TYPE
        [INT_TYPE; INT_REG; INT_REG] [] ];
    (* 24: sqrt *)
    [ mkInstrParamList 0x86 INSTR_FLAG_ENCODE_TYPE
        [FLOAT_TYPE; FLOAT_REG] [] ];
    (* 25: mod *)
    [ mkInstrParamList 0x96 INSTR_FLAG_ENCODE_TYPE
        [INT_TYPE; INT_REG; INT_REG] [] ];
    (* 26: and *)
    [ mkInstrParamList 0x75 INSTR_FLAG_ENCODE_TYPE
        [INT_TYPE; INT_REG; INT_REG] [] ];
    (* 27: or *)
    [ mkInstrParamList 0x85 INSTR_FLAG_ENCODE_TYPE
        [INT_TYPE; INT_REG; INT_REG] [] ];
    (* 28: xor *)
    [ mkInstrParamList 0x95 INSTR_FLAG_ENCODE_TYPE
        [INT_TYPE; INT_REG; INT_REG] [] ];
    (* 29: not *)
    [ mkInstrParamList 0xA5 INSTR_FLAG_ENCODE_TYPE
        [INT_TYPE; INT_REG] [] ];
    (* 30: lsh *)
    [ mkInstrParamList 0x76 0
        [INT_REG; INT_REG] [] ];
    (* 31: rsh *)
    [ mkInstrParamList 0x77 0
        [INT_REG; INT_REG] [] ];
    (* 32: srsh *)
    [ mkInstrParamList 0x78 0
        [INT_REG; INT_REG] [] ];
    (* 33: b2l *)
    [ mkInstrParamList 0xB1 0
        [INT_REG] [] ];
    (* 34: s2l *)
    [ mkInstrParamList 0xB2 0
        [INT_REG] [] ];
    (* 35: i2l *)
    [ mkInstrParamList 0xB3 0
        [INT_REG] [] ];
    (* 36: b2sl *)
    [ mkInstrParamList 0xC1 0
        [INT_REG] [] ];
    (* 37: s2sl *)
    [ mkInstrParamList 0xC2 0
        [INT_REG] [] ];
    (* 38: i2sl *)
    [ mkInstrParamList 0xC3 0
        [INT_REG] [] ];
    (* 39: f2d *)
    [ mkInstrParamList 0xB4 0
        [FLOAT_REG] [] ];
    (* 40: d2f *)
    [ mkInstrParamList 0xC4 0
        [FLOAT_REG] [] ];
    (* 41: i2f *)
    [ mkInstrParamList 0xB5 0
        [INT_REG; FLOAT_REG] [] ];
    (* 42: i2d *)
    [ mkInstrParamList 0xC5 0
        [INT_REG; FLOAT_REG] [] ];
    (* 43: f2i *)
    [ mkInstrParamList 0xB6 0
        [FLOAT_REG; INT_REG] [] ];
    (* 44: d2i *)
    [ mkInstrParamList 0xC6 0
        [FLOAT_REG; INT_REG] [] ];
    (* 45: cmp *)
    [ mkInstrParamList 0xD1 INSTR_FLAG_ENCODE_TYPE
        [INT_TYPE; INT_REG; INT_REG] [] ];
    (* 46: cmpf *)
    [ mkInstrParamList 0xD5 INSTR_FLAG_ENCODE_TYPE
        [FLOAT_TYPE; FLOAT_REG; FLOAT_REG] [] ];
    (* 47: jmp *)
    [ mkInstrParamList 0xE1 0
        [LABEL_ID] [] ];
    (* 48: je *)
    [ mkInstrParamList 0xE2 0
        [LABEL_ID] [] ];
    (* 49: jne *)
    [ mkInstrParamList 0xE3 0
        [LABEL_ID] [] ];
    (* 50: jgt *)
    [ mkInstrParamList 0xE4 0
        [LABEL_ID] [] ];
    (* 51: jlt *)
    [ mkInstrParamList 0xE5 0
        [LABEL_ID] [] ];
    (* 52: jge *)
    [ mkInstrParamList 0xE6 0
        [LABEL_ID] [] ];
    (* 53: jle *)
    [ mkInstrParamList 0xE7 0
        [LABEL_ID] [] ]
  ].

(** ** The signature tree

    Modelled from the spec: the construction of the signature tree from
    [INSTR_ASM_DEFS] ([asm/asm.cpp] is not among the sources).  The spec
    asks for a trie keyed by operand category, built once: every signature
    is inserted along the path of its parameter categories, sharing the
    nodes of common prefixes, and is attached to the node its last
    parameter leads to (to the root for a signature without parameters). *)
Fixpoint newBranch (pl : InstrParamList) (params : list InstrParamType)
         (t : InstrParamType) : InstrDefNode :=
  match params with
  | [] => mkInstrDefNode t (Some pl) []
  | p :: ps => mkInstrDefNode t None [newBranch pl ps p]
  end.

Fixpoint insertParamList (pl : InstrParamList) (params : list InstrParamType)
         (node : InstrDefNode) {struct params} : InstrDefNode :=
  match node with
  | mkInstrDefNode t p cs =>
    match params with
    | [] => mkInstrDefNode t (Some pl) cs
    | q :: qs =>
      mkInstrDefNode t p
        ((fix go (cs : list InstrDefNode) : list InstrDefNode :=
            match cs with
            | [] => [newBranch pl qs q]
            | c :: cs' =>
              if InstrParamType_eqb (dn_Type c) q
              then insertParamList pl qs c :: cs'
              else c :: go cs'
            end) cs)
    end
  end.

(** The category stored in a root is never read by the matcher. *)
Definition emptyInstrDefNode : InstrDefNode := mkInstrDefNode INT_TYPE None [].

Definition buildInstrDefNode (sigs : list InstrParamList) : InstrDefNode :=
  fold_left (fun node pl => insertParamList pl (pl_Params pl) node)
            sigs emptyInstrDefNode.

Definition buildInstrDefTree (defs : list (list InstrParamList))
  : list InstrDefNode :=
  map buildInstrDefNode defs.

(** The tree the assembler hands to the parser. *)
Definition builtinInstrDefs : list InstrDefNode :=
  buildInstrDefTree INSTR_ASM_DEFS.

(** ** Tokens and the parser object *)

Inductive TokenType : Set :=
| IDENTIFIER
| INSTRUCTION
| TYPE_INFO
| REGISTER_DEFINITION
| INTEGER_NUMBER
| FLOAT_NUMBER
| STRING
| LABEL_DEF
| LEFT_CURLY_BRACKET
| RIGHT_CURLY_BRACKET
| LEFT_SQUARE_BRACKET
| RIGHT_SQUARE_BRACKET
| PLUS_SIGN
| MINUS_SIGN
| ASTERISK
| COLON
| COMMA
| EQUALS_SIGN
| EOL
| END_OF_FILE.

(** What the scanner resolved for a token: the register id of a register
    token, the UVM type of a type token, the index into the instruction
    definitions of a mnemonic. *)
Inductive TokenTag : Set :=
| TagNone
| TagRegister (id : Z)
| TagType (t : UVMType)
| TagInstr (asmDefIndex : nat).

(** Modelled from the spec: the token record of [token.hpp], which is not
    among the sources ([kind, byte_index, byte_size, line_row, line_col,
    tag]). *)
Record Token : Set := mkToken {
  tok_Type : TokenType;
  tok_pos : SrcPos;
  tok_Tag : TokenTag
}.

Definition tok_Index (t : Token) : Z := Index (tok_pos t).
Definition tok_Size (t : Token) : Z := Size (tok_pos t).

(** The members of [Parser], and the console it prints to. *)
Record Parser : Set := mkParser {
  InstrDefs : list InstrDefNode;
  Src : string;
  Tokens : list Token;
  Cursor : nat;
  FileNode : ASTFileNode;
  LabelDefs : list LabelDefLookup;
  VarDecls : list VarDeclaration;
  Out : list Diagnostic
}.

Definition set_Cursor (p : Parser) (c : nat) : Parser :=
  mkParser (InstrDefs p) (Src p) (Tokens p) c (FileNode p)
           (LabelDefs p) (VarDecls p) (Out p).
Definition set_FileNode (p : Parser) (f : ASTFileNode) : Parser :=
  mkParser (InstrDefs p) (Src p) (Tokens p) (Cursor p) f
           (LabelDefs p) (VarDecls p) (Out p).
Definition set_LabelDefs (p : Parser) (l : list LabelDefLookup) : Parser :=
  mkParser (InstrDefs p) (Src p) (Tokens p) (Cursor p) (FileNode p)
           l (VarDecls p) (Out p).
Definition set_VarDecls (p : Parser) (v : list VarDeclaration) : Parser :=
  mkParser (InstrDefs p) (Src p) (Tokens p) (Cursor p) (FileNode p)
           (LabelDefs p) v (Out p).
Definition set_Out (p : Parser) (o : list Diagnostic) : Parser :=
  mkParser (InstrDefs p) (Src p) (Tokens p) (Cursor p) (FileNode p)
           (LabelDefs p) (VarDecls p) o.

(** The constructor: the driver passes the tree, the source, the tokens and
    three empty output objects. *)
Definition newParser (instrDefs : list InstrDefNode) (src : string)
           (tokens : list Token) : Parser :=
  mkParser instrDefs src tokens 0 (mkASTFileNode None None None) [] [] [].

Definition printErrorAt (pos : SrcPos) (msg : string) : Diagnostic :=
  printError (Index pos) (Size pos) (LineRow pos) (LineCol pos) msg.

(** ** Type checker: matching an instruction against its signatures *)

Definition set_Opcode (i : Instruction) (opcode flags : Z) : Instruction :=
  mkInstruction (ins_pos i) (ins_Name i) (ins_Params i) (ins_ASMDefIndex i)
                opcode flags.
Definition set_Params (i : Instruction) (params : list ASTNode) : Instruction :=
  mkInstruction (ins_pos i) (ins_Name i) params (ins_ASMDefIndex i)
                (ins_Opcode i) (ins_EncodingFlags i).
Definition set_int_DataType (n : ASTInt) (t : UVMType) : ASTInt :=
  mkASTInt (int_pos n) (int_Num n) (Some t) (int_IsSigned n).
Definition set_fl_DataType (f : ASTFloat) (t : UVMType) : ASTFloat :=
  mkASTFloat (fl_pos f) (fl_Num f) (Some t).

(** The locals of [typeCheckInstrParams] that live across the two loops. *)
Record WalkState : Set := mkWalkState {
  ws_type : option TypeInfo;
  ws_labelRefs : list Identifier;
  ws_error : bool;
  ws_out : list Diagnostic
}.

Definition ws_print (ws : WalkState) (d : Diagnostic) : WalkState :=
  mkWalkState (ws_type ws) (ws_labelRefs ws) (ws_error ws) (ws_out ws ++ [d]).
Definition ws_set_type (ws : WalkState) (t : TypeInfo) : WalkState :=
  mkWalkState (Some t) (ws_labelRefs ws) (ws_error ws) (ws_out ws).
Definition ws_push_labelRef (ws : WalkState) (i : Identifier) : WalkState :=
  mkWalkState (ws_type ws) (ws_labelRefs ws ++ [i]) (ws_error ws) (ws_out ws).
Definition ws_set_error (ws : WalkState) : WalkState :=
  mkWalkState (ws_type ws) (ws_labelRefs ws) true (ws_out ws).

Definition isIntType (t : UVMType) : bool :=
  negb (negb (UVMType_eqb t UVM_TYPE_I8) && negb (UVMType_eqb t UVM_TYPE_I16)
        && negb (UVMType_eqb t UVM_TYPE_I32)
        && negb (UVMType_eqb t UVM_TYPE_I64)).

Definition isFloatType (t : UVMType) : bool :=
  negb (negb (UVMType_eqb t UVM_TYPE_F32) && negb (UVMType_eqb t UVM_TYPE_F64)).

(** One pass of the body of the inner loop: the [switch] on the category of
    child [n] against operand [astNode].  [None] is the dereference of the
    null [type] pointer. *)
Definition checkParam (child : InstrDefNode) (astNode : ASTNode)
           (nextNode : option InstrDefNode) (ws : WalkState)
  : option (ASTNode * option InstrDefNode * WalkState) :=
  match dn_Type child with
  | INT_TYPE =>
    match astNode with
    | Node_TypeInfo typeInfo =>
      if negb (isIntType (ti_DataType typeInfo))
      then Some (astNode, nextNode,
                 ws_print ws (printErrorAt (ti_pos typeInfo)
                                "Expected int type found float type"))
      else Some (astNode, Some child, ws_set_type ws typeInfo)
    | _ => Some (astNode, nextNode, ws)
    end
  | FLOAT_TYPE =>
    match astNode with
    | Node_TypeInfo typeInfo =>
      if negb (isFloatType (ti_DataType typeInfo))
      then Some (astNode, nextNode,
                 ws_print ws (printErrorAt (ti_pos typeInfo)
                                "Expected float type found int type"))
      else Some (astNode, Some child, ws_set_type ws typeInfo)
    | _ => Some (astNode, nextNode, ws)
    end
  | LABEL_ID =>
    match astNode with
    | Node_Identifier labelRef =>
      Some (astNode, Some child, ws_push_labelRef ws labelRef)
    | _ => Some (astNode, nextNode, ws)
    end
  | INT_REG =>
    match astNode with
    | Node_RegisterId regId =>
      if negb (RegisterType_eqb (getRegisterType (reg_Id regId)) INTEGER)
      then Some (astNode, nextNode,
                 ws_print ws (printErrorAt (reg_pos regId)
                                "Expected integer register"))
      else Some (astNode, Some child, ws)
    | _ => Some (astNode, nextNode, ws)
    end
  | FLOAT_REG =>
    match astNode with
    | Node_RegisterId regId =>
      if negb (RegisterType_eqb (getRegisterType (reg_Id regId)) FLOAT)
      then Some (astNode, nextNode,
                 ws_print ws (printErrorAt (reg_pos regId)
                                "Expected float register"))
      else Some (astNode, Some child, ws)
    | _ => Some (astNode, nextNode, ws)
    end
  | REG_OFFSET =>
    match astNode with
    | Node_RegisterOffset _ => Some (astNode, Some child, ws)
    | _ => Some (astNode, nextNode, ws)
    end
  | INT_NUM =>
    match astNode with
    | Node_ASTInt num =>
      match ws_type ws with
      | None => None
      | Some type =>
        let num := set_int_DataType num (ti_DataType type) in
        let ws :=
          if negb (checkIntWidth (to_uint64 (int_Num num)) (ti_DataType type)
                                 (int_IsSigned num))
          then ws_set_error
                 (ws_print ws (printErrorAt (int_pos num)
                                 "Integer does not fit into given type"))
          else ws in
        Some (Node_ASTInt num, Some child, ws)
      end
    | _ => Some (astNode, nextNode, ws)
    end
  | FLOAT_NUM =>
    match astNode with
    | Node_ASTFloat num =>
      match ws_type ws with
      | None => None
      | Some type =>
        let num := set_fl_DataType num (ti_DataType type) in
        let ws :=
          if negb (checkFloatWidth (fl_Num num) (ti_DataType type))
          then ws_set_error
                 (ws_print ws (printErrorAt (fl_pos num)
                                 "Float does not fit into given type"))
          else ws in
        Some (Node_ASTFloat num, Some child, ws)
      end
    | _ => Some (astNode, nextNode, ws)
    end
  | SYS_INT =>
    match astNode with
    | Node_ASTInt num =>
      Some (Node_ASTInt (set_int_DataType num UVM_TYPE_I8), Some child, ws)
    | _ => Some (astNode, nextNode, ws)
    end
  | FUNC_ID => Some (astNode, nextNode, ws)
  end.

(** The inner loop, over the children of [currentNode]. *)
Fixpoint checkChildren (children : list InstrDefNode) (astNode : ASTNode)
         (nextNode : option InstrDefNode) (ws : WalkState)
  : option (ASTNode * option InstrDefNode * WalkState) :=
  match children with
  | [] => Some (astNode, nextNode, ws)
  | child :: rest =>
    match checkParam child astNode nextNode ws with
    | None => None
    | Some (astNode', nextNode', ws') =>
      checkChildren rest astNode' nextNode' ws'
    end
  end.

(** The outer loop, over the operands that are left: the operands after
    the loop, [paramList] and the locals. *)
Fixpoint walkParams (currentNode : InstrDefNode) (params : list ASTNode)
         (ws : WalkState)
  : option (list ASTNode * option InstrParamList * WalkState) :=
  match params with
  | [] => Some ([], None, ws)
  | astNode :: rest =>
    match checkChildren (dn_Children currentNode) astNode None ws with
    | None => None
    | Some (astNode', None, ws') => Some (astNode' :: rest, None, ws')
    | Some (astNode', Some nextNode, ws') =>
      match rest with
      | [] => Some ([astNode'], dn_ParamList nextNode, ws')
      | _ :: _ =>
        match walkParams nextNode rest ws' with
        | None => None
        | Some (rest', paramList, ws'') =>
          Some (astNode' :: rest', paramList, ws'')
        end
      end
    end
  end.

(** The loop that selects the opcode of a type variant; [type] is
    dereferenced once per entry. *)
Fixpoint findOpcodeVariant (variants : list TypeVariant)
         (type : option TypeInfo) (opcode : Z) : option Z :=
  match variants with
  | [] => Some opcode
  | variant :: rest =>
    match type with
    | None => None
    | Some t =>
      findOpcodeVariant rest type
        (if UVMType_eqb (tv_Type variant) (ti_DataType t)
         then tv_Opcode variant else opcode)
    end
  end.

Definition instrError (instr : Instruction) (msg : string) : Diagnostic :=
  printError (Index (ins_pos instr)) (strlen (ins_Name instr))
             (LineRow (ins_pos instr)) (LineCol (ins_pos instr)) msg.

Definition typeCheckInstrParams (instrDefs : list InstrDefNode)
           (instr : Instruction) (labelRefs : list Identifier)
           (out : list Diagnostic)
  : option (bool * Instruction * list Identifier * list Diagnostic) :=
  match nth_error instrDefs (ins_ASMDefIndex instr) with
  | None => None
  | Some paramNode =>
    match ins_Params instr with
    | [] =>
      match dn_Children paramNode with
      | [] =>
        match dn_ParamList paramNode with
        | None => None
        | Some pl =>
          Some (true, set_Opcode instr (pl_Opcode pl) (pl_Flags pl),
                labelRefs, out)
        end
      | _ :: _ =>
        Some (false, instr, labelRefs,
              out ++ [instrError instr "Expected parameters found none"])
      end
    | _ :: _ =>
      match walkParams paramNode (ins_Params instr)
                       (mkWalkState None labelRefs false out) with
      | None => None
      | Some (params, paramList, ws) =>
        let instr := set_Params instr params in
        match paramList with
        | None =>
          Some (false, instr, ws_labelRefs ws,
                ws_out ws ++
                [instrError instr
                   "Error no matching parameter list found for instruction"])
        | Some pl =>
          if ws_error ws then Some (false, instr, ws_labelRefs ws, ws_out ws)
          else if negb (Z.land (pl_Flags pl) INSTR_FLAG_TYPE_VARIANTS =? 0)
          then
            match findOpcodeVariant (pl_OpcodeVariants pl) (ws_type ws) 0 with
            | None => None
            | Some opcode =>
              Some (true, set_Opcode instr opcode (pl_Flags pl),
                    ws_labelRefs ws, ws_out ws)
            end
          else Some (true, set_Opcode instr (pl_Opcode pl) (pl_Flags pl),
                     ws_labelRefs ws, ws_out ws)
        end
      end
    end
  end.

(** ** Type checker: symbol tables and the complete pass *)

Section TypeChecker.

Context {perms : SecPermConsts}.

Definition set_VarDeclIndex (v : ASTVariable) (i : nat) : ASTVariable :=
  mkASTVariable (var_pos v) (var_Id v) (var_DataType v) (var_Val v) i.

Definition set_Body (s : ASTSection) (body : list ASTNode) : ASTSection :=
  mkASTSection (sec_pos s) (sec_SecType s) (sec_Name s) body.

(** The search loops over [VarDecls] and [LabelDefs]. *)
Definition varDeclExists (varDecls : list VarDeclaration) (name : string)
  : bool :=
  existsb (fun varDecl => String.eqb (id_Name (vd_Id varDecl)) name) varDecls.

Definition labelDefExists (labelDefs : list LabelDefLookup) (name : string)
  : bool :=
  existsb (fun l => String.eqb (ld_Name (ldl_Def l)) name) labelDefs.

Definition secPermOf (secType : ASTSectionType) : Z :=
  match secType with
  | STATIC => SEC_PERM_READ
  | GLOBAL => Z.land SEC_PERM_READ SEC_PERM_WRITE
  | CODE => Z.land SEC_PERM_READ SEC_PERM_EXECUTE
  end.

(** The loop of [typeCheckVars] over the body of the section.  A node that
    is not a variable makes [dynamic_cast] return null, which is then
    dereferenced. *)
Fixpoint typeCheckVarsLoop (secType : ASTSectionType) (body : list ASTNode)
         (varDecls : list VarDeclaration) (out : list Diagnostic)
         (valid : bool)
  : option (list ASTNode * list VarDeclaration * list Diagnostic * bool) :=
  match body with
  | [] => Some ([], varDecls, out, valid)
  | Node_ASTVariable var :: rest =>
    if varDeclExists varDecls (id_Name (var_Id var))
    then
      match typeCheckVarsLoop secType rest varDecls
              (out ++ [printErrorAt (var_pos var) "Variable redefiniton"])
              false with
      | None => None
      | Some (rest', varDecls', out', valid') =>
        Some (Node_ASTVariable var :: rest', varDecls', out', valid')
      end
    else
      let varDecl := mkVarDeclaration (var_Id var) (secPermOf secType) in
      let var' := set_VarDeclIndex var (List.length varDecls) in
      match typeCheckVarsLoop secType rest (varDecls ++ [varDecl]) out
              valid with
      | None => None
      | Some (rest', varDecls', out', valid') =>
        Some (Node_ASTVariable var' :: rest', varDecls', out', valid')
      end
  | _ :: _ => None
  end.

Definition typeCheckVars (sec : ASTSection) (p : Parser)
  : option (bool * ASTSection * Parser) :=
  match typeCheckVarsLoop (sec_SecType sec) (sec_Body sec) (VarDecls p)
                          (Out p) true with
  | None => None
  | Some (body, varDecls, out, valid) =>
    Some (valid, set_Body sec body, set_Out (set_VarDecls p varDecls) out)
  end.

(** The loop of [checkVarRefs] over the operands of one instruction. *)
Fixpoint checkVarRefsParams (params : list ASTNode)
         (varDecls : list VarDeclaration) (out : list Diagnostic)
         (valid : bool) : list Diagnostic * bool :=
  match params with
  | [] => (out, valid)
  | Node_RegisterOffset ro :: rest =>
    match ro_Var ro with
    | Some var =>
      if negb (varDeclExists varDecls (id_Name var))
      then checkVarRefsParams rest varDecls
             (out ++ [printErrorAt (id_pos var)
                        "Variable reference does not exist"])
             false
      else checkVarRefsParams rest varDecls out valid
    | None => checkVarRefsParams rest varDecls out valid
    end
  | _ :: rest => checkVarRefsParams rest varDecls out valid
  end.

Fixpoint checkVarRefsBody (body : list ASTNode)
         (varDecls : list VarDeclaration) (out : list Diagnostic)
         (valid : bool) : list Diagnostic * bool :=
  match body with
  | [] => (out, valid)
  | Node_Instruction instr :: rest =>
    let '(out', valid') :=
      checkVarRefsParams (ins_Params instr) varDecls out valid in
    checkVarRefsBody rest varDecls out' valid'
  | _ :: rest => checkVarRefsBody rest varDecls out valid
  end.

Definition checkVarRefs (p : Parser) : option (bool * Parser) :=
  match SecCode (FileNode p) with
  | None => None
  | Some code =>
    let '(out, valid) :=
      checkVarRefsBody (sec_Body code) (VarDecls p) (Out p) true in
    Some (valid, set_Out p out)
  end.

(** The loop of [typeCheck] that looks for the entry point. *)
Fixpoint findMainEntry (body : list ASTNode) (mainEntry : option LabelDef)
  : option LabelDef :=
  match body with
  | [] => mainEntry
  | Node_LabelDef label :: rest =>
    findMainEntry rest
      (if String.eqb (ld_Name label) "main" then Some label else mainEntry)
  | _ :: rest => findMainEntry rest mainEntry
  end.

(** The locals and members the walk over the Code body updates. *)
Record CheckState : Set := mkCheckState {
  cs_LabelDefs : list LabelDefLookup;
  cs_labelRefs : list Identifier;
  cs_out : list Diagnostic;
  cs_typeCheckError : bool
}.

Definition labelError (name : string) (pos : SrcPos) (msg : string)
  : Diagnostic :=
  printError (Index pos) (strlen name) (LineRow pos) (LineCol pos) msg.

(** The walk of [typeCheck] over the body of the Code section. *)
Fixpoint typeCheckBody (instrDefs : list InstrDefNode) (body : list ASTNode)
         (cs : CheckState) : option (list ASTNode * CheckState) :=
  match body with
  | [] => Some ([], cs)
  | Node_LabelDef label :: rest =>
    let labelRedef := labelDefExists (cs_LabelDefs cs) (ld_Name label) in
    let cs' :=
      mkCheckState
        (cs_LabelDefs cs ++ [mkLabelDefLookup label 0])
        (cs_labelRefs cs)
        (if labelRedef
         then cs_out cs ++ [labelError (ld_Name label) (ld_pos label)
                              "Label is already defined"]
         else cs_out cs)
        (if labelRedef then true else cs_typeCheckError cs) in
    match typeCheckBody instrDefs rest cs' with
    | None => None
    | Some (rest', cs'') => Some (Node_LabelDef label :: rest', cs'')
    end
  | Node_Instruction instr :: rest =>
    match typeCheckInstrParams instrDefs instr (cs_labelRefs cs)
                               (cs_out cs) with
    | None => None
    | Some (ok, instr', labelRefs, out) =>
      let cs' :=
        mkCheckState (cs_LabelDefs cs) labelRefs out
                     (if negb ok then true else cs_typeCheckError cs) in
      match typeCheckBody instrDefs rest cs' with
      | None => None
      | Some (rest', cs'') => Some (Node_Instruction instr' :: rest', cs'')
      end
    end
  | node :: rest =>
    match typeCheckBody instrDefs rest cs with
    | None => None
    | Some (rest', cs') => Some (node :: rest', cs')
    end
  end.

(** The loop of [typeCheck] that resolves the collected label references. *)
Fixpoint checkLabelRefs (labelRefs : list Identifier)
         (labelDefs : list LabelDefLookup) (out : list Diagnostic)
         (typeCheckError : bool) : list Diagnostic * bool :=
  match labelRefs with
  | [] => (out, typeCheckError)
  | labelRef :: rest =>
    if negb (labelDefExists labelDefs (id_Name labelRef))
    then checkLabelRefs rest labelDefs
           (out ++ [labelError (id_Name labelRef) (id_pos labelRef)
                      "Unresolved label"])
           true
    else checkLabelRefs rest labelDefs out typeCheckError
  end.

(** The first loop of [typeCheck], over [SecStatic] and [SecGlobal]. *)
Definition typeCheckSection (sec : option ASTSection) (p : Parser)
           (typeCheckError : bool)
  : option (option ASTSection * Parser * bool) :=
  match sec with
  | None => Some (None, p, typeCheckError)
  | Some s =>
    match typeCheckVars s p with
    | None => None
    | Some (valid, s', p') =>
      Some (Some s', p', if negb valid then true else typeCheckError)
    end
  end.

Definition typeCheck (p : Parser) : option (bool * Parser) :=
  match typeCheckSection (SecStatic (FileNode p)) p false with
  | None => None
  | Some (secStatic, p1, err1) =>
    match typeCheckSection (SecGlobal (FileNode p)) p1 err1 with
    | None => None
    | Some (secGlobal, p2, err2) =>
      match SecCode (FileNode p) with
      | None => None
      | Some code =>
        let p3 := set_FileNode p2 (mkASTFileNode secStatic secGlobal
                                                  (Some code)) in
        match sec_Body code with
        | [] =>
          Some (false,
                set_Out p3 (Out p3 ++
                            [coutMsg ("[Type Checker] Missing main label" ++ nl)%string]))
        | _ :: _ =>
          match findMainEntry (sec_Body code) None with
          | None =>
            Some (false,
                  set_Out p3 (Out p3 ++
                              [coutMsg ("[Type Checker] Missing main entry" ++ nl)%string]))
          | Some _ =>
            match typeCheckBody (InstrDefs p3) (sec_Body code)
                    (mkCheckState (LabelDefs p3) [] (Out p3) err2) with
            | None => None
            | Some (body, cs) =>
              let '(out, err3) :=
                checkLabelRefs (cs_labelRefs cs) (cs_LabelDefs cs)
                               (cs_out cs) (cs_typeCheckError cs) in
              let p4 :=
                set_Out
                  (set_LabelDefs
                     (set_FileNode p3
                        (mkASTFileNode secStatic secGlobal
                                       (Some (set_Body code body))))
                     (cs_LabelDefs cs))
                  out in
              match checkVarRefs p4 with
              | None => None
              | Some (valid, p5) =>
                Some (negb (if negb valid then true else err3), p5)
              end
            end
          end
        end
      end
    end
  end.

End TypeChecker.

(** ** The source view and the numeric conversions of the C++ library *)

(** Modelled from the spec: [SourceFile::getSubStr] and [getChar]
    ([substring(index, size)] and [char_at(index)]; the source file class
    is not among the sources).  [getChar] leaves its output parameter at
    the caller's initial value '\0' when there is no such byte. *)
Definition getSubStr (src : string) (index size : Z) : string :=
  String.substring (Z.to_nat index) (Z.to_nat size) src.

Definition getChar (src : string) (index : Z) : ascii :=
  match String.get (Z.to_nat index) src with
  | Some c => c
  | None => "000"%char
  end.

Inductive StoResult (A : Set) : Set :=
| StoValue (v : A)
| StoOutOfRange
| StoInvalidArgument.
Arguments StoValue {A}.
Arguments StoOutOfRange {A}.
Arguments StoInvalidArgument {A}.

Definition isspace (c : ascii) : bool :=
  let n := nat_of_ascii c in
  ((9 <=? n) && (n <=? 13))%nat || (n =? 32)%nat.

(** The value of a digit in the given base. *)
Definition digitValue (base : Z) (c : ascii) : option Z :=
  let n := Z.of_nat (nat_of_ascii c) in
  let v :=
    if (48 <=? n) && (n <=? 57) then Some (n - 48)
    else if (97 <=? n) && (n <=? 122) then Some (n - 97 + 10)
    else if (65 <=? n) && (n <=? 90) then Some (n - 65 + 10)
    else None in
  match v with
  | Some d => if d <? base then Some d else None
  | None => None
  end.

Fixpoint skipSpaces (s : string) : string :=
  match s with
  | String c rest => if isspace c then skipSpaces rest else s
  | EmptyString => s
  end.

(** The longest run of digits at the head of [s]: its value and whether
    there was a digit at all. *)
Fixpoint readDigits (base : Z) (s : string) (acc : Z) (seen : bool)
  : Z * bool :=
  match s with
  | String c rest =>
    match digitValue base c with
    | Some d => readDigits base rest (acc * base + d) true
    | None => (acc, seen)
    end
  | EmptyString => (acc, seen)
  end.

(** [std::stoull (str, 0, base)] for base 10 and 16: white space, an
    optional sign, for base 16 an optional [0x] in front of a hex digit,
    then digits.  No digit is [std::invalid_argument], a magnitude above
    [ULLONG_MAX] is [std::out_of_range], and a minus sign negates the
    result modulo 2^64. *)
Definition stoull (str : string) (base : Z) : StoResult Z :=
  let s := skipSpaces str in
  let '(neg, s) :=
    match s with
    | String "-" rest => (true, rest)
    | String "+" rest => (false, rest)
    | _ => (false, s)
    end in
  let s :=
    if base =? 16 then
      match s with
      | String "0" (String x (String h rest)) =>
        if (Ascii.eqb x "x" || Ascii.eqb x "X")
           && match digitValue 16 h with Some _ => true | None => false end
        then String h rest else s
      | _ => s
      end
    else s in
  match readDigits base s 0 false with
  | (_, false) => StoInvalidArgument
  | (v, true) =>
    if 2 ^ 64 <=? v then StoOutOfRange
    else StoValue (if neg then to_uint64 (- v) else v)
  end.

(** [strToInt]: [None] is the exception the function does not catch,
    [Some None] is [false], [Some (Some num)] is [true] with the output
    parameter. *)
Definition strToInt (str : string) : option (option Z) :=
  let base :=
    if (3 <=? String.length str)%nat then
      match String.get 0 str, String.get 1 str with
      | Some c0, Some c1 =>
        if Ascii.eqb c0 "0" && Ascii.eqb c1 "x" then 16 else 10
      | _, _ => 10
      end
    else 10 in
  match stoull str base with
  | StoValue num => Some (Some num)
  | StoOutOfRange => Some None
  | StoInvalidArgument => None
  end.

(** [std::stod] is a parameter of the development. *)
Class StdLib : Set := {
  stod : string -> StoResult double
}.

Definition strToFP {lib : StdLib} (str : string) : option double :=
  match stod str with
  | StoValue num => Some num
  | StoOutOfRange => None
  | StoInvalidArgument => None
  end.

(** [parseStringEscape]: the loop, with the cursor as the source has it.
    [fuel] bounds the number of passes; the cursor grows on every pass, so
    the length of the input is enough. *)
Fixpoint parseStringEscapeLoop (fuel : nat) (inStr : string) (cursor : nat)
         (outStr : string) : string :=
  match fuel with
  | O => outStr
  | S fuel' =>
    if (cursor <? String.length inStr - 1)%nat then
      let c := getChar inStr (Z.of_nat cursor) in
      let p := getChar inStr (Z.of_nat (cursor + 1)) in
      if Ascii.eqb c "\"%char then
        let escaped :=
          if Ascii.eqb p "t" then Some "009"%char
          else if Ascii.eqb p "v" then Some "011"%char
          else if Ascii.eqb p "0" then Some "000"%char
          else if Ascii.eqb p "b" then Some "008"%char
          else if Ascii.eqb p "f" then Some "012"%char
          else if Ascii.eqb p "n" then Some "010"%char
          else if Ascii.eqb p "r" then Some "013"%char
          else if Ascii.eqb p (ascii_of_nat 34) then Some (ascii_of_nat 34)
          else if Ascii.eqb p "\"%char then Some "\"%char
          else None in
        match escaped with
        | Some c' =>
          parseStringEscapeLoop fuel' inStr (cursor + 2)
                                (outStr ++ String c' EmptyString)%string
        | None => outStr
        end
      else
        parseStringEscapeLoop fuel' inStr (cursor + 1)
                              (outStr ++ String c EmptyString)%string
    else outStr
  end.

(** An empty input makes [inStr.size() - 1] wrap around and the loop read
    past the end of the string. *)
Definition parseStringEscape (inStr : string) : option string :=
  if (String.length inStr =? 2)%nat then Some EmptyString
  else if (String.length inStr =? 0)%nat then None
  else Some (parseStringEscapeLoop (String.length inStr) inStr 1 EmptyString).

(** ** Parser

    A parsing function runs on the parser object.  Its outcome is a value
    with the new state, the [return false] of the enclosing C++ function,
    an abort (undefined behaviour or an exception nobody catches), or the
    exhaustion of the loop budget of the model. *)

Inductive Res (A : Type) : Type :=
| Ret (a : A) (p : Parser)
| RetFalse (p : Parser)
| Abort
| OutOfFuel.
Arguments Ret {A}.
Arguments RetFalse {A}.
Arguments Abort {A}.
Arguments OutOfFuel {A}.

Definition M (A : Type) : Type := Parser -> Res A.

Definition ret {A} (a : A) : M A := fun p => Ret a p.

Definition bind {A B} (c : M A) (k : A -> M B) : M B :=
  fun p =>
    match c p with
    | Ret a p' => k a p'
    | RetFalse p' => RetFalse p'
    | Abort => Abort
    | OutOfFuel => OutOfFuel
    end.

Notation "x <- c ;; k" := (bind c (fun x => k))
  (at level 61, c at next level, right associativity).
Notation "c ;;; k" := (bind c (fun _ => k))
  (at level 61, right associativity).

Definition returnFalse {A} : M A := fun p => RetFalse p.
Definition abort {A} : M A := fun _ => Abort.
Definition getParser : M Parser := fun p => Ret p p.

Definition print (d : Diagnostic) : M unit :=
  fun p => Ret tt (set_Out p (Out p ++ [d])).

Definition printTokenError (msg : string) (tok : Token) : M unit :=
  print (printErrorAt (tok_pos tok) msg).

(** [printTokenError (msg, tok); return false;] *)
Definition failAt {A} (msg : string) (tok : Token) : M A :=
  printTokenError msg tok ;;; returnFalse.

Definition eatToken : M Token :=
  fun p =>
    match nth_error (Tokens p) (Cursor p) with
    | Some tok => Ret tok (set_Cursor p (S (Cursor p)))
    | None =>
      match Tokens p with
      | [] => Abort
      | t0 :: rest => Ret (last rest t0) p
      end
    end.

Definition peekToken : M Token :=
  fun p =>
    match nth_error (Tokens p) (Cursor p) with
    | Some tok => Ret tok p
    | None =>
      match Tokens p with
      | [] => Abort
      | t0 :: rest => Ret (last rest t0) p
      end
    end.

Definition tokenText (tok : Token) : M string :=
  fun p => Ret (getSubStr (Src p) (tok_Index tok) (tok_Size tok)) p.

Definition TokenType_eqb (a b : TokenType) : bool :=
  match a, b with
  | IDENTIFIER, IDENTIFIER | INSTRUCTION, INSTRUCTION | TYPE_INFO, TYPE_INFO
  | REGISTER_DEFINITION, REGISTER_DEFINITION
  | INTEGER_NUMBER, INTEGER_NUMBER | FLOAT_NUMBER, FLOAT_NUMBER
  | STRING, STRING | LABEL_DEF, LABEL_DEF
  | LEFT_CURLY_BRACKET, LEFT_CURLY_BRACKET
  | RIGHT_CURLY_BRACKET, RIGHT_CURLY_BRACKET
  | LEFT_SQUARE_BRACKET, LEFT_SQUARE_BRACKET
  | RIGHT_SQUARE_BRACKET, RIGHT_SQUARE_BRACKET
  | PLUS_SIGN, PLUS_SIGN | MINUS_SIGN, MINUS_SIGN | ASTERISK, ASTERISK
  | COLON, COLON | COMMA, COMMA | EQUALS_SIGN, EQUALS_SIGN | EOL, EOL
  | END_OF_FILE, END_OF_FILE => true
  | _, _ => false
  end.

(** The tag of a token read as a register id, a UVM type or an index into
    the instruction definitions.  A tag of another kind is outside the
    contract of the scanner. *)
Definition tagRegister (tok : Token) : M Z :=
  match tok_Tag tok with TagRegister id => ret id | _ => abort end.
Definition tagType (tok : Token) : M UVMType :=
  match tok_Tag tok with TagType t => ret t | _ => abort end.
Definition tagInstr (tok : Token) : M nat :=
  match tok_Tag tok with TagInstr i => ret i | _ => abort end.

(** [sec->Body.push_back (node)] on one of the three sections of
    [FileNode]. *)
Definition sectionOf (f : ASTFileNode) (secType : ASTSectionType)
  : option ASTSection :=
  match secType with
  | STATIC => SecStatic f
  | GLOBAL => SecGlobal f
  | CODE => SecCode f
  end.

Definition set_section (f : ASTFileNode) (secType : ASTSectionType)
           (s : ASTSection) : ASTFileNode :=
  match secType with
  | STATIC => mkASTFileNode (Some s) (SecGlobal f) (SecCode f)
  | GLOBAL => mkASTFileNode (SecStatic f) (Some s) (SecCode f)
  | CODE => mkASTFileNode (SecStatic f) (SecGlobal f) (Some s)
  end.

Definition pushBody (secType : ASTSectionType) (node : ASTNode) : M unit :=
  fun p =>
    match sectionOf (FileNode p) secType with
    | None => Abort
    | Some s =>
      Ret tt (set_FileNode p
                (set_section (FileNode p) secType
                   (mkASTSection (sec_pos s) (sec_SecType s) (sec_Name s)
                                 (sec_Body s ++ [node]))))
    end.

(** [instr->Params.push_back (node)].  While operands are parsed [instr]
    points to the instruction pushed last into the body of the Code
    section, so the push reaches that node of the tree. *)
Definition pushParam (node : ASTNode) : M unit :=
  fun p =>
    match SecCode (FileNode p) with
    | None => Abort
    | Some s =>
      match rev (sec_Body s) with
      | Node_Instruction instr :: before =>
        let instr' :=
          mkInstruction (ins_pos instr) (ins_Name instr)
                        (ins_Params instr ++ [node]) (ins_ASMDefIndex instr)
                        (ins_Opcode instr) (ins_EncodingFlags instr) in
        Ret tt (set_FileNode p
                  (set_section (FileNode p) CODE
                     (mkASTSection (sec_pos s) (sec_SecType s) (sec_Name s)
                                   (rev before ++ [Node_Instruction instr']))))
      | _ => Abort
      end
    end.

(** *** The register-offset sub-parser *)

(** [new RegisterOffset ()]. *)
Definition newRegisterOffset : RegisterOffset :=
  mkRegisterOffset (mkSrcPos 0 0 0 0) 0 None None 0 None.

(** [regOff->Index], [LineRow] and [LineCol] taken from a token. *)
Definition ro_at (ro : RegisterOffset) (t : Token) : RegisterOffset :=
  mkRegisterOffset
    (mkSrcPos (tok_Index t) (Size (ro_pos ro)) (LineRow (tok_pos t))
              (LineCol (tok_pos t)))
    (ro_Layout ro) (ro_Base ro) (ro_Offset ro) (ro_Immediate ro) (ro_Var ro).

Definition ro_or_Layout (ro : RegisterOffset) (bits : Z) : RegisterOffset :=
  mkRegisterOffset (ro_pos ro) (Z.lor (ro_Layout ro) bits) (ro_Base ro)
                   (ro_Offset ro) (ro_Immediate ro) (ro_Var ro).

Definition ro_set_Layout (ro : RegisterOffset) (l : Z) : RegisterOffset :=
  mkRegisterOffset (ro_pos ro) l (ro_Base ro) (ro_Offset ro)
                   (ro_Immediate ro) (ro_Var ro).

Definition ro_set_Base (ro : RegisterOffset) (r : RegisterId)
  : RegisterOffset :=
  mkRegisterOffset (ro_pos ro) (ro_Layout ro) (Some r) (ro_Offset ro)
                   (ro_Immediate ro) (ro_Var ro).

Definition ro_set_Offset (ro : RegisterOffset) (r : RegisterId)
  : RegisterOffset :=
  mkRegisterOffset (ro_pos ro) (ro_Layout ro) (ro_Base ro) (Some r)
                   (ro_Immediate ro) (ro_Var ro).

(** A store to [Immediate.U32]. *)
Definition ro_set_U32 (ro : RegisterOffset) (v : Z) : RegisterOffset :=
  mkRegisterOffset (ro_pos ro) (ro_Layout ro) (ro_Base ro) (ro_Offset ro)
                   (to_uint32 v) (ro_Var ro).

(** A store to [Immediate.U16]: the low half of the storage. *)
Definition ro_set_U16 (ro : RegisterOffset) (v : Z) : RegisterOffset :=
  mkRegisterOffset (ro_pos ro) (ro_Layout ro) (ro_Base ro) (ro_Offset ro)
                   (ro_Immediate ro - to_uint16 (ro_Immediate ro)
                    + to_uint16 v)
                   (ro_Var ro).

Definition ro_set_Var (ro : RegisterOffset) (i : Identifier)
  : RegisterOffset :=
  mkRegisterOffset (ro_pos ro) (ro_Layout ro) (ro_Base ro) (ro_Offset ro)
                   (ro_Immediate ro) (Some i).

Definition RO_LAYOUT_NEG : Z := 0x80.
Definition RO_LAYOUT_POS : Z := 0x00.

(** The text of a token converted by [strToInt]; an overflow of 64 bits
    prints [msg] and returns false. *)
Definition tokenToInt (t : Token) (msg : string) : M Z :=
  numStr <- tokenText t ;;
  match strToInt numStr with
  | None => abort
  | Some None => failAt msg t
  | Some (Some num) => ret num
  end.

(** The part of [parseRegOffset] behind the sign: [<iR> +/- <i32>] or
    [<iR> +/- <iR> * <i16>]. *)
Definition parseRegOffsetTail (regOff : RegisterOffset) : M unit :=
  t <- eatToken ;;
  match tok_Type t with
  | INTEGER_NUMBER =>
    peek <- peekToken ;;
    if TokenType_eqb (tok_Type peek) RIGHT_SQUARE_BRACKET then
      num <- tokenToInt t
        "Register offset immediate does not fit into 32-bit value" ;;
      if negb (Z.shiftr num 32 =? 0) then
        failAt "Register offset immediate does not fit into 32-bit value" t
      else
        let regOff := ro_set_U32 regOff num in
        let regOff := ro_at regOff t in
        let regOff := ro_or_Layout regOff RO_LAYOUT_IR_INT in
        pushParam (Node_RegisterOffset regOff) ;;;
        _ <- eatToken ;;
        ret tt
    else
      failAt ("Expected closing bracket after immediate offset inside "
                ++ "register offset ]")%string t
  | REGISTER_DEFINITION =>
    id <- tagRegister t ;;
    if negb (RegisterType_eqb (getRegisterType id) INTEGER) then
      failAt "Expected integer register as offset" t
    else
      let regOff := ro_set_Offset regOff (mkRegisterId (tok_pos t) id) in
      t <- eatToken ;;
      t <- (if TokenType_eqb (tok_Type t) ASTERISK then eatToken
            else failAt "Expected * after offset inside register offset" t) ;;
      num <- tokenToInt t
        "Register offset immediate does not fit into 16-bit value" ;;
      if negb (Z.shiftr num 16 =? 0) then
        failAt "Register offset immediate does not fit into 16-bit value" t
      else
        let regOff := ro_set_U16 regOff num in
        t <- eatToken ;;
        if TokenType_eqb (tok_Type t) RIGHT_SQUARE_BRACKET then
          let regOff := ro_at regOff t in
          let regOff := ro_or_Layout regOff RO_LAYOUT_IR_IR_INT in
          pushParam (Node_RegisterOffset regOff)
        else failAt "Expectd closing bracket after factor" t
  | _ => failAt "Expected register or int number as offset" t
  end.

Definition parseRegOffset : M unit :=
  let regOff := newRegisterOffset in
  t <- eatToken ;;
  match tok_Type t with
  | IDENTIFIER =>
    idString <- tokenText t ;;
    let regOff := ro_set_Var regOff (mkIdentifier (tok_pos t) idString) in
    t <- eatToken ;;
    if negb (TokenType_eqb (tok_Type t) RIGHT_SQUARE_BRACKET) then
      failAt "Expected closing bracket ] after variable reference" t
    else pushParam (Node_RegisterOffset regOff)
  | REGISTER_DEFINITION =>
    id <- tagRegister t ;;
    if negb (RegisterType_eqb (getRegisterType id) INTEGER) then
      failAt "Expected integer register as base" t
    else
      let regOff := ro_set_Base regOff (mkRegisterId (tok_pos t) id) in
      t <- eatToken ;;
      match tok_Type t with
      | RIGHT_SQUARE_BRACKET =>
        let regOff := ro_at regOff t in
        let regOff := ro_set_Layout regOff RO_LAYOUT_IR in
        pushParam (Node_RegisterOffset regOff)
      | PLUS_SIGN => parseRegOffsetTail (ro_or_Layout regOff RO_LAYOUT_POS)
      | MINUS_SIGN => parseRegOffsetTail (ro_or_Layout regOff RO_LAYOUT_NEG)
      | _ => failAt "Unexpected token in register offset" t
      end
  | _ => failAt "Expected register in register offset" t
  end.

(** *** The Code section *)

Section ParserFunctions.

Context {lib : StdLib}.

Inductive ParseState : Set := GLOBAL_SCOPE | FUNC_BODY | INSTR_BODY | END.

Definition isSignToken (t : Token) : bool :=
  TokenType_eqb (tok_Type t) PLUS_SIGN || TokenType_eqb (tok_Type t) MINUS_SIGN.

(** The first statements of a pass of the operand loop and of a variable
    declaration: an optional sign token in front of the value. *)
Definition eatSign (t : Token) : M (option Token * ascii * Token) :=
  if isSignToken t then
    p <- getParser ;;
    let signTokenText := getChar (Src p) (tok_Index t) in
    t' <- eatToken ;;
    ret (Some t, signTokenText, t')
  else ret (None, "000"%char, t).

(** [new ASTInt (..., num, isSigned)]: the constructor takes [int64_t]. *)
Definition newASTInt (t : Token) (num : Z) (isSigned : bool) : ASTInt :=
  mkASTInt (tok_pos t) (to_int64 num) None isSigned.

Definition newASTFloat (t : Token) (num : double) : ASTFloat :=
  mkASTFloat (tok_pos t) num None.

(** The text of a number with the sign in front of it when the sign token
    touches the number; a sign further away is an error on the sign. *)
Definition foldSign (signToken : option Token) (signTokenText : ascii)
           (t : Token) (numStr : string) : M (string * bool) :=
  match signToken with
  | None => ret (numStr, false)
  | Some sign =>
    if tok_Index sign + 1 =? tok_Index t then
      ret (String signTokenText numStr,
           TokenType_eqb (tok_Type sign) MINUS_SIGN)
    else failAt "Unexpected operator" sign
  end.

(** The end of a pass of the operand loop: the token behind the operand
    is a comma, which is skipped, or the end of the line. *)
Definition endOfOperand : M (Token * bool) :=
  t <- eatToken ;;
  match tok_Type t with
  | COMMA => t <- eatToken ;; ret (t, false)
  | EOL => ret (t, true)
  | _ => ret (t, false)
  end.

(** One pass of the loop [while (!endOfParamList)] of [parseSectionCode],
    entered with the current token [t]: the next current token and
    [endOfParamList]. *)
Definition parseOperand (t : Token) : M (Token * bool) :=
  s <- eatSign t ;;
  let '(signToken, signTokenText, t) := s in
  (match signToken with
   | Some sign =>
     if negb (TokenType_eqb (tok_Type t) INTEGER_NUMBER)
        && negb (TokenType_eqb (tok_Type t) FLOAT_NUMBER)
     then failAt "Unexpected operator" sign
     else ret tt
   | None => ret tt
   end) ;;;
  (match tok_Type t with
   | IDENTIFIER =>
     idName <- tokenText t ;;
     pushParam (Node_Identifier (mkIdentifier (tok_pos t) idName))
   | REGISTER_DEFINITION =>
     id <- tagRegister t ;;
     pushParam (Node_RegisterId (mkRegisterId (tok_pos t) id))
   | LEFT_SQUARE_BRACKET => parseRegOffset
   | INTEGER_NUMBER =>
     numStr <- tokenText t ;;
     f <- foldSign signToken signTokenText t numStr ;;
     let '(numStr, isSigned) := f in
     match strToInt numStr with
     | None => abort
     | Some None => failAt "Integer does not fit into 64-bit value" t
     | Some (Some num) => pushParam (Node_ASTInt (newASTInt t num isSigned))
     end
   | FLOAT_NUMBER =>
     floatStr <- tokenText t ;;
     f <- foldSign signToken signTokenText t floatStr ;;
     let '(floatStr, _) := f in
     match strToFP floatStr with
     | None => failAt "Float does not fit into 64-bit value" t
     | Some num => pushParam (Node_ASTFloat (newASTFloat t num))
     end
   | _ => failAt "Expected parameter" t
   end) ;;;
  endOfOperand.

(** The loop [while (!endOfParamList)]. *)
Fixpoint parseOperands (fuel : nat) (t : Token) : M unit :=
  match fuel with
  | O => fun _ => OutOfFuel
  | S fuel' =>
    r <- parseOperand t ;;
    let '(t', endOfParamList) := r in
    if endOfParamList then ret tt else parseOperands fuel' t'
  end.

(** One pass of the loop of [parseSectionCode] in the state
    [INSTR_BODY]. *)
Definition parseInstrBody (fuel : nat) (t : Token) : M ParseState :=
  r <- (if TokenType_eqb (tok_Type t) TYPE_INFO then
          ty <- tagType t ;;
          pushParam (Node_TypeInfo (mkTypeInfo (tok_pos t) ty)) ;;;
          t' <- eatToken ;;
          ret (t', TokenType_eqb (tok_Type t') EOL)
        else ret (t, false)) ;;
  let '(t, endOfParamList) := r in
  (if endOfParamList then ret tt else parseOperands fuel t) ;;;
  ret GLOBAL_SCOPE.

Definition newInstruction (t : Token) (name : string) (asmDefIndex : nat)
  : Instruction :=
  mkInstruction (tok_pos t) name [] asmDefIndex 0 0.

(** One pass of the loop of [parseSectionCode] in the state
    [GLOBAL_SCOPE]. *)
Definition parseGlobalScope (t : Token) : M ParseState :=
  t <- (if TokenType_eqb (tok_Type t) EOL then eatToken else ret t) ;;
  if TokenType_eqb (tok_Type t) END_OF_FILE
     || TokenType_eqb (tok_Type t) RIGHT_CURLY_BRACKET
  then ret END
  else
    match tok_Type t with
    | INSTRUCTION =>
      instrName <- tokenText t ;;
      asmDefIndex <- tagInstr t ;;
      pushBody CODE (Node_Instruction (newInstruction t instrName asmDefIndex)) ;;;
      peek <- peekToken ;;
      if TokenType_eqb (tok_Type peek) END_OF_FILE then
        failAt "Unexpected end of file after instruction" t
      else if negb (TokenType_eqb (tok_Type peek) EOL) then ret INSTR_BODY
      else ret GLOBAL_SCOPE
    | LABEL_DEF =>
      p <- getParser ;;
      let labelName := getSubStr (Src p) (tok_Index t + 1) (tok_Size t - 1) in
      pushBody CODE (Node_LabelDef (mkLabelDef (tok_pos t) labelName)) ;;;
      peek <- peekToken ;;
      if negb (TokenType_eqb (tok_Type peek) EOL) then
        failAt "Expected new line after label definition" t
      else
        _ <- eatToken ;;
        ret GLOBAL_SCOPE
    | _ => failAt "Unexpected token in function body" t
    end.

(** The loop [while (state != ParseState::END)]. *)
Fixpoint parseSectionCodeLoop (fuel : nat) (state : ParseState) : M unit :=
  match state with
  | END => ret tt
  | _ =>
    match fuel with
    | O => fun _ => OutOfFuel
    | S fuel' =>
      t <- eatToken ;;
      state' <- match state with
                | GLOBAL_SCOPE => parseGlobalScope t
                | INSTR_BODY => parseInstrBody fuel' t
                | _ => ret state
                end ;;
      parseSectionCodeLoop fuel' state'
    end
  end.

(** The number of passes the model grants a loop of the parser.  A pass
    eats at least one token as long as the cursor has not reached the end
    of the stream. *)
Definition loopBudget (p : Parser) : nat := 2 * List.length (Tokens p) + 2.

Definition parseSectionCode : M unit :=
  p <- getParser ;;
  parseSectionCodeLoop (loopBudget p) GLOBAL_SCOPE.

(** *** The Static and Global sections *)

(** The value of a variable declaration, entered with the token behind
    the equals sign: the node of the value and its token. *)
Definition parseVarValue (typeInfo : TypeInfo) (tok : Token)
  : M (ASTNode * Token) :=
  s <- eatSign tok ;;
  let '(signToken, signTokenText, tok) := s in
  tokString <- tokenText tok ;;
  val <- match tok_Type tok with
         | STRING =>
           match parseStringEscape tokString with
           | None => abort
           | Some parsedStr =>
             ret (Node_ASTString (mkASTString (tok_pos tok) parsedStr))
           end
         | INTEGER_NUMBER =>
           f <- foldSign signToken signTokenText tok tokString ;;
           let '(tokString, isSigned) := f in
           match strToInt tokString with
           | None => abort
           | Some None => failAt "Integer does not fit into 64-bit value" tok
           | Some (Some intVal) =>
             if negb (checkIntWidth intVal (ti_DataType typeInfo) isSigned)
             then failAt "Integer does not fit into given type value" tok
             else ret (Node_ASTInt (newASTInt tok intVal isSigned))
           end
         | FLOAT_NUMBER =>
           f <- foldSign signToken signTokenText tok tokString ;;
           let '(tokString, _) := f in
           match strToFP tokString with
           | None =>
             failAt "Floating-point value does not fit into 64-bit value" tok
           | Some floatVal =>
             if negb (checkFloatWidth floatVal (ti_DataType typeInfo))
             then failAt "Floating-point value does not fit into given value"
                         tok
             else ret (Node_ASTFloat (newASTFloat tok floatVal))
           end
         | _ =>
           failAt "Expected string, float or integer as variable value" tok
         end ;;
  ret (val, tok).

(** One pass of the loop of [parseSectionVars], entered with the current
    token [tok]: a variable declaration, and the token after it. *)
Definition parseVarDecl (secType : ASTSectionType) (tok : Token) : M Token :=
  (if negb (TokenType_eqb (tok_Type tok) IDENTIFIER)
   then failAt "Expected static variable identifier" tok else ret tt) ;;;
  idName <- tokenText tok ;;
  let id := mkIdentifier (tok_pos tok) idName in
  tok <- eatToken ;;
  (if negb (TokenType_eqb (tok_Type tok) COLON)
   then failAt "Expected colon after variable identifier" tok else ret tt) ;;;
  tok <- eatToken ;;
  (if negb (TokenType_eqb (tok_Type tok) TYPE_INFO)
   then failAt "Expected type info in variable declaration" tok
   else ret tt) ;;;
  ty <- tagType tok ;;
  let typeInfo := mkTypeInfo (tok_pos tok) ty in
  tok <- eatToken ;;
  (if negb (TokenType_eqb (tok_Type tok) EQUALS_SIGN)
   then failAt "Expected equals sign after type info in variable declaration"
               tok
   else ret tt) ;;;
  tok <- eatToken ;;
  v <- parseVarValue typeInfo tok ;;
  let '(val, tok) := v in
  let valPos := tok_pos tok in
  tok <- eatToken ;;
  (if negb (TokenType_eqb (tok_Type tok) EOL)
   then failAt "Expected new line after variable declaration" tok
   else ret tt) ;;;
  let varSize := to_uint32 (Index valPos + Size valPos - Index (id_pos id)) in
  pushBody secType
    (Node_ASTVariable
       (mkASTVariable
          (mkSrcPos (Index (id_pos id)) varSize (LineRow (id_pos id))
                    (LineCol (id_pos id)))
          id typeInfo val 0)) ;;;
  eatToken.

(** The loop [while (tok->Type != RIGHT_CURLY_BRACKET)]. *)
Fixpoint parseSectionVarsLoop (fuel : nat) (secType : ASTSectionType)
         (tok : Token) : M unit :=
  if TokenType_eqb (tok_Type tok) RIGHT_CURLY_BRACKET then ret tt
  else
    match fuel with
    | O => fun _ => OutOfFuel
    | S fuel' =>
      tok' <- parseVarDecl secType tok ;;
      parseSectionVarsLoop fuel' secType tok'
    end.

Definition parseSectionVars (secType : ASTSectionType) : M unit :=
  tok <- eatToken ;;
  tok <- (if TokenType_eqb (tok_Type tok) EOL then eatToken else ret tok) ;;
  p <- getParser ;;
  parseSectionVarsLoop (loopBudget p) secType tok.

(** *** The file *)

Definition newASTSection (secToken : Token) (name : string)
           (secType : ASTSectionType) : ASTSection :=
  mkASTSection (tok_pos secToken) secType name [].

(** A section of the file: the branch of [buildAST] for one section name. *)
Definition parseSection (secToken : Token) (secName : string)
           (secType : ASTSectionType) (msg : string)
           (body : M unit) : M unit :=
  p <- getParser ;;
  match sectionOf (FileNode p) secType with
  | Some _ => failAt msg secToken
  | None =>
    (fun p => Ret tt
                (set_FileNode p
                   (set_section (FileNode p) secType
                      (newASTSection secToken secName secType)))) ;;;
    body
  end.

(** One pass of the loop of [buildAST] on a token that is not a line end:
    a section, and the token after it. *)
Definition parseFileSection (currentToken : Token) : M Token :=
  (if negb (TokenType_eqb (tok_Type currentToken) IDENTIFIER)
   then failAt "Expected section identifier in global scope" currentToken
   else ret tt) ;;;
  let secToken := currentToken in
  currentToken <- eatToken ;;
  (if negb (TokenType_eqb (tok_Type currentToken) LEFT_CURLY_BRACKET)
   then failAt "Expected { after section identifier" currentToken
   else ret tt) ;;;
  secName <- tokenText secToken ;;
  (if String.eqb secName "static" then
     parseSection secToken secName STATIC "Section 'static' already defined"
                  (parseSectionVars STATIC)
   else if String.eqb secName "global" then
     parseSection secToken secName GLOBAL "Section 'global' already defined"
                  (parseSectionVars GLOBAL)
   else if String.eqb secName "code" then
     parseSection secToken secName CODE "Section 'code' already defined"
                  parseSectionCode
   else failAt "Unknown section type" secToken) ;;;
  eatToken.

(** The loop [while (currentToken->Type != END_OF_FILE)]. *)
Fixpoint buildASTLoop (fuel : nat) (currentToken : Token) : M unit :=
  if TokenType_eqb (tok_Type currentToken) END_OF_FILE then ret tt
  else
    match fuel with
    | O => fun _ => OutOfFuel
    | S fuel' =>
      if TokenType_eqb (tok_Type currentToken) EOL then
        t <- eatToken ;;
        buildASTLoop fuel' t
      else
        t <- parseFileSection currentToken ;;
        buildASTLoop fuel' t
    end.

(** [buildAST]: the returned flag and the parser afterwards; [None] is an
    abort or the exhaustion of the loop budget. *)
Definition buildAST (p : Parser) : option (bool * Parser) :=
  let loop := (currentToken <- eatToken ;;
               buildASTLoop (loopBudget p) currentToken) in
  let finish (validInput : bool) (p' : Parser) :=
    match SecCode (FileNode p') with
    | None =>
      Some (false,
            set_Out p' (Out p' ++
                        [coutMsg ("Error: could not find code section"
                                    ++ nl)%string]))
    | Some _ => Some (validInput, p')
    end in
  match loop p with
  | Ret _ p' => finish true p'
  | RetFalse p' => finish false p'
  | Abort => None
  | OutOfFuel => None
  end.

End ParserFunctions.

(** * Specification-side definitions and example inputs *)

(** The magnitude the integer-fit check compares: the absolute value of
    the number read as [int64_t] when it is signed, the number itself
    otherwise. *)
Definition magnitude (num : Z) (isSigned : bool) : Z :=
  if isSigned then Z.abs (to_int64 num) else num.

Definition posAt (index size : Z) : SrcPos := mkSrcPos index size 1 (index + 1).

(** The instruction [push <type> <num>] as the parser builds it. *)
Definition push_int (type : UVMType) (num : Z) : Instruction :=
  mkInstruction (posAt 0 4) "push"
    [Node_TypeInfo (mkTypeInfo (posAt 5 2) type);
     Node_ASTInt (mkASTInt (posAt 9 3) num None false)]
    1 0 0.

(** The same instruction after the matcher has typed its literal. *)
Definition push_int_checked (type : UVMType) (num : Z) : Instruction :=
  mkInstruction (posAt 0 4) "push"
    [Node_TypeInfo (mkTypeInfo (posAt 5 2) type);
     Node_ASTInt (mkASTInt (posAt 9 3) num (Some type) false)]
    1 0 0.

(** ** Shape of signatures and of the signature tree *)

Definition isTypeParam (t : InstrParamType) : bool :=
  match t with INT_TYPE | FLOAT_TYPE => true | _ => false end.

Definition isNumParam (t : InstrParamType) : bool :=
  match t with INT_NUM | FLOAT_NUM => true | _ => false end.

(** Every [INT_NUM] and [FLOAT_NUM] of a signature has a type parameter
    somewhere before it ([seen]: one was already passed). *)
Fixpoint typeBeforeNums (seen : bool) (params : list InstrParamType) : bool :=
  match params with
  | [] => true
  | p :: ps =>
    (if isNumParam p then seen else true)
    && typeBeforeNums (seen || isTypeParam p) ps
  end.

Definition countTypeParams (params : list InstrParamType) : nat :=
  List.length (filter isTypeParam params).

Definition signatureTyped (pl : InstrParamList) : bool :=
  typeBeforeNums false (pl_Params pl)
  && (countTypeParams (pl_Params pl) <=? 1)%nat.

Definition hasTypeVariants (pl : InstrParamList) : bool :=
  negb (Z.land (pl_Flags pl) INSTR_FLAG_TYPE_VARIANTS =? 0).

(** The same on the tree, for the nodes below [node] when [hasType] tells
    whether the path to [node] passed a type parameter: a numeric child
    needs [hasType], and so does a signature with type variants. *)
Fixpoint typedBelow (hasType : bool) (node : InstrDefNode) : bool :=
  match node with
  | mkInstrDefNode _ _ children =>
    forallb
      (fun c =>
         let hasType' := hasType || isTypeParam (dn_Type c) in
         (if isNumParam (dn_Type c) then hasType else true)
         && match dn_ParamList c with
            | Some pl =>
              if hasTypeVariants pl
              then hasType' || match pl_OpcodeVariants pl with
                               | [] => true
                               | _ :: _ => false
                               end
              else true
            | None => true
            end
         && typedBelow hasType' c)
      children
  end.

(** A root without children carries the signature without parameters. *)
Definition rootComplete (node : InstrDefNode) : bool :=
  match dn_Children node, dn_ParamList node with
  | [], None => false
  | _, _ => true
  end.

Definition hasType (ws : WalkState) : bool :=
  match ws_type ws with Some _ => true | None => false end.

(** The root of the signature tree of [push]. *)
Definition pushDefNode : InstrDefNode :=
  nth 1 builtinInstrDefs emptyInstrDefNode.

(** ** Signatures and operands *)

(** The acceptance rule of each parameter category. *)
Definition accepts (t : InstrParamType) (astNode : ASTNode) : bool :=
  match t, astNode with
  | INT_TYPE, Node_TypeInfo typeInfo => isIntType (ti_DataType typeInfo)
  | FLOAT_TYPE, Node_TypeInfo typeInfo => isFloatType (ti_DataType typeInfo)
  | LABEL_ID, Node_Identifier _ => true
  | INT_REG, Node_RegisterId regId =>
    RegisterType_eqb (getRegisterType (reg_Id regId)) INTEGER
  | FLOAT_REG, Node_RegisterId regId =>
    RegisterType_eqb (getRegisterType (reg_Id regId)) FLOAT
  | REG_OFFSET, Node_RegisterOffset _ => true
  | INT_NUM, Node_ASTInt _ => true
  | FLOAT_NUM, Node_ASTFloat _ => true
  | SYS_INT, Node_ASTInt _ => true
  | _, _ => false
  end.

(** The operands of an instruction match a signature: as many operands as
    parameters, each accepted by its category. *)
Fixpoint operandsMatch (params : list InstrParamType)
         (operands : list ASTNode) : bool :=
  match params, operands with
  | [], [] => true
  | t :: params', astNode :: operands' =>
    accepts t astNode && operandsMatch params' operands'
  | _, _ => false
  end.

(** The [TypeInfo] operand of an instruction (the last one, should there be
    several), and the number of [TypeInfo] operands. *)
Fixpoint lastTypeInfo (operands : list ASTNode) (acc : option TypeInfo)
  : option TypeInfo :=
  match operands with
  | [] => acc
  | Node_TypeInfo typeInfo :: rest => lastTypeInfo rest (Some typeInfo)
  | _ :: rest => lastTypeInfo rest acc
  end.

Definition isTypeInfoNode (astNode : ASTNode) : bool :=
  match astNode with Node_TypeInfo _ => true | _ => false end.

Definition countTypeInfos (operands : list ASTNode) : nat :=
  List.length (filter isTypeInfoNode operands).

Definition UVMType_eq_dec (a b : UVMType) : {a = b} + {a <> b}.
Proof. decide equality. Defined.

Definition InstrParamType_eq_dec (a b : InstrParamType) : {a = b} + {a <> b}.
Proof. decide equality. Defined.

Definition TypeVariant_eq_dec (a b : TypeVariant) : {a = b} + {a <> b}.
Proof. decide equality; [apply Z.eq_dec | apply UVMType_eq_dec]. Defined.

Definition InstrParamList_eq_dec (a b : InstrParamList) : {a = b} + {a <> b}.
Proof.
  decide equality;
    [apply (list_eq_dec TypeVariant_eq_dec)
    | apply (list_eq_dec InstrParamType_eq_dec)
    | apply Z.eq_dec | apply Z.eq_dec].
Defined.

Definition inSignatures (pl : InstrParamList) (sigs : list InstrParamList)
  : bool :=
  existsb (fun s => if InstrParamList_eq_dec pl s then true else false) sigs.

Definition sameParams (a b : list InstrParamType) : bool :=
  if list_eq_dec InstrParamType_eq_dec a b then true else false.

(** The signature attached to a node is a signature of the mnemonic whose
    parameters are the categories on the path to the node. *)
Definition signatureAt (sigs : list InstrParamList)
           (path : list InstrParamType) (node : InstrDefNode) : bool :=
  match dn_ParamList node with
  | Some pl => sameParams (pl_Params pl) path && inSignatures pl sigs
  | None => true
  end.

Fixpoint signaturesBelow (sigs : list InstrParamList)
         (path : list InstrParamType) (node : InstrDefNode) : bool :=
  match node with
  | mkInstrDefNode _ _ children =>
    forallb
      (fun c =>
         signatureAt sigs (path ++ [dn_Type c]) c
         && signaturesBelow sigs (path ++ [dn_Type c]) c)
      children
  end.

(** The tree of a mnemonic holds signatures of that mnemonic only. *)
Definition treeOfSignatures (sigs : list InstrParamList)
           (node : InstrDefNode) : bool :=
  signatureAt sigs [] node && signaturesBelow sigs [] node.

Fixpoint forall2b {A B} (f : A -> B -> bool) (l : list A) (m : list B)
  : bool :=
  match l, m with
  | [], [] => true
  | a :: l', b :: m' => f a b && forall2b f l' m'
  | _, _ => false
  end.

Definition variantTypes (pl : InstrParamList) : list UVMType :=
  map tv_Type (pl_OpcodeVariants pl).

Definition hasVariant (pl : InstrParamList) (t : UVMType) : bool :=
  existsb (UVMType_eqb t) (variantTypes pl).

Fixpoint distinctTypes (types : list UVMType) : bool :=
  match types with
  | [] => true
  | t :: rest => negb (existsb (UVMType_eqb t) rest) && distinctTypes rest
  end.

(** A signature with type variants has a type parameter, one variant per
    type that parameter admits, and no two variants for one type. *)
Definition variantsComplete (pl : InstrParamList) : bool :=
  if hasTypeVariants pl then
    distinctTypes (variantTypes pl)
    && existsb isTypeParam (pl_Params pl)
    && forallb
         (fun t =>
            match t with
            | INT_TYPE =>
              forallb (hasVariant pl)
                      [UVM_TYPE_I8; UVM_TYPE_I16; UVM_TYPE_I32; UVM_TYPE_I64]
            | FLOAT_TYPE =>
              forallb (hasVariant pl) [UVM_TYPE_F32; UVM_TYPE_F64]
            | _ => true
            end)
         (pl_Params pl)
  else true.

(** The instruction [exit] as the parser builds it. *)
Definition exit_instr : Instruction :=
  mkInstruction (posAt 0 4) "exit" [] 9 0 0.

(** [astNode'] is [astNode], up to the [DataType] the type checker writes
    into a literal. *)
Definition sameKind (astNode astNode' : ASTNode) : Prop :=
  match astNode, astNode' with
  | Node_ASTInt n, Node_ASTInt n' =>
    int_pos n' = int_pos n /\ int_Num n' = int_Num n
    /\ int_IsSigned n' = int_IsSigned n
  | Node_ASTFloat f, Node_ASTFloat f' =>
    fl_pos f' = fl_pos f /\ fl_Num f' = fl_Num f
  | _, _ => astNode' = astNode
  end.

(** ** Diagnostics of the signature walk *)

(** The category prints a diagnostic about the operand and does not accept
    it: a type of the other kind, a register of the other class. *)
Definition complains (t : InstrParamType) (astNode : ASTNode) : bool :=
  match t, astNode with
  | INT_TYPE, Node_TypeInfo typeInfo =>
    negb (isIntType (ti_DataType typeInfo))
  | FLOAT_TYPE, Node_TypeInfo typeInfo =>
    negb (isFloatType (ti_DataType typeInfo))
  | INT_REG, Node_RegisterId regId =>
    negb (RegisterType_eqb (getRegisterType (reg_Id regId)) INTEGER)
  | FLOAT_REG, Node_RegisterId regId =>
    negb (RegisterType_eqb (getRegisterType (reg_Id regId)) FLOAT)
  | _, _ => false
  end.

Definition hasChild (t : InstrParamType) (children : list InstrDefNode)
  : bool :=
  existsb (fun c => InstrParamType_eqb (dn_Type c) t) children.

(** No node offers both an integer and a float type, or both an integer and
    a float register, at one position. *)
Definition exclusiveChildren (children : list InstrDefNode) : bool :=
  negb (hasChild INT_TYPE children && hasChild FLOAT_TYPE children)
  && negb (hasChild INT_REG children && hasChild FLOAT_REG children).

Fixpoint exclusiveBelow (node : InstrDefNode) : bool :=
  match node with
  | mkInstrDefNode _ _ children =>
    exclusiveChildren children && forallb exclusiveBelow children
  end.

Definition isNil {A} (l : list A) : bool :=
  match l with [] => true | _ :: _ => false end.

(** A step of the type checker that started with the log [out] and the
    error flag [err] and ended with [out'] and [err']: it appended
    diagnostics, and the flag is set exactly if it was set before or a
    diagnostic was appended. *)
Definition logged (out : list Diagnostic) (err : bool)
           (out' : list Diagnostic) (err' : bool) : Prop :=
  exists errs, out' = out ++ errs /\ err' = err || negb (isNil errs).

(** One choice of three distinct permission bits, for the examples. *)
Definition examplePerms : SecPermConsts :=
  {| SEC_PERM_READ := 0x80; SEC_PERM_WRITE := 0x40; SEC_PERM_EXECUTE := 0x20 |}.

(** [std::stod] on the literals the examples contain; another text is not
    converted. *)
Definition exampleLib : StdLib :=
  {| stod := fun s =>
       if String.eqb s "1.5" then StoValue (S754_finite false (3 * 2 ^ 51) (-52))
       else if String.eqb s "-1.5"
            then StoValue (S754_finite true (3 * 2 ^ 51) (-52))
            else StoInvalidArgument |}.

(** ** Example inputs

    Token streams as the scanner contract describes them, written out by
    hand for small source texts. *)

Definition tk (type : TokenType) (index size row col : Z) : Token :=
  mkToken type (mkSrcPos index size row col) TagNone.

(** The happy path: a push of a typed literal and an exit. *)
Definition s1_src : string :=
  "code {
@main
    push i32 42
    exit
}
".

Definition s1_tokens : list Token :=
  [ tk IDENTIFIER 0 4 1 1; tk LEFT_CURLY_BRACKET 5 1 1 6; tk EOL 6 1 1 7;
    tk LABEL_DEF 7 5 2 1; tk EOL 12 1 2 6;
    mkToken INSTRUCTION (mkSrcPos 17 4 3 5) (TagInstr 1);
    mkToken TYPE_INFO (mkSrcPos 22 3 3 10) (TagType UVM_TYPE_I32);
    tk INTEGER_NUMBER 26 2 3 14; tk EOL 28 1 3 16;
    mkToken INSTRUCTION (mkSrcPos 33 4 4 5) (TagInstr 9); tk EOL 37 1 4 9;
    tk RIGHT_CURLY_BRACKET 38 1 5 1; tk EOL 39 1 5 2;
    tk END_OF_FILE 40 0 6 1 ].

(** Two labels named main. *)
Definition s5_src : string :=
  "code {
@main
@main
}
".

Definition s5_tokens : list Token :=
  [ tk IDENTIFIER 0 4 1 1; tk LEFT_CURLY_BRACKET 5 1 1 6; tk EOL 6 1 1 7;
    tk LABEL_DEF 7 5 2 1; tk EOL 12 1 2 6; tk LABEL_DEF 13 5 3 1;
    tk EOL 18 1 3 6; tk RIGHT_CURLY_BRACKET 19 1 4 1; tk EOL 20 1 4 2;
    tk END_OF_FILE 21 0 5 1 ].

(** A file with one error of every recoverable kind. *)
Definition many_src : string :=
  "static {
    x : i8 = 1
    x : i8 = 2
}
code {
@main
@main
    push i8 256
    push f32 1
    jmp nowhere
    lea [y], r0
}
".

Definition many_tokens : list Token :=
  [ tk IDENTIFIER 0 6 1 1; tk LEFT_CURLY_BRACKET 7 1 1 8; tk EOL 8 1 1 9;
    tk IDENTIFIER 13 1 2 5; tk COLON 15 1 2 7;
    mkToken TYPE_INFO (mkSrcPos 17 2 2 9) (TagType UVM_TYPE_I8);
    tk EQUALS_SIGN 20 1 2 12; tk INTEGER_NUMBER 22 1 2 14;
    tk EOL 23 1 2 15; tk IDENTIFIER 28 1 3 5; tk COLON 30 1 3 7;
    mkToken TYPE_INFO (mkSrcPos 32 2 3 9) (TagType UVM_TYPE_I8);
    tk EQUALS_SIGN 35 1 3 12; tk INTEGER_NUMBER 37 1 3 14;
    tk EOL 38 1 3 15; tk RIGHT_CURLY_BRACKET 39 1 4 1; tk EOL 40 1 4 2;
    tk IDENTIFIER 41 4 5 1; tk LEFT_CURLY_BRACKET 46 1 5 6;
    tk EOL 47 1 5 7; tk LABEL_DEF 48 5 6 1; tk EOL 53 1 6 6;
    tk LABEL_DEF 54 5 7 1; tk EOL 59 1 7 6;
    mkToken INSTRUCTION (mkSrcPos 64 4 8 5) (TagInstr 1);
    mkToken TYPE_INFO (mkSrcPos 69 2 8 10) (TagType UVM_TYPE_I8);
    tk INTEGER_NUMBER 72 3 8 13; tk EOL 75 1 8 16;
    mkToken INSTRUCTION (mkSrcPos 80 4 9 5) (TagInstr 1);
    mkToken TYPE_INFO (mkSrcPos 85 3 9 10) (TagType UVM_TYPE_F32);
    tk INTEGER_NUMBER 89 1 9 14; tk EOL 90 1 9 15;
    mkToken INSTRUCTION (mkSrcPos 95 3 10 5) (TagInstr 47);
    tk IDENTIFIER 99 7 10 9; tk EOL 106 1 10 16;
    mkToken INSTRUCTION (mkSrcPos 111 3 11 5) (TagInstr 13);
    tk LEFT_SQUARE_BRACKET 115 1 11 9; tk IDENTIFIER 116 1 11 10;
    tk RIGHT_SQUARE_BRACKET 117 1 11 11; tk COMMA 118 1 11 12;
    mkToken REGISTER_DEFINITION (mkSrcPos 120 2 11 14) (TagRegister 0x05);
    tk EOL 122 1 11 16; tk RIGHT_CURLY_BRACKET 123 1 12 1;
    tk EOL 124 1 12 2; tk END_OF_FILE 125 0 13 1 ].

(** A sign that does not touch its number. *)
Definition gap_src : string :=
  "code {
@main
    push i32 - 1
}
".

Definition gap_tokens : list Token :=
  [ tk IDENTIFIER 0 4 1 1; tk LEFT_CURLY_BRACKET 5 1 1 6; tk EOL 6 1 1 7;
    tk LABEL_DEF 7 5 2 1; tk EOL 12 1 2 6;
    mkToken INSTRUCTION (mkSrcPos 17 4 3 5) (TagInstr 1);
    mkToken TYPE_INFO (mkSrcPos 22 3 3 10) (TagType UVM_TYPE_I32);
    tk MINUS_SIGN 26 1 3 14; tk INTEGER_NUMBER 28 1 3 16; tk EOL 29 1 3 17;
    tk RIGHT_CURLY_BRACKET 30 1 4 1; tk EOL 31 1 4 2;
    tk END_OF_FILE 32 0 5 1 ].

(** The same with a comma behind the type. *)
Definition commagap_src : string :=
  "code {
@main
    push i32, - 1
}
".

Definition commagap_tokens : list Token :=
  [ tk IDENTIFIER 0 4 1 1; tk LEFT_CURLY_BRACKET 5 1 1 6; tk EOL 6 1 1 7;
    tk LABEL_DEF 7 5 2 1; tk EOL 12 1 2 6;
    mkToken INSTRUCTION (mkSrcPos 17 4 3 5) (TagInstr 1);
    mkToken TYPE_INFO (mkSrcPos 22 3 3 10) (TagType UVM_TYPE_I32);
    tk COMMA 25 1 3 13; tk MINUS_SIGN 27 1 3 15;
    tk INTEGER_NUMBER 29 1 3 17; tk EOL 30 1 3 18;
    tk RIGHT_CURLY_BRACKET 31 1 4 1; tk EOL 32 1 4 2;
    tk END_OF_FILE 33 0 5 1 ].

(** A sign that touches its number. *)
Definition adjacent_src : string :=
  "code {
@main
    push i32 -1
}
".

Definition adjacent_tokens : list Token :=
  [ tk IDENTIFIER 0 4 1 1; tk LEFT_CURLY_BRACKET 5 1 1 6; tk EOL 6 1 1 7;
    tk LABEL_DEF 7 5 2 1; tk EOL 12 1 2 6;
    mkToken INSTRUCTION (mkSrcPos 17 4 3 5) (TagInstr 1);
    mkToken TYPE_INFO (mkSrcPos 22 3 3 10) (TagType UVM_TYPE_I32);
    tk MINUS_SIGN 26 1 3 14; tk INTEGER_NUMBER 27 1 3 15; tk EOL 28 1 3 16;
    tk RIGHT_CURLY_BRACKET 29 1 4 1; tk EOL 30 1 4 2;
    tk END_OF_FILE 31 0 5 1 ].

(** A variable whose sign does not touch its number. *)
Definition vargap_src : string :=
  "static {
    x : i32 = - 1
}
code {
@main
}
".

Definition vargap_tokens : list Token :=
  [ tk IDENTIFIER 0 6 1 1; tk LEFT_CURLY_BRACKET 7 1 1 8; tk EOL 8 1 1 9;
    tk IDENTIFIER 13 1 2 5; tk COLON 15 1 2 7;
    mkToken TYPE_INFO (mkSrcPos 17 3 2 9) (TagType UVM_TYPE_I32);
    tk EQUALS_SIGN 21 1 2 13; tk MINUS_SIGN 23 1 2 15;
    tk INTEGER_NUMBER 25 1 2 17; tk EOL 26 1 2 18;
    tk RIGHT_CURLY_BRACKET 27 1 3 1; tk EOL 28 1 3 2;
    tk IDENTIFIER 29 4 4 1; tk LEFT_CURLY_BRACKET 34 1 4 6;
    tk EOL 35 1 4 7; tk LABEL_DEF 36 5 5 1; tk EOL 41 1 5 6;
    tk RIGHT_CURLY_BRACKET 42 1 6 1; tk EOL 43 1 6 2;
    tk END_OF_FILE 44 0 7 1 ].

(** A load from the frame: [bp - 4]. *)
Definition bp4_src : string :=
  "code {
@main
    load i32 [bp - 4], r0
}
".

Definition bp4_tokens : list Token :=
  [ tk IDENTIFIER 0 4 1 1; tk LEFT_CURLY_BRACKET 5 1 1 6; tk EOL 6 1 1 7;
    tk LABEL_DEF 7 5 2 1; tk EOL 12 1 2 6;
    mkToken INSTRUCTION (mkSrcPos 17 4 3 5) (TagInstr 3);
    mkToken TYPE_INFO (mkSrcPos 22 3 3 10) (TagType UVM_TYPE_I32);
    tk LEFT_SQUARE_BRACKET 26 1 3 14;
    mkToken REGISTER_DEFINITION (mkSrcPos 27 2 3 15) (TagRegister 0x03);
    tk MINUS_SIGN 30 1 3 18; tk INTEGER_NUMBER 32 1 3 20;
    tk RIGHT_SQUARE_BRACKET 33 1 3 21; tk COMMA 34 1 3 22;
    mkToken REGISTER_DEFINITION (mkSrcPos 36 2 3 24) (TagRegister 0x05);
    tk EOL 38 1 3 26; tk RIGHT_CURLY_BRACKET 39 1 4 1; tk EOL 40 1 4 2;
    tk END_OF_FILE 41 0 5 1 ].


(** The double -2^130, about -1.36e39: its magnitude is above [FLT_MAX]. *)
Definition neg_2_pow_130 : double := S754_finite true (2 ^ 52) 78.

(** A variable [name : i32 = 0] as the parser builds it. *)
Definition exampleVariable (name : string) : ASTVariable :=
  mkASTVariable (posAt 0 10) (mkIdentifier (posAt 0 1) name)
                (mkTypeInfo (posAt 4 3) UVM_TYPE_I32)
                (Node_ASTInt (mkASTInt (posAt 10 1) 0 None false)) 0.

(** ** The walk over the Code section *)

(** The label definitions of a body, in order. *)
Fixpoint labelsOf (body : list ASTNode) : list LabelDef :=
  match body with
  | [] => []
  | Node_LabelDef l :: rest => l :: labelsOf rest
  | _ :: rest => labelsOf rest
  end.

Definition cs_set_error (cs : CheckState) (e : bool) : CheckState :=
  mkCheckState (cs_LabelDefs cs) (cs_labelRefs cs) (cs_out cs) e.

(** The parser after [buildAST] on an example, and after [typeCheck]. *)
Definition parsed (src : string) (tokens : list Token) : Parser :=
  match @buildAST exampleLib (newParser builtinInstrDefs src tokens) with
  | Some (_, p) => p
  | None => newParser builtinInstrDefs src tokens
  end.

Definition checked (src : string) (tokens : list Token) : Parser :=
  match @typeCheck examplePerms (parsed src tokens) with
  | Some (_, p) => p
  | None => parsed src tokens
  end.

(** A file with a variable reference and a label reference. *)
Definition refs_src : string :=
  "static {
    msg : i8 = 1
}
code {
@main
    lea [msg], r0
    jmp main
}
".

Definition refs_tokens : list Token :=
  [ tk IDENTIFIER 0 6 1 1; tk LEFT_CURLY_BRACKET 7 1 1 8; tk EOL 8 1 1 9;
    tk IDENTIFIER 13 3 2 5; tk COLON 17 1 2 9;
    mkToken TYPE_INFO (mkSrcPos 19 2 2 11) (TagType UVM_TYPE_I8);
    tk EQUALS_SIGN 22 1 2 14; tk INTEGER_NUMBER 24 1 2 16;
    tk EOL 25 1 2 17; tk RIGHT_CURLY_BRACKET 26 1 3 1; tk EOL 27 1 3 2;
    tk IDENTIFIER 28 4 4 1; tk LEFT_CURLY_BRACKET 33 1 4 6;
    tk EOL 34 1 4 7; tk LABEL_DEF 35 5 5 1; tk EOL 40 1 5 6;
    mkToken INSTRUCTION (mkSrcPos 45 3 6 5) (TagInstr 13);
    tk LEFT_SQUARE_BRACKET 49 1 6 9; tk IDENTIFIER 50 3 6 10;
    tk RIGHT_SQUARE_BRACKET 53 1 6 13; tk COMMA 54 1 6 14;
    mkToken REGISTER_DEFINITION (mkSrcPos 56 2 6 16) (TagRegister 0x05);
    tk EOL 58 1 6 18;
    mkToken INSTRUCTION (mkSrcPos 63 3 7 5) (TagInstr 47);
    tk IDENTIFIER 67 4 7 9; tk EOL 71 1 7 13;
    tk RIGHT_CURLY_BRACKET 72 1 8 1; tk EOL 73 1 8 2;
    tk END_OF_FILE 74 0 9 1 ].


(** ** Signed literals *)

Section SignedLiterals.

Context {lib : StdLib}.

(** The operand a number token [t] gives when [text] is converted: an
    integer with the flag [isSigned], or a float. *)
Definition intOperand (t : Token) (text : string) (isSigned : bool)
  : M unit :=
  match strToInt text with
  | None => abort
  | Some None => failAt "Integer does not fit into 64-bit value" t
  | Some (Some num) => pushParam (Node_ASTInt (newASTInt t num isSigned))
  end.

Definition floatOperand (t : Token) (text : string) : M unit :=
  match strToFP text with
  | None => failAt "Float does not fit into 64-bit value" t
  | Some num => pushParam (Node_ASTFloat (newASTFloat t num))
  end.

(** The same for the value of a variable of type [typeInfo]. *)
Definition intValue (typeInfo : TypeInfo) (t : Token) (text : string)
           (isSigned : bool) : M (ASTNode * Token) :=
  match strToInt text with
  | None => abort
  | Some None => failAt "Integer does not fit into 64-bit value" t
  | Some (Some intVal) =>
    if negb (checkIntWidth intVal (ti_DataType typeInfo) isSigned)
    then failAt "Integer does not fit into given type value" t
    else ret (Node_ASTInt (newASTInt t intVal isSigned), t)
  end.

Definition floatValue (typeInfo : TypeInfo) (t : Token) (text : string)
  : M (ASTNode * Token) :=
  match strToFP text with
  | None => failAt "Floating-point value does not fit into 64-bit value" t
  | Some floatVal =>
    if negb (checkFloatWidth floatVal (ti_DataType typeInfo))
    then failAt "Floating-point value does not fit into given value" t
    else ret (Node_ASTFloat (newASTFloat t floatVal), t)
  end.

End SignedLiterals.

(** The operands of the instruction pushed last into the Code section. *)
Definition lastInstrParams (p : Parser) : list ASTNode :=
  match SecCode (FileNode p) with
  | Some s =>
    match rev (sec_Body s) with
    | Node_Instruction instr :: _ => ins_Params instr
    | _ => []
    end
  | None => []
  end.

(** The parser in front of the sign of [push i32 - 1]: the mnemonic and
    the type are eaten. *)
Definition gap_at_sign : Parser :=
  mkParser builtinInstrDefs gap_src gap_tokens 8
           (FileNode (parsed gap_src gap_tokens)) [] [] [].

(** ** The token cursor *)

(** The token the [k]-th next call of [eatToken] returns: the token at the
    cursor plus [k], or the last token once the stream is used up. *)
Definition tokenAt (p : Parser) (k : nat) : option Token :=
  match nth_error (Tokens p) (Cursor p + k) with
  | Some t => Some t
  | None =>
    match Tokens p with
    | [] => None
    | t0 :: rest => Some (last rest t0)
    end
  end.

Definition tokenTextOf (p : Parser) (t : Token) : string :=
  getSubStr (Src p) (tok_Index t) (tok_Size t).

(** The layout bit of the sign token of a register offset. *)
Definition signLayout (sign : Token) : Z :=
  match tok_Type sign with
  | MINUS_SIGN => 0x80
  | _ => 0x00
  end.

(** What the sub-parser promises about the node [ro] it pushes when it is
    entered at the token behind the opening bracket: the form of the
    operand, read off the tokens, decides the layout. *)
Definition regOffsetOf (p : Parser) (ro : RegisterOffset) : Prop :=
  exists t0,
    tokenAt p 0 = Some t0
    /\ match tok_Type t0 with
       | IDENTIFIER =>
         ro_Layout ro = 0
         /\ ro_Var ro = Some (mkIdentifier (tok_pos t0) (tokenTextOf p t0))
         /\ ro_Base ro = None /\ ro_Offset ro = None
       | REGISTER_DEFINITION =>
         exists id t1,
           tok_Tag t0 = TagRegister id
           /\ getRegisterType id = INTEGER
           /\ ro_Base ro = Some (mkRegisterId (tok_pos t0) id)
           /\ ro_Var ro = None
           /\ tokenAt p 1 = Some t1
           /\ match tok_Type t1 with
              | RIGHT_SQUARE_BRACKET =>
                ro_Layout ro = 0x4F /\ ro_Offset ro = None
              | PLUS_SIGN | MINUS_SIGN =>
                exists t2,
                  tokenAt p 2 = Some t2
                  /\ match tok_Type t2 with
                     | INTEGER_NUMBER =>
                       ro_Layout ro = Z.lor (signLayout t1) 0x2F
                       /\ ro_Offset ro = None
                       /\ strToInt (tokenTextOf p t2)
                          = Some (Some (ro_Immediate_U32 ro))
                       /\ ro_Immediate_U32 ro < 2 ^ 32
                     | REGISTER_DEFINITION =>
                       ro_Layout ro = Z.lor (signLayout t1) 0x1F
                       /\ exists id2 t3 t4,
                           tok_Tag t2 = TagRegister id2
                           /\ getRegisterType id2 = INTEGER
                           /\ ro_Offset ro
                              = Some (mkRegisterId (tok_pos t2) id2)
                           /\ tokenAt p 3 = Some t3
                           /\ tok_Type t3 = ASTERISK
                           /\ tokenAt p 4 = Some t4
                           /\ strToInt (tokenTextOf p t4)
                              = Some (Some (ro_Immediate_U16 ro))
                           /\ ro_Immediate_U16 ro < 2 ^ 16
                     | _ => False
                     end
              | _ => False
              end
       | _ => False
       end.

(** The parser in front of [bp - 4]: the opening bracket is eaten. *)
Definition bp4_in_bracket : Parser :=
  mkParser builtinInstrDefs bp4_src bp4_tokens 8
           (mkASTFileNode None None
              (Some (mkASTSection (mkSrcPos 0 4 1 1) CODE "code"
                       [Node_Instruction
                          (mkInstruction (mkSrcPos 17 4 3 5) "load"
                             [Node_TypeInfo
                                (mkTypeInfo (mkSrcPos 22 3 3 10) UVM_TYPE_I32)]
                             3 0 0)])))
           [] [] [].

(** The parser behind the closing bracket of [bp - 4]. *)
Definition bp4_after_bracket : Parser :=
  match parseRegOffset bp4_in_bracket with
  | Ret _ p' => p'
  | _ => bp4_in_bracket
  end.
(** ** Further notions used by the properties of the helpers *)

(** The number of bits of an integer type. *)
Definition intBits (t : UVMType) : option Z :=
  match t with
  | UVM_TYPE_I8 => Some 8
  | UVM_TYPE_I16 => Some 16
  | UVM_TYPE_I32 => Some 32
  | UVM_TYPE_I64 => Some 64
  | _ => None
  end.

(** The class the name of a register announces: the names of the float
    registers start with f. *)
Definition registerClassOfName (name : string) : RegisterType :=
  match name with
  | String "f" _ => FLOAT
  | _ => INTEGER
  end.

(** The tokens the cursor has not passed. *)
Definition remaining (p : Parser) : nat :=
  (List.length (Tokens p) - Cursor p)%nat.

(** The contract of the scanner on the end of the stream: the last token is
    the end of the file. *)
Definition endsWithEOF (tokens : list Token) : bool :=
  match tokens with
  | [] => false
  | t0 :: rest => TokenType_eqb (tok_Type (last rest t0)) END_OF_FILE
  end.
(** ** [Parser::skipLine] *)

(** The loop [while (tok->Type != END_OF_FILE && tok->Type != EOL)]. *)
Fixpoint skipLineLoop (fuel : nat) (tok : Token) : M unit :=
  if negb (TokenType_eqb (tok_Type tok) END_OF_FILE)
     && negb (TokenType_eqb (tok_Type tok) EOL)
  then
    match fuel with
    | O => fun _ => OutOfFuel
    | S fuel' =>
      tok <- eatToken ;;
      skipLineLoop fuel' tok
    end
  else ret tt.

Definition skipLine : M unit :=
  tok <- eatToken ;;
  p <- getParser ;;
  skipLineLoop (loopBudget p) tok.

(** A token that ends a line. *)
Definition isLineEnd (t : Token) : bool :=
  TokenType_eqb (tok_Type t) END_OF_FILE || TokenType_eqb (tok_Type t) EOL.
(** ** Notions for [parseStringEscape] *)

(** No byte of the string is a backslash. *)
Fixpoint noBackslash (s : string) : bool :=
  match s with
  | EmptyString => true
  | String c rest => negb (Ascii.eqb c "\"%char) && noBackslash rest
  end.

(** The bytes that may follow a backslash. *)
Definition isEscapeChar (c : ascii) : bool :=
  existsb (Ascii.eqb c)
          ["t"; "v"; "0"; "b"; "f"; "n"; "r"; ascii_of_nat 34; "\"]%char.
(** ** Decimal literals *)

(** The decimal digits of a number, as the scanner hands them over. *)
Definition decimal (n : N) : string :=
  NilEmpty.string_of_uint (N.to_uint n).

(** ** The tree the parser builds

    What [buildAST] promises about the tree it hands to the type checker,
    as boolean tests on the nodes. *)

Definition isIntRegister (r : RegisterId) : bool :=
  RegisterType_eqb (getRegisterType (reg_Id r)) INTEGER.

(** A register offset in one of the forms of the sub-parser. *)
Definition roWellFormed (ro : RegisterOffset) : bool :=
  match ro_Var ro, ro_Base ro, ro_Offset ro with
  | Some _, None, None => ro_Layout ro =? 0
  | None, Some base, None =>
    isIntRegister base
    && ((ro_Layout ro =? 0x4F)
        || ((ro_Layout ro =? 0x2F) || (ro_Layout ro =? 0xAF))
           && (0 <=? ro_Immediate_U32 ro) && (ro_Immediate_U32 ro <? 2 ^ 32))
  | None, Some base, Some offset =>
    isIntRegister base && isIntRegister offset
    && ((ro_Layout ro =? 0x1F) || (ro_Layout ro =? 0x9F))
  | _, _, _ => false
  end.

(** A node the operand loop appends to an instruction: literals are not
    annotated yet and integers are in the range of [int64_t]. *)
Definition isOperand (node : ASTNode) : bool :=
  match node with
  | Node_TypeInfo _ | Node_Identifier _ | Node_RegisterId _ => true
  | Node_ASTInt n =>
    (- 2 ^ 63 <=? int_Num n) && (int_Num n <? 2 ^ 63)
    && match int_DataType n with None => true | Some _ => false end
  | Node_ASTFloat f =>
    match fl_DataType f with None => true | Some _ => false end
  | Node_RegisterOffset ro => roWellFormed ro
  | _ => false
  end.

(** A node of the body of the Code section: a label, or an instruction
    whose definition index is below [n], with operands and without an
    opcode yet. *)
Definition isCodeNode (n : nat) (node : ASTNode) : bool :=
  match node with
  | Node_LabelDef _ => true
  | Node_Instruction instr =>
    (ins_ASMDefIndex instr <? n)%nat
    && forallb isOperand (ins_Params instr)
    && (ins_Opcode instr =? 0) && (ins_EncodingFlags instr =? 0)
  | _ => false
  end.

(** The value of a variable fits the declared type. *)
Definition valueFits (typeInfo : TypeInfo) (val : ASTNode) : bool :=
  match val with
  | Node_ASTString _ => true
  | Node_ASTInt n =>
    checkIntWidth (to_uint64 (int_Num n)) (ti_DataType typeInfo)
                  (int_IsSigned n)
  | Node_ASTFloat f => checkFloatWidth (fl_Num f) (ti_DataType typeInfo)
  | _ => false
  end.

(** A node of the body of the Static or Global section. *)
Definition isVarNode (node : ASTNode) : bool :=
  match node with
  | Node_ASTVariable v => valueFits (var_DataType v) (var_Val v)
  | _ => false
  end.

Definition isSectionNode (n : nat) (secType : ASTSectionType)
  : ASTNode -> bool :=
  match secType with
  | CODE => isCodeNode n
  | _ => isVarNode
  end.

Definition ASTSectionType_eqb (a b : ASTSectionType) : bool :=
  match a, b with
  | STATIC, STATIC | GLOBAL, GLOBAL | CODE, CODE => true
  | _, _ => false
  end.

Definition sectionWellFormed (n : nat) (secType : ASTSectionType)
           (sec : option ASTSection) : bool :=
  match sec with
  | None => true
  | Some s =>
    ASTSectionType_eqb (sec_SecType s) secType
    && forallb (isSectionNode n secType) (sec_Body s)
  end.

Definition wellFormed (n : nat) (f : ASTFileNode) : bool :=
  sectionWellFormed n STATIC (SecStatic f)
  && sectionWellFormed n GLOBAL (SecGlobal f)
  && sectionWellFormed n CODE (SecCode f).

(** The contract of the scanner on tags: the tag of an instruction token is
    an index into the [n] instruction definitions. *)
Definition tagInRange (n : nat) (t : Token) : bool :=
  match tok_Type t with
  | INSTRUCTION =>
    match tok_Tag t with
    | TagInstr i => (i <? n)%nat
    | _ => false
    end
  | _ => true
  end.

(** What a parsing function may do to the parser: move the cursor forward
    and extend the tree, keeping it well formed when the tokens keep the
    contract on tags. *)
Definition parserStep (n : nat) (p p' : Parser) : Prop :=
  Src p' = Src p /\ Tokens p' = Tokens p /\ InstrDefs p' = InstrDefs p
  /\ LabelDefs p' = LabelDefs p /\ VarDecls p' = VarDecls p
  /\ (Cursor p <= Cursor p')%nat
  /\ (forallb (tagInRange n) (Tokens p) = true ->
      wellFormed n (FileNode p) = true ->
      wellFormed n (FileNode p') = true)
  /\ (SecCode (FileNode p) <> None -> SecCode (FileNode p') <> None).

(** The discipline of the parsing functions on the token stream [tokens]:
    a function that returns has printed nothing and its value satisfies
    [Q]; a function that returns false has printed exactly one
    diagnostic. *)
Definition obeys {A : Type} (n : nat) (tokens : list Token) (c : M A)
           (Q : A -> Prop) : Prop :=
  forall p : Parser,
    Tokens p = tokens ->
    match c p with
    | Ret a p' => parserStep n p p' /\ Out p' = Out p /\ Q a
    | RetFalse p' => parserStep n p p' /\ exists d, Out p' = Out p ++ [d]
    | Abort => True
    | OutOfFuel => True
    end.

(** The parser of the body of a section, as [buildAST] selects it. *)
Definition parseSectionBody {lib : StdLib} (secType : ASTSectionType)
  : M unit :=
  match secType with
  | CODE => parseSectionCode
  | _ => parseSectionVars secType
  end.

(** ** Operands and register offsets, by their tokens *)

(** An instruction is being parsed: the node pushed last into the body of
    the Code section is an instruction, which [instr] points to. *)
Definition instrOpen (p : Parser) : Prop :=
  exists s instr before,
    SecCode (FileNode p) = Some s
    /\ rev (sec_Body s) = Node_Instruction instr :: before.

(** The tokens of a register offset the sub-parser accepts, read from the
    token behind the opening bracket. *)
Definition regOffsetTokens (p : Parser) : Prop :=
  exists t0,
    tokenAt p 0 = Some t0
    /\ match tok_Type t0 with
       | IDENTIFIER =>
         exists t1,
           tokenAt p 1 = Some t1 /\ tok_Type t1 = RIGHT_SQUARE_BRACKET
       | REGISTER_DEFINITION =>
         exists id t1,
           tok_Tag t0 = TagRegister id
           /\ getRegisterType id = INTEGER
           /\ tokenAt p 1 = Some t1
           /\ match tok_Type t1 with
              | RIGHT_SQUARE_BRACKET => True
              | PLUS_SIGN | MINUS_SIGN =>
                exists t2,
                  tokenAt p 2 = Some t2
                  /\ match tok_Type t2 with
                     | INTEGER_NUMBER =>
                       exists t3 num,
                         tokenAt p 3 = Some t3
                         /\ tok_Type t3 = RIGHT_SQUARE_BRACKET
                         /\ strToInt (tokenTextOf p t2) = Some (Some num)
                         /\ num < 2 ^ 32
                     | REGISTER_DEFINITION =>
                       exists id2 t3 t4 t5 num,
                         tok_Tag t2 = TagRegister id2
                         /\ getRegisterType id2 = INTEGER
                         /\ tokenAt p 3 = Some t3
                         /\ tok_Type t3 = ASTERISK
                         /\ tokenAt p 4 = Some t4
                         /\ strToInt (tokenTextOf p t4) = Some (Some num)
                         /\ num < 2 ^ 16
                         /\ tokenAt p 5 = Some t5
                         /\ tok_Type t5 = RIGHT_SQUARE_BRACKET
                     | _ => False
                     end
              | _ => False
              end
       | _ => False
       end.

(** The parser behind the type of [push i32, - 1], before the type is
    appended to the instruction. *)
Definition commagap_at_type : Parser :=
  mkParser builtinInstrDefs commagap_src commagap_tokens 7
           (mkASTFileNode None None
              (Some (mkASTSection (mkSrcPos 0 4 1 1) CODE "code"
                       [Node_LabelDef (mkLabelDef (mkSrcPos 7 5 2 1) "main");
                        Node_Instruction
                          (mkInstruction (mkSrcPos 17 4 3 5) "push" []
                                         1 0 0)])))
           [] [] [].

(** ** What the signature walk leaves of an instruction *)

(** The walk state grew: label references that satisfy [isRef] were
    collected and diagnostics were printed. *)
Definition walkGrows (isRef : Identifier -> Prop) (ws ws' : WalkState)
  : Prop :=
  (exists added,
      ws_labelRefs ws' = ws_labelRefs ws ++ added
      /\ forall i, In i added -> isRef i)
  /\ exists errs, ws_out ws' = ws_out ws ++ errs.

(** ** The entry point *)

(** The body defines a label named main. *)
Definition hasMain (body : list ASTNode) : bool :=
  existsb (fun l => String.eqb (ld_Name l) "main") (labelsOf body).

(** ** The table of variables *)

(** The names a table of variable declarations holds, and the names the
    variables of a section body declare. *)
Definition declNames (varDecls : list VarDeclaration) : list string :=
  map (fun d => id_Name (vd_Id d)) varDecls.

Fixpoint varNames (body : list ASTNode) : list string :=
  match body with
  | [] => []
  | Node_ASTVariable v :: rest => id_Name (var_Id v) :: varNames rest
  | _ :: rest => varNames rest
  end.

(** The index of a variable node leads to its own declaration. *)
Definition indexed (perm : Z) (varDecls : list VarDeclaration)
           (node : ASTNode) : Prop :=
  match node with
  | Node_ASTVariable v =>
    nth_error varDecls (var_VarDeclIndex v)
    = Some (mkVarDeclaration (var_Id v) perm)
  | _ => False
  end.

(** A Static section with one variable. *)
Definition exampleStatic : ASTSection :=
  mkASTSection (mkSrcPos 0 6 1 1) STATIC "static"
               [Node_ASTVariable (exampleVariable "x")].

(** ** Termination of the parser *)

(** The current token [t] of a loop is the token eaten last: once the
    cursor is at the end of the stream, it is the end of the file. *)
Definition atEnd (t : Token) (p : Parser) : Prop :=
  remaining p = 0%nat -> tok_Type t = END_OF_FILE.

(** A run of [c] from [p] on the stream [tokens] does not exhaust the loop
    budget of the model; when it returns, the cursor has not moved back and
    [Q] holds of the value and the parser. *)
Definition runsAt {A : Type} (tokens : list Token) (p : Parser) (c : M A)
           (Q : A -> Parser -> Prop) : Prop :=
  Tokens p = tokens ->
  match c p with
  | Ret a p' =>
    Tokens p' = tokens /\ (remaining p' <= remaining p)%nat /\ Q a p'
  | RetFalse _ => True
  | Abort => True
  | OutOfFuel => False
  end.

(** The run of the loop of [buildAST]. *)
Definition buildASTRun {lib : StdLib} (p : Parser) : Res unit :=
  (currentToken <- eatToken ;;
   buildASTLoop (loopBudget p) currentToken) p.

(** A step that leaves the cursor and the tokens as they are. *)
Definition still {A : Type} (c : M A) : Prop :=
  forall p : Parser,
    match c p with
    | Ret _ p' => Tokens p' = Tokens p /\ Cursor p' = Cursor p
    | RetFalse _ => True
    | Abort => True
    | OutOfFuel => False
    end.


(** * Properties *)

(** ** Integer widths *)

Lemma to_int64_range (z : Z) : - 2 ^ 63 <= to_int64 z < 2 ^ 63.
Proof.
  unfold to_int64.
  pose proof (Z.mod_pos_bound z (2 ^ 64) ltac:(lia)) as Hm.
  destruct (Z.ltb_spec (z mod 2 ^ 64) (2 ^ 63)); lia.
Qed.

Lemma to_uint64_abs_int64 (v : Z) :
  - 2 ^ 63 <= v < 2 ^ 63 -> to_uint64 (abs_int64 v) = Z.abs v.
Proof.
  intros Hv. unfold to_uint64, abs_int64, to_int64.
  assert (Ha : 0 <= Z.abs v <= 2 ^ 63) by lia.
  destruct (Z.eq_dec (Z.abs v) (2 ^ 63)) as [E | NE].
  - rewrite E. reflexivity.
  - rewrite (Z.mod_small (Z.abs v) (2 ^ 64)) by lia.
    destruct (Z.ltb_spec (Z.abs v) (2 ^ 63)); [| lia].
    apply Z.mod_small. lia.
Qed.

Lemma checkIntWidth_signed_magnitude (num : Z) (isSigned : bool) :
  0 <= num < 2 ^ 64 ->
  (if isSigned then to_uint64 (abs_int64 (to_int64 num)) else num)
  = magnitude num isSigned.
Proof.
  intros _. unfold magnitude. destruct isSigned; [| reflexivity].
  apply to_uint64_abs_int64, to_int64_range.
Qed.

(** C4.  For every 64-bit value, signedness flag and type, [checkIntWidth]
    succeeds exactly when the magnitude of the value (its absolute value as
    [int64_t] when the signed flag is set) is at most 0xFF for I8, 0xFFFF
    for I16, 0xFFFFFFFF for I32, and always for I64 (never for a float
    type).  In the type checker, the operand 256 under the type i8 is
    rejected with the range diagnostic and 255 is accepted. *)
Theorem checkIntWidth_magnitude_bound :
  forall (num : Z) (isSigned : bool) (type : UVMType),
    0 <= num < 2 ^ 64 ->
    (checkIntWidth num type isSigned = true <->
     match type with
     | UVM_TYPE_I8 => magnitude num isSigned <= 0xFF
     | UVM_TYPE_I16 => magnitude num isSigned <= 0xFFFF
     | UVM_TYPE_I32 => magnitude num isSigned <= 0xFFFFFFFF
     | UVM_TYPE_I64 => True
     | UVM_TYPE_F32 | UVM_TYPE_F64 => False
     end)
    /\ checkIntWidth 256 UVM_TYPE_I8 false = false
    /\ checkIntWidth 255 UVM_TYPE_I8 false = true
    /\ (exists instr',
          typeCheckInstrParams builtinInstrDefs (push_int UVM_TYPE_I8 256)
                               [] []
          = Some (false, instr', [],
                  [printErrorAt (posAt 9 3)
                     "Integer does not fit into given type"]))
    /\ (exists instr',
          typeCheckInstrParams builtinInstrDefs (push_int UVM_TYPE_I8 255)
                               [] []
          = Some (true, instr', [], [])).
Proof.
  intros num isSigned type Hnum.
  split; [| repeat split; try reflexivity; eexists; vm_compute; reflexivity].
  unfold checkIntWidth.
  rewrite (checkIntWidth_signed_magnitude num isSigned Hnum).
  destruct type; rewrite ?Z.leb_le; intuition congruence.
Qed.

Lemma checkIntWidth_magnitude_bound_witness :
  0 <= 2 ^ 64 - 200 < 2 ^ 64
  /\ magnitude (2 ^ 64 - 200) true = 200
  /\ checkIntWidth (2 ^ 64 - 200) UVM_TYPE_I8 true = true.
Proof.
  assert (H : 0 <= 2 ^ 64 - 200 < 2 ^ 64) by lia.
  split; [exact H |].
  split; [reflexivity |].
  apply (proj1 (checkIntWidth_magnitude_bound (2 ^ 64 - 200) true
                  UVM_TYPE_I8 H)).
  vm_compute. discriminate.
Defined.

(** ** The failure paths of the signature matcher *)

(** C10.  When [typeCheckInstrParams] returns false, [Opcode] and
    [EncodingFlags] of the instruction are what they were before the call;
    the parser creates every instruction with both at 0, so they are still
    0 there. *)
Theorem typeCheckInstrParams_false_keeps_Opcode :
  forall (instrDefs : list InstrDefNode) (instr instr' : Instruction)
         (labelRefs labelRefs' : list Identifier)
         (out out' : list Diagnostic),
    typeCheckInstrParams instrDefs instr labelRefs out
    = Some (false, instr', labelRefs', out') ->
    ins_Opcode instr' = ins_Opcode instr
    /\ ins_EncodingFlags instr' = ins_EncodingFlags instr
    /\ (forall t name asmDefIndex,
          instr = set_Params (newInstruction t name asmDefIndex)
                             (ins_Params instr) ->
          ins_Opcode instr' = 0 /\ ins_EncodingFlags instr' = 0).
Proof.
  intros instrDefs instr instr' labelRefs labelRefs' out out' H.
  assert (Hkeep : ins_Opcode instr' = ins_Opcode instr
                  /\ ins_EncodingFlags instr' = ins_EncodingFlags instr).
  { unfold typeCheckInstrParams in H.
    destruct (nth_error instrDefs (ins_ASMDefIndex instr)) as [paramNode |];
      [| discriminate].
    destruct (ins_Params instr) as [| a params] eqn:Eparams.
    - destruct (dn_Children paramNode).
      + destruct (dn_ParamList paramNode); discriminate.
      + inversion H; subst. split; reflexivity.
    - destruct (walkParams paramNode (a :: params) _)
        as [[[params' paramList] ws] |]; [| discriminate].
      destruct paramList as [pl |].
      + destruct (ws_error ws).
        * inversion H; subst. split; reflexivity.
        * destruct (negb _).
          -- destruct (findOpcodeVariant _ _ _); discriminate.
          -- discriminate.
      + inversion H; subst. split; reflexivity. }
  destruct Hkeep as [Ho Hf].
  split; [exact Ho | split; [exact Hf |]].
  intros t name asmDefIndex Hnew.
  rewrite Ho, Hf, Hnew. split; reflexivity.
Qed.

Lemma typeCheckInstrParams_false_keeps_Opcode_witness :
  typeCheckInstrParams builtinInstrDefs (push_int UVM_TYPE_I8 256) [] []
  = Some (false, push_int_checked UVM_TYPE_I8 256, [],
          [printErrorAt (posAt 9 3) "Integer does not fit into given type"])
  /\ ins_Opcode (push_int_checked UVM_TYPE_I8 256) = 0
  /\ ins_EncodingFlags (push_int_checked UVM_TYPE_I8 256) = 0.
Proof.
  assert (H : typeCheckInstrParams builtinInstrDefs
                (push_int UVM_TYPE_I8 256) [] []
              = Some (false, push_int_checked UVM_TYPE_I8 256, [],
                      [printErrorAt (posAt 9 3)
                         "Integer does not fit into given type"]))
    by (vm_compute; reflexivity).
  split; [exact H |].
  destruct (typeCheckInstrParams_false_keeps_Opcode _ _ _ _ _ _ _ H)
    as [Ho [Hf _]].
  split; [exact Ho | exact Hf].
Defined.

(** ** The remembered type of the signature walk *)

Lemma checkParam_hasType (child : InstrDefNode) (astNode : ASTNode)
      (nextNode : option InstrDefNode) (ws : WalkState) :
  (isNumParam (dn_Type child) = true -> hasType ws = true) ->
  exists astNode' nextNode' ws',
    checkParam child astNode nextNode ws = Some (astNode', nextNode', ws')
    /\ (hasType ws = true -> hasType ws' = true)
    /\ (nextNode' = nextNode
        \/ (nextNode' = Some child
            /\ (isTypeParam (dn_Type child) = true -> hasType ws' = true))).
Proof.
  intros Hnum. unfold checkParam.
  destruct (dn_Type child) eqn:Ety; simpl in Hnum;
    destruct astNode;
    try (do 3 eexists; split; [reflexivity | split; [tauto | left; reflexivity]]);
    try match goal with
        | |- context [if ?b then _ else _] =>
          destruct b;
          do 3 eexists;
          (split; [reflexivity
                  | split; [try tauto
                           | first [left; reflexivity
                                   | right; split; [reflexivity | try tauto]]]])
        end;
    try (do 3 eexists;
         split; [reflexivity
                | split; [tauto | right; split; [reflexivity | discriminate]]]);
    try (intros; reflexivity).
  - (* INT_NUM *)
    specialize (Hnum eq_refl). unfold hasType in Hnum.
    destruct (ws_type ws) as [t |] eqn:Et; [| discriminate].
    do 3 eexists. split; [reflexivity |].
    split.
    + intros _. unfold hasType. destruct (negb _); simpl; rewrite Et; reflexivity.
    + right. split; [reflexivity | discriminate].
  - (* FLOAT_NUM *)
    specialize (Hnum eq_refl). unfold hasType in Hnum.
    destruct (ws_type ws) as [t |] eqn:Et; [| discriminate].
    do 3 eexists. split; [reflexivity |].
    split.
    + intros _. unfold hasType. destruct (negb _); simpl; rewrite Et; reflexivity.
    + right. split; [reflexivity | discriminate].
Qed.

Lemma checkChildren_hasType (children : list InstrDefNode) :
  forall (astNode : ASTNode) (nextNode : option InstrDefNode) (ws : WalkState),
    (existsb (fun c => isNumParam (dn_Type c)) children = true ->
     hasType ws = true) ->
    exists astNode' nextNode' ws',
      checkChildren children astNode nextNode ws
      = Some (astNode', nextNode', ws')
      /\ (hasType ws = true -> hasType ws' = true)
      /\ (nextNode' = nextNode
          \/ exists c, In c children /\ nextNode' = Some c
                       /\ (isTypeParam (dn_Type c) = true ->
                           hasType ws' = true)).
Proof.
  induction children as [| child rest IH]; intros astNode nextNode ws Hnum.
  - simpl. do 3 eexists. split; [reflexivity | split; [tauto | left; reflexivity]].
  - simpl in Hnum. simpl.
    destruct (checkParam_hasType child astNode nextNode ws)
      as (a1 & n1 & ws1 & E1 & Hmono1 & Hnext1).
    { intros Hc. apply Hnum. rewrite Hc. reflexivity. }
    rewrite E1.
    destruct (IH a1 n1 ws1) as (a2 & n2 & ws2 & E2 & Hmono2 & Hnext2).
    { intros Hr. apply Hmono1, Hnum. rewrite Hr. apply orb_true_r. }
    exists a2, n2, ws2. split; [exact E2 |].
    split; [tauto |].
    destruct Hnext2 as [-> | (c & Hin & -> & Hty)].
    + destruct Hnext1 as [-> | [-> Hty]].
      * left; reflexivity.
      * right. exists child. split; [left; reflexivity |].
        split; [reflexivity | tauto].
    + right. exists c. split; [right; exact Hin |]. split; [reflexivity | exact Hty].
Qed.

Lemma typedBelow_child (h : bool) (node c : InstrDefNode) :
  typedBelow h node = true -> In c (dn_Children node) ->
  (isNumParam (dn_Type c) = true -> h = true)
  /\ (forall pl, dn_ParamList c = Some pl -> hasTypeVariants pl = true ->
                 h || isTypeParam (dn_Type c) = true
                 \/ pl_OpcodeVariants pl = [])
  /\ typedBelow (h || isTypeParam (dn_Type c)) c = true.
Proof.
  destruct node as [t p children]. simpl. intros H Hin.
  rewrite forallb_forall in H. specialize (H c Hin).
  apply andb_prop in H. destruct H as [H H3].
  apply andb_prop in H. destruct H as [H1 H2].
  split; [| split].
  - intros Hn. rewrite Hn in H1. exact H1.
  - intros pl Epl Hv. rewrite Epl, Hv in H2.
    apply orb_prop in H2. destruct H2 as [H2 | H2]; [left; exact H2 |].
    right. destruct (pl_OpcodeVariants pl); [reflexivity | discriminate].
  - exact H3.
Qed.

Lemma typedBelow_nums (h : bool) (node : InstrDefNode) :
  typedBelow h node = true ->
  existsb (fun c => isNumParam (dn_Type c)) (dn_Children node) = true ->
  h = true.
Proof.
  intros Ht Hex. apply existsb_exists in Hex. destruct Hex as (c & Hin & Hc).
  exact (proj1 (typedBelow_child h node c Ht Hin) Hc).
Qed.

(** The walk never dereferences a null [type] on a tree that is
    [typedBelow], and a signature with type variants it resolves has a
    type to look up. *)
Lemma walkParams_hasType (params : list ASTNode) :
  forall (node : InstrDefNode) (h : bool) (ws : WalkState),
    typedBelow h node = true ->
    (h = true -> hasType ws = true) ->
    exists params' paramList ws',
      walkParams node params ws = Some (params', paramList, ws')
      /\ (forall pl, paramList = Some pl -> hasTypeVariants pl = true ->
                     hasType ws' = true \/ pl_OpcodeVariants pl = []).
Proof.
  induction params as [| astNode rest IH]; intros node h ws Ht Hh.
  - simpl. do 3 eexists. split; [reflexivity | discriminate].
  - simpl.
    destruct (checkChildren_hasType (dn_Children node) astNode None ws)
      as (a1 & n1 & ws1 & E1 & Hmono & Hnext).
    { intros Hex. apply Hh. exact (typedBelow_nums h node Ht Hex). }
    rewrite E1.
    destruct Hnext as [-> | (c & Hin & -> & Hty)].
    + do 3 eexists. split; [reflexivity | discriminate].
    + destruct (typedBelow_child h node c Ht Hin) as (_ & Hpl & Hc).
      assert (Hh' : h || isTypeParam (dn_Type c) = true -> hasType ws1 = true).
      { intros Ho. apply orb_prop in Ho. destruct Ho; [tauto | auto]. }
      destruct rest as [| b rest'].
      * do 3 eexists. split; [reflexivity |].
        intros pl Epl Hv. destruct (Hpl pl Epl Hv); [left | right]; auto.
      * destruct (IH c _ ws1 Hc Hh') as (p2 & pl2 & ws2 & E2 & H2).
        rewrite E2. do 3 eexists. split; [reflexivity | exact H2].
Qed.

Lemma findOpcodeVariant_total (variants : list TypeVariant)
      (type : option TypeInfo) (opcode : Z) :
  type <> None \/ variants = [] ->
  exists opcode', findOpcodeVariant variants type opcode = Some opcode'.
Proof.
  revert opcode. induction variants as [| v rest IH]; intros opcode H.
  - simpl. eexists; reflexivity.
  - destruct H as [H | H]; [| discriminate].
    simpl. destruct type as [t |]; [| congruence].
    apply IH. left. discriminate.
Qed.

Lemma typeCheckInstrParams_total (instrDefs : list InstrDefNode)
      (instr : Instruction) (paramNode : InstrDefNode)
      (labelRefs : list Identifier) (out : list Diagnostic) :
  nth_error instrDefs (ins_ASMDefIndex instr) = Some paramNode ->
  typedBelow false paramNode = true ->
  rootComplete paramNode = true ->
  exists r, typeCheckInstrParams instrDefs instr labelRefs out = Some r.
Proof.
  intros Enth Ht Hroot. unfold typeCheckInstrParams. rewrite Enth.
  destruct (ins_Params instr) as [| a params] eqn:Eparams.
  - unfold rootComplete in Hroot.
    destruct (dn_Children paramNode); [| eexists; reflexivity].
    destruct (dn_ParamList paramNode); [eexists; reflexivity | discriminate].
  - destruct (walkParams_hasType (a :: params) paramNode false
                (mkWalkState None labelRefs false out) Ht)
      as (params' & paramList & ws & E & Hpl); [discriminate |].
    rewrite E. destruct paramList as [pl |]; [| eexists; reflexivity].
    destruct (ws_error ws); [eexists; reflexivity |].
    specialize (Hpl pl eq_refl). fold (hasTypeVariants pl).
    destruct (hasTypeVariants pl); [| eexists; reflexivity].
    destruct (findOpcodeVariant_total (pl_OpcodeVariants pl) (ws_type ws) 0)
      as [opcode Eop].
    { destruct (Hpl eq_refl) as [H | H]; [left | right; exact H].
      unfold hasType in H. destruct (ws_type ws); [discriminate | discriminate]. }
    rewrite Eop. eexists; reflexivity.
Qed.

Lemma builtinInstrDefs_typed :
  forallb (fun node => typedBelow false node && rootComplete node)
          builtinInstrDefs = true.
Proof. vm_compute. reflexivity. Qed.

Lemma builtinInstrDefs_node_typed (index : nat) (paramNode : InstrDefNode) :
  nth_error builtinInstrDefs index = Some paramNode ->
  typedBelow false paramNode = true /\ rootComplete paramNode = true.
Proof.
  intros E. apply nth_error_In in E.
  pose proof builtinInstrDefs_typed as H. rewrite forallb_forall in H.
  apply andb_prop. exact (H paramNode E).
Qed.

(** C9.  In the built-in table every signature lists a type parameter in
    front of any [INT_NUM] or [FLOAT_NUM] and has at most one type
    parameter; consequently, for every instruction whose mnemonic is in the
    table, the signature walk completes without dereferencing a null
    [type], and so does the whole of [typeCheckInstrParams]. *)
Theorem walkParams_type_never_null :
  forall (instr : Instruction) (paramNode : InstrDefNode)
         (labelRefs : list Identifier) (out : list Diagnostic),
    nth_error builtinInstrDefs (ins_ASMDefIndex instr) = Some paramNode ->
    forallb (forallb signatureTyped) INSTR_ASM_DEFS = true
    /\ (exists r,
          walkParams paramNode (ins_Params instr)
                     (mkWalkState None labelRefs false out) = Some r)
    /\ (exists r,
          typeCheckInstrParams builtinInstrDefs instr labelRefs out = Some r).
Proof.
  intros instr paramNode labelRefs out Enth.
  destruct (builtinInstrDefs_node_typed _ _ Enth) as [Ht Hroot].
  split; [vm_compute; reflexivity |].
  split.
  - destruct (walkParams_hasType (ins_Params instr) paramNode false
                (mkWalkState None labelRefs false out) Ht)
      as (params' & paramList & ws & E & _); [discriminate |].
    eexists; exact E.
  - exact (typeCheckInstrParams_total _ _ _ labelRefs out Enth Ht Hroot).
Qed.

Lemma walkParams_type_never_null_witness :
  nth_error builtinInstrDefs (ins_ASMDefIndex (push_int UVM_TYPE_I32 42))
  = Some pushDefNode
  /\ exists r,
      walkParams pushDefNode (ins_Params (push_int UVM_TYPE_I32 42))
                 (mkWalkState None [] false []) = Some r.
Proof.
  assert (H : nth_error builtinInstrDefs
                        (ins_ASMDefIndex (push_int UVM_TYPE_I32 42))
              = Some pushDefNode) by reflexivity.
  split; [exact H |].
  exact (proj1 (proj2 (walkParams_type_never_null
                         (push_int UVM_TYPE_I32 42) pushDefNode [] [] H))).
Defined.

(** ** What the signature walk accepts *)

Lemma sameKind_refl (a : ASTNode) : sameKind a a.
Proof. destruct a; simpl; auto. Qed.

Lemma sameKind_trans (a b c : ASTNode) :
  sameKind a b -> sameKind b c -> sameKind a c.
Proof.
  destruct a, b; simpl; intros H1;
    try discriminate H1; try (injection H1 as <-);
    destruct c; simpl; intros H2;
    try discriminate H2; try (injection H2 as <-);
    try reflexivity;
    repeat match goal with H : _ /\ _ |- _ => destruct H end;
    repeat split; congruence.
Qed.

Lemma accepts_sameKind (t : InstrParamType) (a a' : ASTNode) :
  sameKind a a' -> accepts t a' = accepts t a.
Proof.
  destruct a, a'; simpl; intros H; try discriminate H;
    try (inversion H; subst); try reflexivity;
    destruct t; reflexivity.
Qed.

Lemma sameKind_TypeInfo (t : TypeInfo) (a' : ASTNode) :
  sameKind (Node_TypeInfo t) a' -> a' = Node_TypeInfo t.
Proof. simpl. auto. Qed.

(** Case analysis of a [checkParam] equation: on the category of the child,
    the class of the operand, the [type] pointer and the test. *)
Ltac checkParam_cases H :=
  unfold checkParam in H;
  match type of H with
  | context [match dn_Type ?c with _ => _ end] => destruct (dn_Type c) eqn:?
  end;
  try match type of H with
      | context [match ?a with Node_LabelDef _ => _ | _ => _ end] =>
        destruct a
      end;
  try match type of H with
      | context [match ws_type ?w with _ => _ end] =>
        destruct (ws_type w) eqn:?
      end;
  try match type of H with
      | context [if negb ?b then _ else _] => destruct b eqn:?
      end;
  simpl in H; try discriminate H;
  inversion H; subst; clear H.

(** What one pass of the inner loop does to [nextNode] and to [type]. *)
Lemma checkParam_accepts (child : InstrDefNode) (astNode astNode' : ASTNode)
      (nextNode nextNode' : option InstrDefNode) (ws ws' : WalkState) :
  checkParam child astNode nextNode ws = Some (astNode', nextNode', ws') ->
  sameKind astNode astNode'
  /\ ((nextNode' = nextNode /\ ws_type ws' = ws_type ws)
      \/ (nextNode' = Some child /\ accepts (dn_Type child) astNode = true
          /\ ws_type ws' = match astNode with
                           | Node_TypeInfo typeInfo => Some typeInfo
                           | _ => ws_type ws
                           end)).
Proof.
  intros H. checkParam_cases H;
    (split; [first [apply sameKind_refl | simpl; tauto] |]);
    first [left; split; reflexivity
          | right; split; [reflexivity |];
            simpl; split; first [reflexivity | assumption]].
Qed.

Lemma checkChildren_accepts (children : list InstrDefNode) :
  forall (astNode astNode' : ASTNode)
         (nextNode nextNode' : option InstrDefNode) (ws ws' : WalkState),
    checkChildren children astNode nextNode ws
    = Some (astNode', nextNode', ws') ->
    sameKind astNode astNode'
    /\ ((nextNode' = nextNode /\ ws_type ws' = ws_type ws)
        \/ (exists c, In c children /\ nextNode' = Some c
                      /\ accepts (dn_Type c) astNode = true
                      /\ ws_type ws' = match astNode with
                                       | Node_TypeInfo typeInfo => Some typeInfo
                                       | _ => ws_type ws
                                       end)).
Proof.
  induction children as [| child rest IH];
    intros astNode astNode' nextNode nextNode' ws ws' H.
  - simpl in H. inversion H; subst.
    split; [apply sameKind_refl | left; split; reflexivity].
  - simpl in H.
    destruct (checkParam child astNode nextNode ws)
      as [[[a1 n1] ws1] |] eqn:E1; [| discriminate].
    apply checkParam_accepts in E1. destruct E1 as [Hk1 H1].
    apply IH in H. destruct H as [Hk2 H2].
    split; [exact (sameKind_trans _ _ _ Hk1 Hk2) |].
    assert (Hty : match a1 with
                  | Node_TypeInfo typeInfo => Some typeInfo
                  | _ => ws_type ws1
                  end
                  = match astNode with
                    | Node_TypeInfo typeInfo => Some typeInfo
                    | _ => ws_type ws1
                    end).
    { destruct astNode; simpl in Hk1; try (rewrite Hk1; reflexivity);
        destruct a1; try discriminate Hk1; reflexivity. }
    destruct H2 as [[-> ->] | (c & Hin & -> & Hacc & Et)].
    + destruct H1 as [[-> ->] | (-> & Hacc & Et)].
      * left; split; reflexivity.
      * right. exists child. split; [left; reflexivity |].
        split; [reflexivity | split; [exact Hacc | exact Et]].
    + right. exists c. split; [right; exact Hin |]. split; [reflexivity |].
      split; [rewrite <- (accepts_sameKind _ _ _ Hk1); exact Hacc |].
      rewrite Et, Hty.
      destruct H1 as [[_ ->] | (_ & _ & E)]; [reflexivity |].
      destruct astNode; try reflexivity; exact E.
Qed.

Lemma signaturesBelow_child (sigs : list InstrParamList)
      (path : list InstrParamType) (node c : InstrDefNode) :
  signaturesBelow sigs path node = true -> In c (dn_Children node) ->
  signatureAt sigs (path ++ [dn_Type c]) c = true
  /\ signaturesBelow sigs (path ++ [dn_Type c]) c = true.
Proof.
  destruct node as [t p children]. simpl. intros H Hin.
  rewrite forallb_forall in H. apply andb_prop. exact (H c Hin).
Qed.

Lemma signatureAt_sound (sigs : list InstrParamList)
      (path : list InstrParamType) (node : InstrDefNode)
      (pl : InstrParamList) :
  signatureAt sigs path node = true -> dn_ParamList node = Some pl ->
  pl_Params pl = path /\ In pl sigs.
Proof.
  unfold signatureAt. intros H E. rewrite E in H.
  apply andb_prop in H. destruct H as [Hp Hs]. split.
  - unfold sameParams in Hp.
    destruct (list_eq_dec InstrParamType_eq_dec (pl_Params pl) path);
      [assumption | discriminate].
  - unfold inSignatures in Hs. apply existsb_exists in Hs.
    destruct Hs as (s & Hin & Hs).
    destruct (InstrParamList_eq_dec pl s); [subst; exact Hin | discriminate].
Qed.

(** The signature the walk resolves: its parameters are the categories on
    the path walked, each of which accepted its operand, and [type] ends
    as the last [TypeInfo] operand. *)
Lemma walkParams_signature (sigs : list InstrParamList)
      (params : list ASTNode) :
  forall (node : InstrDefNode) (path : list InstrParamType) (ws ws' : WalkState)
         (params' : list ASTNode) (pl : InstrParamList),
    signaturesBelow sigs path node = true ->
    walkParams node params ws = Some (params', Some pl, ws') ->
    exists cats,
      pl_Params pl = path ++ cats
      /\ operandsMatch cats params = true
      /\ In pl sigs
      /\ ws_type ws' = lastTypeInfo params (ws_type ws).
Proof.
  induction params as [| astNode rest IH];
    intros node path ws ws' params' pl Hsig H.
  - simpl in H. discriminate.
  - simpl in H.
    destruct (checkChildren (dn_Children node) astNode None ws)
      as [[[a1 n1] ws1] |] eqn:E1; [| discriminate].
    apply checkChildren_accepts in E1. destruct E1 as [Hk H1].
    destruct H1 as [[-> _] | (c & Hin & -> & Hacc & Et)]; [discriminate |].
    destruct (signaturesBelow_child sigs path node c Hsig Hin) as [Hat Hbelow].
    assert (Elast : forall r, lastTypeInfo (astNode :: r) (ws_type ws)
                              = lastTypeInfo r (ws_type ws1)).
    { intros r. rewrite Et. destruct astNode; reflexivity. }
    destruct rest as [| b rest'].
    + inversion H; subst; clear H.
      destruct (signatureAt_sound _ _ _ _ Hat H2) as [Hp Hs].
      exists [dn_Type c]. split; [exact Hp |].
      split; [simpl; rewrite Hacc; reflexivity |].
      split; [exact Hs |]. rewrite Elast. reflexivity.
    + destruct (walkParams c (b :: rest') ws1)
        as [[[r2 pl2] ws2] |] eqn:E2; [| discriminate].
      inversion H; subst; clear H.
      destruct (IH c _ ws1 ws' r2 pl Hbelow E2) as (cats & Hp & Hm & Hs & Ht).
      exists (dn_Type c :: cats).
      split; [rewrite Hp, <- app_assoc; reflexivity |].
      split; [change (accepts (dn_Type c) astNode
                      && operandsMatch cats (b :: rest') = true);
              rewrite Hacc; exact Hm |].
      split; [exact Hs |]. rewrite Elast. exact Ht.
Qed.

(** ** Type variants *)

Lemma UVMType_eqb_eq (a b : UVMType) : UVMType_eqb a b = true <-> a = b.
Proof. destruct a, b; simpl; split; intros H; congruence. Qed.

Lemma findOpcodeVariant_no_match (variants : list TypeVariant)
      (typeInfo : TypeInfo) :
  forall opcode,
    existsb (UVMType_eqb (ti_DataType typeInfo)) (map tv_Type variants)
    = false ->
    findOpcodeVariant variants (Some typeInfo) opcode = Some opcode.
Proof.
  induction variants as [| v rest IH]; intros opcode H; [reflexivity |].
  simpl in *. apply orb_false_elim in H. destruct H as [Hv Hrest].
  destruct (UVMType_eqb (tv_Type v) (ti_DataType typeInfo)) eqn:E.
  - apply UVMType_eqb_eq in E. rewrite E in Hv.
    assert (UVMType_eqb (ti_DataType typeInfo) (ti_DataType typeInfo) = true)
      by (apply UVMType_eqb_eq; reflexivity).
    congruence.
  - apply IH. exact Hrest.
Qed.

(** With one variant per type, the loop over the variants returns the
    opcode of the variant of the type. *)
Lemma findOpcodeVariant_distinct (variants : list TypeVariant)
      (typeInfo : TypeInfo) (variant : TypeVariant) :
  forall opcode,
    distinctTypes (map tv_Type variants) = true ->
    In variant variants ->
    tv_Type variant = ti_DataType typeInfo ->
    findOpcodeVariant variants (Some typeInfo) opcode
    = Some (tv_Opcode variant).
Proof.
  induction variants as [| v rest IH]; intros opcode Hd Hin Hty; [contradiction |].
  simpl in Hd. apply andb_prop in Hd. destruct Hd as [Hv Hrest].
  simpl. destruct Hin as [-> | Hin].
  - rewrite Hty.
    replace (UVMType_eqb (ti_DataType typeInfo) (ti_DataType typeInfo))
      with true by (symmetry; apply UVMType_eqb_eq; reflexivity).
    apply findOpcodeVariant_no_match.
    rewrite Hty in Hv. apply negb_true_iff in Hv. exact Hv.
  - apply IH; assumption.
Qed.

Lemma distinctTypes_unique (variants : list TypeVariant)
      (v v' : TypeVariant) :
  distinctTypes (map tv_Type variants) = true ->
  In v variants -> In v' variants -> tv_Type v = tv_Type v' -> v = v'.
Proof.
  induction variants as [| w rest IH]; intros Hd Hv Hv' Hty; [contradiction |].
  simpl in Hd. apply andb_prop in Hd. destruct Hd as [Hw Hrest].
  apply negb_true_iff in Hw.
  assert (Hno : forall x, In x rest -> tv_Type x <> tv_Type w).
  { intros x Hx E.
    assert (Hex : existsb (UVMType_eqb (tv_Type w)) (map tv_Type rest) = true).
    { apply existsb_exists. exists (tv_Type x). split.
      - apply in_map. exact Hx.
      - apply UVMType_eqb_eq. symmetry. exact E. }
    congruence. }
  destruct Hv as [-> | Hv], Hv' as [-> | Hv'].
  - reflexivity.
  - exfalso. apply (Hno v' Hv'). symmetry. exact Hty.
  - exfalso. apply (Hno v Hv). exact Hty.
  - apply IH; assumption.
Qed.

Lemma operandsMatch_lastTypeInfo (cats : list InstrParamType) :
  forall (operands : list ASTNode) (acc : option TypeInfo),
    operandsMatch cats operands = true ->
    (existsb isTypeParam cats = false /\ lastTypeInfo operands acc = acc)
    \/ (exists typeInfo t,
          lastTypeInfo operands acc = Some typeInfo
          /\ In t cats /\ isTypeParam t = true
          /\ accepts t (Node_TypeInfo typeInfo) = true).
Proof.
  induction cats as [| c cats IH]; intros operands acc H.
  - destruct operands; [| discriminate]. left. split; reflexivity.
  - destruct operands as [| a operands]; [discriminate |].
    simpl in H. apply andb_prop in H. destruct H as [Hacc Hrest].
    destruct a;
      try (simpl lastTypeInfo;
           destruct (IH operands acc Hrest)
             as [[Hno Hl] | (ti & t & Hl & Hin & Hty & Ha)];
           [ left; split; [| exact Hl];
             destruct c; simpl in Hacc; try discriminate Hacc; exact Hno
           | right; exists ti, t; repeat split; auto; right; exact Hin ]).
    simpl lastTypeInfo.
    destruct (IH operands (Some t) Hrest)
      as [[Hno Hl] | (ti & t' & Hl & Hin & Hty & Ha)].
    + right. exists t, c. split; [exact Hl |]. split; [left; reflexivity |].
      split; [destruct c; simpl in Hacc; try discriminate Hacc; reflexivity
             | exact Hacc].
    + right. exists ti, t'. repeat split; auto. right; exact Hin.
Qed.

Lemma operandsMatch_countTypeInfos (cats : list InstrParamType) :
  forall operands : list ASTNode,
    operandsMatch cats operands = true ->
    (countTypeInfos operands <= countTypeParams cats)%nat.
Proof.
  unfold countTypeInfos, countTypeParams.
  induction cats as [| c cats IH]; intros operands H.
  - destruct operands; [simpl; lia | discriminate].
  - destruct operands as [| a operands]; [discriminate |].
    simpl in H. apply andb_prop in H. destruct H as [Hacc Hrest].
    specialize (IH operands Hrest).
    destruct a, c; simpl in Hacc; try discriminate Hacc; simpl; lia.
Qed.

Lemma isIntType_cases (t : UVMType) :
  isIntType t = true ->
  In t [UVM_TYPE_I8; UVM_TYPE_I16; UVM_TYPE_I32; UVM_TYPE_I64].
Proof. destruct t; simpl; intros H; try discriminate H; tauto. Qed.

Lemma isFloatType_cases (t : UVMType) :
  isFloatType t = true -> In t [UVM_TYPE_F32; UVM_TYPE_F64].
Proof. destruct t; simpl; intros H; try discriminate H; tauto. Qed.

(** A complete variant table has the variant of every type the type
    parameter of the signature accepts. *)
Lemma variantsComplete_variant (pl : InstrParamList) (t : InstrParamType)
      (typeInfo : TypeInfo) :
  hasTypeVariants pl = true -> variantsComplete pl = true ->
  In t (pl_Params pl) -> isTypeParam t = true ->
  accepts t (Node_TypeInfo typeInfo) = true ->
  exists variant, In variant (pl_OpcodeVariants pl)
                  /\ tv_Type variant = ti_DataType typeInfo.
Proof.
  unfold variantsComplete. intros Hv Hc Hin Hty Hacc. rewrite Hv in Hc.
  apply andb_prop in Hc. destruct Hc as [_ Hall].
  rewrite forallb_forall in Hall. specialize (Hall t Hin).
  assert (Hhas : hasVariant pl (ti_DataType typeInfo) = true).
  { destruct t; try discriminate Hty; simpl in Hacc;
      rewrite forallb_forall in Hall; apply Hall.
    - apply isIntType_cases. exact Hacc.
    - apply isFloatType_cases. exact Hacc. }
  unfold hasVariant, variantTypes in Hhas. apply existsb_exists in Hhas.
  destruct Hhas as (ty & Hin' & Heq). apply in_map_iff in Hin'.
  destruct Hin' as (variant & Etv & Hinv).
  exists variant. split; [exact Hinv |].
  apply UVMType_eqb_eq in Heq. congruence.
Qed.

Lemma builtinInstrDefs_signatures :
  forallb (fun sigs =>
             treeOfSignatures sigs (buildInstrDefNode sigs)
             && forallb variantsComplete sigs
             && forallb signatureTyped sigs)
          INSTR_ASM_DEFS = true.
Proof. vm_compute. reflexivity. Qed.

Lemma builtinInstrDefs_nth (index : nat) (paramNode : InstrDefNode) :
  nth_error builtinInstrDefs index = Some paramNode ->
  exists sigs,
    nth_error INSTR_ASM_DEFS index = Some sigs
    /\ treeOfSignatures sigs paramNode = true
    /\ (forall pl, In pl sigs ->
                   variantsComplete pl = true /\ signatureTyped pl = true).
Proof.
  unfold builtinInstrDefs, buildInstrDefTree. rewrite nth_error_map.
  destruct (nth_error INSTR_ASM_DEFS index) as [sigs |] eqn:E;
    [| discriminate].
  simpl. intros H. inversion H; subst; clear H.
  exists sigs. split; [reflexivity |].
  pose proof builtinInstrDefs_signatures as Hall.
  rewrite forallb_forall in Hall.
  specialize (Hall sigs (nth_error_In _ _ E)).
  apply andb_prop in Hall. destruct Hall as [Hall Hty].
  apply andb_prop in Hall. destruct Hall as [Htree Hvar].
  split; [exact Htree |].
  intros pl Hin. rewrite forallb_forall in Hvar, Hty. auto.
Qed.

Lemma variantsComplete_parts (pl : InstrParamList) :
  hasTypeVariants pl = true -> variantsComplete pl = true ->
  distinctTypes (variantTypes pl) = true
  /\ existsb isTypeParam (pl_Params pl) = true.
Proof.
  unfold variantsComplete. intros Hv Hc. rewrite Hv in Hc.
  apply andb_prop in Hc. destruct Hc as [Hc _].
  apply andb_prop in Hc. exact Hc.
Qed.

(** C2.  When the operands of an instruction match a signature of the
    built-in table, the instruction receives the flags of that signature
    verbatim and, if the flags include [TYPE_VARIANTS], the opcode of the
    one entry of the variant table whose type is the [DataType] of the
    [TypeInfo] operand, otherwise the base opcode of the signature.
    [push i32 42] receives 0x03 and [exit] receives 0x50. *)
Theorem typeCheckInstrParams_opcode :
  forall (instr instr' : Instruction) (labelRefs labelRefs' : list Identifier)
         (out out' : list Diagnostic),
    typeCheckInstrParams builtinInstrDefs instr labelRefs out
    = Some (true, instr', labelRefs', out') ->
    (exists sigs pl,
       nth_error INSTR_ASM_DEFS (ins_ASMDefIndex instr) = Some sigs
       /\ In pl sigs
       /\ operandsMatch (pl_Params pl) (ins_Params instr) = true
       /\ ins_EncodingFlags instr' = pl_Flags pl
       /\ if hasTypeVariants pl then
            exists typeInfo variant,
              lastTypeInfo (ins_Params instr) None = Some typeInfo
              /\ (countTypeInfos (ins_Params instr) <= 1)%nat
              /\ In variant (pl_OpcodeVariants pl)
              /\ tv_Type variant = ti_DataType typeInfo
              /\ (forall v, In v (pl_OpcodeVariants pl) ->
                            tv_Type v = ti_DataType typeInfo -> v = variant)
              /\ ins_Opcode instr' = tv_Opcode variant
          else ins_Opcode instr' = pl_Opcode pl)
    /\ typeCheckInstrParams builtinInstrDefs (push_int UVM_TYPE_I32 42) [] []
       = Some (true,
               set_Opcode (push_int_checked UVM_TYPE_I32 42) 0x03
                          INSTR_FLAG_TYPE_VARIANTS,
               [], [])
    /\ typeCheckInstrParams builtinInstrDefs exit_instr [] []
       = Some (true, set_Opcode exit_instr 0x50 0, [], []).
Proof.
  intros instr instr' labelRefs labelRefs' out out' H.
  split; [| split; vm_compute; reflexivity].
  unfold typeCheckInstrParams in H.
  destruct (nth_error builtinInstrDefs (ins_ASMDefIndex instr))
    as [paramNode |] eqn:Enth; [| discriminate].
  destruct (builtinInstrDefs_nth _ _ Enth) as (sigs & Esigs & Htree & Hsigs).
  unfold treeOfSignatures in Htree. apply andb_prop in Htree.
  destruct Htree as [Hroot Hbelow].
  exists sigs.
  destruct (ins_Params instr) as [| a params] eqn:Eparams.
  - destruct (dn_Children paramNode); [| discriminate].
    destruct (dn_ParamList paramNode) as [pl |] eqn:Epl; [| discriminate].
    inversion H; subst; clear H.
    destruct (signatureAt_sound _ _ _ _ Hroot Epl) as [Hp Hin].
    exists pl. split; [exact Esigs |]. split; [exact Hin |].
    split; [rewrite Hp; reflexivity |]. split; [reflexivity |].
    destruct (hasTypeVariants pl) eqn:Hv; [| reflexivity].
    destruct (variantsComplete_parts pl Hv (proj1 (Hsigs pl Hin))) as [_ Hex].
    rewrite Hp in Hex. discriminate.
  - destruct (walkParams paramNode (a :: params) _)
      as [[[params' paramList] ws] |] eqn:Ewalk; [| discriminate].
    destruct paramList as [pl |]; [| discriminate].
    destruct (ws_error ws); [discriminate |].
    destruct (walkParams_signature sigs (a :: params) paramNode [] _ _ _ _
                                   Hbelow Ewalk)
      as (cats & Hp & Hm & Hin & Hty).
    simpl in Hp, Hty. rewrite <- Hp in Hm.
    exists pl. split; [exact Esigs |]. split; [exact Hin |].
    split; [exact Hm |].
    fold (hasTypeVariants pl) in H.
    destruct (hasTypeVariants pl) eqn:Hv.
    + destruct (findOpcodeVariant (pl_OpcodeVariants pl) (ws_type ws) 0)
        as [opcode |] eqn:Eop; [| discriminate].
      inversion H; subst; clear H.
      split; [reflexivity |].
      destruct (Hsigs pl Hin) as [Hcomplete Htyped].
      destruct (variantsComplete_parts pl Hv Hcomplete) as [Hdistinct Hex].
      destruct (operandsMatch_lastTypeInfo _ _ None Hm)
        as [[Hno _] | (typeInfo & t & Hlast & Hint & Hist & Hacc)];
        [congruence |].
      destruct (variantsComplete_variant pl t typeInfo Hv Hcomplete Hint
                                         Hist Hacc)
        as (variant & Hinv & Etv).
      exists typeInfo, variant.
      split; [exact Hlast |].
      split.
      { pose proof (operandsMatch_countTypeInfos _ _ Hm) as Hcount.
        unfold signatureTyped in Htyped. apply andb_prop in Htyped.
        destruct Htyped as [_ Hle]. apply Nat.leb_le in Hle. lia. }
      split; [exact Hinv |]. split; [exact Etv |].
      split.
      { intros v Hv' Ev.
        apply (distinctTypes_unique (pl_OpcodeVariants pl)); auto.
        congruence. }
      simpl. simpl in Hlast. rewrite Hty, Hlast in Eop.
      rewrite (findOpcodeVariant_distinct _ typeInfo variant 0 Hdistinct
                                          Hinv Etv) in Eop.
      congruence.
    + inversion H; subst; clear H. split; reflexivity.
Qed.

Lemma typeCheckInstrParams_opcode_witness :
  typeCheckInstrParams builtinInstrDefs (push_int UVM_TYPE_I16 7) [] []
  = Some (true,
          set_Opcode (push_int_checked UVM_TYPE_I16 7) 0x02
                     INSTR_FLAG_TYPE_VARIANTS,
          [], [])
  /\ exists sigs pl,
      nth_error INSTR_ASM_DEFS 1 = Some sigs /\ In pl sigs
      /\ operandsMatch (pl_Params pl) (ins_Params (push_int UVM_TYPE_I16 7))
         = true
      /\ pl_Flags pl = INSTR_FLAG_TYPE_VARIANTS.
Proof.
  assert (H : typeCheckInstrParams builtinInstrDefs
                (push_int UVM_TYPE_I16 7) [] []
              = Some (true,
                      set_Opcode (push_int_checked UVM_TYPE_I16 7) 0x02
                                 INSTR_FLAG_TYPE_VARIANTS,
                      [], []))
    by (vm_compute; reflexivity).
  split; [exact H |].
  destruct (proj1 (typeCheckInstrParams_opcode _ _ _ _ _ _ H))
    as (sigs & pl & Esigs & Hin & Hm & Hf & _).
  exists sigs, pl. repeat split; auto.
Defined.

(** ** Diagnostics and the returned flag *)

Lemma logged_refl (out : list Diagnostic) (err : bool) :
  logged out err out err.
Proof.
  exists []. split; [symmetry; apply app_nil_r |].
  simpl. rewrite orb_false_r. reflexivity.
Qed.

Lemma logged_trans (o1 o2 o3 : list Diagnostic) (e1 e2 e3 : bool) :
  logged o1 e1 o2 e2 -> logged o2 e2 o3 e3 -> logged o1 e1 o3 e3.
Proof.
  intros (x & -> & ->) (y & -> & ->). exists (x ++ y).
  split; [symmetry; apply app_assoc |].
  destruct e1, x, y; reflexivity.
Qed.

Lemma logged_print (out : list Diagnostic) (err : bool) (d : Diagnostic) :
  logged out err (out ++ [d]) true.
Proof. exists [d]. split; [reflexivity |]. destruct err; reflexivity. Qed.

Lemma logged_true_iff (out out' : list Diagnostic) (err' : bool) :
  logged out false out' err' ->
  exists errs, out' = out ++ errs /\ (negb err' = true <-> errs = []).
Proof.
  intros (errs & -> & ->). exists errs. split; [reflexivity |].
  destruct errs; simpl; split; intros H; congruence.
Qed.

Lemma accepts_type_cases (t : InstrParamType) (a : ASTNode) :
  accepts t a = true ->
  match a with
  | Node_TypeInfo _ => t = INT_TYPE \/ t = FLOAT_TYPE
  | Node_RegisterId _ => t = INT_REG \/ t = FLOAT_REG
  | _ => True
  end.
Proof. destruct t, a; simpl; intros H; try discriminate H; tauto. Qed.

Lemma isFloatType_negb (t : UVMType) : isFloatType t = negb (isIntType t).
Proof. destruct t; reflexivity. Qed.

Lemma getRegisterType_FLOAT (id : Z) :
  RegisterType_eqb (getRegisterType id) FLOAT
  = negb (RegisterType_eqb (getRegisterType id) INTEGER).
Proof. destruct (getRegisterType id); reflexivity. Qed.

Lemma InstrParamType_eqb_eq (a b : InstrParamType) :
  InstrParamType_eqb a b = true <-> a = b.
Proof. destruct a, b; simpl; split; intros H; congruence. Qed.

Lemma hasChild_In (t : InstrParamType) (children : list InstrDefNode)
      (c : InstrDefNode) :
  In c children -> dn_Type c = t -> hasChild t children = true.
Proof.
  intros Hin E. apply existsb_exists. exists c. split; [exact Hin |].
  apply InstrParamType_eqb_eq. exact E.
Qed.

(** Where the children are exclusive, an operand one of them complains
    about is accepted by none. *)
Lemma exclusiveChildren_complains (children : list InstrDefNode)
      (a : ASTNode) (c c' : InstrDefNode) :
  exclusiveChildren children = true ->
  In c children -> complains (dn_Type c) a = true ->
  In c' children -> accepts (dn_Type c') a = true -> False.
Proof.
  unfold exclusiveChildren. intros Hex Hin Hc Hin' Ha.
  apply andb_prop in Hex. destruct Hex as [Hty Hreg].
  apply negb_true_iff in Hty. apply negb_true_iff in Hreg.
  pose proof (hasChild_In (dn_Type c) children c Hin eq_refl) as H1.
  pose proof (hasChild_In (dn_Type c') children c' Hin' eq_refl) as H2.
  destruct (dn_Type c) eqn:Ec, a; simpl in Hc; try discriminate Hc;
    destruct (dn_Type c') eqn:Ec'; simpl in Ha; try discriminate Ha;
    try (rewrite H1, H2 in Hty; discriminate Hty);
    try (rewrite H2, H1 in Hty; discriminate Hty);
    try (rewrite H1, H2 in Hreg; discriminate Hreg);
    try (rewrite H2, H1 in Hreg; discriminate Hreg);
    try (rewrite isFloatType_negb in *);
    try (rewrite getRegisterType_FLOAT in *);
    try (rewrite Ha in Hc; discriminate Hc);
    try (apply negb_true_iff in Hc; rewrite Hc in Ha; discriminate Ha).
Qed.

Lemma complains_sameKind (t : InstrParamType) (a a' : ASTNode) :
  sameKind a a' -> complains t a' = complains t a.
Proof.
  destruct a, a'; simpl; intros H; try discriminate H;
    try (inversion H; subst); try reflexivity;
    destruct t; reflexivity.
Qed.

(** The diagnostics of one pass of the inner loop: a range error, which
    sets [error], or the complaint of a category that does not accept the
    operand. *)
Lemma checkParam_logged (child : InstrDefNode) (astNode astNode' : ASTNode)
      (nextNode nextNode' : option InstrDefNode) (ws ws' : WalkState) :
  checkParam child astNode nextNode ws = Some (astNode', nextNode', ws') ->
  logged (ws_out ws) (ws_error ws) (ws_out ws') (ws_error ws')
  \/ ((exists errs, ws_out ws' = ws_out ws ++ errs)
      /\ complains (dn_Type child) astNode = true).
Proof.
  intros H. checkParam_cases H; simpl;
    first [left; apply logged_refl
          | left; apply logged_print
          | right; (split; [eexists; reflexivity |]);
            match goal with E : _ = false |- _ => rewrite E end;
            reflexivity].
Qed.

Lemma checkChildren_logged (children : list InstrDefNode) :
  forall (astNode astNode' : ASTNode)
         (nextNode nextNode' : option InstrDefNode) (ws ws' : WalkState),
    checkChildren children astNode nextNode ws
    = Some (astNode', nextNode', ws') ->
    logged (ws_out ws) (ws_error ws) (ws_out ws') (ws_error ws')
    \/ ((exists errs, ws_out ws' = ws_out ws ++ errs)
        /\ exists c, In c children /\ complains (dn_Type c) astNode = true).
Proof.
  induction children as [| child rest IH];
    intros astNode astNode' nextNode nextNode' ws ws' H.
  - simpl in H. inversion H; subst. left. apply logged_refl.
  - simpl in H.
    destruct (checkParam child astNode nextNode ws)
      as [[[a1 n1] ws1] |] eqn:E1; [| discriminate].
    pose proof (proj1 (checkParam_accepts _ _ _ _ _ _ _ E1)) as Hk.
    apply checkParam_logged in E1. apply IH in H.
    assert (Hext : exists errs, ws_out ws' = ws_out ws ++ errs).
    { assert (H1 : exists e1, ws_out ws1 = ws_out ws ++ e1)
        by (destruct E1 as [(e & -> & _) | [(e & ->) _]]; eexists; reflexivity).
      assert (H2 : exists e2, ws_out ws' = ws_out ws1 ++ e2)
        by (destruct H as [(e & -> & _) | [(e & ->) _]]; eexists; reflexivity).
      destruct H1 as [e1 Ee1], H2 as [e2 Ee2]. exists (e1 ++ e2).
      rewrite Ee2, Ee1. symmetry. apply app_assoc. }
    destruct E1 as [L1 | [_ C1]].
    + destruct H as [L2 | [_ (c & Hin & C2)]].
      * left. exact (logged_trans _ _ _ _ _ _ L1 L2).
      * right. split; [exact Hext |]. exists c. split; [right; exact Hin |].
        rewrite <- (complains_sameKind _ _ _ Hk). exact C2.
    + right. split; [exact Hext |]. exists child.
      split; [left; reflexivity | exact C1].
Qed.

Lemma exclusiveBelow_child (node c : InstrDefNode) :
  exclusiveBelow node = true -> In c (dn_Children node) ->
  exclusiveChildren (dn_Children node) = true /\ exclusiveBelow c = true.
Proof.
  destruct node as [t p children]. simpl. intros H Hin.
  apply andb_prop in H. destruct H as [Hex Hall].
  rewrite forallb_forall in Hall. auto.
Qed.

(** On a tree with exclusive children, a walk that resolves a signature
    printed range errors only, each of which set [error]. *)
Lemma walkParams_logged (params : list ASTNode) :
  forall (node : InstrDefNode) (ws ws' : WalkState) (params' : list ASTNode)
         (paramList : option InstrParamList),
    exclusiveBelow node = true ->
    walkParams node params ws = Some (params', paramList, ws') ->
    (exists errs, ws_out ws' = ws_out ws ++ errs)
    /\ (paramList <> None ->
        logged (ws_out ws) (ws_error ws) (ws_out ws') (ws_error ws')).
Proof.
  induction params as [| astNode rest IH];
    intros node ws ws' params' paramList Hex H.
  - simpl in H. inversion H; subst.
    split; [exists []; symmetry; apply app_nil_r | congruence].
  - simpl in H.
    destruct (checkChildren (dn_Children node) astNode None ws)
      as [[[a1 n1] ws1] |] eqn:E1; [| discriminate].
    pose proof (checkChildren_accepts _ _ _ _ _ _ _ E1) as [_ Hacc].
    pose proof (checkChildren_logged _ _ _ _ _ _ _ E1) as Hlog.
    assert (Hext1 : exists e1, ws_out ws1 = ws_out ws ++ e1)
      by (destruct Hlog as [(e & -> & _) | [(e & ->) _]]; eexists; reflexivity).
    destruct n1 as [c |].
    + destruct Hacc as [[Hc _] | (c0 & Hin & Hc & Ha & _)]; [discriminate |].
      inversion Hc; subst c0; clear Hc.
      destruct (exclusiveBelow_child node c Hex Hin) as [Hexc Hexb].
      assert (L1 : logged (ws_out ws) (ws_error ws) (ws_out ws1) (ws_error ws1)).
      { destruct Hlog as [L | [_ (c' & Hin' & Hc')]]; [exact L |].
        exfalso.
        exact (exclusiveChildren_complains _ _ _ _ Hexc Hin' Hc' Hin Ha). }
      destruct rest as [| b rest'].
      * inversion H; subst; clear H. split; [exact Hext1 | intros _; exact L1].
      * destruct (walkParams c (b :: rest') ws1)
          as [[[r2 pl2] ws2] |] eqn:E2; [| discriminate].
        inversion H; subst; clear H.
        destruct (IH c ws1 ws' r2 paramList Hexb E2) as [[e2 Hext2] L2].
        split.
        -- destruct Hext1 as [e1 E]. exists (e1 ++ e2).
           rewrite Hext2, E. symmetry. apply app_assoc.
        -- intros Hpl. exact (logged_trans _ _ _ _ _ _ L1 (L2 Hpl)).
    + inversion H; subst; clear H. split; [exact Hext1 | congruence].
Qed.

(** [typeCheckInstrParams] returns true exactly if it printed nothing. *)
Lemma typeCheckInstrParams_logged (instrDefs : list InstrDefNode)
      (instr instr' : Instruction) (labelRefs labelRefs' : list Identifier)
      (out out' : list Diagnostic) (ok : bool) :
  forallb exclusiveBelow instrDefs = true ->
  typeCheckInstrParams instrDefs instr labelRefs out
  = Some (ok, instr', labelRefs', out') ->
  logged out false out' (negb ok).
Proof.
  intros Hall H. unfold typeCheckInstrParams in H.
  destruct (nth_error instrDefs (ins_ASMDefIndex instr))
    as [paramNode |] eqn:Enth; [| discriminate].
  assert (Hex : exclusiveBelow paramNode = true).
  { rewrite forallb_forall in Hall. apply Hall.
    exact (nth_error_In _ _ Enth). }
  destruct (ins_Params instr) as [| a params].
  - destruct (dn_Children paramNode).
    + destruct (dn_ParamList paramNode); [| discriminate].
      inversion H; subst. apply logged_refl.
    + inversion H; subst. apply logged_print.
  - destruct (walkParams paramNode (a :: params) _)
      as [[[params' paramList] ws] |] eqn:Ewalk; [| discriminate].
    destruct (walkParams_logged _ _ _ _ _ _ Hex Ewalk) as [[errs Hext] Hlog].
    simpl in Hext, Hlog.
    destruct paramList as [pl |].
    + specialize (Hlog ltac:(discriminate)).
      destruct (ws_error ws) eqn:Eerr.
      * inversion H; subst. exact Hlog.
      * destruct (negb _).
        -- destruct (findOpcodeVariant _ _ _); [| discriminate].
           inversion H; subst. exact Hlog.
        -- inversion H; subst. exact Hlog.
    + inversion H; subst. rewrite Hext, <- app_assoc.
      eexists. split; [reflexivity |]. destruct errs; reflexivity.
Qed.

Lemma logged_or (out out' : list Diagnostic) (err err' : bool) :
  logged out false out' err' -> logged out err out' (err || err').
Proof. intros (errs & -> & ->). exists errs. split; reflexivity. Qed.

Lemma logged_if (out out' : list Diagnostic) (err : bool) (valid : bool) :
  logged out false out' (negb valid) ->
  logged out err out' (if negb valid then true else err).
Proof.
  intros H. apply (logged_or _ _ err) in H.
  destruct valid, err; exact H.
Qed.

Lemma checkLabelRefs_logged (labelDefs : list LabelDefLookup)
      (labelRefs : list Identifier) :
  forall (out out' : list Diagnostic) (err err' : bool),
    checkLabelRefs labelRefs labelDefs out err = (out', err') ->
    logged out err out' err'.
Proof.
  induction labelRefs as [| r rest IH]; intros out out' err err' H; simpl in H.
  - inversion H; subst. apply logged_refl.
  - destruct (negb (labelDefExists labelDefs (id_Name r))).
    + apply IH in H. exact (logged_trans _ _ _ _ _ _ (logged_print _ _ _) H).
    + apply IH in H. exact H.
Qed.

Lemma checkVarRefsParams_logged (varDecls : list VarDeclaration)
      (params : list ASTNode) :
  forall (out out' : list Diagnostic) (valid valid' : bool),
    checkVarRefsParams params varDecls out valid = (out', valid') ->
    logged out (negb valid) out' (negb valid').
Proof.
  induction params as [| a rest IH]; intros out out' valid valid' H;
    simpl in H.
  - inversion H; subst. apply logged_refl.
  - destruct a; try (apply IH in H; exact H).
    destruct (ro_Var r) as [var |]; [| apply IH in H; exact H].
    destruct (negb (varDeclExists varDecls (id_Name var))).
    + apply IH in H. exact (logged_trans _ _ _ _ _ _ (logged_print _ _ _) H).
    + apply IH in H. exact H.
Qed.

Lemma checkVarRefsBody_logged (varDecls : list VarDeclaration)
      (body : list ASTNode) :
  forall (out out' : list Diagnostic) (valid valid' : bool),
    checkVarRefsBody body varDecls out valid = (out', valid') ->
    logged out (negb valid) out' (negb valid').
Proof.
  induction body as [| node rest IH]; intros out out' valid valid' H;
    simpl in H.
  - inversion H; subst. apply logged_refl.
  - destruct node; try (apply IH in H; exact H).
    destruct (checkVarRefsParams (ins_Params i) varDecls out valid)
      as [out1 valid1] eqn:E1.
    apply checkVarRefsParams_logged in E1. apply IH in H.
    exact (logged_trans _ _ _ _ _ _ E1 H).
Qed.

Lemma typeCheckBody_logged (instrDefs : list InstrDefNode)
      (body : list ASTNode) :
  forallb exclusiveBelow instrDefs = true ->
  forall (cs cs' : CheckState) (body' : list ASTNode),
    typeCheckBody instrDefs body cs = Some (body', cs') ->
    logged (cs_out cs) (cs_typeCheckError cs)
           (cs_out cs') (cs_typeCheckError cs').
Proof.
  intros Hall.
  induction body as [| node rest IH]; intros cs cs' body' H; simpl in H.
  - inversion H; subst. apply logged_refl.
  - destruct node;
      try (destruct (typeCheckBody instrDefs rest cs)
             as [[rest' cs1] |] eqn:E; [| discriminate];
           inversion H; subst; exact (IH _ _ _ E)).
    + (* label *)
      match type of H with
      | match typeCheckBody _ _ ?c with _ => _ end = _ =>
        destruct (typeCheckBody instrDefs rest c) as [[rest' cs1] |] eqn:E;
          [| discriminate]
      end.
      inversion H; subst; clear H. apply IH in E. simpl in E.
      refine (logged_trans _ _ _ _ _ _ _ E).
      destruct (labelDefExists (cs_LabelDefs cs) (ld_Name l)).
      * apply logged_print.
      * apply logged_refl.
    + (* instruction *)
      destruct (typeCheckInstrParams instrDefs i (cs_labelRefs cs) (cs_out cs))
        as [[[[ok instr'] refs] out] |] eqn:Ei; [| discriminate].
      match type of H with
      | match typeCheckBody _ _ ?c with _ => _ end = _ =>
        destruct (typeCheckBody instrDefs rest c) as [[rest' cs1] |] eqn:E;
          [| discriminate]
      end.
      inversion H; subst; clear H. apply IH in E. simpl in E.
      refine (logged_trans _ _ _ _ _ _ _ E).
      apply logged_if.
      exact (typeCheckInstrParams_logged _ _ _ _ _ _ _ _ Hall Ei).
Qed.

Section TypeCheckerDiagnostics.

Context {perms : SecPermConsts}.

Lemma typeCheckVarsLoop_logged (secType : ASTSectionType)
      (body : list ASTNode) :
  forall (varDecls varDecls' : list VarDeclaration)
         (out out' : list Diagnostic) (valid valid' : bool)
         (body' : list ASTNode),
    typeCheckVarsLoop secType body varDecls out valid
    = Some (body', varDecls', out', valid') ->
    logged out (negb valid) out' (negb valid').
Proof.
  induction body as [| node rest IH];
    intros varDecls varDecls' out out' valid valid' body' H; simpl in H.
  - inversion H; subst. apply logged_refl.
  - destruct node; try discriminate H.
    destruct (varDeclExists varDecls (id_Name (var_Id v))).
    + match type of H with
      | match ?t with _ => _ end = _ =>
        destruct t as [[[[r vd] o] va] |] eqn:E; [| discriminate]
      end.
      inversion H; subst; clear H. apply IH in E.
      exact (logged_trans _ _ _ _ _ _ (logged_print _ _ _) E).
    + match type of H with
      | match ?t with _ => _ end = _ =>
        destruct t as [[[[r vd] o] va] |] eqn:E; [| discriminate]
      end.
      inversion H; subst; clear H. exact (IH _ _ _ _ _ _ _ E).
Qed.

Lemma typeCheckSection_logged (sec sec' : option ASTSection) (p p' : Parser)
      (err err' : bool) :
  typeCheckSection sec p err = Some (sec', p', err') ->
  logged (Out p) err (Out p') err'
  /\ InstrDefs p' = InstrDefs p /\ LabelDefs p' = LabelDefs p
  /\ FileNode p' = FileNode p.
Proof.
  unfold typeCheckSection, typeCheckVars. intros H.
  destruct sec as [s |].
  - destruct (typeCheckVarsLoop (sec_SecType s) (sec_Body s) (VarDecls p)
                                (Out p) true)
      as [[[[body vd] out] valid] |] eqn:E; [| discriminate].
    inversion H; subst; clear H. simpl.
    split; [| repeat split].
    apply logged_if. exact (typeCheckVarsLoop_logged _ _ _ _ _ _ _ _ _ E).
  - inversion H; subst. split; [apply logged_refl | repeat split].
Qed.

(** The diagnostics of a complete pass: [typeCheck] returns true exactly
    if it printed nothing. *)
Lemma typeCheck_logged (p p' : Parser) (b : bool) :
  forallb exclusiveBelow (InstrDefs p) = true ->
  typeCheck p = Some (b, p') ->
  logged (Out p) false (Out p') (negb b).
Proof.
  intros Hall H. unfold typeCheck in H.
  destruct (typeCheckSection (SecStatic (FileNode p)) p false)
    as [[[secStatic p1] err1] |] eqn:E1; [| discriminate].
  destruct (typeCheckSection (SecGlobal (FileNode p)) p1 err1)
    as [[[secGlobal p2] err2] |] eqn:E2; [| discriminate].
  apply typeCheckSection_logged in E1. destruct E1 as (L1 & I1 & _ & _).
  apply typeCheckSection_logged in E2. destruct E2 as (L2 & I2 & _ & _).
  pose proof (logged_trans _ _ _ _ _ _ L1 L2) as L12.
  destruct (SecCode (FileNode p)) as [code |]; [| discriminate].
  destruct (sec_Body code) as [| node rest] eqn:Ebody.
  - inversion H; subst; clear H.
    exact (logged_trans _ _ _ _ _ _ L12 (logged_print _ _ _)).
  - rewrite <- Ebody in H. clear Ebody node rest.
    destruct (findMainEntry (sec_Body code) None).
    2: { inversion H; subst; clear H.
         exact (logged_trans _ _ _ _ _ _ L12 (logged_print _ _ _)). }
    match type of H with
    | match typeCheckBody ?d ?b ?c with _ => _ end = _ =>
      destruct (typeCheckBody d b c) as [[body cs] |] eqn:Eb;
        [| discriminate]
    end.
    apply typeCheckBody_logged in Eb;
      [| cbn [InstrDefs set_FileNode]; congruence].
    cbn [cs_out cs_typeCheckError Out set_FileNode] in Eb.
    destruct (checkLabelRefs (cs_labelRefs cs) (cs_LabelDefs cs)
                             (cs_out cs) (cs_typeCheckError cs))
      as [out err3] eqn:El.
    apply checkLabelRefs_logged in El.
    unfold checkVarRefs in H.
    cbn [FileNode set_Out set_LabelDefs set_FileNode SecCode sec_Body
         set_Body VarDecls Out] in H.
    match type of H with
    | context [checkVarRefsBody ?b ?v ?o true] =>
      destruct (checkVarRefsBody b v o true) as [out5 valid] eqn:Ev
    end.
    apply checkVarRefsBody_logged in Ev.
    inversion H; subst; clear H. cbn [Out set_Out].
    rewrite negb_involutive.
    refine (logged_trans _ _ _ _ _ _ L12 _).
    refine (logged_trans _ _ _ _ _ _ Eb _).
    refine (logged_trans _ _ _ _ _ _ El _).
    apply logged_if. exact Ev.
Qed.

End TypeCheckerDiagnostics.

Lemma builtinInstrDefs_exclusive :
  forallb exclusiveBelow builtinInstrDefs = true.
Proof. vm_compute. reflexivity. Qed.

(** ** Float widths *)

(** C7 (the code departs from it).  [checkFloatWidth] compares the number
    itself, not its absolute value: every negative number passes, also
    -2^130 under F32 and minus infinity under F64, whose magnitudes are
    above the maximum of the type.  On numbers that are not negative the
    check is the bound on the magnitude. *)
Theorem checkFloatWidth_ignores_sign :
  checkFloatWidth neg_2_pow_130 UVM_TYPE_F32 = true
  /\ SFleb (SFabs neg_2_pow_130) FLT_MAX = false
  /\ checkFloatWidth (S754_infinity true) UVM_TYPE_F64 = true
  /\ SFleb (SFabs (S754_infinity true)) DBL_MAX = false
  /\ (forall m e type,
        isFloatType type = true ->
        checkFloatWidth (S754_finite true m e) type = true)
  /\ (forall m e,
        checkFloatWidth (S754_finite false m e) UVM_TYPE_F32
        = SFleb (SFabs (S754_finite false m e)) FLT_MAX
        /\ checkFloatWidth (S754_finite false m e) UVM_TYPE_F64
           = SFleb (SFabs (S754_finite false m e)) DBL_MAX).
Proof.
  repeat split; try reflexivity.
  intros m e type H. destruct type; try discriminate H; reflexivity.
Qed.

(** ** Section permissions *)

Lemma Z_land_lor_eq (a b : Z) : Z.land a b = Z.lor a b -> a = b.
Proof.
  intros H. apply Z.bits_inj'. intros n Hn.
  assert (Hb : Z.testbit (Z.land a b) n = Z.testbit (Z.lor a b) n)
    by (rewrite H; reflexivity).
  rewrite Z.land_spec, Z.lor_spec in Hb.
  destruct (Z.testbit a n), (Z.testbit b n); simpl in Hb; congruence.
Qed.

(** C6 (the code departs from it).  The permission byte recorded for a
    variable of the Global section is the bitwise AND of the read and the
    write permission, which is their combination only if the two constants
    are equal; for a variable of the Static section it is the read
    permission. *)
Theorem typeCheckVars_SecPerm :
  forall (perms : SecPermConsts) (var : ASTVariable),
    typeCheckVarsLoop GLOBAL [Node_ASTVariable var] [] [] true
    = Some ([Node_ASTVariable (set_VarDeclIndex var 0)],
            [mkVarDeclaration (var_Id var)
                              (Z.land SEC_PERM_READ SEC_PERM_WRITE)],
            [], true)
    /\ typeCheckVarsLoop STATIC [Node_ASTVariable var] [] [] true
       = Some ([Node_ASTVariable (set_VarDeclIndex var 0)],
               [mkVarDeclaration (var_Id var) SEC_PERM_READ],
               [], true)
    /\ (SEC_PERM_READ = SEC_PERM_WRITE
        \/ Z.land SEC_PERM_READ SEC_PERM_WRITE
           <> Z.lor SEC_PERM_READ SEC_PERM_WRITE).
Proof.
  intros perms var. split; [reflexivity | split; [reflexivity |]].
  destruct (Z.eq_dec SEC_PERM_READ SEC_PERM_WRITE) as [E | NE];
    [left; exact E | right].
  intros H. apply NE. exact (Z_land_lor_eq _ _ H).
Qed.

(** ** The walk over the Code section *)

(** The walk over a body in two parts is the walk over the first part
    followed by the walk over the second from the state the first left. *)
Lemma typeCheckBody_app (instrDefs : list InstrDefNode)
      (b1 b2 : list ASTNode) :
  forall cs : CheckState,
    typeCheckBody instrDefs (b1 ++ b2) cs
    = match typeCheckBody instrDefs b1 cs with
      | None => None
      | Some (b1', cs1) =>
        match typeCheckBody instrDefs b2 cs1 with
        | None => None
        | Some (b2', cs2) => Some (b1' ++ b2', cs2)
        end
      end.
Proof.
  induction b1 as [| node rest IH]; intros cs.
  - simpl. destruct (typeCheckBody instrDefs b2 cs) as [[b2' cs2] |];
      reflexivity.
  - destruct node; simpl;
      try (rewrite IH;
           destruct (typeCheckBody instrDefs rest _) as [[? c1] |];
           [| reflexivity];
           destruct (typeCheckBody instrDefs b2 c1) as [[? ?] |];
           reflexivity).
    destruct (typeCheckInstrParams instrDefs i (cs_labelRefs cs) (cs_out cs))
      as [[[[ok instr'] refs] out] |]; [| reflexivity].
    rewrite IH.
    destruct (typeCheckBody instrDefs rest _) as [[? c1] |]; [| reflexivity].
    destruct (typeCheckBody instrDefs b2 c1) as [[? ?] |]; reflexivity.
Qed.

(** The error flag is accumulated and never consulted: a walk that starts
    with the flag set does what the walk from a clear flag does. *)
Lemma typeCheckBody_error_flag (instrDefs : list InstrDefNode)
      (body : list ASTNode) :
  forall (labelDefs : list LabelDefLookup) (labelRefs : list Identifier)
         (out : list Diagnostic) (err : bool),
    typeCheckBody instrDefs body (mkCheckState labelDefs labelRefs out err)
    = match typeCheckBody instrDefs body
              (mkCheckState labelDefs labelRefs out false) with
      | None => None
      | Some (body', cs) =>
        Some (body', cs_set_error cs (err || cs_typeCheckError cs))
      end.
Proof.
  induction body as [| node rest IH]; intros labelDefs labelRefs out err.
  - simpl. unfold cs_set_error. simpl. rewrite orb_false_r. reflexivity.
  - destruct node; simpl;
      try (rewrite (IH labelDefs labelRefs out err);
           destruct (typeCheckBody instrDefs rest _) as [[? ?] |];
           reflexivity).
    + (* label *)
      destruct (labelDefExists labelDefs (ld_Name l)).
      * rewrite (IH _ _ _ true).
        destruct (typeCheckBody instrDefs rest _) as [[? ?] |];
          [| reflexivity].
        unfold cs_set_error. simpl. rewrite orb_true_r. reflexivity.
      * rewrite (IH _ _ _ err).
        destruct (typeCheckBody instrDefs rest _) as [[? ?] |]; reflexivity.
    + (* instruction *)
      destruct (typeCheckInstrParams instrDefs i labelRefs out)
        as [[[[ok instr'] refs] out'] |]; [| reflexivity].
      destruct ok; simpl.
      * rewrite (IH _ _ _ err).
        destruct (typeCheckBody instrDefs rest _) as [[? ?] |]; reflexivity.
      * rewrite (IH _ _ _ true).
        destruct (typeCheckBody instrDefs rest _) as [[? ?] |];
          [| reflexivity].
        unfold cs_set_error. simpl. rewrite orb_true_r. reflexivity.
Qed.

(** Every label of the body is entered into the table, redefined or not. *)
Lemma typeCheckBody_LabelDefs (instrDefs : list InstrDefNode)
      (body : list ASTNode) :
  forall (cs cs' : CheckState) (body' : list ASTNode),
    typeCheckBody instrDefs body cs = Some (body', cs') ->
    cs_LabelDefs cs'
    = cs_LabelDefs cs ++ map (fun l => mkLabelDefLookup l 0) (labelsOf body).
Proof.
  induction body as [| node rest IH]; intros cs cs' body' H; simpl in H.
  - inversion H; subst. simpl. symmetry. apply app_nil_r.
  - destruct node;
      try (destruct (typeCheckBody instrDefs rest cs)
             as [[rest' cs1] |] eqn:E; [| discriminate];
           inversion H; subst; exact (IH _ _ _ E)).
    + match type of H with
      | match typeCheckBody _ _ ?c with _ => _ end = _ =>
        destruct (typeCheckBody instrDefs rest c) as [[rest' cs1] |] eqn:E;
          [| discriminate]
      end.
      inversion H; subst; clear H. apply IH in E. simpl in E.
      rewrite E. simpl. rewrite <- app_assoc. reflexivity.
    + destruct (typeCheckInstrParams instrDefs i (cs_labelRefs cs) (cs_out cs))
        as [[[[ok instr'] refs] out] |]; [| discriminate].
      match type of H with
      | match typeCheckBody _ _ ?c with _ => _ end = _ =>
        destruct (typeCheckBody instrDefs rest c) as [[rest' cs1] |] eqn:E;
          [| discriminate]
      end.
      inversion H; subst; clear H. apply IH in E. exact E.
Qed.

Lemma labelDefExists_In (labelDefs : list LabelDefLookup) (l : LabelDef)
      (name : string) :
  In l (map ldl_Def labelDefs) -> ld_Name l = name ->
  labelDefExists labelDefs name = true.
Proof.
  intros Hin E. apply in_map_iff in Hin. destruct Hin as (d & Ed & Hin).
  apply existsb_exists. exists d. split; [exact Hin |].
  rewrite Ed, E. apply String.eqb_refl.
Qed.

Lemma labelsOf_app (b1 b2 : list ASTNode) :
  labelsOf (b1 ++ b2) = labelsOf b1 ++ labelsOf b2.
Proof.
  induction b1 as [| node rest IH]; [reflexivity |].
  destruct node; simpl; rewrite ?IH; reflexivity.
Qed.

(** A label whose name an earlier label of the body has sets the error
    flag of the walk. *)
Lemma typeCheckBody_redefinition (instrDefs : list InstrDefNode)
      (b1 b2 b3 body' : list ASTNode) (l1 l2 : LabelDef)
      (cs cs' : CheckState) :
  typeCheckBody instrDefs
                (b1 ++ Node_LabelDef l1 :: b2 ++ Node_LabelDef l2 :: b3) cs
  = Some (body', cs') ->
  ld_Name l1 = ld_Name l2 ->
  cs_typeCheckError cs' = true.
Proof.
  intros H Ename.
  change (b1 ++ Node_LabelDef l1 :: b2 ++ Node_LabelDef l2 :: b3)
    with (b1 ++ (Node_LabelDef l1 :: b2) ++ Node_LabelDef l2 :: b3) in H.
  rewrite app_assoc in H. rewrite typeCheckBody_app in H.
  destruct (typeCheckBody instrDefs (b1 ++ Node_LabelDef l1 :: b2) cs)
    as [[x cs1] |] eqn:E1; [| discriminate].
  pose proof (typeCheckBody_LabelDefs _ _ _ _ _ E1) as HL.
  assert (Hex : labelDefExists (cs_LabelDefs cs1) (ld_Name l2) = true).
  { apply (labelDefExists_In _ l1); [| exact Ename].
    rewrite HL, map_app, map_map. simpl. rewrite map_id.
    apply in_or_app. right. rewrite labelsOf_app. apply in_or_app. right.
    left. reflexivity. }
  simpl in H. rewrite Hex in H. rewrite typeCheckBody_error_flag in H.
  destruct (typeCheckBody instrDefs b3 _) as [[y cs3] |]; [| discriminate].
  inversion H; subst. reflexivity.
Qed.

Section TypeCheckerPass.

Context {perms : SecPermConsts}.

(** The stages of a pass that returned, with the values it computed. *)
Lemma typeCheck_inv (p p' : Parser) (b : bool) :
  typeCheck p = Some (b, p') ->
  exists secStatic secGlobal p1 p2 err1 err2 code,
    typeCheckSection (SecStatic (FileNode p)) p false
    = Some (secStatic, p1, err1)
    /\ typeCheckSection (SecGlobal (FileNode p)) p1 err1
       = Some (secGlobal, p2, err2)
    /\ SecCode (FileNode p) = Some code
    /\ ((b = false
         /\ (sec_Body code = []
             \/ findMainEntry (sec_Body code) None = None))
        \/ exists body cs out err3 out5 valid,
            typeCheckBody (InstrDefs p) (sec_Body code)
                          (mkCheckState (LabelDefs p) [] (Out p2) err2)
            = Some (body, cs)
            /\ checkLabelRefs (cs_labelRefs cs) (cs_LabelDefs cs)
                              (cs_out cs) (cs_typeCheckError cs)
               = (out, err3)
            /\ checkVarRefsBody body (VarDecls p2) out true = (out5, valid)
            /\ b = negb (if negb valid then true else err3)
            /\ FileNode p'
               = mkASTFileNode secStatic secGlobal
                               (Some (set_Body code body))
            /\ LabelDefs p' = cs_LabelDefs cs
            /\ VarDecls p' = VarDecls p2
            /\ Out p' = out5).
Proof.
  intros H. unfold typeCheck in H.
  destruct (typeCheckSection (SecStatic (FileNode p)) p false)
    as [[[secStatic p1] err1] |] eqn:E1; [| discriminate].
  destruct (typeCheckSection (SecGlobal (FileNode p)) p1 err1)
    as [[[secGlobal p2] err2] |] eqn:E2; [| discriminate].
  destruct (typeCheckSection_logged _ _ _ _ _ _ E1) as (_ & I1 & D1 & _).
  destruct (typeCheckSection_logged _ _ _ _ _ _ E2) as (_ & I2 & D2 & _).
  destruct (SecCode (FileNode p)) as [code |]; [| discriminate].
  exists secStatic, secGlobal, p1, p2, err1, err2, code.
  split; [first [exact E1 | reflexivity] |].
  split; [first [exact E2 | reflexivity] |]. split; [reflexivity |].
  destruct (sec_Body code) as [| node rest] eqn:Ebody.
  - inversion H; subst. left. split; [reflexivity | left; reflexivity].
  - rewrite <- Ebody in H. rewrite <- Ebody. clear Ebody node rest.
    destruct (findMainEntry (sec_Body code) None).
    2: { inversion H; subst. left. split; [reflexivity | right; reflexivity]. }
    right.
    cbn [InstrDefs LabelDefs Out set_FileNode] in H.
    rewrite I2, I1, D2, D1 in H.
    destruct (typeCheckBody (InstrDefs p) (sec_Body code) _)
      as [[body cs] |] eqn:Eb; [| discriminate].
    destruct (checkLabelRefs (cs_labelRefs cs) (cs_LabelDefs cs)
                             (cs_out cs) (cs_typeCheckError cs))
      as [out err3] eqn:El.
    unfold checkVarRefs in H.
    cbn [FileNode set_Out set_LabelDefs set_FileNode SecCode sec_Body
         set_Body VarDecls Out] in H.
    destruct (checkVarRefsBody body (VarDecls p2) out true)
      as [out5 valid] eqn:Ev.
    inversion H; subst; clear H.
    exists body, cs, out, err3, out5, valid.
    repeat split; auto.
Qed.

(** Two labels of one name in the Code section make the pass fail. *)
Lemma typeCheck_redefinition (p p' : Parser) (b : bool) (code : ASTSection)
      (b1 b2 b3 : list ASTNode) (l1 l2 : LabelDef) :
  typeCheck p = Some (b, p') ->
  SecCode (FileNode p) = Some code ->
  sec_Body code = b1 ++ Node_LabelDef l1 :: b2 ++ Node_LabelDef l2 :: b3 ->
  ld_Name l1 = ld_Name l2 ->
  b = false.
Proof.
  intros H Ecode Ebody Ename.
  destruct (typeCheck_inv _ _ _ H)
    as (secStatic & secGlobal & p1 & p2 & err1 & err2 & code' & _ & _
        & Ecode' & Hcases).
  rewrite Ecode in Ecode'. inversion Ecode'; subst code'; clear Ecode'.
  destruct Hcases as [[Hb _] | (body & cs & out & err3 & out5 & valid
                                & Eb & El & _ & Hb & _)]; [exact Hb |].
  rewrite Ebody in Eb.
  pose proof (typeCheckBody_redefinition _ _ _ _ _ _ _ _ _ Eb Ename) as Herr.
  apply checkLabelRefs_logged in El. destruct El as (errs & _ & E3).
  rewrite Herr in E3. simpl in E3. subst err3 b.
  destruct valid; reflexivity.
Qed.

End TypeCheckerPass.

(** ** The loops of the pass go on after an error *)

Section CheckerLoops.

Context {perms : SecPermConsts}.

(** The loop over the variables of a section is the loop over the first
    variables followed by the loop over the rest. *)
Lemma typeCheckVarsLoop_app (secType : ASTSectionType) (b1 b2 : list ASTNode) :
  forall (varDecls : list VarDeclaration) (out : list Diagnostic)
         (valid : bool),
    typeCheckVarsLoop secType (b1 ++ b2) varDecls out valid
    = match typeCheckVarsLoop secType b1 varDecls out valid with
      | None => None
      | Some (b1', varDecls1, out1, valid1) =>
        match typeCheckVarsLoop secType b2 varDecls1 out1 valid1 with
        | None => None
        | Some (b2', varDecls2, out2, valid2) =>
          Some (b1' ++ b2', varDecls2, out2, valid2)
        end
      end.
Proof.
  induction b1 as [| node rest IH]; intros varDecls out valid.
  - simpl.
    destruct (typeCheckVarsLoop secType b2 varDecls out valid)
      as [[[[b2' vd2] out2] v2] |]; reflexivity.
  - destruct node; try reflexivity.
    cbn [app typeCheckVarsLoop].
    match goal with
    | |- context [varDeclExists varDecls ?n] =>
      destruct (varDeclExists varDecls n)
    end; rewrite IH;
      match goal with
      | |- context [typeCheckVarsLoop secType rest ?vd ?o ?v] =>
        destruct (typeCheckVarsLoop secType rest vd o v)
          as [[[[r1 vd1] out1] v1] |]; [| reflexivity]
      end;
      destruct (typeCheckVarsLoop secType b2 vd1 out1 v1)
        as [[[[b2' vd2] out2] v2] |]; reflexivity.
Qed.

(** The flag the loop starts from changes nothing but the flag it ends
    with. *)
Lemma typeCheckVarsLoop_flag (secType : ASTSectionType) (body : list ASTNode) :
  forall (varDecls : list VarDeclaration) (out : list Diagnostic)
         (valid : bool),
    typeCheckVarsLoop secType body varDecls out valid
    = match typeCheckVarsLoop secType body varDecls out true with
      | None => None
      | Some (body', varDecls', out', valid') =>
        Some (body', varDecls', out', valid && valid')
      end.
Proof.
  induction body as [| node rest IH]; intros varDecls out valid.
  - simpl. rewrite andb_true_r. reflexivity.
  - destruct node; try reflexivity.
    cbn [typeCheckVarsLoop].
    match goal with
    | |- context [varDeclExists varDecls ?n] =>
      destruct (varDeclExists varDecls n)
    end.
    + destruct (typeCheckVarsLoop secType rest varDecls _ false)
        as [[[[r1 vd1] out1] v1] |] eqn:E; [| reflexivity].
      rewrite IH in E.
      destruct (typeCheckVarsLoop secType rest varDecls _ true)
        as [[[[r2 vd2] out2] v2] |]; [| discriminate E].
      injection E as <- <- <- <-. rewrite andb_false_r. reflexivity.
    + rewrite IH.
      destruct (typeCheckVarsLoop secType rest _ out true)
        as [[[[r2 vd2] out2] v2] |]; reflexivity.
Qed.

End CheckerLoops.

Lemma checkLabelRefs_app (labelDefs : list LabelDefLookup)
      (r1 r2 : list Identifier) :
  forall (out : list Diagnostic) (err : bool),
    checkLabelRefs (r1 ++ r2) labelDefs out err
    = let '(out1, err1) := checkLabelRefs r1 labelDefs out err in
      checkLabelRefs r2 labelDefs out1 err1.
Proof.
  induction r1 as [| r rest IH]; intros out err; [reflexivity |].
  cbn [app checkLabelRefs].
  destruct (negb (labelDefExists labelDefs (id_Name r))); apply IH.
Qed.

Lemma checkLabelRefs_flag (labelDefs : list LabelDefLookup)
      (refs : list Identifier) :
  forall (out : list Diagnostic) (err : bool),
    checkLabelRefs refs labelDefs out err
    = let '(out', err') := checkLabelRefs refs labelDefs out false in
      (out', err || err').
Proof.
  induction refs as [| r rest IH]; intros out err.
  - simpl. rewrite orb_false_r. reflexivity.
  - cbn [checkLabelRefs].
    destruct (negb (labelDefExists labelDefs (id_Name r))).
    + rewrite (IH _ true).
      destruct (checkLabelRefs rest labelDefs _ false) as [out' err'].
      rewrite orb_true_r. reflexivity.
    + apply IH.
Qed.

Lemma checkVarRefsParams_app (varDecls : list VarDeclaration)
      (p1 p2 : list ASTNode) :
  forall (out : list Diagnostic) (valid : bool),
    checkVarRefsParams (p1 ++ p2) varDecls out valid
    = let '(out1, valid1) := checkVarRefsParams p1 varDecls out valid in
      checkVarRefsParams p2 varDecls out1 valid1.
Proof.
  induction p1 as [| node rest IH]; intros out valid; [reflexivity |].
  destruct node; cbn [app checkVarRefsParams]; try apply IH.
  match goal with
  | |- context [ro_Var ?r] => destruct (ro_Var r) as [var |]
  end; [| apply IH].
  destruct (negb (varDeclExists varDecls (id_Name var))); apply IH.
Qed.

Lemma checkVarRefsParams_flag (varDecls : list VarDeclaration)
      (params : list ASTNode) :
  forall (out : list Diagnostic) (valid : bool),
    checkVarRefsParams params varDecls out valid
    = let '(out', valid') := checkVarRefsParams params varDecls out true in
      (out', valid && valid').
Proof.
  induction params as [| node rest IH]; intros out valid.
  - simpl. rewrite andb_true_r. reflexivity.
  - destruct node; cbn [checkVarRefsParams]; try apply IH.
    match goal with
  | |- context [ro_Var ?r] => destruct (ro_Var r) as [var |]
  end; [| apply IH].
    destruct (negb (varDeclExists varDecls (id_Name var))); [| apply IH].
    rewrite (IH _ false).
    destruct (checkVarRefsParams rest varDecls _ true) as [out' valid'].
    rewrite andb_false_r. reflexivity.
Qed.

Lemma checkVarRefsBody_app (varDecls : list VarDeclaration)
      (b1 b2 : list ASTNode) :
  forall (out : list Diagnostic) (valid : bool),
    checkVarRefsBody (b1 ++ b2) varDecls out valid
    = let '(out1, valid1) := checkVarRefsBody b1 varDecls out valid in
      checkVarRefsBody b2 varDecls out1 valid1.
Proof.
  induction b1 as [| node rest IH]; intros out valid; [reflexivity |].
  destruct node; cbn [app checkVarRefsBody]; try apply IH.
  match goal with
  | |- context [checkVarRefsParams ?ps varDecls out valid] =>
    destruct (checkVarRefsParams ps varDecls out valid) as [out1 valid1]
  end.
  apply IH.
Qed.

Lemma checkVarRefsBody_flag (varDecls : list VarDeclaration)
      (body : list ASTNode) :
  forall (out : list Diagnostic) (valid : bool),
    checkVarRefsBody body varDecls out valid
    = let '(out', valid') := checkVarRefsBody body varDecls out true in
      (out', valid && valid').
Proof.
  induction body as [| node rest IH]; intros out valid.
  - simpl. rewrite andb_true_r. reflexivity.
  - destruct node; cbn [checkVarRefsBody]; try apply IH.
    match goal with
    | |- context [checkVarRefsParams ?ps varDecls out valid] =>
      rewrite (checkVarRefsParams_flag varDecls ps out valid);
        destruct (checkVarRefsParams ps varDecls out true) as [out1 valid1]
    end.
    rewrite (IH out1 (valid && valid1)), (IH out1 valid1).
    destruct (checkVarRefsBody rest varDecls out1 true) as [out' valid'].
    rewrite andb_assoc. reflexivity.
Qed.

Section CheckerStages.

Context {perms : SecPermConsts}.

(** The check of a section does not look at the flag it is entered with. *)
Lemma typeCheckSection_flag (sec : option ASTSection) (p : Parser)
      (err : bool) :
  typeCheckSection sec p err
  = match typeCheckSection sec p false with
    | None => None
    | Some (sec', p', err') => Some (sec', p', err || err')
    end.
Proof.
  unfold typeCheckSection. destruct sec as [s |].
  - destruct (typeCheckVars s p) as [[[valid s'] p'] |]; [| reflexivity].
    destruct valid; simpl; rewrite ?orb_true_r, ?orb_false_r; reflexivity.
  - rewrite orb_false_r. reflexivity.
Qed.

End CheckerStages.

(** C1.  On the built-in instruction definitions, a pass of [typeCheck]
    that returns appends diagnostics to the console and returns true
    exactly if it appended none.  Errors do not stop the pass.  Every loop
    of it (the walk over the body of the Code section, the loop over the
    variables of a section, the loop over the collected label references,
    the loops of [checkVarRefs] over the instructions and over their
    operands) is the loop over a first part followed by the loop over the
    rest, and the rest is processed as from a clean flag, whatever the
    first part reported: the flag a loop starts from changes nothing but
    the flag it ends with.  When the Code section defines [main], the
    stages run one after the other whatever the earlier ones found: the
    Static section, the Global section, the walk over the body, the label
    references, the variable references; the output of the pass is the
    output of the last stage.  Two labels of one name in the Code section
    make the pass return false; on the file with two labels [main] it
    prints exactly one diagnostic, and on a file with an error of every
    recoverable kind it prints them all. *)
Theorem typeCheck_true_iff_no_diagnostic :
  forall (perms : SecPermConsts) (lib : StdLib) (p p' : Parser) (b : bool),
    InstrDefs p = builtinInstrDefs ->
    typeCheck p = Some (b, p') ->
    (exists errs, Out p' = Out p ++ errs /\ (b = true <-> errs = []))
    /\ (forall b1 b2 cs,
          typeCheckBody (InstrDefs p) (b1 ++ b2) cs
          = match typeCheckBody (InstrDefs p) b1 cs with
            | None => None
            | Some (b1', cs1) =>
              match typeCheckBody (InstrDefs p) b2 cs1 with
              | None => None
              | Some (b2', cs2) => Some (b1' ++ b2', cs2)
              end
            end)
    /\ (forall body labelDefs labelRefs out err,
          typeCheckBody (InstrDefs p) body
                        (mkCheckState labelDefs labelRefs out err)
          = match typeCheckBody (InstrDefs p) body
                    (mkCheckState labelDefs labelRefs out false) with
            | None => None
            | Some (body', cs) =>
              Some (body', cs_set_error cs (err || cs_typeCheckError cs))
            end)
    /\ (forall code b1 b2 b3 l1 l2,
          SecCode (FileNode p) = Some code ->
          sec_Body code
          = b1 ++ Node_LabelDef l1 :: b2 ++ Node_LabelDef l2 :: b3 ->
          ld_Name l1 = ld_Name l2 ->
          b = false)
    /\ (exists p1 p2,
          buildAST (newParser builtinInstrDefs s5_src s5_tokens)
          = Some (true, p1)
          /\ typeCheck p1 = Some (false, p2)
          /\ Out p2 = [printError 13 4 3 1 "Label is already defined"])
    /\ (exists p1 p2,
          buildAST (newParser builtinInstrDefs many_src many_tokens)
          = Some (true, p1)
          /\ typeCheck p1 = Some (false, p2)
          /\ Out p2
             = [printError 28 10 3 5 "Variable redefiniton";
                printError 54 4 7 1 "Label is already defined";
                printError 72 3 8 13 "Integer does not fit into given type";
                printError 85 3 9 10 "Expected int type found float type";
                printError 80 4 9 5
                  "Error no matching parameter list found for instruction";
                printError 99 7 10 9 "Unresolved label";
                printError 116 1 11 10 "Variable reference does not exist"])
    /\ (forall secType b1 b2 varDecls out valid,
          typeCheckVarsLoop secType (b1 ++ b2) varDecls out valid
          = match typeCheckVarsLoop secType b1 varDecls out valid with
            | None => None
            | Some (b1', varDecls1, out1, valid1) =>
              match typeCheckVarsLoop secType b2 varDecls1 out1 true with
              | None => None
              | Some (b2', varDecls2, out2, valid2) =>
                Some (b1' ++ b2', varDecls2, out2, valid1 && valid2)
              end
            end)
    /\ (forall refs1 refs2 labelDefs out err,
          checkLabelRefs (refs1 ++ refs2) labelDefs out err
          = let '(out1, err1) := checkLabelRefs refs1 labelDefs out err in
            let '(out2, err2) := checkLabelRefs refs2 labelDefs out1 false in
            (out2, err1 || err2))
    /\ (forall params1 params2 varDecls out valid,
          checkVarRefsParams (params1 ++ params2) varDecls out valid
          = let '(out1, valid1) :=
                checkVarRefsParams params1 varDecls out valid in
            let '(out2, valid2) :=
                checkVarRefsParams params2 varDecls out1 true in
            (out2, valid1 && valid2))
    /\ (forall b1 b2 varDecls out valid,
          checkVarRefsBody (b1 ++ b2) varDecls out valid
          = let '(out1, valid1) := checkVarRefsBody b1 varDecls out valid in
            let '(out2, valid2) := checkVarRefsBody b2 varDecls out1 true in
            (out2, valid1 && valid2))
    /\ (forall sec q err,
          typeCheckSection sec q err
          = match typeCheckSection sec q false with
            | None => None
            | Some (sec', q', err') => Some (sec', q', err || err')
            end)
    /\ (forall code,
          SecCode (FileNode p) = Some code ->
          findMainEntry (sec_Body code) None <> None ->
          exists secStatic secGlobal p1 p2 err1 err2 body cs out err3 out5
                 valid,
            typeCheckSection (SecStatic (FileNode p)) p false
            = Some (secStatic, p1, err1)
            /\ typeCheckSection (SecGlobal (FileNode p)) p1 err1
               = Some (secGlobal, p2, err2)
            /\ typeCheckBody (InstrDefs p) (sec_Body code)
                             (mkCheckState (LabelDefs p) [] (Out p2) err2)
               = Some (body, cs)
            /\ checkLabelRefs (cs_labelRefs cs) (cs_LabelDefs cs)
                              (cs_out cs) (cs_typeCheckError cs)
               = (out, err3)
            /\ checkVarRefsBody body (VarDecls p2) out true = (out5, valid)
            /\ Out p' = out5
            /\ b = negb (if negb valid then true else err3)).
Proof.
  intros perms lib p p' b Hdefs H.
  split.
  { assert (Hall : forallb exclusiveBelow (InstrDefs p) = true)
      by (rewrite Hdefs; exact builtinInstrDefs_exclusive).
    destruct (typeCheck_logged p p' b Hall H) as (errs & Eout & Eb).
    exists errs. split; [exact Eout |].
    destruct b, errs; simpl in Eb; split; intros E; congruence. }
  split; [intros b1 b2 cs; apply typeCheckBody_app |].
  split; [intros; apply typeCheckBody_error_flag |].
  split.
  { intros code b1 b2 b3 l1 l2 Ecode Ebody Ename.
    exact (typeCheck_redefinition _ _ _ _ _ _ _ _ _ H Ecode Ebody Ename). }
  split.
  { eexists. eexists. split; [vm_compute; reflexivity |].
    split; vm_compute; reflexivity. }
  split.
  { eexists. eexists. split; [vm_compute; reflexivity |].
    split; vm_compute; reflexivity. }
  split.
  { intros secType b1 b2 varDecls out valid.
    rewrite typeCheckVarsLoop_app.
    destruct (typeCheckVarsLoop secType b1 varDecls out valid)
      as [[[[b1' vd1] out1] v1] |]; [| reflexivity].
    rewrite typeCheckVarsLoop_flag.
    destruct (typeCheckVarsLoop secType b2 vd1 out1 true)
      as [[[[b2' vd2] out2] v2] |]; reflexivity. }
  split.
  { intros refs1 refs2 labelDefs out err. rewrite checkLabelRefs_app.
    destruct (checkLabelRefs refs1 labelDefs out err) as [out1 err1].
    apply checkLabelRefs_flag. }
  split.
  { intros params1 params2 varDecls out valid.
    rewrite checkVarRefsParams_app.
    destruct (checkVarRefsParams params1 varDecls out valid)
      as [out1 valid1].
    apply checkVarRefsParams_flag. }
  split.
  { intros b1 b2 varDecls out valid. rewrite checkVarRefsBody_app.
    destruct (checkVarRefsBody b1 varDecls out valid) as [out1 valid1].
    apply checkVarRefsBody_flag. }
  split; [intros; apply typeCheckSection_flag |].
  intros code Ecode Hmain.
  destruct (typeCheck_inv _ _ _ H)
    as (secStatic & secGlobal & p1 & p2 & err1 & err2 & code' & E1 & E2
        & Ecode' & Hcases).
  rewrite Ecode in Ecode'. injection Ecode' as <-.
  destruct Hcases as [[_ [Hnil | Hnone]] |
                      (body & cs & out & err3 & out5 & valid
                       & Eb & El & Ev & Hb & _ & _ & _ & Hout)].
  - exfalso. apply Hmain. rewrite Hnil. reflexivity.
  - exfalso. exact (Hmain Hnone).
  - exists secStatic, secGlobal, p1, p2, err1, err2, body, cs, out, err3,
           out5, valid.
    repeat split; assumption.
Qed.

Lemma typeCheck_true_iff_no_diagnostic_witness :
  InstrDefs (parsed s5_src s5_tokens) = builtinInstrDefs
  /\ @typeCheck examplePerms (parsed s5_src s5_tokens)
     = Some (false, checked s5_src s5_tokens)
  /\ exists errs,
      Out (checked s5_src s5_tokens)
      = Out (parsed s5_src s5_tokens) ++ errs
      /\ (false = true <-> errs = []).
Proof.
  assert (Hdefs : InstrDefs (parsed s5_src s5_tokens) = builtinInstrDefs)
    by reflexivity.
  assert (H : @typeCheck examplePerms (parsed s5_src s5_tokens)
              = Some (false, checked s5_src s5_tokens))
    by (vm_compute; reflexivity).
  split; [exact Hdefs |]. split; [exact H |].
  exact (proj1 (typeCheck_true_iff_no_diagnostic examplePerms exampleLib
                  _ _ _ Hdefs H)).
Defined.

(** ** Resolution of references *)

Lemma labelsOf_In (body : list ASTNode) (l : LabelDef) :
  In l (labelsOf body) -> In (Node_LabelDef l) body.
Proof.
  induction body as [| node rest IH]; [contradiction |].
  destruct node; simpl; intros H; try (right; apply IH; exact H).
  destruct H as [-> | H]; [left; reflexivity | right; apply IH; exact H].
Qed.

Lemma labelDefExists_sound (labelDefs : list LabelDefLookup) (name : string) :
  labelDefExists labelDefs name = true ->
  exists d, In d labelDefs /\ ld_Name (ldl_Def d) = name.
Proof.
  intros H. apply existsb_exists in H. destruct H as (d & Hin & E).
  exists d. split; [exact Hin |]. apply String.eqb_eq. exact E.
Qed.

Lemma varDeclExists_sound (varDecls : list VarDeclaration) (name : string) :
  varDeclExists varDecls name = true ->
  exists d, In d varDecls /\ id_Name (vd_Id d) = name.
Proof.
  intros H. apply existsb_exists in H. destruct H as (d & Hin & E).
  exists d. split; [exact Hin |]. apply String.eqb_eq. exact E.
Qed.

(** A clear error flag behind the loop over the label references means
    that every reference was found in the label table. *)
Lemma checkLabelRefs_resolved (labelDefs : list LabelDefLookup)
      (labelRefs : list Identifier) :
  forall (out out' : list Diagnostic) (err : bool),
    checkLabelRefs labelRefs labelDefs out err = (out', false) ->
    forall labelRef, In labelRef labelRefs ->
                     labelDefExists labelDefs (id_Name labelRef) = true.
Proof.
  induction labelRefs as [| r rest IH]; intros out out' err H labelRef Hin;
    [contradiction |].
  simpl in H.
  destruct (labelDefExists labelDefs (id_Name r)) eqn:Er; simpl in H.
  - destruct Hin as [<- | Hin]; [exact Er | exact (IH _ _ _ H _ Hin)].
  - apply checkLabelRefs_logged in H. destruct H as (errs & _ & E).
    discriminate E.
Qed.

Lemma checkVarRefsParams_resolved (varDecls : list VarDeclaration)
      (params : list ASTNode) :
  forall (out out' : list Diagnostic) (valid : bool),
    checkVarRefsParams params varDecls out valid = (out', true) ->
    valid = true
    /\ forall ro var, In (Node_RegisterOffset ro) params ->
                      ro_Var ro = Some var ->
                      varDeclExists varDecls (id_Name var) = true.
Proof.
  induction params as [| a rest IH]; intros out out' valid H.
  - simpl in H. inversion H; subst. split; [reflexivity | contradiction].
  - simpl in H.
    destruct a;
      try (destruct (IH _ _ _ H) as [Hv Hall]; split; [exact Hv |];
           intros ro var [Hin | Hin] Evar;
           [discriminate Hin | exact (Hall _ _ Hin Evar)]).
    destruct (ro_Var r) as [v |] eqn:Ev.
    + destruct (varDeclExists varDecls (id_Name v)) eqn:Eex; simpl in H.
      * destruct (IH _ _ _ H) as [Hv Hall]. split; [exact Hv |].
        intros ro var [Hin | Hin] Evar; [| exact (Hall _ _ Hin Evar)].
        inversion Hin; subst. rewrite Ev in Evar. inversion Evar; subst.
        exact Eex.
      * destruct (IH _ _ _ H) as [Hv _]. discriminate Hv.
    + destruct (IH _ _ _ H) as [Hv Hall]. split; [exact Hv |].
      intros ro var [Hin | Hin] Evar; [| exact (Hall _ _ Hin Evar)].
      inversion Hin; subst. congruence.
Qed.

Lemma checkVarRefsBody_resolved (varDecls : list VarDeclaration)
      (body : list ASTNode) :
  forall (out out' : list Diagnostic) (valid : bool),
    checkVarRefsBody body varDecls out valid = (out', true) ->
    valid = true
    /\ forall instr ro var,
        In (Node_Instruction instr) body ->
        In (Node_RegisterOffset ro) (ins_Params instr) ->
        ro_Var ro = Some var ->
        varDeclExists varDecls (id_Name var) = true.
Proof.
  induction body as [| node rest IH]; intros out out' valid H.
  - simpl in H. inversion H; subst. split; [reflexivity | contradiction].
  - simpl in H.
    destruct node;
      try (destruct (IH _ _ _ H) as [Hv Hall]; split; [exact Hv |];
           intros instr ro var [Hin | Hin] Hro Evar;
           [discriminate Hin | exact (Hall _ _ _ Hin Hro Evar)]).
    destruct (checkVarRefsParams (ins_Params i) varDecls out valid)
      as [out1 valid1] eqn:E1.
    destruct (IH _ _ _ H) as [Hv Hall]. subst valid1.
    destruct (checkVarRefsParams_resolved _ _ _ _ _ E1) as [Hv1 Hparams].
    split; [exact Hv1 |].
    intros instr ro var [Hin | Hin] Hro Evar.
    + inversion Hin; subst. exact (Hparams _ _ Hro Evar).
    + exact (Hall _ _ _ Hin Hro Evar).
Qed.

Section TypeCheckerReferences.

Context {perms : SecPermConsts}.

(** The declarations behind [typeCheckVars] are those before it and one
    for variables of the section. *)
Lemma typeCheckVarsLoop_VarDecls (secType : ASTSectionType)
      (body : list ASTNode) :
  forall (varDecls varDecls' : list VarDeclaration)
         (out out' : list Diagnostic) (valid valid' : bool)
         (body' : list ASTNode),
    typeCheckVarsLoop secType body varDecls out valid
    = Some (body', varDecls', out', valid') ->
    forall d, In d varDecls' ->
              In d varDecls
              \/ exists v, In (Node_ASTVariable v) body
                           /\ vd_Id d = var_Id v.
Proof.
  induction body as [| node rest IH];
    intros varDecls varDecls' out out' valid valid' body' H d Hd;
    simpl in H.
  - inversion H; subst. left. exact Hd.
  - destruct node; try discriminate H.
    destruct (varDeclExists varDecls (id_Name (var_Id v))).
    + match type of H with
      | match ?t with _ => _ end = _ =>
        destruct t as [[[[? ?] ?] ?] |] eqn:E; [| discriminate]
      end.
      inversion H; subst; clear H.
      destruct (IH _ _ _ _ _ _ _ E d Hd) as [Hin | (v' & Hin & Ev)];
        [left; exact Hin |].
      right. exists v'. split; [right; exact Hin | exact Ev].
    + match type of H with
      | match ?t with _ => _ end = _ =>
        destruct t as [[[[? ?] ?] ?] |] eqn:E; [| discriminate]
      end.
      inversion H; subst; clear H.
      destruct (IH _ _ _ _ _ _ _ E d Hd) as [Hin | (v' & Hin & Ev)].
      * apply in_app_or in Hin. destruct Hin as [Hin | [<- | []]];
          [left; exact Hin |].
        right. exists v. split; [left; reflexivity | reflexivity].
      * right. exists v'. split; [right; exact Hin | exact Ev].
Qed.

Lemma typeCheckSection_VarDecls (sec sec' : option ASTSection)
      (p p' : Parser) (err err' : bool) :
  typeCheckSection sec p err = Some (sec', p', err') ->
  forall d, In d (VarDecls p') ->
            In d (VarDecls p)
            \/ exists s v, sec = Some s /\ In (Node_ASTVariable v) (sec_Body s)
                           /\ vd_Id d = var_Id v.
Proof.
  unfold typeCheckSection, typeCheckVars. intros H d Hd.
  destruct sec as [s |].
  - destruct (typeCheckVarsLoop (sec_SecType s) (sec_Body s) (VarDecls p)
                                (Out p) true)
      as [[[[body vd] out] valid] |] eqn:E; [| discriminate].
    inversion H; subst; clear H. simpl in Hd.
    destruct (typeCheckVarsLoop_VarDecls _ _ _ _ _ _ _ _ _ E d Hd)
      as [Hin | (v & Hin & Ev)]; [left; exact Hin |].
    right. exists s, v. auto.
  - inversion H; subst. left. exact Hd.
Qed.

End TypeCheckerReferences.

(** C3.  When [typeCheck], started with empty tables, returns true: every
    identifier the walk collected as a label reference has the name of a
    label definition in the body of the Code section, and every register
    offset of the checked tree whose [Var] is set names a variable declared
    in the Static or the Global section. *)
Theorem typeCheck_references_resolved :
  forall (perms : SecPermConsts) (p p' : Parser),
    LabelDefs p = [] ->
    VarDecls p = [] ->
    typeCheck p = Some (true, p') ->
    exists code body cs out err,
      SecCode (FileNode p) = Some code
      /\ SecCode (FileNode p') = Some (set_Body code body)
      /\ typeCheckBody (InstrDefs p) (sec_Body code)
                       (mkCheckState [] [] out err) = Some (body, cs)
      /\ (forall labelRef,
            In labelRef (cs_labelRefs cs) ->
            exists l, In (Node_LabelDef l) (sec_Body code)
                      /\ ld_Name l = id_Name labelRef)
      /\ (forall instr ro var,
            In (Node_Instruction instr) body ->
            In (Node_RegisterOffset ro) (ins_Params instr) ->
            ro_Var ro = Some var ->
            exists sec v,
              (SecStatic (FileNode p) = Some sec
               \/ SecGlobal (FileNode p) = Some sec)
              /\ In (Node_ASTVariable v) (sec_Body sec)
              /\ id_Name (var_Id v) = id_Name var).
Proof.
  intros perms p p' HL HV H.
  destruct (typeCheck_inv _ _ _ H)
    as (secStatic & secGlobal & p1 & p2 & err1 & err2 & code & E1 & E2
        & Ecode & Hcases).
  destruct Hcases as [[Hb _] | (body & cs & out & err3 & out5 & valid
                                & Eb & El & Ev & Hb & EF & _)];
    [discriminate Hb |].
  assert (Hvalid : valid = true /\ err3 = false).
  { destruct valid, err3; simpl in Hb; try discriminate Hb; auto. }
  destruct Hvalid as [-> ->].
  rewrite HL in Eb.
  exists code, body, cs, (Out p2), err2.
  split; [exact Ecode |].
  split; [rewrite EF; reflexivity |].
  split; [exact Eb |].
  split.
  - intros labelRef Hin.
    pose proof (checkLabelRefs_resolved _ _ _ _ _ El _ Hin) as Hex.
    apply labelDefExists_sound in Hex. destruct Hex as (d & Hd & En).
    rewrite (typeCheckBody_LabelDefs _ _ _ _ _ Eb) in Hd. simpl in Hd.
    apply in_map_iff in Hd. destruct Hd as (l & <- & Hl).
    exists l. split; [apply labelsOf_In; exact Hl | exact En].
  - intros instr ro var Hi Hro Evar.
    destruct (checkVarRefsBody_resolved _ _ _ _ _ Ev) as [_ Hall].
    pose proof (Hall _ _ _ Hi Hro Evar) as Hex.
    apply varDeclExists_sound in Hex. destruct Hex as (d & Hd & En).
    destruct (typeCheckSection_VarDecls _ _ _ _ _ _ E2 d Hd)
      as [Hd1 | (s & v & Es & Hv & Eid)].
    + destruct (typeCheckSection_VarDecls _ _ _ _ _ _ E1 d Hd1)
        as [Hd0 | (s & v & Es & Hv & Eid)].
      * rewrite HV in Hd0. contradiction.
      * exists s, v. split; [left; exact Es |].
        split; [exact Hv | rewrite <- Eid; exact En].
    + exists s, v. split; [right; exact Es |].
      split; [exact Hv | rewrite <- Eid; exact En].
Qed.

Lemma typeCheck_references_resolved_witness :
  LabelDefs (parsed refs_src refs_tokens) = []
  /\ VarDecls (parsed refs_src refs_tokens) = []
  /\ @typeCheck examplePerms (parsed refs_src refs_tokens)
     = Some (true, checked refs_src refs_tokens)
  /\ exists code body,
      SecCode (FileNode (parsed refs_src refs_tokens)) = Some code
      /\ SecCode (FileNode (checked refs_src refs_tokens))
         = Some (set_Body code body).
Proof.
  assert (HL : LabelDefs (parsed refs_src refs_tokens) = []) by reflexivity.
  assert (HV : VarDecls (parsed refs_src refs_tokens) = []) by reflexivity.
  assert (H : @typeCheck examplePerms (parsed refs_src refs_tokens)
              = Some (true, checked refs_src refs_tokens))
    by (vm_compute; reflexivity).
  split; [exact HL |]. split; [exact HV |]. split; [exact H |].
  destruct (typeCheck_references_resolved examplePerms _ _ HL HV H)
    as (code & body & cs & out & err & Ecode & Ecode' & _).
  exists code, body. split; [exact Ecode | exact Ecode'].
Defined.

(** * The parser *)

(** ** The token cursor *)

Lemma eatToken_state (p p1 : Parser) (t : Token) :
  eatToken p = Ret t p1 ->
  Src p1 = Src p /\ Tokens p1 = Tokens p /\ FileNode p1 = FileNode p
  /\ Out p1 = Out p /\ InstrDefs p1 = InstrDefs p.
Proof.
  unfold eatToken. intros H.
  assert (E : p1 = p \/ p1 = set_Cursor p (S (Cursor p))).
  { destruct (nth_error (Tokens p) (Cursor p)).
    - inversion H. right. reflexivity.
    - destruct (Tokens p); [discriminate |]. inversion H. left. reflexivity. }
  destruct E as [-> | ->]; repeat split; reflexivity.
Qed.

(** ** Signs in front of numbers *)

Section SignAdjacency.

Context {lib : StdLib}.

Lemma sign_not_adjacent (p p1 : Parser) (sign t : Token)
      (typeInfo : TypeInfo) :
  isSignToken sign = true ->
  eatToken p = Ret t p1 ->
  tok_Type t = INTEGER_NUMBER \/ tok_Type t = FLOAT_NUMBER ->
  tok_Index sign + 1 <> tok_Index t ->
  parseOperand sign p
  = RetFalse (set_Out p1 (Out p ++ [printErrorAt (tok_pos sign)
                                      "Unexpected operator"]))
  /\ parseVarValue typeInfo sign p
     = RetFalse (set_Out p1 (Out p ++ [printErrorAt (tok_pos sign)
                                         "Unexpected operator"])).
Proof.
  intros Hsign Heat Hty Hgap.
  destruct (eatToken_state _ _ _ Heat) as (_ & _ & _ & Eout & _).
  apply Z.eqb_neq in Hgap.
  unfold parseOperand, parseVarValue, eatSign, foldSign, failAt,
    printTokenError, print, returnFalse, tokenText, getParser, bind, ret.
  rewrite Hsign, Heat.
  destruct Hty as [E | E]; rewrite E; simpl; rewrite Hgap, Eout;
    split; reflexivity.
Qed.

Lemma sign_adjacent (p p1 : Parser) (sign t : Token) (typeInfo : TypeInfo) :
  isSignToken sign = true ->
  eatToken p = Ret t p1 ->
  tok_Index sign + 1 = tok_Index t ->
  let text := String (getChar (Src p) (tok_Index sign))
                     (getSubStr (Src p) (tok_Index t) (tok_Size t)) in
  let minus := TokenType_eqb (tok_Type sign) MINUS_SIGN in
  (tok_Type t = INTEGER_NUMBER ->
   parseOperand sign p = (intOperand t text minus ;;; endOfOperand) p1
   /\ parseVarValue typeInfo sign p = intValue typeInfo t text minus p1)
  /\ (tok_Type t = FLOAT_NUMBER ->
      parseOperand sign p = (floatOperand t text ;;; endOfOperand) p1
      /\ parseVarValue typeInfo sign p = floatValue typeInfo t text p1).
Proof.
  intros Hsign Heat Hadj text minus.
  destruct (eatToken_state _ _ _ Heat) as (Esrc & _).
  apply Z.eqb_eq in Hadj.
  unfold parseOperand, parseVarValue, eatSign, foldSign, intOperand,
    floatOperand, intValue, floatValue, tokenText, getParser, bind, ret.
  rewrite Hsign, Heat.
  split; intros E; rewrite E; simpl; rewrite Hadj, Esrc; fold text minus.
  - split.
    + destruct (strToInt text) as [[num |] |]; reflexivity.
    + destruct (strToInt text) as [[num |] |]; try reflexivity.
      destruct (negb (checkIntWidth num (ti_DataType typeInfo) minus));
        reflexivity.
  - split.
    + destruct (strToFP text) as [num |]; reflexivity.
    + destruct (strToFP text) as [num |]; try reflexivity.
      destruct (negb (checkFloatWidth num (ti_DataType typeInfo)));
        reflexivity.
Qed.

End SignAdjacency.

(** C8.  A sign token in front of an integer or float number, in an
    operand or in the value of a variable, is folded into the number
    exactly if its index plus one is the index of the number: then the text
    that is converted is the character of the sign followed by the text of
    the number (and a minus sets [isSigned]); otherwise the parse returns
    false after printing "Unexpected operator" at the sign.  The texts
    [push i32 - 1] and [x : i32 = - 1] fail that way; [push i32, - 1] fails
    too, already at the comma; [push i32 -1] gives the literal -1. *)
Theorem sign_folded_iff_adjacent :
  forall (lib : StdLib) (p p1 : Parser) (sign t : Token)
         (typeInfo : TypeInfo),
    isSignToken sign = true ->
    eatToken p = Ret t p1 ->
    tok_Type t = INTEGER_NUMBER \/ tok_Type t = FLOAT_NUMBER ->
    let text := String (getChar (Src p) (tok_Index sign))
                       (getSubStr (Src p) (tok_Index t) (tok_Size t)) in
    let minus := TokenType_eqb (tok_Type sign) MINUS_SIGN in
    let failed :=
      set_Out p1 (Out p ++ [printErrorAt (tok_pos sign)
                              "Unexpected operator"]) in
    (tok_Index sign + 1 = tok_Index t ->
     (tok_Type t = INTEGER_NUMBER ->
      parseOperand sign p = (intOperand t text minus ;;; endOfOperand) p1
      /\ parseVarValue typeInfo sign p = intValue typeInfo t text minus p1)
     /\ (tok_Type t = FLOAT_NUMBER ->
         parseOperand sign p = (floatOperand t text ;;; endOfOperand) p1
         /\ parseVarValue typeInfo sign p = floatValue typeInfo t text p1))
    /\ (tok_Index sign + 1 <> tok_Index t ->
        parseOperand sign p = RetFalse failed
        /\ parseVarValue typeInfo sign p = RetFalse failed)
    /\ (exists q,
          buildAST (newParser builtinInstrDefs gap_src gap_tokens)
          = Some (false, q)
          /\ Out q = [printError 26 1 3 14 "Unexpected operator"])
    /\ (exists q,
          buildAST (newParser builtinInstrDefs commagap_src commagap_tokens)
          = Some (false, q)
          /\ Out q = [printError 25 1 3 13 "Expected parameter"])
    /\ (exists q,
          buildAST (newParser builtinInstrDefs vargap_src vargap_tokens)
          = Some (false, q)
          /\ hd_error (Out q)
             = Some (printError 23 1 2 15 "Unexpected operator"))
    /\ (exists q,
          buildAST (newParser builtinInstrDefs adjacent_src adjacent_tokens)
          = Some (true, q)
          /\ lastInstrParams q
             = [Node_TypeInfo (mkTypeInfo (mkSrcPos 22 3 3 10) UVM_TYPE_I32);
                Node_ASTInt (mkASTInt (mkSrcPos 27 1 3 15) (-1) None true)]).
Proof.
  intros lib p p1 sign t typeInfo Hsign Heat Hty text minus failed.
  split; [intros Hadj; exact (sign_adjacent p p1 sign t typeInfo Hsign Heat
                                            Hadj) |].
  split; [intros Hgap; exact (sign_not_adjacent p p1 sign t typeInfo Hsign
                                                Heat Hty Hgap) |].
  repeat split; eexists; (split; [vm_compute; reflexivity | reflexivity]).
Qed.

Lemma sign_folded_iff_adjacent_witness :
  isSignToken (tk MINUS_SIGN 26 1 3 14) = true
  /\ eatToken gap_at_sign
     = Ret (tk INTEGER_NUMBER 28 1 3 16) (set_Cursor gap_at_sign 9)
  /\ @parseOperand exampleLib (tk MINUS_SIGN 26 1 3 14) gap_at_sign
     = RetFalse (set_Out (set_Cursor gap_at_sign 9)
                         [printErrorAt (mkSrcPos 26 1 3 14)
                                       "Unexpected operator"]).
Proof.
  assert (Hsign : isSignToken (tk MINUS_SIGN 26 1 3 14) = true)
    by reflexivity.
  assert (Heat : eatToken gap_at_sign
                 = Ret (tk INTEGER_NUMBER 28 1 3 16)
                       (set_Cursor gap_at_sign 9)) by reflexivity.
  split; [exact Hsign |]. split; [exact Heat |].
  refine (proj1 (proj1 (proj2 (sign_folded_iff_adjacent exampleLib _ _ _ _
                                 (mkTypeInfo (mkSrcPos 22 3 3 10) UVM_TYPE_I32)
                                 Hsign Heat (or_introl eq_refl))) _)).
  vm_compute. discriminate.
Defined.

Lemma eatToken_tokenAt (p p1 : Parser) (t : Token) :
  eatToken p = Ret t p1 ->
  tokenAt p 0 = Some t /\ forall k, tokenAt p1 k = tokenAt p (S k).
Proof.
  unfold eatToken, tokenAt. rewrite Nat.add_0_r. intros H.
  destruct (nth_error (Tokens p) (Cursor p)) as [t' |] eqn:E.
  - inversion H; subst; clear H. split; [reflexivity |].
    intros k. simpl. rewrite Nat.add_succ_r. reflexivity.
  - destruct (Tokens p) as [| t0 rest] eqn:Et; [discriminate |].
    inversion H; subst; clear H. split; [reflexivity |].
    intros k. rewrite Et.
    apply nth_error_None in E.
    assert (E1 : nth_error (t0 :: rest) (Cursor p1 + k) = None)
      by (apply nth_error_None; lia).
    assert (E2 : nth_error (t0 :: rest) (Cursor p1 + S k) = None)
      by (apply nth_error_None; lia).
    rewrite E1, E2. reflexivity.
Qed.

Lemma peekToken_tokenAt (p p1 : Parser) (t : Token) :
  peekToken p = Ret t p1 -> p1 = p /\ tokenAt p 0 = Some t.
Proof.
  unfold peekToken, tokenAt. rewrite Nat.add_0_r. intros H.
  destruct (nth_error (Tokens p) (Cursor p)) as [t' |].
  - inversion H; subst. split; reflexivity.
  - destruct (Tokens p); [discriminate |]. inversion H; subst.
    split; reflexivity.
Qed.

(** A push of an operand appends it to the operands of the instruction
    pushed last. *)
Lemma pushParam_lastInstrParams (node : ASTNode) (p p' : Parser) :
  pushParam node p = Ret tt p' ->
  lastInstrParams p' = lastInstrParams p ++ [node]
  /\ Src p' = Src p /\ Out p' = Out p.
Proof.
  unfold pushParam, lastInstrParams. intros H.
  destruct (SecCode (FileNode p)) as [s |]; [| discriminate].
  destruct (rev (sec_Body s)) as [| last before]; [discriminate |].
  destruct last; try discriminate H.
  inversion H; subst; clear H. simpl.
  rewrite rev_app_distr, rev_involutive. simpl.
  repeat split; reflexivity.
Qed.

(** ** Range of the integer conversion *)

Lemma digitValue_range (base : Z) (c : ascii) (d : Z) :
  digitValue base c = Some d -> 0 <= d < base.
Proof.
  unfold digitValue.
  set (n := Z.of_nat (nat_of_ascii c)).
  destruct ((48 <=? n) && (n <=? 57)) eqn:E1.
  - apply andb_prop in E1. destruct E1 as [H1 _]. apply Z.leb_le in H1.
    destruct (Z.ltb_spec (n - 48) base); intros Hd; inversion Hd; lia.
  - destruct ((97 <=? n) && (n <=? 122)) eqn:E2.
    + apply andb_prop in E2. destruct E2 as [H1 _]. apply Z.leb_le in H1.
      destruct (Z.ltb_spec (n - 97 + 10) base); intros Hd; inversion Hd; lia.
    + destruct ((65 <=? n) && (n <=? 90)) eqn:E3; [| discriminate].
      apply andb_prop in E3. destruct E3 as [H1 _]. apply Z.leb_le in H1.
      destruct (Z.ltb_spec (n - 65 + 10) base); intros Hd; inversion Hd; lia.
Qed.

Lemma readDigits_nonneg (base : Z) (s : string) :
  forall (acc : Z) (seen : bool),
    0 <= base -> 0 <= acc -> 0 <= fst (readDigits base s acc seen).
Proof.
  induction s as [| c rest IH]; intros acc seen Hb Ha; simpl; [exact Ha |].
  destruct (digitValue base c) as [d |] eqn:E; [| exact Ha].
  apply digitValue_range in E. apply IH; nia.
Qed.

(** [std::stoull] returns a 64-bit value in base 10 and 16. *)
Lemma stoull_range (str : string) (base v : Z) :
  0 <= base -> stoull str base = StoValue v -> 0 <= v < 2 ^ 64.
Proof.
  unfold stoull. intros Hb.
  match goal with
  | |- context [let '(neg, s) := ?e in _] => destruct e as [neg s]
  end.
  match goal with
  | |- context [readDigits base ?s0 0 false] =>
    pose proof (readDigits_nonneg base s0 0 false Hb (Z.le_refl 0)) as Hn;
      destruct (readDigits base s0 0 false) as [r seen]
  end.
  simpl in Hn. destruct seen; [| discriminate].
  destruct (Z.leb_spec (2 ^ 64) r) as [Hge | Hlt]; [discriminate |].
  intros Hv. inversion Hv; subst; clear Hv.
  destruct neg; [| lia].
  unfold to_uint64. apply Z.mod_pos_bound. lia.
Qed.

Lemma strToInt_range (str : string) (num : Z) :
  strToInt str = Some (Some num) -> 0 <= num < 2 ^ 64.
Proof.
  unfold strToInt. intros H.
  match type of H with
  | context [stoull str ?b] =>
    assert (Hb : 0 <= b)
      by (repeat match goal with
                 | |- context [if ?c then _ else _] => destruct c
                 | |- context [match ?c with _ => _ end] => destruct c
                 end; lia);
      destruct (stoull str b) as [v | |] eqn:E; try discriminate H
  end.
  inversion H; subst. exact (stoull_range _ _ _ Hb E).
Qed.

Lemma shiftr_zero_bound (num n : Z) :
  0 <= num -> 0 <= n -> Z.shiftr num n = 0 -> num < 2 ^ n.
Proof.
  intros Hnum Hn H. rewrite Z.shiftr_div_pow2 in H by exact Hn.
  apply Z.div_small_iff in H; lia.
Qed.
(** Case analysis of a run of the register-offset sub-parser: one step per
    token read, test made or node pushed. *)
Ltac parse_step H :=
  match type of H with
  | context [eatToken ?q] =>
    let t := fresh "t" in
    let q' := fresh "q" in
    let E := fresh "Eeat" in
    destruct (eatToken q) as [t q' | | |] eqn:E; try discriminate H
  | context [peekToken ?q] =>
    let t := fresh "peek" in
    let q' := fresh "q" in
    let E := fresh "Epeek" in
    destruct (peekToken q) as [t q' | | |] eqn:E; try discriminate H
  | context [match tok_Type ?t with _ => _ end] =>
    let E := fresh "Ety" in
    destruct (tok_Type t) eqn:E; try discriminate H
  | context [match tok_Tag ?t with _ => _ end] =>
    let E := fresh "Etag" in
    destruct (tok_Tag t) eqn:E; try discriminate H
  | context [match strToInt ?s with _ => _ end] =>
    let E := fresh "Eint" in
    destruct (strToInt s) as [[?num |] |] eqn:E; try discriminate H
  | context [if ?b then _ else _] =>
    let E := fresh "Eif" in
    destruct b eqn:E; try discriminate H
  | context [pushParam ?n ?q] =>
    let q' := fresh "q" in
    let E := fresh "Epush" in
    destruct (pushParam n q) as [[] q' | | |] eqn:E; try discriminate H
  end.

Lemma eatToken_lastInstrParams (p p1 : Parser) (t : Token) :
  eatToken p = Ret t p1 ->
  lastInstrParams p1 = lastInstrParams p /\ Src p1 = Src p.
Proof.
  intros H. destruct (eatToken_state _ _ _ H) as (Es & _ & Ef & _).
  unfold lastInstrParams. rewrite Ef. split; [reflexivity | exact Es].
Qed.

Lemma RegisterType_eqb_eq (a b : RegisterType) :
  RegisterType_eqb a b = true -> a = b.
Proof. destruct a, b; simpl; intros H; first [reflexivity | discriminate]. Qed.

Lemma TokenType_eqb_eq (a b : TokenType) :
  TokenType_eqb a b = true -> a = b.
Proof. destruct a, b; simpl; intros H; first [reflexivity | discriminate]. Qed.

Lemma to_uint32_small (num : Z) :
  0 <= num -> Z.shiftr num 32 = 0 -> to_uint32 num = num.
Proof.
  intros H0 H. apply shiftr_zero_bound in H; [| exact H0 | lia].
  unfold to_uint32. apply Z.mod_small. lia.
Qed.

Lemma to_uint16_small (num : Z) :
  0 <= num -> Z.shiftr num 16 = 0 -> to_uint16 num = num.
Proof.
  intros H0 H. apply shiftr_zero_bound in H; [| exact H0 | lia].
  unfold to_uint16. apply Z.mod_small. lia.
Qed.

(** The two stores of an immediate into a fresh node read back as the number
    stored, which fits the field. *)
Lemma ro_set_U32_small (ro : RegisterOffset) (num : Z) (str : string) :
  strToInt str = Some (Some num) -> Z.shiftr num 32 = 0 ->
  ro_Immediate (ro_set_U32 ro num) = num /\ num < 2 ^ 32.
Proof.
  intros Hs H. apply strToInt_range in Hs.
  split; [apply to_uint32_small; [lia | exact H] |].
  apply shiftr_zero_bound; [lia | lia | exact H].
Qed.

Lemma ro_set_U16_small (ro : RegisterOffset) (num : Z) (str : string) :
  strToInt str = Some (Some num) -> Z.shiftr num 16 = 0 ->
  ro_Immediate ro = 0 ->
  to_uint16 (ro_Immediate (ro_set_U16 ro num)) = num /\ num < 2 ^ 16.
Proof.
  intros Hs H H0. apply strToInt_range in Hs.
  assert (E : to_uint16 num = num) by (apply to_uint16_small; [lia | exact H]).
  split; [| apply shiftr_zero_bound; [lia | lia | exact H]].
  unfold ro_set_U16. cbn [ro_Immediate]. rewrite H0, E.
  change (to_uint16 0) with 0. rewrite Z.sub_0_r, Z.add_0_l. exact E.
Qed.

(** One conjunct of [regOffsetOf], from the facts a run has left. *)
Ltac regOffset_fact :=
  match goal with
  | |- exists _, _ => eexists
  | |- _ /\ _ => split
  | E : tok_Type ?t = _ |- context [match tok_Type ?t with _ => _ end] =>
    rewrite E
  | E : tok_Type ?t = _ |- context [signLayout ?t] =>
    unfold signLayout; rewrite E; reflexivity
  | |- _ => first [eassumption | reflexivity]
  end.

Lemma parseRegOffset_regOffsetOf (p p' : Parser) :
  parseRegOffset p = Ret tt p' ->
  exists ro,
    lastInstrParams p' = lastInstrParams p ++ [Node_RegisterOffset ro]
    /\ regOffsetOf p ro.
Proof.
  intros H.
  unfold parseRegOffset, parseRegOffsetTail, tokenToInt, failAt,
    printTokenError, print, returnFalse, tokenText, tagRegister, abort,
    bind, ret in H.
  repeat parse_step H;
    inversion H; subst; clear H;
    repeat match goal with
           | E : peekToken _ = Ret _ _ |- _ =>
             apply peekToken_tokenAt in E; destruct E as [-> ?]
           end;
    repeat match goal with
           | E : eatToken ?a = Ret ?t ?b |- _ =>
             let Ht := fresh "Ht" in
             let Hs := fresh "Hs" in
             let Hl := fresh "Hl" in
             let Hx := fresh "Hx" in
             destruct (eatToken_tokenAt _ _ _ E) as [Ht Hs];
             destruct (eatToken_lastInstrParams _ _ _ E) as [Hl Hx];
             clear E
           end;
    match goal with
    | E : pushParam (Node_RegisterOffset ?r) _ = Ret tt _ |- _ =>
      exists r; apply pushParam_lastInstrParams in E;
        destruct E as (Epush & Esrc & _)
    end;
    repeat match goal with
           | Hs : forall k, tokenAt ?a k = tokenAt _ (S k),
             Ht : tokenAt ?a _ = Some _ |- _ => rewrite Hs in Ht
           end;
    repeat match goal with
           | E : negb _ = false |- _ => apply negb_false_iff in E
           end;
    repeat match goal with
           | E : RegisterType_eqb _ _ = true |- _ =>
             apply RegisterType_eqb_eq in E
           | E : TokenType_eqb _ _ = true |- _ =>
             apply TokenType_eqb_eq in E
           | E : (_ =? _) = true |- _ => apply Z.eqb_eq in E
           end;
    (split; [congruence |]);
    unfold regOffsetOf, tokenTextOf, ro_Immediate_U32, ro_Immediate_U16;
    repeat match goal with
           | E : Src _ = Src _ |- _ => rewrite E in *; clear E
           end;
    repeat regOffset_fact;
    cbn [ro_Immediate ro_or_Layout ro_at];
    match goal with
    | Eint : strToInt _ = Some (Some ?num), E : Z.shiftr ?num 16 = 0
      |- context [ro_set_U16 ?r ?num] =>
      destruct (ro_set_U16_small r num _ Eint E eq_refl) as [E1 E2];
        rewrite E1; assumption
    | Eint : strToInt _ = Some (Some ?num), E : Z.shiftr ?num 32 = 0
      |- context [ro_set_U32 ?r ?num] =>
      destruct (ro_set_U32_small r num _ Eint E) as [E1 E2];
        rewrite E1; assumption
    end.
Qed.

(** C5. Whenever the register-offset sub-parser returns true, it has appended
    one RegisterOffset node to the operands of the instruction, and the
    tokens it was entered at decide the node: for [ident] the layout is left
    zero and Var holds the identifier; for [reg] the layout is 0x4F; for
    [reg +/- int] it is 0x2F and for [reg +/- reg * int] it is 0x1F, with
    0x80 ORed in exactly when the sign token is the minus sign; the base (and
    offset) register ids are the tags of the register tokens and the
    immediate is the number of the integer token, which fits 32 (16) bits.
    In particular the file holding load i32 [bp - 4], r0 parses to an
    instruction whose second operand has Layout 0xAF, base register id 0x03
    and 32-bit immediate 4. *)
Theorem parseRegOffset_layout (p p' : Parser) :
  parseRegOffset p = Ret tt p' ->
  (exists ro,
      lastInstrParams p' = lastInstrParams p ++ [Node_RegisterOffset ro]
      /\ regOffsetOf p ro)
  /\ (exists ro base,
         nth_error (lastInstrParams (parsed bp4_src bp4_tokens)) 1
         = Some (Node_RegisterOffset ro)
         /\ ro_Layout ro = 0xAF
         /\ ro_Base ro = Some base /\ reg_Id base = 0x03
         /\ ro_Immediate_U32 ro = 4).
Proof.
  intros H. split; [exact (parseRegOffset_regOffsetOf p p' H) |].
  eexists. eexists. vm_compute. repeat split; reflexivity.
Qed.

Lemma parseRegOffset_layout_witness :
  parseRegOffset bp4_in_bracket = Ret tt bp4_after_bracket
  /\ exists ro,
      lastInstrParams bp4_after_bracket
      = lastInstrParams bp4_in_bracket ++ [Node_RegisterOffset ro]
      /\ regOffsetOf bp4_in_bracket ro.
Proof.
  assert (H : parseRegOffset bp4_in_bracket = Ret tt bp4_after_bracket)
    by (vm_compute; reflexivity).
  split; [exact H |].
  exact (proj1 (parseRegOffset_layout bp4_in_bracket bp4_after_bracket H)).
Defined.
(** ** Properties of the numeric helpers *)

(** X1. An integer that [checkIntWidth] accepts for an integer type is
    accepted for every integer type that is at least as wide, signed or
    not. *)
Theorem checkIntWidth_widening :
  forall (num : Z) (isSigned : bool) (narrow wide : UVMType) (bn bw : Z),
    intBits narrow = Some bn ->
    intBits wide = Some bw ->
    bn <= bw ->
    checkIntWidth num narrow isSigned = true ->
    checkIntWidth num wide isSigned = true.
Proof.
  intros num isSigned narrow wide bn bw Hn Hw Hle H.
  unfold checkIntWidth in *.
  destruct narrow, wide; simpl in Hn, Hw; try discriminate;
    inversion Hn; inversion Hw; subst; try lia; try reflexivity;
    apply Z.leb_le in H; apply Z.leb_le; lia.
Qed.

Lemma checkIntWidth_widening_witness :
  checkIntWidth 200 UVM_TYPE_I8 false = true
  /\ checkIntWidth 200 UVM_TYPE_I32 false = true.
Proof.
  assert (H : checkIntWidth 200 UVM_TYPE_I8 false = true)
    by (vm_compute; reflexivity).
  split; [exact H |].
  apply (checkIntWidth_widening 200 false UVM_TYPE_I8 UVM_TYPE_I32 8 32);
    [reflexivity | reflexivity | lia | exact H].
Defined.

(** A bound with a larger exponent bounds whatever a positive finite bound
    with a smaller exponent does. *)
Lemma SFleb_exponent (num : spec_float) (m1 m2 : positive) (e1 e2 : Z) :
  e1 < e2 ->
  SFleb num (S754_finite false m1 e1) = true ->
  SFleb num (S754_finite false m2 e2) = true.
Proof.
  intros He. unfold SFleb.
  destruct num as [s | s | | s m e]; simpl; try (intros H; exact H).
  destruct s; [reflexivity |].
  destruct (Z.compare e e1) eqn:E; intros H.
  - apply Z.compare_eq in E. subst e.
    assert (E' : Z.compare e1 e2 = Lt) by (rewrite Z.compare_lt_iff; lia).
    rewrite E'. reflexivity.
  - assert (E' : Z.compare e e2 = Lt)
      by (rewrite Z.compare_lt_iff in *; lia).
    rewrite E'. reflexivity.
  - discriminate H.
Qed.

(** X2. A double that [checkFloatWidth] accepts for f32 is accepted for
    f64. *)
Theorem checkFloatWidth_widening :
  forall num : double,
    checkFloatWidth num UVM_TYPE_F32 = true ->
    checkFloatWidth num UVM_TYPE_F64 = true.
Proof.
  intros num. unfold checkFloatWidth, FLT_MAX, DBL_MAX.
  apply SFleb_exponent. lia.
Qed.

Lemma checkFloatWidth_widening_witness :
  checkFloatWidth (S754_finite false (2 ^ 52) (-52)) UVM_TYPE_F32 = true
  /\ checkFloatWidth (S754_finite false (2 ^ 52) (-52)) UVM_TYPE_F64 = true.
Proof.
  assert (H : checkFloatWidth (S754_finite false (2 ^ 52) (-52)) UVM_TYPE_F32
              = true) by (vm_compute; reflexivity).
  split; [exact H |].
  exact (checkFloatWidth_widening _ H).
Defined.

(** X3. The register table and [getRegisterType] agree: a register of
    [ASM_REGISTERS] is classified as a float register exactly if its name
    starts with f. *)
Theorem getRegisterType_ASM_REGISTERS :
  forall (name : string) (id : Z),
    In (name, id) ASM_REGISTERS ->
    getRegisterType id = registerClassOfName name.
Proof.
  assert (H : forallb (fun r => RegisterType_eqb (getRegisterType (snd r))
                                  (registerClassOfName (fst r)))
                      ASM_REGISTERS = true) by (vm_compute; reflexivity).
  intros name id Hin.
  rewrite forallb_forall in H. specialize (H _ Hin). simpl in H.
  destruct (getRegisterType id), (registerClassOfName name);
    first [reflexivity | discriminate H].
Qed.

Lemma getRegisterType_ASM_REGISTERS_witness :
  In ("f3", 0x19) ASM_REGISTERS /\ getRegisterType 0x19 = FLOAT.
Proof.
  assert (H : In ("f3", 0x19) ASM_REGISTERS) by (do 22 right; left; reflexivity).
  split; [exact H |].
  exact (getRegisterType_ASM_REGISTERS "f3" 0x19 H).
Defined.
(** ** The token cursor *)

Lemma last_cons (A : Type) (l : list A) :
  forall a b : A, last (b :: l) a = last l b.
Proof.
  induction l as [| c l IH]; intros a b; [reflexivity |].
  change (last (b :: c :: l) a) with (last (c :: l) a).
  rewrite (IH a c), (IH b c). reflexivity.
Qed.

Lemma nth_error_last (A : Type) (l : list A) :
  forall a : A, nth_error (a :: l) (List.length l) = Some (last l a).
Proof.
  induction l as [| b l IH]; intros a; [reflexivity |].
  change (nth_error (b :: l) (List.length l) = Some (last (b :: l) a)).
  rewrite IH, last_cons. reflexivity.
Qed.

(** The two cases of [eatToken]. *)
Lemma eatToken_cases (p p1 : Parser) (t : Token) :
  eatToken p = Ret t p1 ->
  ((Cursor p < List.length (Tokens p))%nat
   /\ nth_error (Tokens p) (Cursor p) = Some t
   /\ p1 = set_Cursor p (S (Cursor p)))
  \/ ((List.length (Tokens p) <= Cursor p)%nat
      /\ p1 = p
      /\ nth_error (Tokens p) (List.length (Tokens p) - 1) = Some t).
Proof.
  intros H. unfold eatToken in H.
  destruct (nth_error (Tokens p) (Cursor p)) as [tok |] eqn:E.
  - inversion H; subst; clear H. left.
    split; [apply nth_error_Some; rewrite E; discriminate | auto].
  - destruct (Tokens p) as [| t0 rest] eqn:Et; [discriminate H |].
    inversion H; subst; clear H.
    apply nth_error_None in E. right.
    split; [exact E |]. split; [reflexivity |].
    try rewrite Et in *. simpl. rewrite Nat.sub_0_r.
    apply nth_error_last.
Qed.

(** X4. [eatToken] returns the token [peekToken] shows, and [peekToken]
    leaves the parser as it is.  Below the end of the stream [eatToken]
    moves the cursor by one; at the end it returns the last token and
    leaves the parser as it is, so the cursor never passes the end. *)
Theorem eatToken_peekToken :
  forall (p p1 : Parser) (t : Token),
    eatToken p = Ret t p1 ->
    peekToken p = Ret t p
    /\ (((Cursor p < List.length (Tokens p))%nat
         /\ nth_error (Tokens p) (Cursor p) = Some t
         /\ p1 = set_Cursor p (S (Cursor p)))
        \/ ((List.length (Tokens p) <= Cursor p)%nat
            /\ p1 = p
            /\ nth_error (Tokens p) (List.length (Tokens p) - 1) = Some t))
    /\ ((Cursor p <= List.length (Tokens p))%nat ->
        (Cursor p1 <= List.length (Tokens p1))%nat).
Proof.
  intros p p1 t H.
  pose proof (eatToken_cases p p1 t H) as Hcases.
  split; [| split; [exact Hcases |]].
  - unfold eatToken in H. unfold peekToken.
    destruct (nth_error (Tokens p) (Cursor p)) as [tok |].
    + inversion H. reflexivity.
    + destruct (Tokens p); [discriminate H |]. inversion H. reflexivity.
  - intros Hle.
    destruct Hcases as [(Hlt & _ & ->) | (_ & -> & _)]; simpl; lia.
Qed.

Lemma eatToken_peekToken_witness :
  eatToken (newParser builtinInstrDefs bp4_src bp4_tokens)
  = Ret (tk IDENTIFIER 0 4 1 1)
        (set_Cursor (newParser builtinInstrDefs bp4_src bp4_tokens) 1)
  /\ peekToken (newParser builtinInstrDefs bp4_src bp4_tokens)
     = Ret (tk IDENTIFIER 0 4 1 1)
           (newParser builtinInstrDefs bp4_src bp4_tokens).
Proof.
  assert (H : eatToken (newParser builtinInstrDefs bp4_src bp4_tokens)
              = Ret (tk IDENTIFIER 0 4 1 1)
                    (set_Cursor (newParser builtinInstrDefs bp4_src bp4_tokens)
                                1)) by reflexivity.
  split; [exact H |].
  exact (proj1 (eatToken_peekToken _ _ _ H)).
Defined.

(** What an eaten token says about the tokens that are left, when the
    stream ends with the end of the file. *)
Lemma eatToken_remaining (p p1 : Parser) (t : Token) :
  endsWithEOF (Tokens p) = true ->
  eatToken p = Ret t p1 ->
  Tokens p1 = Tokens p
  /\ remaining p1 = Nat.pred (remaining p)
  /\ (remaining p1 = 0%nat -> tok_Type t = END_OF_FILE).
Proof.
  intros Heof H.
  pose proof (eatToken_cases _ _ _ H) as Hcases.
  destruct (eatToken_state _ _ _ H) as (_ & Etok & _).
  split; [exact Etok |].
  assert (Hlast : forall n, (List.length (Tokens p) <= S n)%nat ->
                            nth_error (Tokens p) n = Some t ->
                            tok_Type t = END_OF_FILE).
  { intros n Hn Hnth. unfold endsWithEOF in Heof.
    destruct (Tokens p) as [| t0 rest]; [discriminate Heof |].
    assert (Hlt : (n < List.length (t0 :: rest))%nat)
      by (apply nth_error_Some; rewrite Hnth; discriminate).
    simpl in Hn, Hlt. assert (n = List.length rest) by lia. subst n.
    rewrite (nth_error_last _ rest t0) in Hnth. inversion Hnth; subst.
    apply TokenType_eqb_eq. exact Heof. }
  unfold remaining.
  destruct Hcases as [(Hlt & Hnth & ->) | (Hge & -> & Hnth)].
  - simpl. split; [lia |]. intros H0. apply (Hlast (Cursor p)); [lia | exact Hnth].
  - split; [lia |]. intros _.
    apply (Hlast (List.length (Tokens p) - 1)%nat); [lia | exact Hnth].
Qed.

Lemma set_Cursor_same (p : Parser) : set_Cursor p (Cursor p) = p.
Proof. destruct p. reflexivity. Qed.

(** [eatToken] writes the cursor and nothing else, and never moves it
    back. *)
Lemma eatToken_frame (p p1 : Parser) (t : Token) :
  eatToken p = Ret t p1 ->
  p1 = set_Cursor p (Cursor p1) /\ (Cursor p <= Cursor p1)%nat.
Proof.
  intros H.
  destruct (eatToken_cases _ _ _ H) as [(_ & _ & ->) | (_ & -> & _)].
  - simpl. split; [reflexivity | lia].
  - rewrite set_Cursor_same. split; [reflexivity | lia].
Qed.

(** The loop of [skipLine]: entered with the token eaten last, it returns
    behind the first token at or after it that ends a line. *)
Lemma skipLineLoop_spec (fuel : nat) :
  forall (tok : Token) (p : Parser),
    endsWithEOF (Tokens p) = true ->
    (remaining p <= fuel)%nat ->
    (remaining p = 0%nat -> tok_Type tok = END_OF_FILE) ->
    exists (k : nat) (p' : Parser) (last : Token),
      skipLineLoop fuel tok p = Ret tt p'
      /\ isLineEnd last = true
      /\ (match k with
          | O => last = tok
          | S k' => isLineEnd tok = false /\ tokenAt p k' = Some last
          end)
      /\ (forall j tj, (j < Nat.pred k)%nat -> tokenAt p j = Some tj ->
                       isLineEnd tj = false)
      /\ (forall i, tokenAt p' i = tokenAt p (k + i))
      /\ p' = set_Cursor p (Cursor p') /\ (Cursor p <= Cursor p')%nat.
Proof.
  induction fuel as [| fuel IH]; intros tok p Heof Hfuel Htok.
  - assert (E : tok_Type tok = END_OF_FILE) by (apply Htok; lia).
    exists 0%nat, p, tok. simpl. rewrite E. simpl.
    unfold isLineEnd. rewrite E, set_Cursor_same.
    repeat split; try reflexivity. intros j tj Hj. lia.
  - simpl.
    destruct (negb (TokenType_eqb (tok_Type tok) END_OF_FILE)
              && negb (TokenType_eqb (tok_Type tok) EOL)) eqn:Eend.
    + assert (Hnot : isLineEnd tok = false).
      { unfold isLineEnd. apply andb_true_iff in Eend.
        destruct Eend as [E1 E2]. apply negb_true_iff in E1, E2.
        rewrite E1, E2. reflexivity. }
      assert (Hpos : remaining p <> 0%nat).
      { intros H0. apply Htok in H0. unfold isLineEnd in Hnot.
        rewrite H0 in Hnot. discriminate Hnot. }
      unfold bind.
      destruct (eatToken p) as [t p1 | | |] eqn:Eeat.
      * destruct (eatToken_remaining _ _ _ Heof Eeat) as (Etok & Erem & Hlast).
        destruct (eatToken_tokenAt _ _ _ Eeat) as [Ht Hs].
        destruct (eatToken_frame _ _ _ Eeat) as [Ef Eo].
        destruct (IH t p1) as (k & p' & last & Hrun & Hend & Hk & Hskip
                               & Hshift & Hout & Hfile).
        { rewrite Etok. exact Heof. }
        { lia. }
        { exact Hlast. }
        exists (S k), p', last.
        split; [exact Hrun |]. split; [exact Hend |].
        split.
        { split; [exact Hnot |].
          destruct k as [| k'].
          - subst last. exact Ht.
          - destruct Hk as [_ Hk]. rewrite Hs in Hk. exact Hk. }
        split.
        { intros j tj Hj Hat. simpl in Hj.
          destruct j as [| j'].
          - rewrite Ht in Hat. inversion Hat; subst tj.
            destruct k as [| k']; [lia |]. exact (proj1 Hk).
          - apply (Hskip j' tj); [lia |]. rewrite Hs. exact Hat. }
        split.
        { intros i. rewrite Hshift, Hs. reflexivity. }
        split; [| lia].
        rewrite Hout, Ef. reflexivity.
      * exfalso. unfold eatToken in Eeat.
        destruct (nth_error (Tokens p) (Cursor p)); [discriminate |].
        unfold endsWithEOF in Heof.
        destruct (Tokens p); discriminate.
      * exfalso. unfold eatToken in Eeat.
        destruct (nth_error (Tokens p) (Cursor p)); [discriminate |].
        destruct (Tokens p); discriminate.
      * exfalso. unfold eatToken in Eeat.
        destruct (nth_error (Tokens p) (Cursor p)); [discriminate |].
        destruct (Tokens p); discriminate.
    + exists 0%nat, p, tok.
      assert (Hend : isLineEnd tok = true).
      { unfold isLineEnd. apply andb_false_iff in Eend.
        destruct Eend as [E | E]; apply negb_false_iff in E; rewrite E;
          [reflexivity | apply orb_true_r]. }
      rewrite set_Cursor_same.
      repeat split; try reflexivity; try exact Hend.
      intros j tj Hj. simpl in Hj. lia.
Qed.

(** X5. On a stream that ends with the end of the file, [skipLine]
    returns: it eats the tokens up to and including the first one, at or
    after the cursor, that ends a line (an end of line or the end of the
    file), and touches nothing but the cursor, which does not move back:
    the parser it leaves is the parser it found with another cursor, so
    the source, the tokens, the instruction definitions, the tree, the
    labels, the variables and the output are what they were. *)
Theorem skipLine_first_line_end :
  forall p : Parser,
    endsWithEOF (Tokens p) = true ->
    exists (k : nat) (p' : Parser) (last : Token),
      skipLine p = Ret tt p'
      /\ tokenAt p k = Some last
      /\ isLineEnd last = true
      /\ (forall j tj, (j < k)%nat -> tokenAt p j = Some tj ->
                       isLineEnd tj = false)
      /\ (forall i, tokenAt p' i = tokenAt p (S k + i))
      /\ p' = set_Cursor p (Cursor p')
      /\ (Cursor p <= Cursor p')%nat
      /\ Src p' = Src p /\ Tokens p' = Tokens p
      /\ InstrDefs p' = InstrDefs p /\ FileNode p' = FileNode p
      /\ LabelDefs p' = LabelDefs p /\ VarDecls p' = VarDecls p
      /\ Out p' = Out p.
Proof.
  intros p Heof. unfold skipLine, bind, getParser.
  destruct (eatToken p) as [t p1 | | |] eqn:Eeat;
    try (exfalso; unfold eatToken in Eeat;
         destruct (nth_error (Tokens p) (Cursor p)); [discriminate |];
         unfold endsWithEOF in Heof; destruct (Tokens p); discriminate).
  destruct (eatToken_remaining _ _ _ Heof Eeat) as (Etok & Erem & Hlast).
  destruct (eatToken_tokenAt _ _ _ Eeat) as [Ht Hs].
  destruct (eatToken_frame _ _ _ Eeat) as [Ef Eo].
  destruct (skipLineLoop_spec (loopBudget p1) t p1)
    as (k & p' & last & Hrun & Hend & Hk & Hskip & Hshift & Hout & Hfile).
  { rewrite Etok. exact Heof. }
  { unfold loopBudget, remaining. lia. }
  { exact Hlast. }
  assert (Hframe : p' = set_Cursor p (Cursor p'))
    by (rewrite Hout, Ef; reflexivity).
  exists k, p', last.
  split; [exact Hrun |].
  assert (Hrest : p' = set_Cursor p (Cursor p')
                  /\ (Cursor p <= Cursor p')%nat
                  /\ Src p' = Src p /\ Tokens p' = Tokens p
                  /\ InstrDefs p' = InstrDefs p /\ FileNode p' = FileNode p
                  /\ LabelDefs p' = LabelDefs p /\ VarDecls p' = VarDecls p
                  /\ Out p' = Out p).
  { split; [exact Hframe |]. split; [lia |].
    rewrite Hframe. repeat split; reflexivity. }
  destruct k as [| k'].
  - subst last. split; [exact Ht |]. split; [exact Hend |].
    split; [intros j tj Hj; lia |].
    split; [intros i; rewrite Hshift, Hs; reflexivity |].
    exact Hrest.
  - destruct Hk as [Hnot Hk]. rewrite Hs in Hk.
    split; [exact Hk |]. split; [exact Hend |].
    split.
    { intros j tj Hj Hat. destruct j as [| j'].
      - rewrite Ht in Hat. inversion Hat; subst tj. exact Hnot.
      - apply (Hskip j' tj); [simpl; lia |]. rewrite Hs. exact Hat. }
    split.
    { intros i. rewrite Hshift, Hs. f_equal. }
    exact Hrest.
Qed.

Lemma skipLine_first_line_end_witness :
  endsWithEOF bp4_tokens = true
  /\ exists (k : nat) (p' : Parser) (last : Token),
      skipLine (newParser builtinInstrDefs bp4_src bp4_tokens) = Ret tt p'
      /\ tokenAt (newParser builtinInstrDefs bp4_src bp4_tokens) k = Some last
      /\ isLineEnd last = true.
Proof.
  assert (H : endsWithEOF bp4_tokens = true) by reflexivity.
  split; [exact H |].
  destruct (skipLine_first_line_end
              (newParser builtinInstrDefs bp4_src bp4_tokens) H)
    as (k & p' & last & H1 & H2 & H3 & _).
  exists k, p', last. auto.
Defined.
(** ** [parseStringEscape] *)

Lemma string_length_append (s1 s2 : string) :
  String.length (s1 ++ s2) = (String.length s1 + String.length s2)%nat.
Proof. induction s1 as [| c s1 IH]; simpl; [reflexivity | rewrite IH; reflexivity]. Qed.

Lemma string_append_assoc (s1 s2 s3 : string) :
  ((s1 ++ s2) ++ s3 = s1 ++ (s2 ++ s3))%string.
Proof. induction s1 as [| c s1 IH]; simpl; [reflexivity | rewrite IH; reflexivity]. Qed.

Lemma string_append_nil_r (s : string) : (s ++ "" = s)%string.
Proof. induction s as [| c s IH]; simpl; [reflexivity | rewrite IH; reflexivity]. Qed.

(** The byte behind a prefix. *)
Lemma getChar_append (pre rest : string) (c : ascii) :
  getChar (pre ++ String c rest) (Z.of_nat (String.length pre)) = c.
Proof.
  unfold getChar. rewrite Nat2Z.id.
  change (String.length pre) with (0 + String.length pre)%nat.
  rewrite <- (append_correct2 pre (String c rest) 0). reflexivity.
Qed.

(** The output never outgrows what is left of the input. *)
Lemma parseStringEscapeLoop_length (inStr : string) (fuel : nat) :
  forall (cursor : nat) (outStr : string),
    (String.length (parseStringEscapeLoop fuel inStr cursor outStr)
     <= String.length outStr + (String.length inStr - 1 - cursor))%nat.
Proof.
  induction fuel as [| fuel IH]; intros cursor outStr; simpl; [lia |].
  destruct (cursor <? String.length inStr - 1)%nat eqn:Elt; [| lia].
  apply Nat.ltb_lt in Elt.
  destruct (Ascii.eqb (getChar inStr (Z.of_nat cursor)) "\"%char).
  - match goal with
    | |- context [match ?e with Some _ => _ | None => _ end] =>
      destruct e as [c' |]
    end; [| lia].
    specialize (IH (cursor + 2)%nat (outStr ++ String c' "")%string).
    rewrite string_length_append in IH. simpl in IH. lia.
  - specialize (IH (cursor + 1)%nat
                   (outStr ++ String (getChar inStr (Z.of_nat cursor)) "")%string).
    rewrite string_length_append in IH. simpl in IH. lia.
Qed.

(** X6. On a text of at least two bytes, as the text of every string
    token with its two quotes is, the string [parseStringEscape] produces
    is at least two bytes shorter than the text: the quotes are dropped and
    an escape sequence never yields more than one byte.  A text of one
    byte yields the empty string, which is one byte shorter only. *)
Theorem parseStringEscape_length :
  forall inStr outStr : string,
    parseStringEscape inStr = Some outStr ->
    ((2 <= String.length inStr)%nat ->
     (String.length outStr + 2 <= String.length inStr)%nat)
    /\ ((String.length inStr < 2)%nat ->
        String.length inStr = 1%nat /\ outStr = EmptyString).
Proof.
  intros inStr outStr. unfold parseStringEscape.
  destruct (String.length inStr =? 2)%nat eqn:E2.
  - apply Nat.eqb_eq in E2. intros H. inversion H. simpl. lia.
  - destruct (String.length inStr =? 0)%nat eqn:E0; [discriminate |].
    apply Nat.eqb_neq in E0.
    intros H. inversion H; subst; clear H.
    split.
    + intros Hlen.
      pose proof (parseStringEscapeLoop_length inStr (String.length inStr) 1
                                               EmptyString) as Hlen'.
      simpl in Hlen'. lia.
    + intros Hlen. assert (E1 : String.length inStr = 1%nat) by lia.
      split; [exact E1 |]. rewrite E1.
      cbn [parseStringEscapeLoop]. rewrite E1. reflexivity.
Qed.

Lemma parseStringEscape_length_witness :
  parseStringEscape "'a\nb'" = Some ("a" ++ nl ++ "b")%string
  /\ (2 <= String.length "'a\nb'")%nat
  /\ (String.length ("a" ++ nl ++ "b")%string + 2
      <= String.length "'a\nb'")%nat.
Proof.
  assert (H : parseStringEscape "'a\nb'" = Some ("a" ++ nl ++ "b")%string)
    by reflexivity.
  assert (Hlen : (2 <= String.length "'a\nb'")%nat) by (simpl; lia).
  split; [exact H |]. split; [exact Hlen |].
  exact (proj1 (parseStringEscape_length _ _ H) Hlen).
Defined.

(** The loop copies a run of bytes without a backslash. *)
Lemma parseStringEscapeLoop_plain (s : string) :
  forall (pre outStr tail : string) (c : ascii) (fuel : nat),
    noBackslash s = true ->
    parseStringEscapeLoop (String.length s + fuel)
                          (pre ++ s ++ String c tail) (String.length pre)
                          outStr
    = parseStringEscapeLoop fuel (pre ++ s ++ String c tail)
                            (String.length pre + String.length s)
                            (outStr ++ s).
Proof.
  induction s as [| a s IH]; intros pre outStr tail c fuel Hs.
  - simpl. rewrite Nat.add_0_r, string_append_nil_r. reflexivity.
  - simpl in Hs. apply andb_true_iff in Hs. destruct Hs as [Ha Hs].
    apply negb_true_iff in Ha.
    change (String.length (String a s) + fuel)%nat
      with (S (String.length s + fuel)).
    cbn [parseStringEscapeLoop].
    assert (Hlt : (String.length pre
                   <? String.length (pre ++ String a s ++ String c tail) - 1)%nat
                  = true).
    { apply Nat.ltb_lt. rewrite string_length_append.
      change (String a s ++ String c tail)%string
        with (String a (s ++ String c tail)).
      cbn [String.length]. rewrite string_length_append.
      cbn [String.length]. lia. }
    rewrite Hlt.
    change (String a s ++ String c tail)%string
      with (String a (s ++ String c tail)).
    rewrite getChar_append, Ha.
    assert (Epre : (pre ++ String a (s ++ String c tail)
                    = (pre ++ String a "") ++ s ++ String c tail)%string)
      by (rewrite string_append_assoc; reflexivity).
    rewrite Epre.
    assert (Elen : (String.length pre + 1)%nat
                   = String.length (pre ++ String a "")).
    { rewrite string_length_append. reflexivity. }
    rewrite Elen, (IH (pre ++ String a "")%string _ tail c fuel Hs).
    rewrite string_append_assoc. simpl.
    rewrite string_length_append. simpl.
    replace (String.length pre + 1 + String.length s)%nat
      with (String.length pre + S (String.length s))%nat by lia.
    rewrite (string_append_assoc outStr (String a "") s). reflexivity.
Qed.

(** X7. A string token whose content holds no backslash is returned
    without its first and last byte, unchanged. *)
Theorem parseStringEscape_plain :
  forall (open close : ascii) (s : string),
    noBackslash s = true ->
    parseStringEscape (String open (s ++ String close "")) = Some s.
Proof.
  intros q1 q2 s Hs. unfold parseStringEscape.
  cbn [String.length]. rewrite string_length_append. cbn [String.length].
  destruct s as [| a s'] eqn:Es; [reflexivity |]. rewrite <- Es in *.
  assert (Hlen : String.length s <> 0%nat) by (rewrite Es; simpl; lia).
  destruct (S (String.length s + 1) =? 2)%nat eqn:E2;
    [apply Nat.eqb_eq in E2; lia |].
  cbn [Nat.eqb]. f_equal.
  replace (S (String.length s + 1)) with (String.length s + 2)%nat by lia.
  change (String q1 (s ++ String q2 ""))
    with (String q1 "" ++ s ++ String q2 "")%string.
  change 1%nat with (String.length (String q1 "")) at 2.
  rewrite (parseStringEscapeLoop_plain s (String q1 "") "" "" q2 2 Hs).
  cbn [parseStringEscapeLoop].
  assert (Hge : (String.length (String q1 "") + String.length s
                 <? String.length (String q1 "" ++ s ++ String q2 "") - 1)%nat
                = false).
  { apply Nat.ltb_ge. rewrite !string_length_append. simpl. lia. }
  rewrite Hge. reflexivity.
Qed.

Lemma parseStringEscape_plain_witness :
  noBackslash "hello" = true
  /\ parseStringEscape "'hello'" = Some "hello".
Proof.
  assert (H : noBackslash "hello" = true) by reflexivity.
  split; [exact H |].
  exact (parseStringEscape_plain "'" "'" "hello" H).
Defined.

(** X8. A backslash followed by a byte that is no escape character ends the
    conversion without a diagnostic: the output is what was converted before
    it, and the rest of the string is dropped. *)
Theorem parseStringEscape_unknown_escape :
  forall (open close c : ascii) (s rest : string),
    noBackslash s = true ->
    isEscapeChar c = false ->
    parseStringEscape
      (String open (s ++ String "\" (String c (rest ++ String close ""))))
    = Some s.
Proof.
  intros q1 q2 c s rest Hs Hc. unfold parseStringEscape.
  set (inStr := String q1 (s ++ String "\" (String c (rest ++ String q2 "")))).
  assert (Hlen : String.length inStr
                 = (String.length s + (String.length rest + 4))%nat).
  { unfold inStr. cbn [String.length]. rewrite string_length_append.
    cbn [String.length]. rewrite string_length_append. cbn [String.length].
    lia. }
  rewrite Hlen.
  destruct (String.length s + (String.length rest + 4) =? 2)%nat eqn:E2;
    [apply Nat.eqb_eq in E2; lia |].
  destruct (String.length s + (String.length rest + 4) =? 0)%nat eqn:E0;
    [apply Nat.eqb_eq in E0; lia |].
  f_equal.
  change (parseStringEscapeLoop (String.length s + (String.length rest + 4))
                                inStr 1 "")
    with (parseStringEscapeLoop
            (String.length s + (String.length rest + 4))
            (String q1 "" ++ s
             ++ String "\" (String c (rest ++ String q2 "")))%string
            (String.length (String q1 "")) "").
  rewrite (parseStringEscapeLoop_plain s (String q1 "") ""
             (String c (rest ++ String q2 "")) "\"
             (String.length rest + 4) Hs).
  replace (String.length rest + 4)%nat with (S (String.length rest + 3))
    by lia.
  cbn [parseStringEscapeLoop].
  set (inStr' := (String q1 "" ++ s
                  ++ String "\" (String c (rest ++ String q2 "")))%string).
  assert (Hlt : (String.length (String q1 "") + String.length s
                 <? String.length inStr' - 1)%nat = true).
  { apply Nat.ltb_lt. change inStr' with inStr. rewrite Hlen. simpl. lia. }
  rewrite Hlt.
  assert (E1 : getChar inStr'
                 (Z.of_nat (String.length (String q1 "") + String.length s))
               = "\"%char).
  { unfold inStr'. rewrite <- string_append_assoc.
    rewrite <- (string_length_append (String q1 "") s).
    apply getChar_append. }
  assert (E2' : getChar inStr'
                  (Z.of_nat (String.length (String q1 "") + String.length s
                             + 1))
                = c).
  { unfold inStr'.
    change (String "\" (String c (rest ++ String q2 "")))
      with (String "\" "" ++ String c (rest ++ String q2 ""))%string.
    rewrite <- !string_append_assoc.
    replace (String.length (String q1 "") + String.length s + 1)%nat
      with (String.length ((String q1 "" ++ s) ++ String "\" "")%string)
      by (rewrite !string_length_append; reflexivity).
    apply getChar_append. }
  rewrite E1, E2'. cbn [Ascii.eqb Bool.eqb].
  unfold isEscapeChar in Hc. cbn [existsb] in Hc.
  repeat match type of Hc with
         | (?a || ?b) = false =>
           apply orb_false_iff in Hc;
             let H1 := fresh "Hc" in destruct Hc as [H1 Hc]; rewrite H1
         end.
  reflexivity.
Qed.

Lemma parseStringEscape_unknown_escape_witness :
  noBackslash "ab" = true /\ isEscapeChar "q" = false
  /\ parseStringEscape "'ab\qcd'" = Some "ab".
Proof.
  assert (H : noBackslash "ab" = true) by reflexivity.
  assert (Hc : isEscapeChar "q" = false) by reflexivity.
  split; [exact H |]. split; [exact Hc |].
  exact (parseStringEscape_unknown_escape "'" "'" "q" "ab" "cd" H Hc).
Defined.

(** ** [strToInt] on decimal literals *)

(** One digit of a numeral under [readDigits]. *)
Ltac read_digit :=
  cbn [NilEmpty.string_of_uint readDigits Pos.of_uint_acc Pos.of_uint];
  match goal with
  | |- context [digitValue 10 ?c] =>
    let v := eval vm_compute in (digitValue 10 c) in
    change (digitValue 10 c) with v
  end;
  cbv iota beta.

(** The digits of a decimal numeral are read as its value. *)
Lemma readDigits_of_uint_acc (d : Decimal.uint) :
  forall (acc : positive) (seen : bool),
    readDigits 10 (NilEmpty.string_of_uint d) (Z.pos acc) seen
    = (Z.pos (Pos.of_uint_acc d acc),
       match d with Decimal.Nil => seen | _ => true end).
Proof.
  induction d; intros acc seen; [reflexivity | ..]; read_digit;
    match goal with
    | |- readDigits _ _ ?a _ = (Z.pos (Pos.of_uint_acc _ ?b), _) =>
      replace a with (Z.pos b) by lia
    end;
    rewrite IHd; destruct d; reflexivity.
Qed.

Lemma readDigits_of_uint (d : Decimal.uint) :
  forall seen : bool,
    readDigits 10 (NilEmpty.string_of_uint d) 0 seen
    = (Z.of_N (Pos.of_uint d),
       match d with Decimal.Nil => seen | _ => true end).
Proof.
  induction d; intros seen; [reflexivity | ..]; read_digit;
    first [ rewrite IHd; destruct d; reflexivity
          | match goal with
            | |- readDigits _ _ _ _ = (Z.of_N (N.pos (Pos.of_uint_acc _ ?b)), _) =>
              change (readDigits 10 (NilEmpty.string_of_uint d) (Z.pos b) true
                      = (Z.pos (Pos.of_uint_acc d b), true));
              rewrite (readDigits_of_uint_acc d b); destruct d; reflexivity
            end ].
Qed.

(** The first bytes of a numeral: no white space, no sign, no x. *)
Lemma string_of_uint_head (d : Decimal.uint) :
  skipSpaces (NilEmpty.string_of_uint d) = NilEmpty.string_of_uint d
  /\ match NilEmpty.string_of_uint d with
     | String c0 rest =>
       Ascii.eqb c0 "-" = false /\ Ascii.eqb c0 "+" = false
       /\ match rest with
          | String c1 _ => Ascii.eqb c1 "x" = false
          | EmptyString => True
          end
     | EmptyString => True
     end.
Proof.
  destruct d as [| d | d | d | d | d | d | d | d | d | d];
    (split; [reflexivity |]); cbn [NilEmpty.string_of_uint]; auto;
    (split; [reflexivity |]); (split; [reflexivity |]);
    destruct d; cbn [NilEmpty.string_of_uint]; auto.
Qed.

(** [stoull] in base 10 on a numeral. *)
Lemma stoull_of_uint (d : Decimal.uint) :
  d <> Decimal.Nil ->
  stoull (NilEmpty.string_of_uint d) 10
  = if 2 ^ 64 <=? Z.of_N (Pos.of_uint d) then StoOutOfRange
    else StoValue (Z.of_N (Pos.of_uint d)).
Proof.
  intros Hd. unfold stoull.
  destruct (string_of_uint_head d) as [Hsp Hhead]. rewrite Hsp.
  assert (E : match NilEmpty.string_of_uint d with
              | String "-" rest => (true, rest)
              | String "+" rest => (false, rest)
              | _ => (false, NilEmpty.string_of_uint d)
              end = (false, NilEmpty.string_of_uint d)).
  { destruct (NilEmpty.string_of_uint d) as [| c0 rest]; [reflexivity |].
    destruct Hhead as (H1 & H2 & _).
    destruct c0 as [[] [] [] [] [] [] [] []]; try reflexivity;
      simpl in H1, H2; discriminate. }
  rewrite E. cbn [Z.eqb Pos.eqb].
  rewrite (readDigits_of_uint d false). destruct d; [congruence | ..];
    reflexivity.
Qed.

(** The base [strToInt] selects for a text whose second byte is not x. *)
Lemma strToInt_base10 (str : string) :
  match str with
  | String _ (String c1 _) => Ascii.eqb c1 "x" = false
  | _ => True
  end ->
  strToInt str
  = match stoull str 10 with
    | StoValue num => Some (Some num)
    | StoOutOfRange => Some None
    | StoInvalidArgument => None
    end.
Proof.
  intros H. unfold strToInt.
  destruct (3 <=? String.length str)%nat; [| reflexivity].
  destruct str as [| c0 [| c1 rest]]; try reflexivity.
  cbn [String.get]. rewrite H, andb_false_r. reflexivity.
Qed.

(** X9. [strToInt] reads the decimal digits of a number below 2^64 as that
    number, and returns false on the digits of a larger one. *)
Theorem strToInt_decimal :
  forall n : N,
    strToInt (decimal n)
    = if Z.of_N n <? 2 ^ 64 then Some (Some (Z.of_N n)) else Some None.
Proof.
  intros n. unfold decimal.
  assert (Hnil : N.to_uint n <> Decimal.Nil).
  { destruct n; simpl; [discriminate | apply DecimalPos.Unsigned.to_uint_nonnil]. }
  rewrite strToInt_base10.
  - rewrite (stoull_of_uint _ Hnil).
    change (Pos.of_uint (N.to_uint n)) with (N.of_uint (N.to_uint n)).
    rewrite DecimalN.Unsigned.of_to.
    destruct (2 ^ 64 <=? Z.of_N n) eqn:E1, (Z.of_N n <? 2 ^ 64) eqn:E2;
      try reflexivity.
    + apply Z.leb_le in E1. apply Z.ltb_lt in E2. lia.
    + apply Z.leb_gt in E1. apply Z.ltb_ge in E2. lia.
  - destruct (string_of_uint_head (N.to_uint n)) as [_ H].
    destruct (NilEmpty.string_of_uint (N.to_uint n)) as [| c0 [| c1 rest]];
      auto. exact (proj2 (proj2 H)).
Qed.

(** X10. A decimal literal with a sign in front of it: the minus sign makes
    [strToInt] return the two's complement of the number, which the
    constructor of the integer node reads back as the negative number as
    long as it is not below -2^63; the plus sign changes nothing. *)
Theorem strToInt_signed_decimal :
  forall (n : N) (t : Token),
    Z.of_N n <= 2 ^ 63 ->
    strToInt (String "-" (decimal n)) = Some (Some (to_uint64 (- Z.of_N n)))
    /\ int_Num (newASTInt t (to_uint64 (- Z.of_N n)) true) = - Z.of_N n
    /\ strToInt (String "+" (decimal n)) = Some (Some (Z.of_N n)).
Proof.
  intros n t Hn. unfold decimal.
  assert (Hnil : N.to_uint n <> Decimal.Nil).
  { destruct n; simpl; [discriminate | apply DecimalPos.Unsigned.to_uint_nonnil]. }
  destruct (string_of_uint_head (N.to_uint n)) as [_ Hhead].
  assert (Hread := readDigits_of_uint (N.to_uint n) false).
  change (Pos.of_uint (N.to_uint n)) with (N.of_uint (N.to_uint n)) in Hread.
  rewrite DecimalN.Unsigned.of_to in Hread.
  assert (Hseen : match N.to_uint n with Decimal.Nil => false | _ => true end
                  = true) by (destruct (N.to_uint n); congruence).
  rewrite Hseen in Hread.
  assert (Hx : match NilEmpty.string_of_uint (N.to_uint n) with
               | String c _ => Ascii.eqb c "x" = false
               | EmptyString => True
               end).
  { destruct (N.to_uint n); cbn [NilEmpty.string_of_uint]; auto. }
  assert (Hlt : (2 ^ 64 <=? Z.of_N n) = false) by (apply Z.leb_gt; lia).
  split; [| split].
  - rewrite strToInt_base10 by exact Hx.
    unfold stoull. cbn [skipSpaces isspace]. 
    change (isspace "-") with false. cbv iota.
    cbn [Z.eqb Pos.eqb]. rewrite Hread, Hlt. reflexivity.
  - unfold newASTInt. cbn [int_Num]. unfold to_int64, to_uint64.
    rewrite Z.mod_mod by lia.
    destruct (Z.eq_dec (Z.of_N n) 0) as [E0 | E0]; [rewrite E0; reflexivity |].
    assert (Hm : (- Z.of_N n) mod 2 ^ 64 = 2 ^ 64 - Z.of_N n).
    { symmetry. apply (Z.mod_unique _ _ (-1)); lia. }
    rewrite Hm.
    destruct (2 ^ 64 - Z.of_N n <? 2 ^ 63) eqn:E; [| lia].
    apply Z.ltb_lt in E. lia.
  - rewrite strToInt_base10 by exact Hx.
    unfold stoull. cbn [skipSpaces isspace].
    change (isspace "+") with false. cbv iota.
    cbn [Z.eqb Pos.eqb]. rewrite Hread, Hlt. reflexivity.
Qed.

Lemma strToInt_signed_decimal_witness :
  Z.of_N 128 <= 2 ^ 63
  /\ strToInt "-128" = Some (Some (2 ^ 64 - 128))
  /\ int_Num (newASTInt (tk INTEGER_NUMBER 0 3 1 1) (2 ^ 64 - 128) true)
     = -128.
Proof.
  assert (H : Z.of_N 128 <= 2 ^ 63) by (vm_compute; discriminate).
  split; [exact H |].
  destruct (strToInt_signed_decimal 128 (tk INTEGER_NUMBER 0 3 1 1) H)
    as (H1 & H2 & _).
  split; [exact H1 | exact H2].
Defined.

(** ** The discipline of the parsing functions *)

Lemma parserStep_refl (n : nat) (p : Parser) : parserStep n p p.
Proof. unfold parserStep. repeat split; auto. Qed.

Lemma parserStep_trans (n : nat) (p1 p2 p3 : Parser) :
  parserStep n p1 p2 -> parserStep n p2 p3 -> parserStep n p1 p3.
Proof.
  unfold parserStep.
  intros (A1 & A2 & A3 & A4 & A5 & A6 & A7 & A8)
         (B1 & B2 & B3 & B4 & B5 & B6 & B7 & B8).
  repeat split; try congruence; try lia; auto.
  intros Ht Hwf. apply B7; [rewrite A2; exact Ht | apply A7; assumption].
Qed.

Lemma obeys_ret (A : Type) (n : nat) (toks : list Token) (a : A) (Q : A -> Prop) :
  Q a -> obeys n toks (ret a) Q.
Proof.
  intros H p _. simpl. split; [apply parserStep_refl |]. split; [reflexivity | exact H].
Qed.

Lemma obeys_bind (A B : Type) (n : nat) (toks : list Token) (c : M A)
      (k : A -> M B) (Q : A -> Prop) (R : B -> Prop) :
  obeys n toks c Q -> (forall a, Q a -> obeys n toks (k a) R) ->
  obeys n toks (bind c k) R.
Proof.
  intros Hc Hk p Htoks. unfold bind. specialize (Hc p Htoks).
  destruct (c p) as [a p1 | p1 | |]; auto.
  destruct Hc as (Hstep & Hout & Ha).
  assert (Htoks1 : Tokens p1 = toks).
  { destruct Hstep as (_ & E & _). rewrite E. exact Htoks. }
  specialize (Hk a Ha p1 Htoks1).
  destruct (k a p1) as [b p2 | p2 | |]; auto.
  - destruct Hk as (Hstep2 & Hout2 & Hb).
    split; [exact (parserStep_trans _ _ _ _ Hstep Hstep2) |].
    split; [congruence | exact Hb].
  - destruct Hk as (Hstep2 & d & Hout2).
    split; [exact (parserStep_trans _ _ _ _ Hstep Hstep2) |].
    exists d. congruence.
Qed.

Lemma obeys_weaken (A : Type) (n : nat) (toks : list Token) (c : M A)
      (Q Q' : A -> Prop) :
  obeys n toks c Q -> (forall a, Q a -> Q' a) -> obeys n toks c Q'.
Proof.
  intros Hc HQ p Htoks. specialize (Hc p Htoks).
  destruct (c p); auto. destruct Hc as (H1 & H2 & H3). auto.
Qed.

Lemma obeys_abort (A : Type) (n : nat) (toks : list Token) (Q : A -> Prop) :
  obeys n toks (@abort A) Q.
Proof. intros p _. exact I. Qed.

Lemma obeys_outOfFuel (A : Type) (n : nat) (toks : list Token) (Q : A -> Prop) :
  obeys n toks (fun _ : Parser => @OutOfFuel A) Q.
Proof. intros p _. exact I. Qed.

Lemma parserStep_set_Out (n : nat) (p : Parser) (out : list Diagnostic) :
  parserStep n p (set_Out p out).
Proof. unfold parserStep. simpl. repeat split; auto. Qed.

Lemma parserStep_set_Cursor (n : nat) (p : Parser) (c : nat) :
  (Cursor p <= c)%nat -> parserStep n p (set_Cursor p c).
Proof. unfold parserStep. simpl. repeat split; auto. Qed.

Lemma obeys_failAt (A : Type) (n : nat) (toks : list Token) (msg : string) (t : Token)
      (Q : A -> Prop) :
  obeys n toks (@failAt A msg t) Q.
Proof.
  intros p _. unfold failAt, printTokenError, print, returnFalse, bind.
  split; [apply parserStep_set_Out |]. eexists. reflexivity.
Qed.

Lemma obeys_eatToken (n : nat) (toks : list Token) :
  obeys n toks eatToken (fun t => In t toks).
Proof.
  intros p Htoks. unfold eatToken.
  destruct (nth_error (Tokens p) (Cursor p)) as [tok |] eqn:E.
  - split; [apply parserStep_set_Cursor; lia |]. split; [reflexivity |].
    rewrite <- Htoks. exact (nth_error_In _ _ E).
  - destruct (Tokens p) as [| t0 rest] eqn:Et; [exact I |].
    split; [apply parserStep_refl |]. split; [reflexivity |].
    rewrite <- Htoks. rewrite <- last_cons with (a := t0).
    destruct (@exists_last _ (t0 :: rest)) as (l' & a & El);
      [discriminate |].
    rewrite El. rewrite last_last. apply in_or_app. right. left. reflexivity.
Qed.

Lemma obeys_peekToken (n : nat) (toks : list Token) :
  obeys n toks peekToken (fun t => In t toks).
Proof.
  intros p Htoks. pose proof (obeys_eatToken n toks p Htoks) as H.
  unfold eatToken in H. unfold peekToken.
  destruct (nth_error (Tokens p) (Cursor p)) as [tok |].
  - destruct H as (_ & _ & H). split; [apply parserStep_refl |]. auto.
  - destruct (Tokens p); [exact I |]. exact H.
Qed.

Lemma obeys_getParser (n : nat) (toks : list Token) :
  obeys n toks getParser (fun _ => True).
Proof. intros p _. split; [apply parserStep_refl |]. auto. Qed.

Lemma obeys_tokenText (n : nat) (toks : list Token) (t : Token) :
  obeys n toks (tokenText t) (fun _ => True).
Proof. intros p _. split; [apply parserStep_refl |]. auto. Qed.

Lemma obeys_tagRegister (n : nat) (toks : list Token) (t : Token) :
  obeys n toks (tagRegister t) (fun id => tok_Tag t = TagRegister id).
Proof.
  unfold tagRegister. destruct (tok_Tag t); try apply obeys_abort.
  apply obeys_ret. reflexivity.
Qed.

Lemma obeys_tagType (n : nat) (toks : list Token) (t : Token) :
  obeys n toks (tagType t) (fun ty => tok_Tag t = TagType ty).
Proof.
  unfold tagType. destruct (tok_Tag t); try apply obeys_abort.
  apply obeys_ret. reflexivity.
Qed.

Lemma obeys_tagInstr (n : nat) (toks : list Token) (t : Token) :
  obeys n toks (tagInstr t) (fun i => tok_Tag t = TagInstr i).
Proof.
  unfold tagInstr. destruct (tok_Tag t); try apply obeys_abort.
  apply obeys_ret. reflexivity.
Qed.

Lemma wellFormed_sectionOf (n : nat) (f : ASTFileNode)
      (secType : ASTSectionType) :
  wellFormed n f = true ->
  sectionWellFormed n secType (sectionOf f secType) = true.
Proof.
  unfold wellFormed. intros H.
  apply andb_true_iff in H. destruct H as [H H3].
  apply andb_true_iff in H. destruct H as [H1 H2].
  destruct secType; assumption.
Qed.

Lemma wellFormed_set_section (n : nat) (f : ASTFileNode)
      (secType : ASTSectionType) (s : ASTSection) :
  wellFormed n f = true ->
  sectionWellFormed n secType (Some s) = true ->
  wellFormed n (set_section f secType s) = true.
Proof.
  unfold wellFormed. intros H Hs.
  apply andb_true_iff in H. destruct H as [H H3].
  apply andb_true_iff in H. destruct H as [H1 H2].
  destruct secType; cbn [set_section SecStatic SecGlobal SecCode];
    rewrite ?H1, ?H2, ?H3, ?Hs; reflexivity.
Qed.

Lemma parserStep_set_section (n : nat) (p : Parser)
      (secType : ASTSectionType) (s : ASTSection) :
  (forallb (tagInRange n) (Tokens p) = true ->
   wellFormed n (FileNode p) = true ->
   sectionWellFormed n secType (Some s) = true) ->
  parserStep n p (set_FileNode p (set_section (FileNode p) secType s)).
Proof.
  intros H. unfold parserStep. cbn [set_FileNode Src Tokens InstrDefs
                                     LabelDefs VarDecls Cursor FileNode].
  repeat split; auto.
  - intros Ht Hwf. apply wellFormed_set_section; auto.
  - destruct secType; simpl; auto; discriminate.
Qed.

Lemma obeys_pushBody (n : nat) (toks : list Token)
      (secType : ASTSectionType) (node : ASTNode) :
  (forallb (tagInRange n) toks = true ->
   isSectionNode n secType node = true) ->
  obeys n toks (pushBody secType node) (fun _ => True).
Proof.
  intros Hnode p Htoks. unfold pushBody.
  destruct (sectionOf (FileNode p) secType) as [s |] eqn:Es; [| exact I].
  split; [| auto].
  apply parserStep_set_section. intros Ht Hwf.
  pose proof (wellFormed_sectionOf n _ secType Hwf) as H. rewrite Es in H.
  unfold sectionWellFormed in *. cbn [sec_SecType sec_Body].
  apply andb_true_iff in H. destruct H as [H1 H2].
  rewrite H1, forallb_app, H2. simpl.
  rewrite Hnode by (rewrite <- Htoks; exact Ht). reflexivity.
Qed.

Lemma obeys_pushParam (n : nat) (toks : list Token) (node : ASTNode) :
  isOperand node = true ->
  obeys n toks (pushParam node) (fun _ => True).
Proof.
  intros Hnode p _. unfold pushParam.
  destruct (SecCode (FileNode p)) as [s |] eqn:Es; [| exact I].
  destruct (rev (sec_Body s)) as [| last before] eqn:Er; [exact I |].
  destruct last; try exact I.
  split; [| auto].
  apply parserStep_set_section. intros _ Hwf.
  pose proof (wellFormed_sectionOf n _ CODE Hwf) as H.
  cbn [sectionOf] in H. rewrite Es in H.
  unfold sectionWellFormed in *. cbn [sec_SecType sec_Body].
  apply andb_true_iff in H. destruct H as [H1 H2].
  rewrite H1. cbn [andb].
  assert (Eb : sec_Body s = rev before ++ [Node_Instruction i]).
  { rewrite <- (rev_involutive (sec_Body s)), Er. reflexivity. }
  rewrite Eb, forallb_app in H2. apply andb_true_iff in H2.
  destruct H2 as [H2 H3]. rewrite forallb_app, H2. cbn [andb forallb].
  cbn [forallb isSectionNode isCodeNode] in H3 |- *.
  cbn [ins_ASMDefIndex ins_Params ins_Opcode ins_EncodingFlags].
  rewrite andb_true_r in H3 |- *.
  apply andb_true_iff in H3. destruct H3 as [H3 H6].
  apply andb_true_iff in H3. destruct H3 as [H3 H5].
  apply andb_true_iff in H3. destruct H3 as [H3 H4].
  rewrite H3, H5, H6, forallb_app, H4. simpl. rewrite Hnode. reflexivity.
Qed.

Lemma obeys_newSection (n : nat) (toks : list Token) (secType : ASTSectionType)
      (secToken : Token) (secName : string) :
  obeys n toks (fun p => Ret tt
                      (set_FileNode p
                         (set_section (FileNode p) secType
                            (newASTSection secToken secName secType))))
        (fun _ => True).
Proof.
  intros p _. split; [| auto].
  apply parserStep_set_section. intros _ _.
  unfold sectionWellFormed, newASTSection. simpl.
  destruct secType; reflexivity.
Qed.

Lemma obeys_tokenToInt (n : nat) (toks : list Token) (t : Token) (msg : string) :
  obeys n toks (tokenToInt t msg) (fun num => 0 <= num < 2 ^ 64).
Proof.
  intros p Htoks. unfold tokenToInt, bind, tokenText.
  destruct (strToInt (getSubStr (Src p) (tok_Index t) (tok_Size t)))
    as [[num |] |] eqn:E.
  - split; [apply parserStep_refl |]. split; [reflexivity |].
    exact (strToInt_range _ _ E).
  - exact (obeys_failAt Z n toks msg t (fun _ => True) p Htoks).
  - exact I.
Qed.

Lemma obeys_guard (n : nat) (toks : list Token) (b : bool) (msg : string) (t : Token) :
  obeys n toks (if b then failAt msg t else ret tt) (fun _ => True).
Proof. destruct b; [apply obeys_failAt | apply obeys_ret; exact I]. Qed.

(** One step of the proof that a parsing function keeps the discipline:
    the rule of the outermost construct. *)
Ltac obeys_step :=
  match goal with
  | |- obeys _ _ (bind eatToken _) _ =>
    eapply obeys_bind; [apply obeys_eatToken | intros ? ?]
  | |- obeys _ _ (bind peekToken _) _ =>
    eapply obeys_bind; [apply obeys_peekToken | intros ? ?]
  | |- obeys _ _ (bind (tagRegister _) _) _ =>
    eapply obeys_bind; [apply obeys_tagRegister | intros ? ?]
  | |- obeys _ _ (bind (tagType _) _) _ =>
    eapply obeys_bind; [apply obeys_tagType | intros ? ?]
  | |- obeys _ _ (bind (tagInstr _) _) _ =>
    eapply obeys_bind; [apply obeys_tagInstr | intros ? ?]
  | |- obeys _ _ (bind (tokenToInt _ _) _) _ =>
    eapply obeys_bind; [apply obeys_tokenToInt | intros ? ?]
  | |- obeys _ _ (bind (tokenText _) _) _ =>
    eapply obeys_bind; [apply obeys_tokenText | intros ? _]
  | |- obeys _ _ (bind getParser _) _ =>
    eapply obeys_bind; [apply obeys_getParser | intros ? _]
  | |- obeys _ _ (bind (if _ then failAt _ _ else ret tt) _) _ =>
    eapply obeys_bind; [apply obeys_guard | intros _ _]
  | |- obeys _ _ (bind _ _) _ =>
    eapply obeys_bind with (Q := fun _ => True); [| intros ? _]
  | |- obeys _ _ (ret _) _ => apply obeys_ret
  | |- obeys _ _ (failAt _ _) _ => apply obeys_failAt
  | |- obeys _ _ abort _ => apply obeys_abort
  | |- obeys _ _ (fun _ => OutOfFuel) _ => apply obeys_outOfFuel
  | |- obeys _ _ eatToken _ =>
    eapply obeys_weaken; [apply obeys_eatToken | auto]
  | |- obeys _ _ (pushParam _) _ =>
    eapply obeys_weaken; [apply obeys_pushParam | auto]
  | |- obeys _ _ (pushBody _ _) _ =>
    eapply obeys_weaken; [apply obeys_pushBody; intros _ | auto]
  | |- obeys _ _ (if ?b then _ else _) _ =>
    let E := fresh "E" in destruct b eqn:E
  | |- obeys _ _ (match ?x with _ => _ end) _ =>
    let E := fresh "E" in destruct x eqn:E
  end.

Lemma obeys_parseRegOffsetTail (n : nat) (toks : list Token) (regOff : RegisterOffset)
      (base : RegisterId) :
  ro_Var regOff = None -> ro_Base regOff = Some base ->
  ro_Offset regOff = None -> isIntRegister base = true ->
  ro_Layout regOff = 0 \/ ro_Layout regOff = 0x80 ->
  obeys n toks (parseRegOffsetTail regOff) (fun _ => True).
Proof.
  intros Hvar Hbase Hoff Hint Hlay. unfold parseRegOffsetTail.
  repeat obeys_step; auto;
    unfold isOperand, roWellFormed, isIntRegister in *;
    cbn [ro_or_Layout ro_at ro_set_U16 ro_set_U32 ro_set_Offset ro_Var
         ro_Base ro_Offset ro_Layout ro_Immediate ro_Immediate_U32 reg_Id];
    rewrite Hvar, Hbase, ?Hoff, Hint; cbn [andb].
  - apply negb_false_iff in E0. rewrite E0. cbn [andb].
    destruct Hlay as [-> | ->]; reflexivity.
  - match goal with
    | Hr : 0 <= ?num < 2 ^ 64, Es : negb (Z.shiftr ?num 32 =? 0) = false
      |- _ =>
      apply negb_false_iff in Es; apply Z.eqb_eq in Es;
        rewrite (to_uint32_small num (proj1 Hr) Es);
        pose proof (shiftr_zero_bound num 32 (proj1 Hr) ltac:(lia) Es) as Hb;
        assert (E32 : (0 <=? num) && (num <? 2 ^ 32) = true)
          by (apply andb_true_iff; split;
              [apply Z.leb_le; lia | apply Z.ltb_lt; exact Hb])
    end.
    destruct Hlay as [-> | ->]; cbn [Z.lor Z.eqb Pos.lor Pos.eqb orb andb];
      rewrite <- andb_assoc, E32; reflexivity.
Qed.

Lemma obeys_parseRegOffset (n : nat) (toks : list Token) :
  obeys n toks parseRegOffset (fun _ => True).
Proof.
  unfold parseRegOffset.
  repeat obeys_step; auto.
  all: try (eapply obeys_parseRegOffsetTail;
            try reflexivity;
            [unfold isIntRegister; cbn [reg_Id];
             match goal with
             | E : negb _ = false |- _ =>
               apply negb_false_iff in E; exact E
             end
            | cbn; auto]).
  all: unfold isOperand, roWellFormed, isIntRegister;
    cbn [ro_set_Layout ro_at ro_set_Base ro_set_Var newRegisterOffset
         ro_Var ro_Base ro_Offset ro_Layout ro_Immediate reg_Id];
    try reflexivity.
  all: match goal with
       | E : negb _ = false |- _ =>
         apply negb_false_iff in E; rewrite E; reflexivity
       end.
Qed.

Section ParserDiscipline.

Context {lib : StdLib}.
Variable n : nat.
Variable toks : list Token.

Lemma isOperand_newASTInt (t : Token) (num : Z) (isSigned : bool) :
  isOperand (Node_ASTInt (newASTInt t num isSigned)) = true.
Proof.
  unfold isOperand, newASTInt. cbn [int_Num int_DataType].
  pose proof (to_int64_range num) as H.
  rewrite andb_true_r. apply andb_true_iff.
  split; [apply Z.leb_le | apply Z.ltb_lt]; lia.
Qed.

Lemma obeys_foldSign (signToken : option Token) (signTokenText : ascii)
      (t : Token) (numStr : string) :
  obeys n toks (foldSign signToken signTokenText t numStr) (fun _ => True).
Proof. unfold foldSign. repeat obeys_step; auto. Qed.

Lemma obeys_eatSign (t : Token) :
  obeys n toks (eatSign t) (fun _ => True).
Proof. unfold eatSign. repeat obeys_step; auto. Qed.

Lemma obeys_endOfOperand :
  obeys n toks endOfOperand (fun _ => True).
Proof. unfold endOfOperand. repeat obeys_step; auto. Qed.

Lemma obeys_parseOperand (t : Token) :
  obeys n toks (parseOperand t) (fun _ => True).
Proof.
  unfold parseOperand.
  eapply obeys_bind; [apply obeys_eatSign | intros [[signToken signTokenText] t'] _].
  eapply obeys_bind with (Q := fun _ => True);
    [repeat obeys_step; auto | intros _ _].
  eapply obeys_bind with (Q := fun _ => True);
    [| intros _ _; apply obeys_endOfOperand].
  destruct (tok_Type t'); try apply obeys_failAt.
  - repeat obeys_step; auto.
  - repeat obeys_step; auto.
  - obeys_step. eapply obeys_bind; [apply obeys_foldSign | intros [numStr isSigned] _].
    repeat obeys_step; auto. apply isOperand_newASTInt.
  - obeys_step. eapply obeys_bind; [apply obeys_foldSign | intros [floatStr b] _].
    repeat obeys_step; auto.
  - apply obeys_parseRegOffset.
Qed.

Lemma obeys_parseOperands (fuel : nat) :
  forall t : Token, obeys n toks (parseOperands fuel t) (fun _ => True).
Proof.
  induction fuel as [| fuel IH]; intros t; cbn [parseOperands].
  - apply obeys_outOfFuel.
  - eapply obeys_bind; [apply obeys_parseOperand | intros [t' e] _].
    destruct e; [apply obeys_ret; exact I | apply IH].
Qed.

Lemma obeys_parseInstrBody (fuel : nat) (t : Token) :
  obeys n toks (parseInstrBody fuel t) (fun _ => True).
Proof.
  unfold parseInstrBody.
  eapply obeys_bind with (Q := fun _ => True);
    [repeat obeys_step; auto | intros [t' e] _].
  eapply obeys_bind with (Q := fun _ => True);
    [| intros _ _; apply obeys_ret; exact I].
  destruct e; [apply obeys_ret; exact I | apply obeys_parseOperands].
Qed.

Lemma obeys_parseGlobalScope (t : Token) :
  In t toks ->
  obeys n toks (parseGlobalScope t) (fun _ => True).
Proof.
  intros Ht. unfold parseGlobalScope.
  eapply obeys_bind with (Q := fun t => In t toks).
  { destruct (TokenType_eqb (tok_Type t) EOL);
      [apply obeys_eatToken | apply obeys_ret; exact Ht]. }
  intros t' Ht'.
  destruct (TokenType_eqb (tok_Type t') END_OF_FILE
            || TokenType_eqb (tok_Type t') RIGHT_CURLY_BRACKET);
    [apply obeys_ret; exact I |].
  destruct (tok_Type t') eqn:Ety; try apply obeys_failAt.
  - obeys_step. obeys_step.
    eapply obeys_bind with (Q := fun _ => True).
    + apply obeys_pushBody. intros Htags.
      cbn [isSectionNode isCodeNode newInstruction ins_ASMDefIndex
           ins_Params ins_Opcode ins_EncodingFlags forallb].
      rewrite forallb_forall in Htags. specialize (Htags _ Ht').
      unfold tagInRange in Htags. rewrite Ety in Htags. cbv beta in *.
      match goal with
      | H : tok_Tag t' = TagInstr _ |- _ => rewrite H in Htags
      end.
      rewrite Htags. reflexivity.
    + intros _ _. repeat obeys_step; auto.
  - repeat obeys_step; auto.
Qed.

Lemma obeys_parseSectionCodeLoop (fuel : nat) :
  forall state : ParseState,
    obeys n toks (parseSectionCodeLoop fuel state) (fun _ => True).
Proof.
  induction fuel as [| fuel IH]; intros state.
  - destruct state; cbn [parseSectionCodeLoop];
      first [apply obeys_outOfFuel | apply obeys_ret; exact I].
  - destruct state; cbn [parseSectionCodeLoop];
      try (apply obeys_ret; exact I);
      (eapply obeys_bind; [apply obeys_eatToken | intros t Ht]);
      (eapply obeys_bind with (Q := fun _ => True);
       [| intros state' _; apply IH]).
    + apply obeys_parseGlobalScope. exact Ht.
    + apply obeys_ret. exact I.
    + apply obeys_parseInstrBody.
Qed.

Lemma obeys_parseSectionCode :
  obeys n toks parseSectionCode (fun _ => True).
Proof.
  unfold parseSectionCode. obeys_step. apply obeys_parseSectionCodeLoop.
Qed.

Lemma to_uint64_to_int64 (v : Z) :
  0 <= v < 2 ^ 64 -> to_uint64 (to_int64 v) = v.
Proof.
  intros H. unfold to_uint64, to_int64. rewrite (Z.mod_small v) by exact H.
  destruct (v <? 2 ^ 63) eqn:E.
  - apply Z.mod_small. exact H.
  - apply Z.ltb_ge in E. symmetry.
    apply (Z.mod_unique _ _ (-1)); lia.
Qed.

Lemma obeys_parseVarValue (typeInfo : TypeInfo) (tok : Token) :
  obeys n toks (parseVarValue typeInfo tok)
        (fun r => valueFits typeInfo (fst r) = true).
Proof.
  unfold parseVarValue.
  eapply obeys_bind; [apply obeys_eatSign | intros [[signToken signTokenText] tok'] _].
  obeys_step.
  eapply obeys_bind with (Q := fun val => valueFits typeInfo val = true);
    [| intros val Hval; apply obeys_ret; exact Hval].
  destruct (tok_Type tok'); try apply obeys_failAt.
  - eapply obeys_bind; [apply obeys_foldSign | intros [tokString isSigned] _].
    destruct (strToInt tokString) as [[intVal |] |] eqn:Eint;
      [| apply obeys_failAt | apply obeys_abort].
    destruct (negb (checkIntWidth intVal (ti_DataType typeInfo) isSigned))
             eqn:Efit; [apply obeys_failAt |].
    apply obeys_ret. apply negb_false_iff in Efit.
    unfold valueFits, newASTInt. cbn [int_Num int_IsSigned].
    rewrite (to_uint64_to_int64 _ (strToInt_range _ _ Eint)). exact Efit.
  - eapply obeys_bind; [apply obeys_foldSign | intros [tokString b] _].
    destruct (strToFP tokString) as [floatVal |]; [| apply obeys_failAt].
    destruct (negb (checkFloatWidth floatVal (ti_DataType typeInfo)))
             eqn:Efit; [apply obeys_failAt |].
    apply obeys_ret. apply negb_false_iff in Efit. exact Efit.
  - destruct (parseStringEscape a); [| apply obeys_abort].
    apply obeys_ret. reflexivity.
Qed.

Lemma obeys_parseVarDecl (secType : ASTSectionType) (tok : Token) :
  secType <> CODE ->
  obeys n toks (parseVarDecl secType tok) (fun _ => True).
Proof.
  intros Hsec. unfold parseVarDecl.
  repeat first
         [ match goal with
           | |- obeys _ _ (bind (parseVarValue _ _) _) _ =>
             eapply obeys_bind;
             [apply obeys_parseVarValue | intros [? ?] ?]
           end
         | obeys_step ]; auto.
  destruct secType; [| | congruence]; assumption.
Qed.

Lemma obeys_parseSectionVarsLoop (secType : ASTSectionType) (fuel : nat) :
  secType <> CODE ->
  forall tok : Token,
    obeys n toks (parseSectionVarsLoop fuel secType tok) (fun _ => True).
Proof.
  intros Hsec. induction fuel as [| fuel IH]; intros tok;
    cbn [parseSectionVarsLoop];
    (destruct (TokenType_eqb (tok_Type tok) RIGHT_CURLY_BRACKET);
     [apply obeys_ret; exact I |]).
  - apply obeys_outOfFuel.
  - eapply obeys_bind; [apply (obeys_parseVarDecl _ _ Hsec) | intros tok' _].
    apply IH.
Qed.

Lemma obeys_parseSectionVars (secType : ASTSectionType) :
  secType <> CODE ->
  obeys n toks (parseSectionVars secType) (fun _ => True).
Proof.
  intros Hsec. unfold parseSectionVars.
  obeys_step.
  eapply obeys_bind with (Q := fun _ => True);
    [repeat obeys_step; auto | intros tok _].
  obeys_step. apply obeys_parseSectionVarsLoop. exact Hsec.
Qed.

Lemma obeys_parseSection (secToken : Token) (secName : string)
      (secType : ASTSectionType) (msg : string) (body : M unit) :
  obeys n toks body (fun _ => True) ->
  obeys n toks (parseSection secToken secName secType msg body) (fun _ => True).
Proof.
  intros Hbody. unfold parseSection. obeys_step.
  destruct (sectionOf (FileNode a) secType); [apply obeys_failAt |].
  eapply obeys_bind; [apply obeys_newSection | intros _ _; exact Hbody].
Qed.

Lemma obeys_parseFileSection (currentToken : Token) :
  obeys n toks (parseFileSection currentToken) (fun _ => True).
Proof.
  unfold parseFileSection.
  do 4 obeys_step.
  eapply obeys_bind with (Q := fun _ => True); [| intros _ _; obeys_step; auto].
  repeat match goal with
         | |- obeys _ _ (if ?b then _ else _) _ => destruct b
         end;
    first [ apply obeys_failAt
          | apply obeys_parseSection;
            first [ apply obeys_parseSectionCode
                  | apply obeys_parseSectionVars; discriminate ] ].
Qed.

Lemma obeys_buildASTLoop (fuel : nat) :
  forall currentToken : Token,
    obeys n toks (buildASTLoop fuel currentToken) (fun _ => True).
Proof.
  induction fuel as [| fuel IH]; intros currentToken; cbn [buildASTLoop];
    (destruct (TokenType_eqb (tok_Type currentToken) END_OF_FILE);
     [apply obeys_ret; exact I |]).
  - apply obeys_outOfFuel.
  - destruct (TokenType_eqb (tok_Type currentToken) EOL).
    + obeys_step. apply IH.
    + eapply obeys_bind; [apply obeys_parseFileSection | intros t _].
      apply IH.
Qed.

(** [buildAST]: the loop keeps the discipline; the check for the Code
    section may add the message that it is missing. *)
Lemma buildAST_inv (p p' : Parser) (ok : bool) :
  Tokens p = toks ->
  buildAST p = Some (ok, p') ->
  exists p1,
    parserStep n p p1
    /\ FileNode p' = FileNode p1
    /\ parserStep n p1 p'
    /\ ((ok = true /\ Out p' = Out p /\ SecCode (FileNode p') <> None)
        \/ (ok = false
            /\ exists d,
                (SecCode (FileNode p') <> None /\ Out p' = Out p ++ [d])
                \/ (SecCode (FileNode p') = None
                    /\ (Out p' = Out p ++ [d]
                        \/ exists d', Out p' = Out p ++ [d'; d])))).
Proof.
  intros Htoks. unfold buildAST.
  assert (Hloop : obeys n toks (currentToken <- eatToken ;;
                                buildASTLoop (loopBudget p) currentToken)
                        (fun _ => True)).
  { obeys_step. apply obeys_buildASTLoop. }
  specialize (Hloop p Htoks).
  destruct ((currentToken <- eatToken ;;
             buildASTLoop (loopBudget p) currentToken) p)
    as [[] p1 | p1 | |]; try discriminate.
  - destruct Hloop as (Hstep & Hout & _).
    destruct (SecCode (FileNode p1)) eqn:Ecode; intros H;
      injection H as <- <-; exists p1.
    + split; [exact Hstep |]. split; [reflexivity |].
      split; [apply parserStep_refl |]. left.
      rewrite Ecode. repeat split; [exact Hout | discriminate].
    + split; [exact Hstep |]. split; [reflexivity |].
      split; [apply parserStep_set_Out |]. right.
      split; [reflexivity |]. eexists. right.
      split; [exact Ecode |]. left. cbn [Out set_Out]. rewrite Hout.
      reflexivity.
  - destruct Hloop as (Hstep & d & Hout).
    destruct (SecCode (FileNode p1)) eqn:Ecode; intros H;
      injection H as <- <-; exists p1.
    + split; [exact Hstep |]. split; [reflexivity |].
      split; [apply parserStep_refl |]. right.
      split; [reflexivity |]. exists d. left. rewrite Ecode.
      split; [discriminate | exact Hout].
    + split; [exact Hstep |]. split; [reflexivity |].
      split; [apply parserStep_set_Out |]. right.
      split; [reflexivity |]. eexists. right.
      split; [exact Ecode |]. right. exists d. cbn [Out set_Out].
      rewrite Hout, <- app_assoc. reflexivity.
Qed.

End ParserDiscipline.

(** ** The type checker on the tree of the parser *)

Section TypeCheckerTotal.

Context {perms : SecPermConsts}.

Lemma typeCheckVarsLoop_total (secType : ASTSectionType)
      (body : list ASTNode) :
  forall (varDecls : list VarDeclaration) (out : list Diagnostic)
         (valid : bool),
    forallb isVarNode body = true ->
    exists r, typeCheckVarsLoop secType body varDecls out valid = Some r.
Proof.
  induction body as [| node rest IH]; intros varDecls out valid Hb.
  - eexists. reflexivity.
  - cbn [forallb] in Hb. apply andb_true_iff in Hb. destruct Hb as [Hn Hr].
    destruct node; try discriminate Hn. cbn [typeCheckVarsLoop].
    destruct (varDeclExists varDecls (id_Name (var_Id v))).
    + destruct (IH varDecls
                   (out ++ [printErrorAt (var_pos v) "Variable redefiniton"])
                   false Hr) as [[[[r1 r2] r3] r4] E].
      rewrite E. eexists. reflexivity.
    + destruct (IH (varDecls ++ [mkVarDeclaration (var_Id v)
                                                   (secPermOf secType)])
                   out valid Hr) as [[[[r1 r2] r3] r4] E].
      rewrite E. eexists. reflexivity.
Qed.

Lemma typeCheckSection_total (n : nat) (secType : ASTSectionType)
      (sec : option ASTSection) (p : Parser) (err : bool) :
  secType <> CODE ->
  sectionWellFormed n secType sec = true ->
  exists sec' p' err',
    typeCheckSection sec p err = Some (sec', p', err')
    /\ InstrDefs p' = InstrDefs p.
Proof.
  intros Hsec Hwf. unfold typeCheckSection, typeCheckVars.
  destruct sec as [s |]; [| exists None, p, err; auto].
  unfold sectionWellFormed in Hwf. apply andb_true_iff in Hwf.
  destruct Hwf as [_ Hb].
  assert (Hvars : forallb isVarNode (sec_Body s) = true)
    by (destruct secType; [exact Hb | exact Hb | congruence]).
  destruct (typeCheckVarsLoop_total (sec_SecType s) (sec_Body s) (VarDecls p)
                                    (Out p) true Hvars)
    as [[[[body varDecls] out] valid] E].
  rewrite E. eexists. eexists. eexists. split; reflexivity.
Qed.

Lemma typeCheckBody_total (n : nat) (instrDefs : list InstrDefNode)
      (body : list ASTNode) :
  (n <= List.length instrDefs)%nat ->
  forallb (fun node => typedBelow false node && rootComplete node) instrDefs
  = true ->
  forallb (isCodeNode n) body = true ->
  forall cs : CheckState,
    exists r, typeCheckBody instrDefs body cs = Some r.
Proof.
  intros Hn Htyped. induction body as [| node rest IH]; intros Hb cs.
  - eexists. reflexivity.
  - cbn [forallb] in Hb. apply andb_true_iff in Hb. destruct Hb as [Hnode Hr].
    destruct node; try discriminate Hnode; cbn [typeCheckBody].
    + match goal with
      | |- context [typeCheckBody instrDefs rest ?cs'] =>
        destruct (IH Hr cs') as [[r1 r2] E]
      end.
      rewrite E. eexists. reflexivity.
    + cbn [isCodeNode] in Hnode.
      apply andb_true_iff in Hnode. destruct Hnode as [Hnode _].
      apply andb_true_iff in Hnode. destruct Hnode as [Hnode _].
      apply andb_true_iff in Hnode. destruct Hnode as [Hidx _].
      apply Nat.ltb_lt in Hidx.
      destruct (nth_error instrDefs (ins_ASMDefIndex i)) as [paramNode |]
               eqn:Enth;
        [| apply nth_error_None in Enth; lia].
      rewrite forallb_forall in Htyped.
      pose proof (Htyped _ (nth_error_In _ _ Enth)) as Ht.
      apply andb_true_iff in Ht. destruct Ht as [Ht1 Ht2].
      destruct (typeCheckInstrParams_total instrDefs i paramNode
                  (cs_labelRefs cs) (cs_out cs) Enth Ht1 Ht2)
        as [[[[ok instr'] labelRefs] out] E].
      rewrite E.
      match goal with
      | |- context [typeCheckBody instrDefs rest ?cs'] =>
        destruct (IH Hr cs') as [[r1 r2] E']
      end.
      rewrite E'. eexists. reflexivity.
Qed.

Lemma typeCheck_total (n : nat) (p : Parser) :
  (n <= List.length (InstrDefs p))%nat ->
  forallb (fun node => typedBelow false node && rootComplete node)
          (InstrDefs p) = true ->
  wellFormed n (FileNode p) = true ->
  SecCode (FileNode p) <> None ->
  exists r, typeCheck p = Some r.
Proof.
  intros Hn Htyped Hwf Hcode. unfold typeCheck.
  unfold wellFormed in Hwf.
  apply andb_true_iff in Hwf. destruct Hwf as [Hwf H3].
  apply andb_true_iff in Hwf. destruct Hwf as [H1 H2].
  destruct (typeCheckSection_total n STATIC _ p false ltac:(discriminate) H1)
    as (secStatic & p1 & err1 & E1 & Ei1).
  rewrite E1.
  destruct (typeCheckSection_total n GLOBAL _ p1 err1 ltac:(discriminate) H2)
    as (secGlobal & p2 & err2 & E2 & Ei2).
  rewrite E2.
  destruct (SecCode (FileNode p)) as [code |]; [| congruence].
  destruct (sec_Body code) as [| node rest] eqn:Eb; [eexists; reflexivity |].
  destruct (findMainEntry (node :: rest) None); [| eexists; reflexivity].
  cbn [sectionWellFormed] in H3. apply andb_true_iff in H3.
  destruct H3 as [_ H3]. cbn [isSectionNode] in H3. rewrite Eb in H3.
  cbn [InstrDefs set_FileNode].
  assert (Hbody : forall cs,
             exists r, typeCheckBody (InstrDefs p2) (node :: rest) cs
                       = Some r).
  { apply (typeCheckBody_total n);
      [rewrite Ei2, Ei1; exact Hn | rewrite Ei2, Ei1; exact Htyped
       | exact H3]. }
  match goal with
  | |- context [typeCheckBody _ _ ?cs] =>
    destruct (Hbody cs) as [[body' cs'] E]
  end.
  rewrite E.
  destruct (checkLabelRefs (cs_labelRefs cs') (cs_LabelDefs cs') (cs_out cs')
                           (cs_typeCheckError cs')) as [out err3].
  unfold checkVarRefs. cbn [FileNode set_Out set_LabelDefs set_FileNode SecCode].
  match goal with
  | |- context [checkVarRefsBody ?b ?v ?o ?x] =>
    destruct (checkVarRefsBody b v o x)
  end.
  eexists. reflexivity.
Qed.

End TypeCheckerTotal.

(** ** The parser as a whole *)

(** X11. [buildAST] returns true exactly if it has printed nothing, and
    then the Code section exists; a false return has printed one or two
    diagnostics: the parser stops at the first error, and the message for
    the missing Code section may follow it. *)
Theorem buildAST_true_iff_no_diagnostic :
  forall (lib : StdLib) (p p' : Parser) (ok : bool),
    buildAST p = Some (ok, p') ->
    exists errs,
      Out p' = Out p ++ errs
      /\ (ok = true <-> errs = [])
      /\ (List.length errs <= 2)%nat
      /\ (ok = true -> SecCode (FileNode p') <> None).
Proof.
  intros lib p p' ok H.
  destruct (buildAST_inv 0 (Tokens p) p p' ok eq_refl H)
    as (p1 & _ & _ & _ & Hcases).
  destruct Hcases as [(-> & Hout & Hcode)
                     | (-> & d & [(Hcode & Hout)
                                 | (Hcode & [Hout | (d' & Hout)])])].
  - exists []. rewrite app_nil_r. repeat split; auto.
  - exists [d]. repeat split; auto; try discriminate.
  - exists [d]. repeat split; auto; try discriminate.
  - exists [d'; d]. repeat split; auto; try discriminate.
Qed.

Lemma buildAST_true_iff_no_diagnostic_witness :
  @buildAST exampleLib (newParser builtinInstrDefs gap_src gap_tokens)
  = Some (false, parsed gap_src gap_tokens)
  /\ exists errs,
      Out (parsed gap_src gap_tokens) = [] ++ errs
      /\ (false = true <-> errs = []).
Proof.
  assert (H : @buildAST exampleLib
                        (newParser builtinInstrDefs gap_src gap_tokens)
              = Some (false, parsed gap_src gap_tokens))
    by (vm_compute; reflexivity).
  split; [exact H |].
  destruct (buildAST_true_iff_no_diagnostic exampleLib _ _ _ H)
    as (errs & H1 & H2 & _).
  exists errs. split; [exact H1 | exact H2].
Defined.

(** X12. [buildAST] keeps the tree well formed, on a token stream whose
    instruction tokens carry indices below [n]: the Static and Global
    sections hold only variables whose values fit their declared types, the
    Code section holds only labels and instructions, the operands of an
    instruction are type infos, identifiers, registers, literals in the
    range of [int64_t] and register offsets in one of the four layouts, and
    no instruction has an opcode yet.  The symbol tables, the source and
    the tokens are left as they are. *)
Theorem buildAST_wellFormed :
  forall (lib : StdLib) (n : nat) (p p' : Parser) (ok : bool),
    forallb (tagInRange n) (Tokens p) = true ->
    wellFormed n (FileNode p) = true ->
    buildAST p = Some (ok, p') ->
    wellFormed n (FileNode p') = true
    /\ LabelDefs p' = LabelDefs p /\ VarDecls p' = VarDecls p
    /\ Src p' = Src p /\ Tokens p' = Tokens p /\ InstrDefs p' = InstrDefs p.
Proof.
  intros lib n p p' ok Htags Hwf H.
  destruct (buildAST_inv n (Tokens p) p p' ok eq_refl H)
    as (p1 & Hstep & Hfile & Hstep' & _).
  pose proof (parserStep_trans _ _ _ _ Hstep Hstep') as Hs.
  destruct Hs as (A1 & A2 & A3 & A4 & A5 & _ & A7 & _).
  repeat split; auto.
Qed.

Lemma buildAST_wellFormed_witness :
  forallb (tagInRange 54) bp4_tokens = true
  /\ wellFormed 54 (FileNode (newParser builtinInstrDefs bp4_src bp4_tokens))
     = true
  /\ @buildAST exampleLib (newParser builtinInstrDefs bp4_src bp4_tokens)
     = Some (true, parsed bp4_src bp4_tokens)
  /\ wellFormed 54 (FileNode (parsed bp4_src bp4_tokens)) = true.
Proof.
  assert (Ht : forallb (tagInRange 54)
                       (Tokens (newParser builtinInstrDefs bp4_src bp4_tokens))
               = true) by (vm_compute; reflexivity).
  assert (Hw : wellFormed 54 (FileNode (newParser builtinInstrDefs bp4_src
                                                  bp4_tokens)) = true)
    by reflexivity.
  assert (H : @buildAST exampleLib
                        (newParser builtinInstrDefs bp4_src bp4_tokens)
              = Some (true, parsed bp4_src bp4_tokens))
    by (vm_compute; reflexivity).
  split; [exact Ht |]. split; [exact Hw |]. split; [exact H |].
  exact (proj1 (buildAST_wellFormed exampleLib 54 _ _ _ Ht Hw H)).
Defined.

(** X13. The type checker does not abort on what the parser hands over:
    after a [buildAST] that returned true on a fresh parser for the built-in
    instruction definitions, on tokens whose instruction tags are indices
    into these definitions, [typeCheck] returns (no null pointer is
    dereferenced and no index is out of range). *)
Theorem typeCheck_after_buildAST :
  forall (lib : StdLib) (perms : SecPermConsts) (src : string)
         (tokens : list Token) (p : Parser),
    forallb (tagInRange (List.length builtinInstrDefs)) tokens = true ->
    buildAST (newParser builtinInstrDefs src tokens) = Some (true, p) ->
    exists (ok : bool) (p' : Parser), typeCheck p = Some (ok, p').
Proof.
  intros lib perms src tokens p Htags H.
  destruct (buildAST_inv (List.length builtinInstrDefs) tokens
                         (newParser builtinInstrDefs src tokens) p true
                         eq_refl H)
    as (p1 & Hstep & Hfile & Hstep' & Hcases).
  pose proof (parserStep_trans _ _ _ _ Hstep Hstep') as Hs.
  destruct Hs as (_ & _ & A3 & _ & _ & _ & A7 & _).
  destruct Hcases as [(_ & _ & Hcode) | (Hf & _)]; [| discriminate Hf].
  destruct (typeCheck_total (List.length builtinInstrDefs) p)
    as [[ok p'] E].
  - rewrite A3. apply Nat.le_refl.
  - rewrite A3. exact builtinInstrDefs_typed.
  - apply A7; [exact Htags | reflexivity].
  - exact Hcode.
  - exists ok, p'. exact E.
Qed.

Lemma typeCheck_after_buildAST_witness :
  forallb (tagInRange (List.length builtinInstrDefs)) bp4_tokens = true
  /\ @buildAST exampleLib (newParser builtinInstrDefs bp4_src bp4_tokens)
     = Some (true, parsed bp4_src bp4_tokens)
  /\ exists (ok : bool) (p' : Parser),
      @typeCheck examplePerms (parsed bp4_src bp4_tokens) = Some (ok, p').
Proof.
  assert (Ht : forallb (tagInRange (List.length builtinInstrDefs)) bp4_tokens
               = true) by (vm_compute; reflexivity).
  assert (H : @buildAST exampleLib
                        (newParser builtinInstrDefs bp4_src bp4_tokens)
              = Some (true, parsed bp4_src bp4_tokens))
    by (vm_compute; reflexivity).
  split; [exact Ht |]. split; [exact H |].
  exact (typeCheck_after_buildAST exampleLib examplePerms _ _ _ Ht H).
Defined.

(** X14. The section parsers stop at the first error: [parseSectionCode]
    and [parseSectionVars] print nothing when they return true and exactly
    one diagnostic when they return false. *)
Theorem section_parsers_one_diagnostic :
  forall (lib : StdLib) (secType : ASTSectionType) (p : Parser),
    match parseSectionBody secType p with
    | Ret _ p' => Out p' = Out p
    | RetFalse p' => exists d, Out p' = Out p ++ [d]
    | Abort | OutOfFuel => True
    end.
Proof.
  intros lib secType p. unfold parseSectionBody.
  assert (H : obeys 0 (Tokens p)
                    match secType with
                    | CODE => parseSectionCode
                    | _ => parseSectionVars secType
                    end (fun _ => True)).
  { destruct secType;
      first [ apply obeys_parseSectionCode
            | apply obeys_parseSectionVars; discriminate ]. }
  specialize (H p eq_refl).
  destruct (match secType with
            | CODE => parseSectionCode
            | _ => parseSectionVars secType
            end p); auto.
  - exact (proj1 (proj2 H)).
  - exact (proj2 H).
Qed.

(** ** Operands *)

(** The next token is the one [eatToken] returns. *)
Lemma tokenAt_eatToken (p : Parser) (t : Token) :
  tokenAt p 0 = Some t ->
  exists p1,
    eatToken p = Ret t p1
    /\ (forall k, tokenAt p1 k = tokenAt p (S k))
    /\ Src p1 = Src p /\ FileNode p1 = FileNode p /\ Out p1 = Out p.
Proof.
  intros H.
  assert (E : exists p1, eatToken p = Ret t p1).
  { unfold tokenAt in H. unfold eatToken. rewrite Nat.add_0_r in H.
    destruct (nth_error (Tokens p) (Cursor p)).
    - inversion H. eexists. reflexivity.
    - destruct (Tokens p); [discriminate H |]. inversion H.
      eexists. reflexivity. }
  destruct E as [p1 E]. exists p1. split; [exact E |].
  destruct (eatToken_tokenAt _ _ _ E) as [_ Hs].
  destruct (eatToken_state _ _ _ E) as (Es & _ & Ef & Eo & _).
  auto.
Qed.

Lemma pushParam_tokenAt (node : ASTNode) (p p' : Parser) :
  pushParam node p = Ret tt p' ->
  (forall k, tokenAt p' k = tokenAt p k) /\ Out p' = Out p
  /\ Src p' = Src p.
Proof.
  unfold pushParam. intros H.
  destruct (SecCode (FileNode p)) as [s |]; [| discriminate].
  destruct (rev (sec_Body s)) as [| last before]; [discriminate |].
  destruct last; try discriminate H.
  inversion H; subst; clear H. repeat split.
Qed.

Lemma instrOpen_pushParam (node : ASTNode) (p : Parser) :
  instrOpen p -> exists p', pushParam node p = Ret tt p'.
Proof.
  intros (s & instr & before & Es & Er). unfold pushParam.
  rewrite Es, Er. eexists. reflexivity.
Qed.

(** A comma where an operand is expected. *)
Lemma parseOperand_comma {lib : StdLib} (comma : Token) (p : Parser) :
  tok_Type comma = COMMA ->
  parseOperand comma p
  = RetFalse (set_Out p (Out p ++ [printErrorAt (tok_pos comma)
                                     "Expected parameter"])).
Proof.
  intros H. unfold parseOperand, eatSign, isSignToken, bind, ret.
  rewrite H. cbn [TokenType_eqb orb]. cbv beta iota. rewrite H.
  reflexivity.
Qed.

(** X15. A comma between the type and the first operand is an error: when
    the operands of an instruction start with a type token that is followed
    by a comma, the pass over the instruction returns false after printing
    "Expected parameter" at the comma. *)
Theorem parseInstrBody_comma_after_type :
  forall (lib : StdLib) (fuel : nat) (t comma : Token) (ty : UVMType)
         (p : Parser),
    tok_Type t = TYPE_INFO ->
    tok_Tag t = TagType ty ->
    instrOpen p ->
    tokenAt p 0 = Some comma ->
    tok_Type comma = COMMA ->
    exists p',
      parseInstrBody (S fuel) t p = RetFalse p'
      /\ Out p' = Out p ++ [printErrorAt (tok_pos comma) "Expected parameter"].
Proof.
  intros lib fuel t comma ty p Hty Htag Hopen Hat Hcomma.
  destruct (instrOpen_pushParam (Node_TypeInfo (mkTypeInfo (tok_pos t) ty))
                                p Hopen) as [p1 Hpush].
  destruct (pushParam_tokenAt _ _ _ Hpush) as (Htok & Hout & _).
  assert (Hat1 : tokenAt p1 0 = Some comma) by (rewrite Htok; exact Hat).
  destruct (tokenAt_eatToken _ _ Hat1) as (p2 & Heat & _ & _ & _ & Hout2).
  unfold parseInstrBody, bind, tagType, ret. rewrite Hty, Htag. cbn [TokenType_eqb].
  rewrite Hpush, Heat, Hcomma. cbn [TokenType_eqb parseOperands].
  unfold bind. rewrite (parseOperand_comma comma p2 Hcomma).
  eexists. split; [reflexivity |]. cbn [Out set_Out]. congruence.
Qed.

Lemma parseInstrBody_comma_after_type_witness :
  exists p',
    @parseInstrBody exampleLib 1
      (mkToken TYPE_INFO (mkSrcPos 22 3 3 10) (TagType UVM_TYPE_I32))
      commagap_at_type = RetFalse p'
    /\ Out p' = [printError 25 1 3 13 "Expected parameter"].
Proof.
  assert (Hopen : instrOpen commagap_at_type).
  { eexists. eexists. eexists. split; reflexivity. }
  exact (parseInstrBody_comma_after_type
           exampleLib 0
           (mkToken TYPE_INFO (mkSrcPos 22 3 3 10) (TagType UVM_TYPE_I32))
           (tk COMMA 25 1 3 13) UVM_TYPE_I32 commagap_at_type
           eq_refl eq_refl Hopen eq_refl eq_refl).
Defined.

(** X16. A sign token in front of anything but an integer or a float
    number is an error: the pass over the operand returns false after
    printing "Unexpected operator" at the sign, and nothing is appended to
    the instruction. *)
Theorem parseOperand_sign_without_number :
  forall (lib : StdLib) (sign t : Token) (p : Parser),
    isSignToken sign = true ->
    tokenAt p 0 = Some t ->
    tok_Type t <> INTEGER_NUMBER ->
    tok_Type t <> FLOAT_NUMBER ->
    exists p',
      parseOperand sign p = RetFalse p'
      /\ Out p' = Out p ++ [printErrorAt (tok_pos sign) "Unexpected operator"]
      /\ FileNode p' = FileNode p.
Proof.
  intros lib sign t p Hsign Hat Hint Hfloat.
  destruct (tokenAt_eatToken _ _ Hat) as (p1 & Heat & _ & _ & Hfile & Hout).
  unfold parseOperand, eatSign, bind, getParser, ret. rewrite Hsign, Heat.
  assert (E : negb (TokenType_eqb (tok_Type t) INTEGER_NUMBER)
              && negb (TokenType_eqb (tok_Type t) FLOAT_NUMBER) = true).
  { destruct (tok_Type t); try reflexivity; congruence. }
  rewrite E. unfold failAt, printTokenError, print, bind, returnFalse.
  eexists. split; [reflexivity |]. cbn [Out set_Out FileNode]. 
  split; congruence.
Qed.

Lemma parseOperand_sign_without_number_witness :
  exists p',
    @parseOperand exampleLib (tk MINUS_SIGN 27 1 3 15) commagap_at_type
    = RetFalse p'
    /\ Out p' = [printError 27 1 3 15 "Unexpected operator"].
Proof.
  assert (Hsign : isSignToken (tk MINUS_SIGN 27 1 3 15) = true)
    by reflexivity.
  assert (Hat : tokenAt commagap_at_type 0 = Some (tk COMMA 25 1 3 13))
    by reflexivity.
  destruct (parseOperand_sign_without_number
              exampleLib (tk MINUS_SIGN 27 1 3 15) (tk COMMA 25 1 3 13)
              commagap_at_type Hsign Hat ltac:(discriminate)
              ltac:(discriminate)) as (p' & H1 & H2 & _).
  exists p'. split; [exact H1 | exact H2].
Defined.

(** ** The register-offset sub-parser accepts exactly its four forms *)

Lemma tokenAt_peekToken (p : Parser) (t : Token) :
  tokenAt p 0 = Some t -> peekToken p = Ret t p.
Proof.
  unfold tokenAt, peekToken. rewrite Nat.add_0_r. intros H.
  destruct (nth_error (Tokens p) (Cursor p)).
  - inversion H. reflexivity.
  - destruct (Tokens p); [discriminate H |]. inversion H. reflexivity.
Qed.

Lemma pushParam_instrOpen (node : ASTNode) (p p' : Parser) :
  pushParam node p = Ret tt p' -> instrOpen p.
Proof.
  unfold pushParam, instrOpen. intros H.
  destruct (SecCode (FileNode p)) as [s |]; [| discriminate].
  destruct (rev (sec_Body s)) as [| last before] eqn:Er; [discriminate |].
  destruct last; try discriminate H.
  exists s, i, before. auto.
Qed.

Lemma instrOpen_FileNode (p q : Parser) :
  FileNode q = FileNode p -> instrOpen p -> instrOpen q.
Proof. unfold instrOpen. intros ->. auto. Qed.

(** One token of an accepted register offset, eaten. *)
Ltac eat_next p Hat :=
  let q := fresh "q" in
  let Heat := fresh "Heat" in
  let Hs := fresh "Hs" in
  let Hsrc := fresh "Hsrc" in
  let Hfile := fresh "Hfile" in
  destruct (tokenAt_eatToken p _ Hat) as (q & Heat & Hs & Hsrc & Hfile & _).

Lemma parseRegOffsetTail_accepted (regOff : RegisterOffset) (q p : Parser) :
  Src q = Src p -> instrOpen q ->
  (forall k, tokenAt q k = tokenAt p (S (S k))) ->
  (exists t2,
      tokenAt p 2 = Some t2
      /\ match tok_Type t2 with
         | INTEGER_NUMBER =>
           exists t3 num,
             tokenAt p 3 = Some t3
             /\ tok_Type t3 = RIGHT_SQUARE_BRACKET
             /\ strToInt (tokenTextOf p t2) = Some (Some num)
             /\ num < 2 ^ 32
         | REGISTER_DEFINITION =>
           exists id2 t3 t4 t5 num,
             tok_Tag t2 = TagRegister id2
             /\ getRegisterType id2 = INTEGER
             /\ tokenAt p 3 = Some t3
             /\ tok_Type t3 = ASTERISK
             /\ tokenAt p 4 = Some t4
             /\ strToInt (tokenTextOf p t4) = Some (Some num)
             /\ num < 2 ^ 16
             /\ tokenAt p 5 = Some t5
             /\ tok_Type t5 = RIGHT_SQUARE_BRACKET
         | _ => False
         end) ->
  exists p', parseRegOffsetTail regOff q = Ret tt p'.
Proof.
  intros Hsrc Hopen Hs (t2 & H2 & Hform).
  rewrite <- Hs in H2.
  destruct (tokenAt_eatToken q _ H2) as (q2 & Heat2 & Hs2 & Hsrc2 & Hfile2 & _).
  unfold parseRegOffsetTail, bind. rewrite Heat2.
  assert (Hopen2 : instrOpen q2)
    by (apply (instrOpen_FileNode q); [congruence | exact Hopen]).
  destruct (tok_Type t2) eqn:Et2; try contradiction.
  - (* <iR> +/- <iR> * <i16> *)
    destruct Hform as (id2 & t3 & t4 & t5 & num & Etag & Hint & H3 & Et3
                       & H4 & Enum & Hnum & H5 & Et5).
    unfold tagRegister, ret. rewrite Etag, Hint. cbn [RegisterType_eqb negb].
    rewrite <- Hs, <- Hs2 in H3.
    destruct (tokenAt_eatToken q2 _ H3) as (q3 & Heat3 & Hs3 & Hsrc3 & Hfile3 & _).
    rewrite Heat3, Et3. cbn [TokenType_eqb].
    rewrite <- Hs, <- Hs2, <- Hs3 in H4.
    destruct (tokenAt_eatToken q3 _ H4) as (q4 & Heat4 & Hs4 & Hsrc4 & Hfile4 & _).
    rewrite Heat4. unfold tokenToInt, tokenText, bind, ret.
    unfold tokenTextOf in Enum.
    replace (Src q4) with (Src p) by congruence. rewrite Enum.
    assert (E16 : Z.shiftr num 16 = 0).
    { pose proof (strToInt_range _ _ Enum) as Hr.
      rewrite Z.shiftr_div_pow2 by lia. apply Z.div_small. lia. }
    rewrite E16. cbn [Z.eqb negb].
    rewrite <- Hs, <- Hs2, <- Hs3, <- Hs4 in H5.
    destruct (tokenAt_eatToken q4 _ H5) as (q5 & Heat5 & _ & _ & Hfile5 & _).
    rewrite Heat5, Et5. cbn [TokenType_eqb].
    apply instrOpen_pushParam.
    apply (instrOpen_FileNode q2); [congruence | exact Hopen2].
  - (* <iR> +/- <i32> *)
    destruct Hform as (t3 & num & H3 & Et3 & Enum & Hnum).
    rewrite <- Hs, <- Hs2 in H3.
    rewrite (tokenAt_peekToken q2 _ H3), Et3. cbn [TokenType_eqb].
    unfold tokenToInt, tokenText, bind, ret.
    unfold tokenTextOf in Enum.
    replace (Src q2) with (Src p) by congruence. rewrite Enum.
    assert (E32 : Z.shiftr num 32 = 0).
    { pose proof (strToInt_range _ _ Enum) as Hr.
      rewrite Z.shiftr_div_pow2 by lia. apply Z.div_small. lia. }
    rewrite E32. cbn [Z.eqb negb].
    match goal with
    | |- context [pushParam ?node q2] =>
      destruct (instrOpen_pushParam node q2 Hopen2) as [q3 Hpush];
        rewrite Hpush;
        destruct (pushParam_tokenAt _ _ _ Hpush) as (Htok & _ & _)
    end.
    assert (H3' : tokenAt q3 0 = Some t3) by (rewrite Htok; exact H3).
    destruct (tokenAt_eatToken q3 _ H3') as (q4 & Heat4 & _).
    rewrite Heat4. eexists. reflexivity.
Qed.

Lemma regOffsetTokens_accepted (p : Parser) :
  regOffsetTokens p -> instrOpen p ->
  exists p', parseRegOffset p = Ret tt p'.
Proof.
  intros (t0 & H0 & Hform) Hopen.
  destruct (tokenAt_eatToken p _ H0) as (q0 & Heat0 & Hs0 & Hsrc0 & Hfile0 & _).
  unfold parseRegOffset, bind. rewrite Heat0.
  destruct (tok_Type t0) eqn:Et0; try contradiction.
  - (* [ident] *)
    destruct Hform as (t1 & H1 & Et1).
    rewrite <- Hs0 in H1.
    destruct (tokenAt_eatToken q0 _ H1) as (q1 & Heat1 & _ & _ & Hfile1 & _).
    unfold tokenText, bind. rewrite Heat1, Et1. cbn [TokenType_eqb negb].
    apply instrOpen_pushParam. apply (instrOpen_FileNode p); [congruence | exact Hopen].
  - (* [reg ...] *)
    destruct Hform as (id & t1 & Etag & Hint & H1 & Hform).
    unfold tagRegister, ret. rewrite Etag, Hint. cbn [RegisterType_eqb negb].
    rewrite <- Hs0 in H1.
    destruct (tokenAt_eatToken q0 _ H1) as (q1 & Heat1 & Hs1 & Hsrc1 & Hfile1 & _).
    rewrite Heat1.
    assert (Hopen1 : instrOpen q1)
      by (apply (instrOpen_FileNode p); [congruence | exact Hopen]).
    destruct (tok_Type t1) eqn:Et1; try contradiction.
    + apply instrOpen_pushParam. exact Hopen1.
    + apply (parseRegOffsetTail_accepted _ q1 p);
        [congruence | exact Hopen1
         | intros k; rewrite Hs1, Hs0; reflexivity | exact Hform].
    + apply (parseRegOffsetTail_accepted _ q1 p);
        [congruence | exact Hopen1
         | intros k; rewrite Hs1, Hs0; reflexivity | exact Hform].
Qed.

Lemma parseRegOffset_tokens (p p' : Parser) :
  parseRegOffset p = Ret tt p' -> regOffsetTokens p /\ instrOpen p.
Proof.
  intros H.
  unfold parseRegOffset, parseRegOffsetTail, tokenToInt, failAt,
    printTokenError, print, returnFalse, tokenText, tagRegister, abort,
    bind, ret in H.
  repeat parse_step H;
    inversion H; subst; clear H;
    repeat match goal with
           | E : peekToken _ = Ret _ _ |- _ =>
             apply peekToken_tokenAt in E; destruct E as [-> ?]
           end;
    repeat match goal with
           | E : eatToken ?a = Ret ?t ?b |- _ =>
             let Ht := fresh "Ht" in
             let Hs := fresh "Hs" in
             let Hx := fresh "Hx" in
             let Hf := fresh "Hf" in
             destruct (eatToken_tokenAt _ _ _ E) as [Ht Hs];
             destruct (eatToken_state _ _ _ E) as (Hx & _ & Hf & _);
             clear E
           end;
    match goal with
    | E : pushParam _ _ = Ret tt _ |- _ =>
      pose proof (pushParam_instrOpen _ _ _ E) as Hopen;
        destruct (pushParam_tokenAt _ _ _ E) as (Hpt & _ & _)
    end;
    repeat match goal with
           | Hs : forall k, tokenAt ?a k = tokenAt _ (S k),
             Ht : tokenAt ?a _ = Some _ |- _ => rewrite Hs in Ht
           end;
    repeat match goal with
           | E : negb _ = false |- _ => apply negb_false_iff in E
           end;
    repeat match goal with
           | E : RegisterType_eqb _ _ = true |- _ =>
             apply RegisterType_eqb_eq in E
           | E : TokenType_eqb _ _ = true |- _ =>
             apply TokenType_eqb_eq in E
           | E : (_ =? _) = true |- _ => apply Z.eqb_eq in E
           end;
    (split;
     [| eapply instrOpen_FileNode; [| exact Hopen]; congruence]);
    unfold regOffsetTokens, tokenTextOf;
    repeat match goal with
           | E : Src _ = Src _ |- _ => rewrite E in *; clear E
           end;
    repeat match goal with
           | Es : strToInt _ = Some (Some ?num), E : Z.shiftr ?num ?k = 0
             |- _ =>
             pose proof (shiftr_zero_bound num k
                           (proj1 (strToInt_range _ _ Es)) ltac:(lia) E);
               clear E
           end;
    repeat regOffset_fact.
Qed.

(** X17. The register-offset sub-parser returns true exactly on the token
    sequences of [regOffsetTokens]: entered behind the opening bracket
    while an instruction is being parsed, it accepts an identifier; an
    integer register; an integer register, a plus or a minus sign and an
    integer token whose text [strToInt] reads as a number below 2^32; and
    an integer register, a sign, an integer register, an asterisk and a
    token whose text [strToInt] reads as a number below 2^16; each followed
    by the closing bracket, and nothing else.  The type of the token behind
    the asterisk is not looked at: a token of any type whose text starts
    with digits is taken as the factor. *)
Theorem parseRegOffset_accepts_iff :
  forall p : Parser,
    (exists p', parseRegOffset p = Ret tt p')
    <-> (regOffsetTokens p /\ instrOpen p).
Proof.
  intros p. split.
  - intros [p' H]. exact (parseRegOffset_tokens p p' H).
  - intros [Htok Hopen]. exact (regOffsetTokens_accepted p Htok Hopen).
Qed.

(** ** What the signature walk leaves of an instruction *)

Lemma walkGrows_refl (isRef : Identifier -> Prop) (ws : WalkState) :
  walkGrows isRef ws ws.
Proof.
  split; [exists [] | exists []]; rewrite ?app_nil_r; auto.
  split; [reflexivity | intros i []].
Qed.

Lemma walkGrows_trans (isRef : Identifier -> Prop) (ws1 ws2 ws3 : WalkState) :
  walkGrows isRef ws1 ws2 -> walkGrows isRef ws2 ws3 ->
  walkGrows isRef ws1 ws3.
Proof.
  intros [(a1 & E1 & I1) (e1 & O1)] [(a2 & E2 & I2) (e2 & O2)].
  split.
  - exists (a1 ++ a2). split; [rewrite E2, E1, app_assoc; reflexivity |].
    intros i Hi. apply in_app_or in Hi. destruct Hi; auto.
  - exists (e1 ++ e2). rewrite O2, O1, app_assoc. reflexivity.
Qed.

Lemma walkGrows_weaken (isRef isRef' : Identifier -> Prop)
      (ws ws' : WalkState) :
  (forall i, isRef i -> isRef' i) ->
  walkGrows isRef ws ws' -> walkGrows isRef' ws ws'.
Proof.
  intros H [(a & E & I) O]. split; [| exact O].
  exists a. split; [exact E | auto].
Qed.

Lemma checkParam_grows (child : InstrDefNode) (astNode astNode' : ASTNode)
      (nextNode nextNode' : option InstrDefNode) (ws ws' : WalkState) :
  checkParam child astNode nextNode ws = Some (astNode', nextNode', ws') ->
  walkGrows (fun i => astNode = Node_Identifier i) ws ws'.
Proof.
  intros H. checkParam_cases H; unfold walkGrows; cbn;
    (split;
     [first [ exists []; rewrite app_nil_r; split;
              [reflexivity | intros ? []]
            | eexists; split; [reflexivity |];
              intros ? [<- | []]; reflexivity ]
     | first [ exists []; rewrite app_nil_r; reflexivity
             | eexists; reflexivity ]]).
Qed.

Lemma sameKind_Identifier (i : Identifier) (a a' : ASTNode) :
  sameKind a a' -> a' = Node_Identifier i -> a = Node_Identifier i.
Proof.
  destruct a, a'; simpl; intros H E;
    try discriminate E; try congruence; try (destruct H; congruence).
Qed.

Lemma checkChildren_grows (children : list InstrDefNode) :
  forall (astNode astNode' : ASTNode)
         (nextNode nextNode' : option InstrDefNode) (ws ws' : WalkState),
    checkChildren children astNode nextNode ws
    = Some (astNode', nextNode', ws') ->
    sameKind astNode astNode'
    /\ walkGrows (fun i => astNode = Node_Identifier i) ws ws'.
Proof.
  induction children as [| child rest IH];
    intros astNode astNode' nextNode nextNode' ws ws' H; simpl in H.
  - inversion H; subst. split; [apply sameKind_refl | apply walkGrows_refl].
  - destruct (checkParam child astNode nextNode ws)
      as [[[a1 n1] ws1] |] eqn:E1; [| discriminate H].
    destruct (checkParam_accepts _ _ _ _ _ _ _ E1) as [Hk1 _].
    pose proof (checkParam_grows _ _ _ _ _ _ _ E1) as Hg1.
    destruct (IH _ _ _ _ _ _ H) as [Hk2 Hg2].
    split; [exact (sameKind_trans _ _ _ Hk1 Hk2) |].
    apply (walkGrows_trans _ ws ws1 ws'); [exact Hg1 |].
    apply (walkGrows_weaken (fun i => a1 = Node_Identifier i)); [| exact Hg2].
    intros i. apply sameKind_Identifier. exact Hk1.
Qed.

Lemma walkParams_grows (params : list ASTNode) :
  forall (node : InstrDefNode) (ws ws' : WalkState) (params' : list ASTNode)
         (paramList : option InstrParamList),
    walkParams node params ws = Some (params', paramList, ws') ->
    Forall2 sameKind params params'
    /\ walkGrows (fun i => In (Node_Identifier i) params) ws ws'.
Proof.
  induction params as [| astNode rest IH];
    intros node ws ws' params' paramList H; simpl in H.
  - inversion H; subst. split; [constructor | apply walkGrows_refl].
  - destruct (checkChildren (dn_Children node) astNode None ws)
      as [[[a1 [next |]] ws1] |] eqn:E1; try discriminate H.
    + destruct (checkChildren_grows _ _ _ _ _ _ _ E1) as [Hk Hg].
      assert (Hg' : walkGrows (fun i => In (Node_Identifier i)
                                           (astNode :: rest)) ws ws1).
      { apply (walkGrows_weaken (fun i => astNode = Node_Identifier i));
          [| exact Hg].
        intros i E. left. exact E. }
      destruct rest as [| b rest'].
      * inversion H; subst. split; [repeat constructor; exact Hk | exact Hg'].
      * destruct (walkParams next (b :: rest') ws1)
          as [[[rest1 pl1] ws2] |] eqn:E2; [| discriminate H].
        inversion H; subst; clear H.
        destruct (IH _ _ _ _ _ E2) as [Hf Hg2].
        split; [constructor; assumption |].
        apply (walkGrows_trans _ ws ws1 ws'); [exact Hg' |].
        apply (walkGrows_weaken
                 (fun i => In (Node_Identifier i) (b :: rest')));
          [| exact Hg2].
        intros i Hi. right. exact Hi.
    + destruct (checkChildren_grows _ _ _ _ _ _ _ E1) as [Hk Hg].
      inversion H; subst; clear H.
      split.
      * constructor; [exact Hk |].
        clear. induction rest; constructor; [apply sameKind_refl | assumption].
      * apply (walkGrows_weaken (fun i => astNode = Node_Identifier i));
          [| exact Hg].
        intros i E. left. exact E.
Qed.

(** X18. The check of an instruction leaves the instruction what it was,
    but for the opcode, the encoding flags and the type written into its
    literals: the position, the name, the definition index and the number,
    kinds and values of the operands are unchanged; the label references
    it adds are identifiers among the operands; and the log only grows. *)
Theorem typeCheckInstrParams_preserves :
  forall (instrDefs : list InstrDefNode) (instr instr' : Instruction)
         (labelRefs labelRefs' : list Identifier)
         (out out' : list Diagnostic) (ok : bool),
    typeCheckInstrParams instrDefs instr labelRefs out
    = Some (ok, instr', labelRefs', out') ->
    ins_pos instr' = ins_pos instr
    /\ ins_Name instr' = ins_Name instr
    /\ ins_ASMDefIndex instr' = ins_ASMDefIndex instr
    /\ Forall2 sameKind (ins_Params instr) (ins_Params instr')
    /\ (exists added,
           labelRefs' = labelRefs ++ added
           /\ forall i, In i added ->
                        In (Node_Identifier i) (ins_Params instr))
    /\ exists errs, out' = out ++ errs.
Proof.
  intros instrDefs instr instr' labelRefs labelRefs' out out' ok H.
  unfold typeCheckInstrParams in H.
  destruct (nth_error instrDefs (ins_ASMDefIndex instr)) as [paramNode |];
    [| discriminate H].
  destruct (ins_Params instr) as [| a rest] eqn:Ep.
  - assert (Hself : Forall2 sameKind (@nil ASTNode) []) by constructor.
    destruct (dn_Children paramNode).
    + destruct (dn_ParamList paramNode); [| discriminate H].
      inversion H; subst; clear H. cbn. rewrite Ep.
      split; [reflexivity |]. split; [reflexivity |].
      split; [reflexivity |]. split; [exact Hself |].
      split; exists []; rewrite app_nil_r;
        [split; [reflexivity | intros ? []] | reflexivity].
    + inversion H; subst; clear H. rewrite Ep.
      split; [reflexivity |]. split; [reflexivity |].
      split; [reflexivity |]. split; [exact Hself |].
      split; [exists []; rewrite app_nil_r;
              split; [reflexivity | intros ? []]
             | eexists; reflexivity].
  - destruct (walkParams paramNode (a :: rest)
                         (mkWalkState None labelRefs false out))
      as [[[params pl] ws] |] eqn:Ew; [| discriminate H].
    destruct (walkParams_grows _ _ _ _ _ _ Ew)
      as [Hf [(added & Eadd & Hadd) (errs & Eerr)]].
    cbn in Eadd, Eerr.
    assert (Hres : forall instr0,
               ins_pos instr0 = ins_pos instr ->
               ins_Name instr0 = ins_Name instr ->
               ins_ASMDefIndex instr0 = ins_ASMDefIndex instr ->
               ins_Params instr0 = params ->
               forall extra,
                 ins_pos instr0 = ins_pos instr
                 /\ ins_Name instr0 = ins_Name instr
                 /\ ins_ASMDefIndex instr0 = ins_ASMDefIndex instr
                 /\ Forall2 sameKind (a :: rest) (ins_Params instr0)
                 /\ (exists added0,
                        ws_labelRefs ws = labelRefs ++ added0
                        /\ forall i, In i added0 ->
                                     In (Node_Identifier i) (a :: rest))
                 /\ exists errs0, ws_out ws ++ extra = out ++ errs0).
    { intros instr0 H1 H2 H3 H4 extra. rewrite H4.
      repeat split; auto.
      - exists added. auto.
      - exists (errs ++ extra). rewrite Eerr, app_assoc. reflexivity. }
    destruct pl as [pl |].
    + destruct (ws_error ws).
      * inversion H; subst; clear H.
        specialize (Hres (set_Params instr params) eq_refl eq_refl eq_refl
                         eq_refl []).
        rewrite app_nil_r in Hres. exact Hres.
      * destruct (negb (Z.land (pl_Flags pl) INSTR_FLAG_TYPE_VARIANTS =? 0)).
        -- destruct (findOpcodeVariant (pl_OpcodeVariants pl) (ws_type ws) 0);
             [| discriminate H].
           inversion H; subst; clear H.
           specialize (Hres (set_Opcode (set_Params instr params) z
                                        (pl_Flags pl))
                            eq_refl eq_refl eq_refl eq_refl []).
           rewrite app_nil_r in Hres. exact Hres.
        -- inversion H; subst; clear H.
           specialize (Hres (set_Opcode (set_Params instr params)
                                        (pl_Opcode pl) (pl_Flags pl))
                            eq_refl eq_refl eq_refl eq_refl []).
           rewrite app_nil_r in Hres. exact Hres.
    + inversion H; subst; clear H.
      exact (Hres (set_Params instr params) eq_refl eq_refl eq_refl eq_refl _).
Qed.

Lemma typeCheckInstrParams_preserves_witness :
  typeCheckInstrParams builtinInstrDefs (push_int UVM_TYPE_I16 7) [] []
  = Some (true,
          set_Opcode (push_int_checked UVM_TYPE_I16 7) 0x02
                     INSTR_FLAG_TYPE_VARIANTS,
          [], [])
  /\ Forall2 sameKind
             (ins_Params (push_int UVM_TYPE_I16 7))
             (ins_Params (set_Opcode (push_int_checked UVM_TYPE_I16 7) 0x02
                                     INSTR_FLAG_TYPE_VARIANTS)).
Proof.
  assert (H : typeCheckInstrParams builtinInstrDefs (push_int UVM_TYPE_I16 7)
                                   [] []
              = Some (true,
                      set_Opcode (push_int_checked UVM_TYPE_I16 7) 0x02
                                 INSTR_FLAG_TYPE_VARIANTS,
                      [], [])) by (vm_compute; reflexivity).
  split; [exact H |].
  destruct (typeCheckInstrParams_preserves _ _ _ _ _ _ _ _ H)
    as (_ & _ & _ & Hf & _).
  exact Hf.
Defined.

(** ** The entry point *)

Lemma findMainEntry_hasMain (body : list ASTNode) :
  forall acc : option LabelDef,
    findMainEntry body acc
    = match findMainEntry body None with
      | Some l => Some l
      | None => acc
      end
    /\ (hasMain body = true <-> findMainEntry body None <> None).
Proof.
  induction body as [| node rest IH]; intros acc.
  - simpl. split; [reflexivity |]. split; [discriminate | congruence].
  - destruct node; simpl; try exact (IH acc).
    unfold hasMain. simpl.
    destruct (String.eqb (ld_Name l) "main") eqn:E.
    + destruct (IH (Some l)) as [E1 _]. rewrite E1.
      destruct (findMainEntry rest None); (split; [reflexivity |]);
        split; auto; discriminate.
    + destruct (IH acc) as [E1 E2]. exact (conj E1 E2).
Qed.

Section TypeCheckerMain.

Context {perms : SecPermConsts}.

Lemma typeCheck_main (p p' : Parser) (b : bool) :
  typeCheck p = Some (b, p') ->
  exists code,
    SecCode (FileNode p) = Some code
    /\ (hasMain (sec_Body code) = true ->
        LabelDefs p'
        = LabelDefs p
          ++ map (fun l => mkLabelDefLookup l 0) (labelsOf (sec_Body code)))
    /\ (hasMain (sec_Body code) = false ->
        b = false /\ LabelDefs p' = LabelDefs p
        /\ SecCode (FileNode p') = Some code
        /\ exists errs msg, Out p' = Out p ++ errs ++ [coutMsg msg]).
Proof.
  unfold typeCheck. intros H.
  destruct (typeCheckSection (SecStatic (FileNode p)) p false)
    as [[[secStatic p1] err1] |] eqn:E1; [| discriminate H].
  destruct (typeCheckSection (SecGlobal (FileNode p)) p1 err1)
    as [[[secGlobal p2] err2] |] eqn:E2; [| discriminate H].
  destruct (typeCheckSection_logged _ _ _ _ _ _ E1)
    as ((errs1 & O1 & _) & I1 & L1 & F1).
  destruct (typeCheckSection_logged _ _ _ _ _ _ E2)
    as ((errs2 & O2 & _) & I2 & L2 & F2).
  destruct (SecCode (FileNode p)) as [code |] eqn:Ecode; [| discriminate H].
  exists code. split; [reflexivity |].
  destruct (findMainEntry_hasMain (sec_Body code) None) as [_ Hmain].
  assert (Hearly : forall msg,
             Some (false,
                   set_Out (set_FileNode p2 (mkASTFileNode secStatic secGlobal
                                                           (Some code)))
                           (Out (set_FileNode p2
                                   (mkASTFileNode secStatic secGlobal
                                                  (Some code)))
                            ++ [coutMsg msg]))
             = Some (b, p') ->
             b = false /\ LabelDefs p' = LabelDefs p
             /\ SecCode (FileNode p') = Some code
             /\ exists errs msg, Out p' = Out p ++ errs ++ [coutMsg msg]).
  { intros msg Hm. injection Hm as <- <-. cbn.
    split; [reflexivity |]. split; [congruence |]. split; [reflexivity |].
    exists (errs1 ++ errs2), msg. rewrite O2, O1, <- !app_assoc. reflexivity. }
  destruct (sec_Body code) as [| node rest] eqn:Eb.
  - split; [discriminate | intros _; exact (Hearly _ H)].
  - destruct (findMainEntry (node :: rest) None) as [mainEntry |] eqn:Em.
    + split; [intros _ | intros Hf].
      * destruct (typeCheckBody _ (node :: rest) _) as [[body cs] |] eqn:Ebody;
          [| discriminate H].
        destruct (checkLabelRefs _ _ _ _) as [out err3].
        destruct (checkVarRefs _) as [[valid p5] |] eqn:Ev; [| discriminate H].
        injection H as <- <-.
        unfold checkVarRefs in Ev. cbn in Ev.
        destruct (checkVarRefsBody _ _ _ _) in Ev.
        injection Ev as <- <-. cbn.
        rewrite (typeCheckBody_LabelDefs _ _ _ _ _ Ebody). cbn.
        congruence.
      * exfalso. apply not_true_iff_false in Hf. apply Hf, Hmain.
        discriminate.
    + split; [| intros _; exact (Hearly _ H)].
      intros Ht. exfalso. apply Hmain in Ht. apply Ht. reflexivity.
Qed.

End TypeCheckerMain.

(** X19. The early exit of [typeCheck]: when the Code section defines no
    label named main, the pass returns false with a message on the console
    as its last output, and the body of the Code section is not walked (no
    label is entered into [LabelDefs], the section is left as it was); when
    it defines one, the walk enters every label definition of the body into
    [LabelDefs], in order. *)
Theorem typeCheck_main_entry :
  forall (perms : SecPermConsts) (p p' : Parser) (b : bool),
    typeCheck p = Some (b, p') ->
    exists code,
      SecCode (FileNode p) = Some code
      /\ (b = true -> hasMain (sec_Body code) = true)
      /\ (if hasMain (sec_Body code)
          then LabelDefs p'
               = LabelDefs p
                 ++ map (fun l => mkLabelDefLookup l 0)
                        (labelsOf (sec_Body code))
          else b = false /\ LabelDefs p' = LabelDefs p
               /\ SecCode (FileNode p') = Some code
               /\ exists errs msg, Out p' = Out p ++ errs ++ [coutMsg msg]).
Proof.
  intros perms p p' b H.
  destruct (typeCheck_main p p' b H) as (code & Ecode & Hyes & Hno).
  exists code. split; [exact Ecode |].
  destruct (hasMain (sec_Body code)).
  - split; [reflexivity | exact (Hyes eq_refl)].
  - split; [| exact (Hno eq_refl)].
    intros Hb. destruct (Hno eq_refl) as [Hf _]. congruence.
Qed.

Lemma typeCheck_main_entry_witness :
  @typeCheck examplePerms (parsed refs_src refs_tokens)
  = Some (true, checked refs_src refs_tokens)
  /\ exists code,
      SecCode (FileNode (parsed refs_src refs_tokens)) = Some code
      /\ (true = true -> hasMain (sec_Body code) = true).
Proof.
  assert (H : @typeCheck examplePerms (parsed refs_src refs_tokens)
              = Some (true, checked refs_src refs_tokens))
    by (vm_compute; reflexivity).
  split; [exact H |].
  destruct (typeCheck_main_entry examplePerms _ _ _ H) as (code & E & Hm & _).
  exists code. split; [exact E | exact Hm].
Defined.

(** ** A second pass *)

Lemma typeCheckBody_labelsOf (instrDefs : list InstrDefNode)
      (body : list ASTNode) :
  forall (cs cs' : CheckState) (body' : list ASTNode),
    typeCheckBody instrDefs body cs = Some (body', cs') ->
    labelsOf body' = labelsOf body.
Proof.
  induction body as [| node rest IH]; intros cs cs' body' H; simpl in H.
  - inversion H. reflexivity.
  - destruct node;
      try (destruct (typeCheckBody instrDefs rest cs) as [[r1 r2] |] eqn:E;
           [| discriminate H]; inversion H; subst; simpl;
           exact (IH _ _ _ E)).
    + match type of H with
      | context [typeCheckBody instrDefs rest ?c] =>
        destruct (typeCheckBody instrDefs rest c) as [[r1 r2] |] eqn:E
      end; [| discriminate H].
      inversion H; subst. simpl. f_equal. exact (IH _ _ _ E).
    + destruct (typeCheckInstrParams instrDefs i (cs_labelRefs cs) (cs_out cs))
        as [[[[ok instr'] labelRefs] out] |]; [| discriminate H].
      match type of H with
      | context [typeCheckBody instrDefs rest ?c] =>
        destruct (typeCheckBody instrDefs rest c) as [[r1 r2] |] eqn:E
      end; [| discriminate H].
      inversion H; subst. simpl. exact (IH _ _ _ E).
Qed.

Lemma labelDefExists_app (l1 l2 : list LabelDefLookup) (name : string) :
  labelDefExists l1 name = true -> labelDefExists (l1 ++ l2) name = true.
Proof.
  unfold labelDefExists. rewrite existsb_app. intros ->. reflexivity.
Qed.

Lemma typeCheckBody_error_kept (instrDefs : list InstrDefNode)
      (body body' : list ASTNode) (cs cs' : CheckState) :
  typeCheckBody instrDefs body cs = Some (body', cs') ->
  cs_typeCheckError cs = true -> cs_typeCheckError cs' = true.
Proof.
  destruct cs as [labelDefs labelRefs out err]. cbn. intros H ->.
  rewrite typeCheckBody_error_flag in H.
  destruct (typeCheckBody instrDefs body
                          (mkCheckState labelDefs labelRefs out false))
    as [[b c] |]; [| discriminate H].
  inversion H. reflexivity.
Qed.

(** A label that is in the table already is reported when the walk meets
    it. *)
Lemma typeCheckBody_known_label (instrDefs : list InstrDefNode)
      (body : list ASTNode) (l : LabelDef) :
  forall (cs cs' : CheckState) (body' : list ASTNode),
    typeCheckBody instrDefs body cs = Some (body', cs') ->
    In l (labelsOf body) ->
    labelDefExists (cs_LabelDefs cs) (ld_Name l) = true ->
    cs_typeCheckError cs' = true.
Proof.
  induction body as [| node rest IH]; intros cs cs' body' H Hin Hex;
    [destruct Hin |].
  simpl in H.
  destruct node;
    try (destruct (typeCheckBody instrDefs rest cs) as [[r1 r2] |] eqn:E;
         [| discriminate H]; inversion H; subst;
         exact (IH _ _ _ E Hin Hex)).
  - match type of H with
    | context [typeCheckBody instrDefs rest ?c] =>
      destruct (typeCheckBody instrDefs rest c) as [[r1 r2] |] eqn:E
    end; [| discriminate H].
    inversion H; subst; clear H.
    simpl in Hin. destruct Hin as [-> | Hin].
    + apply (typeCheckBody_error_kept _ _ _ _ _ E). cbn. rewrite Hex.
      reflexivity.
    + apply (IH _ _ _ E Hin). cbn. apply labelDefExists_app. exact Hex.
  - destruct (typeCheckInstrParams instrDefs i (cs_labelRefs cs) (cs_out cs))
      as [[[[ok instr'] labelRefs] out] |]; [| discriminate H].
    match type of H with
    | context [typeCheckBody instrDefs rest ?c] =>
      destruct (typeCheckBody instrDefs rest c) as [[r1 r2] |] eqn:E
    end; [| discriminate H].
    inversion H; subst; clear H.
    apply (IH _ _ _ E Hin). exact Hex.
Qed.

Lemma hasMain_label (body : list ASTNode) :
  hasMain body = true -> exists l, In l (labelsOf body).
Proof.
  unfold hasMain. intros H. apply existsb_exists in H.
  destruct H as (l & Hin & _). exists l. exact Hin.
Qed.

(** X20. [typeCheck] is a pass to be run once: it leaves the labels of the
    Code section in [LabelDefs], so a second pass over the tree of a pass
    that returned true meets a label that is defined already and returns
    false. *)
Theorem typeCheck_twice :
  forall (perms : SecPermConsts) (p p' p'' : Parser) (b : bool),
    typeCheck p = Some (true, p') ->
    typeCheck p' = Some (b, p'') ->
    b = false.
Proof.
  intros perms p p' p'' b H1 H2.
  destruct (typeCheck_main p p' true H1) as (code & Ecode & Hyes & Hno).
  destruct (hasMain (sec_Body code)) eqn:Hmain;
    [| destruct (Hno eq_refl) as [Hf _]; discriminate Hf].
  specialize (Hyes eq_refl).
  destruct (hasMain_label _ Hmain) as [l Hl].
  destruct (typeCheck_inv _ _ _ H1)
    as (s1 & g1 & q1 & q2 & e1 & e2 & code1 & _ & _ & Ecode1 & Hcases1).
  rewrite Ecode in Ecode1. injection Ecode1 as <-.
  destruct Hcases1 as [[Hf _] | (body1 & cs1 & o1 & e3 & o5 & v1 & Eb1 & _
                                 & _ & _ & EF1 & _)]; [discriminate Hf |].
  pose proof (typeCheckBody_labelsOf _ _ _ _ _ Eb1) as Hlab.
  destruct (typeCheck_inv _ _ _ H2)
    as (s2 & g2 & r1 & r2 & f1 & f2 & code2 & _ & _ & Ecode2 & Hcases2).
  destruct Hcases2 as [[Hf _] | (body2 & cs2 & o2 & f3 & o6 & v2 & Eb2 & El2
                                 & _ & Hb & _)]; [exact Hf |].
  rewrite EF1 in Ecode2. cbn in Ecode2. injection Ecode2 as <-.
  cbn in Eb2.
  assert (Herr : cs_typeCheckError cs2 = true).
  { apply (typeCheckBody_known_label _ _ l _ _ _ Eb2).
    - rewrite Hlab. exact Hl.
    - cbn. rewrite Hyes. unfold labelDefExists. rewrite existsb_app.
      apply orb_true_iff. right. apply existsb_exists.
      exists (mkLabelDefLookup l 0). split; [| apply String.eqb_refl].
      apply (in_map (fun l => mkLabelDefLookup l 0)). exact Hl. }
  destruct (checkLabelRefs_logged _ _ _ _ _ _ El2) as (errs & _ & Ee).
  rewrite Herr in Ee. cbn in Ee. subst f3.
  rewrite Hb. destruct (negb v2); reflexivity.
Qed.

Lemma typeCheck_twice_witness :
  @typeCheck examplePerms (parsed refs_src refs_tokens)
  = Some (true, checked refs_src refs_tokens)
  /\ exists p'',
      @typeCheck examplePerms (checked refs_src refs_tokens)
      = Some (false, p'').
Proof.
  assert (H1 : @typeCheck examplePerms (parsed refs_src refs_tokens)
               = Some (true, checked refs_src refs_tokens))
    by (vm_compute; reflexivity).
  split; [exact H1 |].
  destruct (@typeCheck examplePerms (checked refs_src refs_tokens))
    as [[b p''] |] eqn:H2; [| vm_compute in H2; discriminate H2].
  exists p''.
  rewrite (typeCheck_twice examplePerms _ _ _ _ H1 H2). reflexivity.
Defined.

(** ** The table of variables *)

Lemma varDeclExists_In (varDecls : list VarDeclaration) (name : string) :
  varDeclExists varDecls name = true <-> In name (declNames varDecls).
Proof.
  unfold varDeclExists, declNames. rewrite existsb_exists, in_map_iff.
  split; intros (d & H1 & H2).
  - apply String.eqb_eq in H2. exists d. auto.
  - exists d. split; [exact H2 | apply String.eqb_eq; exact H1].
Qed.

Section VarTable.

Context {perms : SecPermConsts}.

Lemma typeCheckVarsLoop_table (secType : ASTSectionType)
      (body : list ASTNode) :
  forall (varDecls varDecls' : list VarDeclaration)
         (out out' : list Diagnostic) (valid valid' : bool)
         (body' : list ASTNode),
    typeCheckVarsLoop secType body varDecls out valid
    = Some (body', varDecls', out', valid') ->
    NoDup (declNames varDecls) ->
    NoDup (declNames varDecls')
    /\ (exists added, varDecls' = varDecls ++ added)
    /\ (valid' = true <->
        valid = true /\ NoDup (declNames varDecls ++ varNames body))
    /\ (valid' = true ->
        Forall (indexed (secPermOf secType) varDecls') body').
Proof.
  induction body as [| node rest IH];
    intros varDecls varDecls' out out' valid valid' body' H Hnd.
  - simpl in H. inversion H; subst; clear H. simpl. rewrite app_nil_r.
    split; [exact Hnd |]. split; [exists []; rewrite app_nil_r; reflexivity |].
    split; [tauto | constructor].
  - destruct node; try discriminate H. cbn [typeCheckVarsLoop] in H.
    destruct (varDeclExists varDecls (id_Name (var_Id v))) eqn:Eex.
    + destruct (typeCheckVarsLoop secType rest varDecls _ false)
        as [[[[r1 r2] r3] r4] |] eqn:E; [| discriminate H].
      inversion H; subst; clear H.
      destruct (IH _ _ _ _ _ _ _ E Hnd) as (H1 & H2 & H3 & H4).
      split; [exact H1 |]. split; [exact H2 |].
      assert (Hf : valid' = false).
      { destruct valid'; [| reflexivity].
        destruct (proj1 H3 eq_refl) as [Hx _]. discriminate Hx. }
      subst valid'. split; [| discriminate].
      split; [discriminate |]. intros [_ Hdup]. exfalso.
      apply varDeclExists_In in Eex. cbn [varNames] in Hdup.
      apply NoDup_remove_2 in Hdup. apply Hdup.
      apply in_or_app. left. exact Eex.
    + destruct (typeCheckVarsLoop secType rest _ out valid)
        as [[[[r1 r2] r3] r4] |] eqn:E; [| discriminate H].
      inversion H; subst; clear H.
      assert (Hnew : ~ In (id_Name (var_Id v)) (declNames varDecls)).
      { intros Hin. apply varDeclExists_In in Hin. congruence. }
      assert (Hnd' : NoDup (declNames
                              (varDecls
                               ++ [mkVarDeclaration (var_Id v)
                                                    (secPermOf secType)]))).
      { unfold declNames. rewrite map_app. cbn.
        rewrite <- (rev_involutive (map _ varDecls ++ _)).
        apply NoDup_rev. rewrite rev_app_distr. cbn.
        constructor; [rewrite <- in_rev; exact Hnew | apply NoDup_rev; exact Hnd]. }
      destruct (IH _ _ _ _ _ _ _ E Hnd') as (H1 & (added & H2) & H3 & H4).
      split; [exact H1 |].
      split; [exists (mkVarDeclaration (var_Id v) (secPermOf secType) :: added);
              rewrite H2, <- app_assoc; reflexivity |].
      assert (Eperm : forall l,
                 NoDup (declNames
                          (varDecls
                           ++ [mkVarDeclaration (var_Id v)
                                                (secPermOf secType)]) ++ l)
                 <-> NoDup (declNames varDecls
                            ++ id_Name (var_Id v) :: l)).
      { intros l. unfold declNames. rewrite map_app, <- app_assoc.
        reflexivity. }
      split.
      * rewrite H3, Eperm. cbn [varNames]. reflexivity.
      * intros Hv. constructor; [| exact (H4 Hv)].
        cbn [indexed set_VarDeclIndex var_VarDeclIndex var_Id].
        rewrite H2, <- app_assoc.
        rewrite nth_error_app2 by lia. rewrite Nat.sub_diag. reflexivity.
Qed.

End VarTable.

(** X21. [typeCheckVars] on a table whose names are distinct: the names
    stay distinct and the table only grows; the function returns true
    exactly if no variable of the section repeats a name of the table or of
    an earlier variable of the section; and then the [VarDeclIndex] written
    into each variable node is the index of the declaration of that
    variable, which carries the permission of the section. *)
Theorem typeCheckVars_table :
  forall (perms : SecPermConsts) (sec sec' : ASTSection) (p p' : Parser)
         (valid : bool),
    NoDup (declNames (VarDecls p)) ->
    typeCheckVars sec p = Some (valid, sec', p') ->
    NoDup (declNames (VarDecls p'))
    /\ (exists added, VarDecls p' = VarDecls p ++ added)
    /\ (valid = true <->
        NoDup (declNames (VarDecls p) ++ varNames (sec_Body sec)))
    /\ (valid = true ->
        Forall (indexed (secPermOf (sec_SecType sec)) (VarDecls p'))
               (sec_Body sec')).
Proof.
  intros perms sec sec' p p' valid Hnd H. unfold typeCheckVars in H.
  destruct (typeCheckVarsLoop (sec_SecType sec) (sec_Body sec) (VarDecls p)
                              (Out p) true)
    as [[[[body varDecls] out] v] |] eqn:E; [| discriminate H].
  inversion H; subst; clear H. cbn.
  destruct (typeCheckVarsLoop_table _ _ _ _ _ _ _ _ _ E Hnd)
    as (H1 & H2 & H3 & H4).
  split; [exact H1 |]. split; [exact H2 |]. split; [| exact H4].
  rewrite H3. tauto.
Qed.

Lemma typeCheckVars_table_witness :
  NoDup (declNames (VarDecls (newParser builtinInstrDefs "" [])))
  /\ exists sec' p',
      @typeCheckVars examplePerms exampleStatic
                     (newParser builtinInstrDefs "" [])
      = Some (true, sec', p')
      /\ NoDup (declNames (VarDecls p')).
Proof.
  assert (Hnd : NoDup (declNames (VarDecls (newParser builtinInstrDefs "" []))))
    by constructor.
  split; [exact Hnd |].
  destruct (@typeCheckVars examplePerms exampleStatic
                           (newParser builtinInstrDefs "" []))
    as [[[valid sec'] p'] |] eqn:H; [| vm_compute in H; discriminate H].
  assert (Hv : valid = true) by (vm_compute in H; congruence).
  subst valid. exists sec', p'. split; [reflexivity |].
  exact (proj1 (typeCheckVars_table examplePerms _ _ _ _ _ Hnd H)).
Defined.


(** ** Termination of the parser *)

Section ParserTermination.

Context {lib : StdLib}.
Variable toks : list Token.
Hypothesis Heof : endsWithEOF toks = true.

Lemma runsAt_ret (A : Type) (p : Parser) (a : A) (Q : A -> Parser -> Prop) :
  Q a p -> runsAt toks p (ret a) Q.
Proof. intros H Ht. simpl. auto. Qed.

Lemma runsAt_bind (A B : Type) (p : Parser) (c : M A) (k : A -> M B)
      (Q : A -> Parser -> Prop) (T : B -> Parser -> Prop) :
  runsAt toks p c Q ->
  (forall a p1, Q a p1 -> (remaining p1 <= remaining p)%nat ->
                runsAt toks p1 (k a) T) ->
  runsAt toks p (bind c k) T.
Proof.
  intros Hc Hk Ht. unfold bind. specialize (Hc Ht).
  destruct (c p) as [a p1 | p1 | |]; auto.
  destruct Hc as (Ht1 & Hr1 & Ha).
  specialize (Hk a p1 Ha Hr1 Ht1).
  destruct (k a p1) as [b p2 | p2 | |]; auto.
  destruct Hk as (Ht2 & Hr2 & Hb). repeat split; auto. lia.
Qed.

Lemma runsAt_weaken (A : Type) (p : Parser) (c : M A)
      (Q Q' : A -> Parser -> Prop) :
  runsAt toks p c Q ->
  (forall a p1, Q a p1 -> (remaining p1 <= remaining p)%nat -> Q' a p1) ->
  runsAt toks p c Q'.
Proof.
  intros Hc HQ Ht. specialize (Hc Ht).
  destruct (c p); auto. destruct Hc as (H1 & H2 & H3). auto.
Qed.

Lemma runsAt_failAt (A : Type) (p : Parser) (msg : string) (t : Token)
      (Q : A -> Parser -> Prop) :
  runsAt toks p (@failAt A msg t) Q.
Proof. intros _. exact I. Qed.

Lemma runsAt_fail_bind (A B : Type) (p : Parser) (msg : string) (t : Token)
      (k : A -> M B) (Q : B -> Parser -> Prop) :
  runsAt toks p (bind (@failAt A msg t) k) Q.
Proof. intros _. exact I. Qed.

Lemma runsAt_abort (A : Type) (p : Parser) (Q : A -> Parser -> Prop) :
  runsAt toks p (@abort A) Q.
Proof. intros _. exact I. Qed.

Lemma runsAt_eatToken (p : Parser) :
  runsAt toks p eatToken
         (fun t p1 => remaining p1 = Nat.pred (remaining p) /\ atEnd t p1).
Proof.
  intros Ht. destruct (eatToken p) as [t p1 | | |] eqn:E; auto.
  - rewrite <- Ht in Heof.
    destruct (eatToken_remaining _ _ _ Heof E) as (E1 & E2 & E3).
    split; [congruence |]. split; [lia |]. split; [exact E2 | exact E3].
  - unfold eatToken in E.
    destruct (nth_error (Tokens p) (Cursor p)); [discriminate |].
    destruct (Tokens p); discriminate.
Qed.

Lemma runsAt_still (A : Type) (p : Parser) (c : M A) :
  still c -> runsAt toks p c (fun _ p1 => remaining p1 = remaining p).
Proof.
  intros H Ht. specialize (H p). destruct (c p); auto.
  destruct H as [H1 H2]. unfold remaining. rewrite H1, H2.
  repeat split; auto.
Qed.

Lemma still_peekToken : still peekToken.
Proof.
  intros p. unfold peekToken.
  destruct (nth_error (Tokens p) (Cursor p)); [split; reflexivity |].
  destruct (Tokens p) eqn:E;
    [exact I
    | split; first [reflexivity | exact E | symmetry; exact E]].
Qed.

Lemma still_tokenText (t : Token) : still (tokenText t).
Proof. intros p. simpl. split; reflexivity. Qed.

Lemma still_getParser : still getParser.
Proof. intros p. simpl. split; reflexivity. Qed.

Lemma still_tagRegister (t : Token) : still (tagRegister t).
Proof. intros p. unfold tagRegister. destruct (tok_Tag t); simpl; try (split; reflexivity); exact I. Qed.

Lemma still_tagType (t : Token) : still (tagType t).
Proof. intros p. unfold tagType. destruct (tok_Tag t); simpl; try (split; reflexivity); exact I. Qed.

Lemma still_tagInstr (t : Token) : still (tagInstr t).
Proof. intros p. unfold tagInstr. destruct (tok_Tag t); simpl; try (split; reflexivity); exact I. Qed.

Lemma still_pushParam (node : ASTNode) : still (pushParam node).
Proof.
  intros p. unfold pushParam.
  destruct (SecCode (FileNode p)) as [s |]; [| exact I].
  destruct (rev (sec_Body s)) as [| last before]; [exact I |].
  destruct last; simpl; try (split; reflexivity); exact I.
Qed.

Lemma still_pushBody (secType : ASTSectionType) (node : ASTNode) :
  still (pushBody secType node).
Proof.
  intros p. unfold pushBody.
  destruct (sectionOf (FileNode p) secType); simpl; try (split; reflexivity); exact I.
Qed.

Lemma still_tokenToInt (t : Token) (msg : string) :
  still (tokenToInt t msg).
Proof.
  intros p. unfold tokenToInt, tokenText, bind.
  destruct (strToInt _) as [[num |] |]; simpl; try (split; reflexivity); exact I.
Qed.

Lemma still_guard (b : bool) (msg : string) (t : Token) :
  still (if b then failAt msg t else ret tt).
Proof. intros p. destruct b; simpl; try (split; reflexivity); exact I. Qed.


Ltac still_step :=
  first [ apply still_peekToken | apply still_tokenText
        | apply still_getParser | apply still_tagRegister
        | apply still_tagType | apply still_tagInstr
        | apply still_pushParam | apply still_pushBody
        | apply still_tokenToInt | apply still_guard ].

(** One step of a termination proof: the rule of the outermost
    construct. *)
Ltac runs_step :=
  match goal with
  | |- runsAt _ _ (bind eatToken _) _ =>
    eapply runsAt_bind; [apply runsAt_eatToken | intros ? ? [? ?] ?]
  | |- runsAt _ _ (bind _ _) _ =>
    eapply runsAt_bind;
    [apply runsAt_still; still_step | intros ? ? ? ?]
  | |- runsAt _ _ (bind (if ?b then _ else _) _) _ =>
    let E := fresh "E" in destruct b eqn:E
  | |- runsAt _ _ (bind (failAt _ _) _) _ => apply runsAt_fail_bind
  | |- runsAt _ _ (bind (ret _) _) _ =>
    eapply runsAt_bind;
    [apply runsAt_ret; exact (conj eq_refl eq_refl) | intros ? ? [? ?] ?]
  | |- runsAt _ _ (ret _) _ => apply runsAt_ret
  | |- runsAt _ _ (failAt _ _) _ => apply runsAt_failAt
  | |- runsAt _ _ abort _ => apply runsAt_abort
  | |- runsAt _ _ eatToken _ =>
    eapply runsAt_weaken; [apply runsAt_eatToken | intros ? ? [? ?] ?]
  | |- runsAt _ _ (pushParam _) _ =>
    eapply runsAt_weaken;
    [apply runsAt_still; apply still_pushParam | intros ? ? ? ?]
  | |- runsAt _ _ (pushBody _ _) _ =>
    eapply runsAt_weaken;
    [apply runsAt_still; apply still_pushBody | intros ? ? ? ?]
  | |- runsAt _ _ (if ?b then _ else _) _ =>
    let E := fresh "E" in destruct b eqn:E
  | |- runsAt _ _ (match ?x with _ => _ end) _ =>
    let E := fresh "E" in destruct x eqn:E
  end.

Lemma runsAt_parseRegOffset (p : Parser) :
  runsAt toks p parseRegOffset (fun _ _ => True).
Proof.
  unfold parseRegOffset, parseRegOffsetTail. repeat runs_step; exact I.
Qed.

Lemma runsAt_eatSign (t : Token) (p : Parser) :
  atEnd t p ->
  runsAt toks p (eatSign t)
         (fun r p1 => atEnd (snd r) p1
                      /\ (isSignToken t = true \/ snd r = t)).
Proof.
  intros Hend. unfold eatSign.
  destruct (isSignToken t) eqn:Esign.
  - repeat runs_step; cbn [snd]. split; [assumption | left; reflexivity].
  - apply runsAt_ret. cbn [snd]. split; [exact Hend | right; reflexivity].
Qed.

Lemma runsAt_foldSign (signToken : option Token) (signTokenText : ascii)
      (t : Token) (numStr : string) (p : Parser) :
  runsAt toks p (foldSign signToken signTokenText t numStr)
         (fun _ _ => True).
Proof. unfold foldSign. repeat runs_step; exact I. Qed.

Lemma runsAt_endOfOperand (p : Parser) :
  runsAt toks p endOfOperand
         (fun r p1 => (remaining p1 <= Nat.pred (remaining p))%nat
                      /\ atEnd (fst r) p1).
Proof.
  unfold endOfOperand. repeat runs_step; cbn [fst]; split; auto; lia.
Qed.

Lemma isSignToken_not_EOF (t : Token) :
  isSignToken t = true -> tok_Type t <> END_OF_FILE.
Proof.
  unfold isSignToken. intros H E. rewrite E in H. discriminate H.
Qed.

(** A pass of the operand loop eats a token, and it returns only from a
    token that is not the end of the file. *)
Lemma runsAt_parseOperand (t : Token) (p : Parser) :
  atEnd t p ->
  runsAt toks p (parseOperand t)
         (fun r p1 => (remaining p1 < remaining p)%nat /\ atEnd (fst r) p1
                      /\ tok_Type t <> END_OF_FILE).
Proof.
  intros Hend. unfold parseOperand.
  eapply runsAt_bind; [apply (runsAt_eatSign t p Hend) |].
  intros [[signToken signTokenText] t'] p1 [Hend1 Hsign] Hr1.
  cbn [snd] in Hend1, Hsign.
  eapply runsAt_bind with (Q := fun _ p2 => remaining p2 = remaining p1).
  { destruct signToken; [| apply runsAt_ret; reflexivity].
    destruct (negb (TokenType_eqb (tok_Type t') INTEGER_NUMBER)
              && negb (TokenType_eqb (tok_Type t') FLOAT_NUMBER));
      [apply runsAt_failAt | apply runsAt_ret; reflexivity]. }
  intros ? p2 Hr2 ?. cbv beta in Hr2.
  assert (Hend2 : atEnd t' p2) by (unfold atEnd in *; rewrite Hr2; exact Hend1).
  eapply runsAt_bind with (Q := fun _ _ => tok_Type t' <> END_OF_FILE).
  { destruct (tok_Type t') eqn:Et; try apply runsAt_failAt.
    - repeat runs_step; discriminate.
    - repeat runs_step; discriminate.
    - runs_step.
      eapply runsAt_bind; [apply runsAt_foldSign | intros [numStr isSigned] ? ? ?].
      repeat runs_step; discriminate.
    - runs_step.
      eapply runsAt_bind; [apply runsAt_foldSign | intros [floatStr b] ? ? ?].
      repeat runs_step; discriminate.
    - eapply runsAt_weaken; [apply runsAt_parseRegOffset |].
      intros; discriminate. }
  intros ? p3 Hne Hr3. cbv beta in Hne.
  eapply runsAt_weaken; [apply runsAt_endOfOperand |].
  intros [t'' e] p4 [Hr4 Hend4] ?. cbn [fst] in *.
  assert (Hpos : remaining p2 <> 0%nat) by (intros Hz; apply Hne, Hend2, Hz).
  split; [lia |]. split; [exact Hend4 |].
  destruct Hsign as [Hs | ->]; [apply isSignToken_not_EOF; exact Hs | exact Hne].
Qed.

Lemma runsAt_parseOperands (fuel : nat) :
  forall (t : Token) (p : Parser),
    atEnd t p -> (remaining p < fuel)%nat ->
    runsAt toks p (parseOperands fuel t)
           (fun _ p1 => tok_Type t <> END_OF_FILE).
Proof.
  induction fuel as [| fuel IH]; intros t p Hend Hfuel; [lia |].
  cbn [parseOperands].
  eapply runsAt_bind; [apply (runsAt_parseOperand t p Hend) |].
  intros [t' e] p1 (Hr1 & Hend1 & Hne) ?. cbn [fst] in Hend1.
  destruct e; [apply runsAt_ret; exact Hne |].
  eapply runsAt_weaken; [apply (IH t' p1 Hend1); lia |].
  intros ? p2 ? ?. exact Hne.
Qed.

(** The pass over the operands of an instruction; the model needs a budget
    above the number of tokens that are left. *)
Lemma runsAt_parseInstrBody (fuel : nat) (t : Token) (p : Parser) :
  atEnd t p -> (remaining p < fuel)%nat ->
  runsAt toks p (parseInstrBody fuel t)
         (fun state _ => state = GLOBAL_SCOPE
                         /\ tok_Type t <> END_OF_FILE).
Proof.
  intros Hend Hfuel. unfold parseInstrBody.
  eapply runsAt_bind
    with (Q := fun r p1 => atEnd (fst r) p1
                           /\ (tok_Type t = TYPE_INFO \/ r = (t, false))).
  { destruct (TokenType_eqb (tok_Type t) TYPE_INFO) eqn:Ety.
    - apply TokenType_eqb_eq in Ety. repeat runs_step. cbn [fst]. auto.
    - apply runsAt_ret. cbn [fst]. auto. }
  intros [t1 e] p1 [Hend1 Hcase] Hr1. cbn [fst] in Hend1.
  eapply runsAt_bind with (Q := fun _ _ => tok_Type t <> END_OF_FILE).
  - destruct e.
    + apply runsAt_ret. destruct Hcase as [E | E]; [congruence | discriminate E].
    + eapply runsAt_weaken; [apply (runsAt_parseOperands fuel t1 p1 Hend1); lia |].
      intros ? p2 Hne ?. cbv beta in Hne.
      destruct Hcase as [E | E]; [congruence |].
      injection E as ->. exact Hne.
  - intros ? p2 Hne ?. apply runsAt_ret. auto.
Qed.


Lemma TokenType_eqb_refl (ty : TokenType) : TokenType_eqb ty ty = true.
Proof. destruct ty; reflexivity. Qed.

Lemma atEnd_remaining (t : Token) (p : Parser) :
  atEnd t p -> tok_Type t <> END_OF_FILE -> remaining p <> 0%nat.
Proof. intros Hend Hne H0. apply Hne, Hend, H0. Qed.

(** A pass in the global scope ends the loop on the end of the file, and
    goes on only while tokens are left. *)
Lemma runsAt_parseGlobalScope (t : Token) (p : Parser) :
  atEnd t p ->
  runsAt toks p (parseGlobalScope t)
         (fun s _ => s = END
                     \/ ((s = GLOBAL_SCOPE \/ s = INSTR_BODY)
                         /\ remaining p <> 0%nat)).
Proof.
  intros Hend. unfold parseGlobalScope.
  eapply runsAt_bind
    with (Q := fun t' _ => tok_Type t' <> END_OF_FILE -> remaining p <> 0%nat).
  { destruct (TokenType_eqb (tok_Type t) EOL) eqn:Eeol.
    - apply TokenType_eqb_eq in Eeol. runs_step. intros _.
      apply (atEnd_remaining t p Hend). rewrite Eeol. discriminate.
    - apply runsAt_ret. apply (atEnd_remaining t p Hend). }
  intros t' p1 Hpos Hr1. cbv beta in Hpos.
  destruct (TokenType_eqb (tok_Type t') END_OF_FILE) eqn:Eeof;
    [apply runsAt_ret; left; reflexivity |].
  assert (Hp : remaining p <> 0%nat).
  { apply Hpos. intros E. rewrite E in Eeof. discriminate Eeof. }
  cbn [orb].
  destruct (TokenType_eqb (tok_Type t') RIGHT_CURLY_BRACKET);
    [apply runsAt_ret; left; reflexivity |].
  destruct (tok_Type t'); try apply runsAt_failAt;
    repeat runs_step; right; auto.
Qed.

(** The loop of the code section, in a state the parser reaches, with a
    budget of two passes above the tokens that are left. *)
Lemma runsAt_parseSectionCodeLoop (fuel : nat) :
  forall (state : ParseState) (p : Parser),
    state <> FUNC_BODY ->
    (state = END \/ remaining p + 2 <= fuel)%nat ->
    runsAt toks p (parseSectionCodeLoop fuel state) (fun _ _ => True).
Proof.
  induction fuel as [| fuel IH]; intros state p Hstate Hfuel.
  - destruct Hfuel as [-> | Hfuel]; [| lia]. apply runsAt_ret. exact I.
  - destruct state; try (apply runsAt_ret; exact I);
      try (exfalso; apply Hstate; reflexivity);
      (destruct Hfuel as [Hfuel | Hfuel]; [discriminate Hfuel |]);
      cbn [parseSectionCodeLoop].
    + runs_step.
      eapply runsAt_bind;
        [apply runsAt_parseGlobalScope; assumption |].
      intros s p2 Hs Hr2. cbv beta in Hs.
      apply IH.
      * destruct Hs as [-> | [[-> | ->] _]]; discriminate.
      * destruct Hs as [-> | [_ Hpos]]; [left; reflexivity | right; lia].
    + runs_step.
      eapply runsAt_bind;
        [apply runsAt_parseInstrBody; [assumption | lia] |].
      intros s p2 [-> Hne] Hr2.
      apply IH; [discriminate |]. right.
      match goal with
      | Hend : atEnd ?t ?p1 |- _ =>
        pose proof (atEnd_remaining t p1 Hend Hne)
      end.
      lia.
Qed.

Lemma remaining_loopBudget (p : Parser) :
  (remaining p + 2 <= loopBudget p)%nat.
Proof. unfold remaining, loopBudget. lia. Qed.

Lemma runsAt_parseSectionCode (p : Parser) :
  runsAt toks p parseSectionCode (fun _ _ => True).
Proof.
  unfold parseSectionCode.
  eapply runsAt_bind with (Q := fun a p1 => a = p1).
  { intros Ht. simpl. auto. }
  intros q p1 -> Hr1.
  apply runsAt_parseSectionCodeLoop; [discriminate |].
  right. apply remaining_loopBudget.
Qed.

Lemma runsAt_parseVarValue (typeInfo : TypeInfo) (tok : Token) (p : Parser) :
  runsAt toks p (parseVarValue typeInfo tok) (fun _ _ => True).
Proof.
  unfold parseVarValue.
  eapply runsAt_bind with (Q := fun _ _ => True).
  { unfold eatSign. destruct (isSignToken tok); repeat runs_step; exact I. }
  intros [[signToken signTokenText] tok'] p1 _ Hr1.
  runs_step.
  eapply runsAt_bind with (Q := fun _ _ => True);
    [| intros; apply runsAt_ret; exact I].
  destruct (tok_Type tok'); try apply runsAt_failAt;
    try (eapply runsAt_bind;
         [apply runsAt_foldSign | intros [tokString isSigned] ? ? ?]).
  - destruct (strToInt tokString) as [[intVal |] |];
      [| apply runsAt_failAt | apply runsAt_abort].
    destruct (negb _); [apply runsAt_failAt | apply runsAt_ret; exact I].
  - destruct (strToFP tokString) as [floatVal |]; [| apply runsAt_failAt].
    destruct (negb _); [apply runsAt_failAt | apply runsAt_ret; exact I].
  - destruct (parseStringEscape _);
      [apply runsAt_ret; exact I | apply runsAt_abort].
Qed.

(** A variable declaration eats a token when it returns. *)
Lemma runsAt_parseVarDecl (secType : ASTSectionType) (tok : Token)
      (p : Parser) :
  atEnd tok p ->
  runsAt toks p (parseVarDecl secType tok)
         (fun tok' p1 => (remaining p1 < remaining p)%nat /\ atEnd tok' p1).
Proof.
  intros Hend. unfold parseVarDecl.
  destruct (negb (TokenType_eqb (tok_Type tok) IDENTIFIER)) eqn:Eid;
    [apply runsAt_fail_bind |].
  assert (Hpos : remaining p <> 0%nat).
  { apply (atEnd_remaining tok p Hend). intros E. rewrite E in Eid.
    discriminate Eid. }
  repeat runs_step.
  eapply runsAt_bind; [apply runsAt_parseVarValue | intros [val tok'] ? _ ?].
  repeat runs_step.
  cbv beta in *. split; [lia | assumption].
Qed.

(** The loop over the declarations of a section. *)
Lemma runsAt_parseSectionVarsLoop (secType : ASTSectionType) (fuel : nat) :
  forall (tok : Token) (p : Parser),
    atEnd tok p -> (remaining p < fuel)%nat ->
    runsAt toks p (parseSectionVarsLoop fuel secType tok) (fun _ _ => True).
Proof.
  induction fuel as [| fuel IH]; intros tok p Hend Hfuel; [lia |].
  cbn [parseSectionVarsLoop].
  destruct (TokenType_eqb (tok_Type tok) RIGHT_CURLY_BRACKET);
    [apply runsAt_ret; exact I |].
  eapply runsAt_bind; [apply (runsAt_parseVarDecl secType tok p Hend) |].
  intros tok' p1 [Hr1 Hend1] _. apply IH; [exact Hend1 | lia].
Qed.

Lemma runsAt_parseSectionVars (secType : ASTSectionType) (p : Parser) :
  runsAt toks p (parseSectionVars secType) (fun _ _ => True).
Proof.
  unfold parseSectionVars. runs_step.
  eapply runsAt_bind with (Q := fun tok p1 => atEnd tok p1).
  { runs_step; [runs_step; assumption | apply runsAt_ret; assumption]. }
  intros tok p2 Hend2 ?.
  eapply runsAt_bind with (Q := fun a p3 => a = p3 /\ p3 = p2).
  { intros Ht. simpl. auto. }
  intros q p3 [-> ->] ?.
  apply runsAt_parseSectionVarsLoop; [exact Hend2 |].
  pose proof (remaining_loopBudget p2). lia.
Qed.

Lemma runsAt_parseSection (secToken : Token) (secName : string)
      (secType : ASTSectionType) (msg : string) (body : M unit) (p : Parser) :
  (forall p1, runsAt toks p1 body (fun _ _ => True)) ->
  runsAt toks p (parseSection secToken secName secType msg body)
         (fun _ _ => True).
Proof.
  intros Hbody. unfold parseSection.
  eapply runsAt_bind with (Q := fun a p1 => a = p1).
  { intros Ht. simpl. auto. }
  intros q p1 -> ?.
  destruct (sectionOf (FileNode p1) secType); [apply runsAt_failAt |].
  eapply runsAt_bind with (Q := fun _ _ => True); [| intros; apply Hbody].
  intros Ht. cbv beta. repeat split; auto.
Qed.

(** A section of the file eats a token when it returns. *)
Lemma runsAt_parseFileSection (currentToken : Token) (p : Parser) :
  atEnd currentToken p ->
  runsAt toks p (parseFileSection currentToken)
         (fun t p1 => (remaining p1 < remaining p)%nat /\ atEnd t p1).
Proof.
  intros Hend. unfold parseFileSection.
  destruct (negb (TokenType_eqb (tok_Type currentToken) IDENTIFIER)) eqn:Eid;
    [apply runsAt_fail_bind |].
  assert (Hpos : remaining p <> 0%nat).
  { apply (atEnd_remaining currentToken p Hend). intros E. rewrite E in Eid.
    discriminate Eid. }
  repeat runs_step;
    (eapply runsAt_bind with (Q := fun _ _ => True);
     [apply runsAt_parseSection; intros;
      first [apply runsAt_parseSectionVars | apply runsAt_parseSectionCode]
     | intros ? ? _ ?; runs_step; cbv beta in *;
       split; [lia | assumption]]).
Qed.

(** The loop over the sections of the file. *)
Lemma runsAt_buildASTLoop (fuel : nat) :
  forall (currentToken : Token) (p : Parser),
    atEnd currentToken p -> (remaining p <= fuel)%nat ->
    runsAt toks p (buildASTLoop fuel currentToken) (fun _ _ => True).
Proof.
  induction fuel as [| fuel IH]; intros t p Hend Hfuel;
    cbn [buildASTLoop];
    destruct (TokenType_eqb (tok_Type t) END_OF_FILE) eqn:Eeof;
    try (apply runsAt_ret; exact I);
    assert (Hpos : remaining p <> 0%nat)
      by (apply (atEnd_remaining t p Hend); intros E; rewrite E in Eeof;
          discriminate Eeof);
    [lia |].
  destruct (TokenType_eqb (tok_Type t) EOL).
  - runs_step. apply IH; [assumption | lia].
  - eapply runsAt_bind; [apply (runsAt_parseFileSection t p Hend) |].
    intros t' p1 [Hr1 Hend1] _. apply IH; [exact Hend1 | lia].
Qed.

End ParserTermination.

(** X22.  On a token stream that ends with the end of the file every loop
    of [Parser::buildAST] ends: a pass that returns has eaten a token, so
    the parser never exhausts the budget of passes of the model, and
    [buildAST] is without a result only when a callee aborts. *)
Theorem buildAST_terminates {lib : StdLib} (p : Parser) :
  endsWithEOF (Tokens p) = true ->
  buildASTRun p <> OutOfFuel
  /\ (buildAST p = None <-> buildASTRun p = Abort).
Proof.
  intros Heof.
  assert (Hrun : buildASTRun p <> OutOfFuel); [| split; [exact Hrun |]].
  2: { unfold buildAST. fold (buildASTRun p).
       destruct (buildASTRun p) as [a p' | p' | |];
         try destruct (SecCode (FileNode p'));
         split; intros H; try discriminate H; try reflexivity.
       exfalso. apply Hrun. reflexivity. }
  assert (H : runsAt (Tokens p) p
                     (currentToken <- eatToken ;;
                      buildASTLoop (loopBudget p) currentToken)
                     (fun _ _ => True)).
  { eapply runsAt_bind; [apply (runsAt_eatToken _ Heof) |].
    intros t p1 [Hr1 Hend1] _.
    apply (runsAt_buildASTLoop _ Heof); [exact Hend1 |].
    pose proof (remaining_loopBudget p). lia. }
  specialize (H eq_refl). unfold buildASTRun. intros E. rewrite E in H.
  exact H.
Qed.

Lemma buildAST_terminates_witness :
  endsWithEOF (Tokens (newParser builtinInstrDefs bp4_src bp4_tokens)) = true
  /\ @buildASTRun exampleLib (newParser builtinInstrDefs bp4_src bp4_tokens)
     <> OutOfFuel.
Proof.
  assert (H : endsWithEOF (Tokens (newParser builtinInstrDefs bp4_src
                                             bp4_tokens)) = true)
    by (vm_compute; reflexivity).
  split; [exact H |].
  exact (proj1 (@buildAST_terminates exampleLib _ H)).
Defined.
